(** * Nuggets (team Hemlock): the grid module and the game server

    A shallow embedding of [grid/grid.c] and [server/server.c], with the
    properties of the game that the specification states about them.

    Conventions of the embedding.
    - A C [int] is a [Z].  Where the code computes the size of a grid or
      reads a number from a string the range of [int] is written out
      ([INT_MAX], [int_of_long]).  The game itself only adds or subtracts one
      from coordinates of a grid held in memory and keeps gold counts at or
      below 250, so no other computation leaves the range.
    - A C [char] is an [ascii]; a C string is a [string] (its bytes up to the
      terminating NUL).
    - [grid_t*] arguments are never NULL once the map has been loaded
      ([parseArgs] exits otherwise), so a grid is passed as a value.
    - [rand()] reads the head of a list of draws carried by the world; each
      draw is an [N], as [rand()] never returns a negative number.
    - The [float] values of [grid_isVisible] are IEEE single-precision
      values ([spec_float], 24 bits of precision), each operation rounded to
      nearest even.
    - A computation that gives no result (the draws are used up, a loop ran
      out of fuel, or the C code would divide by zero) is [None]. *)

From Stdlib Require Import ZArith Lia List Ascii String Bool DecimalString SpecFloat.
From stdpp Require Import base option list.
Import ListNotations.

Local Open Scope Z_scope.

(** ** Characters *)

Definition code (ch : ascii) : Z := Z.of_N (N_of_ascii ch).

Definition ch_eqb (a b : ascii) : bool := Ascii.eqb a b.

(** <ctype.h>, "C" locale. *)
Definition isupper (ch : ascii) : bool := (65 <=? code ch) && (code ch <=? 90).
Definition islower (ch : ascii) : bool := (97 <=? code ch) && (code ch <=? 122).
Definition isalpha (ch : ascii) : bool := isupper ch || islower ch.
Definition isgraph (ch : ascii) : bool := (33 <=? code ch) && (code ch <=? 126).
Definition isblank (ch : ascii) : bool := (code ch =? 32) || (code ch =? 9).
Definition isspace (ch : ascii) : bool :=
  (code ch =? 32) || ((9 <=? code ch) && (code ch <=? 13)).

(** ** grid.c *)

(** [struct grid]: [map] points to the character at (0,0); the cell (r,c) is
    at offset [r*ncol + c]. *)
Record grid_t := Grid {
  grid_map : list ascii;
  grid_nrow : Z;
  grid_ncol : Z
}.

(** What [grid_new] and [grid_load] allocate: [nrow*ncol] characters. *)
Definition grid_wf (g : grid_t) : Prop :=
  0 <= grid_nrow g /\ 0 <= grid_ncol g /\
  length (grid_map g) = Z.to_nat (grid_nrow g * grid_ncol g).

Definition grid_wfb (g : grid_t) : bool :=
  (0 <=? grid_nrow g) && (0 <=? grid_ncol g) &&
  (Z.of_nat (length (grid_map g)) =? grid_nrow g * grid_ncol g).

Definition in_grid (g : grid_t) (r c : Z) : bool :=
  (0 <=? r) && (r <? grid_nrow g) && (0 <=? c) && (c <? grid_ncol g).

Definition offset (g : grid_t) (r c : Z) : nat := Z.to_nat (r * grid_ncol g + c).

(** [INT_MAX]: an [int] has 32 bits. *)
Definition INT_MAX : Z := 2147483647.

(** [grid_new]: NULL for a negative size, otherwise every cell is ' '.  The
    size [nrow*ncol] is computed in [int]: where it leaves the range of
    [int] the C code has no defined behaviour (65536 by 65536 wraps to an
    empty block that the loop then overruns), and the model has no grid
    either.  [None] is NULL, or no outcome at all. *)
Definition grid_new (nrow ncol : Z) : option grid_t :=
  if (nrow <? 0) || (ncol <? 0) then None
  else if (INT_MAX <? nrow) || (INT_MAX <? ncol) || (INT_MAX <? nrow * ncol) then None
  else Some (Grid (replicate (Z.to_nat (nrow * ncol)) " "%char) nrow ncol).

(** [grid_getchar]: '^' outside the grid.  (A read past the end of [map]
    cannot happen in a well-formed grid; the model answers NUL there.) *)
Definition grid_getchar (g : grid_t) (r c : Z) : ascii :=
  if in_grid g r c then default "000"%char (grid_map g !! offset g r c)
  else "^"%char.

(** [grid_update]: does nothing outside the grid. *)
Definition grid_update (g : grid_t) (r c : Z) (ch : ascii) : grid_t :=
  if in_grid g r c
  then Grid (<[offset g r c := ch]> (grid_map g)) (grid_nrow g) (grid_ncol g)
  else g.

Definition grid_isPlayer (g : grid_t) (r c : Z) : bool :=
  isalpha (grid_getchar g r c) || ch_eqb (grid_getchar g r c) "@".

Definition grid_isBlockable (g : grid_t) (r c : Z) : bool :=
  negb (ch_eqb (grid_getchar g r c) ".") &&
  negb (ch_eqb (grid_getchar g r c) "*") &&
  negb (grid_isPlayer g r c).

Definition grid_isEmptyRoomSpot (g : grid_t) (r c : Z) : bool :=
  ch_eqb (grid_getchar g r c) ".".

Definition grid_isGold (g : grid_t) (r c : Z) : bool :=
  ch_eqb (grid_getchar g r c) "*".

Definition grid_isBoundary (g : grid_t) (r c : Z) : bool :=
  ch_eqb (grid_getchar g r c) "|" || ch_eqb (grid_getchar g r c) "-" ||
  ch_eqb (grid_getchar g r c) "+".

Definition grid_isRock (g : grid_t) (r c : Z) : bool :=
  ch_eqb (grid_getchar g r c) " ".

Definition grid_canMoveTo (g : grid_t) (r c : Z) : bool :=
  negb (grid_isBoundary g r c) && negb (grid_isRock g r c) &&
  negb (ch_eqb (grid_getchar g r c) "^").

(** The integers [lo, lo+1, ..., hi-1]: the values a loop
    [for (i = lo; i < hi; i++)] runs through. *)
Definition upto (lo hi : Z) : list Z :=
  List.map (fun k => lo + Z.of_nat k) (seq 0 (Z.to_nat (hi - lo))).

(** The value [(float)(i - p) * d / e + q] of [grid_isVisible] in IEEE single
    precision (24 bits of precision, largest exponent 128): the operands are
    converted to [float] and each operation is rounded to nearest even, as
    on a machine that evaluates [float] expressions in [float]. *)
Definition f32_of_int (z : Z) : spec_float := binary_normalize 24 128 z 0 false.

Definition ray_f32 (i p d e q : Z) : spec_float :=
  SFadd 24 128
    (SFdiv 24 128 (SFmul 24 128 (f32_of_int (i - p)) (f32_of_int d)) (f32_of_int e))
    (f32_of_int q).

(** [(int)x]: towards zero.  (In C the cast has no defined result for a
    value that does not fit an [int]; the model still gives its whole
    part.) *)
Definition f32_to_int (x : spec_float) : Z :=
  match x with
  | S754_finite s m e => cond_Zopp s (Z.shiftl (Zpos m) e)
  | _ => 0
  end.

(** [x == (int)x] *)
Definition f32_whole (x : spec_float) : bool := SFeqb x (f32_of_int (f32_to_int x)).

(** [grid_isVisible]: the four loops return false at the first obstacle, so
    each is an [existsb] over its range. *)
Definition grid_isVisible (master : grid_t) (pr pc r c : Z) : bool :=
  let r1 := if pr >? r then r else pr in
  let r2 := if pr >? r then pr else r in
  let c1 := if pc >? c then c else pc in
  let c2 := if pc >? c then pc else c in
  let drow := r - pr in
  let dcol := c - pc in
  if (drow =? 0) &&
     existsb (fun j => grid_isBlockable master pr j) (upto (c1 + 1) c2)
  then false
  else if (dcol =? 0) &&
     existsb (fun i => grid_isBlockable master i pc) (upto (r1 + 1) r2)
  then false
  else if existsb (fun i =>
       let ic := ray_f32 i pr dcol drow pc in
       if f32_whole ic then grid_isBlockable master i (f32_to_int ic)
       else grid_isBlockable master i (f32_to_int ic) &&
            grid_isBlockable master i (f32_to_int ic + 1)) (upto (r1 + 1) r2)
  then false
  else if existsb (fun j =>
       let ir := ray_f32 j pc drow dcol pr in
       if f32_whole ir then grid_isBlockable master (f32_to_int ir) j
       else grid_isBlockable master (f32_to_int ir) j &&
            grid_isBlockable master (f32_to_int ir + 1) j) (upto (c1 + 1) c2)
  then false
  else true.

(** The same value as an exact fraction, [((i - p) * d + q * e) / e], with
    its whole part towards zero and the test that it is whole: what the
    single-precision value is compared with. *)
Record ray := Ray { ray_num : Z; ray_den : Z }.

Definition ray_at (i p d e q : Z) : ray := Ray ((i - p) * d + q * e) e.

Definition ray_int (x : ray) : Z := Z.quot (ray_num x) (ray_den x).

Definition ray_whole (x : ray) : bool := Z.rem (ray_num x) (ray_den x) =? 0.

(** The exponent and the mantissa of 24 bits that single precision gives a
    whole number that is not zero and below 2^24 in size. *)
Definition f32_exp (z : Z) : Z := Z.log2 (Z.abs z) - 23.

Definition f32_mant (z : Z) : Z := Z.abs z * 2 ^ (- f32_exp z).

(** A shift to the right has dropped a bit that was set. *)
Definition inexact (mrs : shr_record) : bool := shr_r mrs || shr_s mrs.

(** The cells of an [nrow] by [ncol] grid in the order of the nested loops
    [for r ... for c ...]. *)
Definition cells (nrow ncol : Z) : list (Z * Z) :=
  flat_map (fun r => List.map (fun c => (r, c)) (upto 0 ncol)) (upto 0 nrow).

(** [grid_clean]: gold and players of the known grid go back to the raw
    character. *)
Definition grid_clean (raw known : grid_t) : grid_t :=
  fold_left (fun k rc =>
      if grid_isGold k rc.1 rc.2 || grid_isPlayer k rc.1 rc.2
      then grid_update k rc.1 rc.2 (grid_getchar raw rc.1 rc.2) else k)
    (cells (grid_nrow known) (grid_ncol known)) known.

(** [grid_setVisibility] *)
Definition grid_setVisibility (master raw known : grid_t) (pr pc : Z) : grid_t :=
  let k1 := grid_clean raw known in
  let k2 := fold_left (fun k rc =>
      if negb (grid_isRock master rc.1 rc.2) &&
         grid_isVisible master pr pc rc.1 rc.2
      then grid_update k rc.1 rc.2 (grid_getchar master rc.1 rc.2) else k)
    (cells (grid_nrow master) (grid_ncol master)) k1 in
  grid_update k2 pr pc "@".

(** The C string a buffer holds: the bytes before its first NUL. *)
Fixpoint c_str (buffer : list ascii) : list ascii :=
  match buffer with
  | [] => []
  | ch :: rest => if ch_eqb ch "000" then [] else ch :: c_str rest
  end.

(** [grid_toString]: every row followed by a newline, in a buffer of
    [nrow*ncol + nrow + 1] bytes (an [int] again); what the callers get is
    the C string in it, which ends at the first NUL a cell holds. *)
Definition grid_toString (g : grid_t) : string :=
  string_of_list_ascii
    (c_str
       (flat_map (fun r =>
           List.map (fun c => grid_getchar g r c) (upto 0 (grid_ncol g)) ++ ["010"%char])
         (upto 0 (grid_nrow g)))).

(** ** message.h: correspondents' addresses *)

(** [addr_t] is a [struct sockaddr_in]. *)
Record addr_t := Addr { sin_family : Z; sin_port : Z; sin_addr : Z }.

Definition AF_INET : Z := 2.

Definition message_noAddr : addr_t := Addr 0 0 0.

Definition message_isAddr (a : addr_t) : bool := sin_family a =? AF_INET.

Definition message_eqAddr (a b : addr_t) : bool :=
  (sin_family a =? sin_family b) && (sin_port a =? sin_port b) &&
  (sin_addr a =? sin_addr b).

(** ** server.c: the game state *)

Definition MaxNameLength : Z := 50.
Definition MaxPlayers : Z := 26.
Definition GoldTotal : Z := 250.
Definition GoldMinNumPiles : Z := 10.
Definition GoldMaxNumPiles : Z := 30.

Record player_t := Player {
  IP : addr_t;
  realName : string;
  alias : ascii;
  gold : Z;
  justCollected : Z;
  row : Z;
  col : Z;
  seenGrid : grid_t
}.

(** [struct game].  The array [players] with its fill count [numPlayer] is
    the list of its first [numPlayer] entries. *)
Record game := Game {
  masterGrid : grid_t;
  rawGrid : grid_t;
  GridRow : Z;
  GridCol : Z;
  GoldNumPilesLeft : Z;
  goldCollected : Z;
  goldLeft : Z;
  players : list player_t;
  spectatorIP : addr_t;
  seed : Z
}.

Definition numPlayer (g : game) : Z := Z.of_nat (length (players g)).

Definition with_master (m : grid_t) (g : game) : game :=
  Game m (rawGrid g) (GridRow g) (GridCol g) (GoldNumPilesLeft g)
       (goldCollected g) (goldLeft g) (players g) (spectatorIP g) (seed g).

Definition with_players (ps : list player_t) (g : game) : game :=
  Game (masterGrid g) (rawGrid g) (GridRow g) (GridCol g) (GoldNumPilesLeft g)
       (goldCollected g) (goldLeft g) ps (spectatorIP g) (seed g).

Definition with_gold (piles collected left : Z) (g : game) : game :=
  Game (masterGrid g) (rawGrid g) (GridRow g) (GridCol g) piles collected left
       (players g) (spectatorIP g) (seed g).

Definition with_spectator (a : addr_t) (g : game) : game :=
  Game (masterGrid g) (rawGrid g) (GridRow g) (GridCol g) (GoldNumPilesLeft g)
       (goldCollected g) (goldLeft g) (players g) a (seed g).

(** [player->row = r; player->col = c;] *)
Definition set_pos (r c : Z) (p : player_t) : player_t :=
  Player (IP p) (realName p) (alias p) (gold p) (justCollected p) r c (seenGrid p).

(** [player->gold = player->gold + n; player->justCollected = n;] *)
Definition add_gold (n : Z) (p : player_t) : player_t :=
  Player (IP p) (realName p) (alias p) (gold p + n) n (row p) (col p) (seenGrid p).

(** The server's world: the global [GAME], the draws [rand()] has yet to
    return, and the datagrams sent so far, oldest first. *)
Record world := World {
  GAME : game;
  draws : list N;
  sent : list (addr_t * string)
}.

(** ** The monad of the handlers: state over [world], with failure *)

Definition M (A : Type) : Type := world -> option (A * world).

Definition ret {A} (a : A) : M A := fun w => Some (a, w).

Definition bind {A B} (m : M A) (k : A -> M B) : M B :=
  fun w => match m w with Some (a, w') => k a w' | None => None end.

Definition fail {A} : M A := fun _ => None.

Notation "'let*' x ':=' m 'in' k" := (bind m (fun x => k))
  (at level 10, x name, m at level 100, k at level 200).

Definition get_game : M game := fun w => Some (GAME w, w).

Definition put_game (g : game) : M unit :=
  fun w => Some (tt, World g (draws w) (sent w)).

(** [rand()] *)
Definition rand : M Z := fun w =>
  match draws w with
  | d :: ds => Some (Z.of_N d, World (GAME w) ds (sent w))
  | [] => None
  end.

(** [a % b] *)
Definition c_rem (a b : Z) : M Z :=
  if b =? 0 then fail else ret (Z.rem a b).

Definition message_send (to : addr_t) (message : string) : M unit :=
  fun w => Some (tt, World (GAME w) (draws w) (sent w ++ [(to, message)])).

(** [printf("%d")] *)
Definition string_of_Z (z : Z) : string := NilZero.string_of_int (Z.to_int z).

(** [printf("%c")]: a NUL ends the C string. *)
Definition string_of_char (ch : ascii) : string :=
  if ch_eqb ch "000" then EmptyString else String ch EmptyString.

Definition result_world {A} (r : option (A * world)) : option world :=
  match r with Some (_, w) => Some w | None => None end.

(** ** server.c: setup *)

(** The sampling loop shared by [server_drop_gold] and [server_drop_player]:
    draw a row and a column until the cell is an empty room spot.  Each round
    reads two draws, so the loop is a recursion on the draws. *)
Fixpoint find_spot (master : grid_t) (nr nc : Z) (ds : list N)
  : option (Z * Z * list N) :=
  match ds with
  | d1 :: d2 :: ds' =>
      let row := Z.rem (Z.of_N d1) nr in
      let col := Z.rem (Z.of_N d2) nc in
      if grid_isEmptyRoomSpot master row col then Some (row, col, ds')
      else find_spot master nr nc ds'
  | _ => None
  end.

Definition random_spot : M (Z * Z) := fun w =>
  let g := GAME w in
  if (GridRow g =? 0) || (GridCol g =? 0) then None
  else match find_spot (masterGrid g) (GridRow g) (GridCol g) (draws w) with
       | Some (r, c, ds) => Some ((r, c), World g ds (sent w))
       | None => None
       end.

(** The body of the loop of [server_drop_gold], [n] times. *)
Fixpoint drop_piles (n : nat) : M unit :=
  match n with
  | O => ret tt
  | S n' =>
      let* rc := random_spot in
      let* g := get_game in
      let* _ := put_game (with_master (grid_update (masterGrid g) rc.1 rc.2 "*") g) in
      drop_piles n'
  end.

Definition server_drop_gold : M unit :=
  let* r := rand in
  let* n := c_rem r (GoldMaxNumPiles - GoldMinNumPiles) in
  let* g := get_game in
  let* _ := put_game (with_gold (n + GoldMinNumPiles) 0 GoldTotal g) in
  drop_piles (Z.to_nat (n + GoldMinNumPiles)).

(** [server_drop_player] chooses the row and column of the new player. *)
Definition server_drop_player : M (Z * Z) := random_spot.

(** ** server.c: broadcast *)

Definition gold_message (n p r : Z) : string :=
  "GOLD " ++ string_of_Z n ++ " " ++ string_of_Z p ++ " " ++ string_of_Z r.

Definition display_message (g : grid_t) : string :=
  "DISPLAY" ++ String "010" (grid_toString g).

(** One round of the loop of [server_update_all_clients]: what it leaves in
    the player ... *)
Definition update_client (g : game) (p : player_t) : player_t :=
  Player (IP p) (realName p) (alias p) (gold p) 0 (row p) (col p)
    (grid_setVisibility (masterGrid g) (rawGrid g) (seenGrid p) (row p) (col p)).

(** ... and what it sends. *)
Definition client_messages (g : game) (p : player_t) : list (addr_t * string) :=
  [ (IP p, gold_message (justCollected p) (gold p) (goldLeft g));
    (IP p, display_message (seenGrid (update_client g p))) ].

Definition spectator_messages (g : game) : list (addr_t * string) :=
  if message_isAddr (spectatorIP g)
  then [ (spectatorIP g, gold_message 0 0 (goldLeft g));
         (spectatorIP g, display_message (masterGrid g)) ]
  else [].

(** [server_update_all_clients].  A round of its loop reads and writes one
    player only, so the loop is a map over the table. *)
Definition server_update_all_clients : M unit := fun w =>
  let g := GAME w in
  Some (tt, World (with_players (update_client g <$> players g) g)
                  (draws w)
                  (sent w ++ spectator_messages g ++
                   flat_map (client_messages g) (players g))).

(** ** server.c: joining *)

Definition helper_nameIsEmpty (name : string) : bool :=
  forallb isspace (list_ascii_of_string name).

(** The character stored for [name[i]]: the test of the source is
    [isgraph(name[i]) == false && isblank(name[i] == false)]; the argument
    of [isblank] is the truth value of [name[i] == false], 0 or 1. *)
Definition name_char (ch : ascii) : ascii :=
  if negb (isgraph ch) &&
     isblank (if ch_eqb ch "000" then "001"%char else "000"%char)
  then "_"%char else ch.

(** The loop that fills [realName]: position [i] is written while
    [i < MaxNameLength]. *)
Fixpoint copy_name (i : Z) (name : list ascii) : list ascii :=
  match name with
  | [] => []
  | ch :: rest =>
      if i <? MaxNameLength then name_char ch :: copy_name (i + 1) rest
      else copy_name (i + 1) rest
  end.

Definition stored_name (name : string) : string :=
  string_of_list_ascii (copy_name 0 (list_ascii_of_string name)).

(** ['A' + numPlayer] *)
Definition alias_of (n : Z) : ascii := ascii_of_N (Z.to_N ((65 + n) mod 256)).

(** [handlePlay].  The memory for the new player is taken to be there: when
    [malloc] gives none the code changes nothing, sends nothing and returns
    false.  Where [grid_new] gives no grid for what the player has seen, the
    model has no outcome. *)
Definition handlePlay (from : addr_t) (name : string) : M bool :=
  let* g := get_game in
  if numPlayer g =? MaxPlayers then
    let* _ := message_send from "QUIT Game is full: no more players can join." in
    ret false
  else if helper_nameIsEmpty name then
    let* _ := message_send from "QUIT Sorry: you must provide player's name." in
    ret false
  else
    let* rc := server_drop_player in
    match grid_new (GridRow g) (GridCol g) with
    | None => fail
    | Some seen =>
        let player := Player from (stored_name name) (alias_of (numPlayer g))
                             0 0 rc.1 rc.2 seen in
        let* _ := put_game
          (with_master (grid_update (masterGrid g) rc.1 rc.2 (alias player))
             (with_players (players g ++ [player]) g)) in
        let* _ := message_send from ("OK " ++ string_of_char (alias player)) in
        let* _ := message_send from
          ("GRID " ++ string_of_Z (GridRow g) ++ " " ++ string_of_Z (GridCol g)) in
        let* _ := server_update_all_clients in
        ret false
    end.

Definition handleSPECTATE (from : addr_t) : M bool :=
  let* g := get_game in
  let* _ := (if message_isAddr (spectatorIP g)
             then message_send (spectatorIP g)
                    "QUIT You have been replaced by a new spectator."
             else ret tt) in
  let* _ := put_game (with_spectator from g) in
  let* _ := message_send from
    ("GRID " ++ string_of_Z (GridRow g) ++ " " ++ string_of_Z (GridCol g)) in
  let* _ := server_update_all_clients in
  ret false.

(** ** server.c: quitting *)

(** The loop of [handleQUIT] over the table: every player whose address is
    [ip] is sent a QUIT and its cell of the master grid gets the raw
    character back.  The table itself is not touched. *)
Fixpoint quit_players (ip : addr_t) (ps : list player_t) : M unit :=
  match ps with
  | [] => ret tt
  | current :: rest =>
      let* _ := (if message_eqAddr ip (IP current) then
                   let* _ := message_send ip "QUIT Thanks for playing!" in
                   let* g := get_game in
                   let raw_char := grid_getchar (rawGrid g) (row current) (col current) in
                   put_game (with_master
                     (grid_update (masterGrid g) (row current) (col current) raw_char) g)
                 else ret tt) in
      quit_players ip rest
  end.

Definition handleQUIT (ip : addr_t) : M bool :=
  let* g := get_game in
  let* _ := (if message_eqAddr (spectatorIP g) ip
             then message_send (spectatorIP g) "QUIT Thanks for watching!"
             else ret tt) in
  let* _ := quit_players ip (players g) in
  let* _ := server_update_all_clients in
  ret false.

(** ** server.c: moving *)

(** [pickup_gold]; the player is the entry [pi] of the table. *)
Definition pickup_gold (pi : nat) : M unit :=
  let* g := get_game in
  let minPerPile := 1 in
  let maxPerPile := goldLeft g - GoldNumPilesLeft g + 1 in
  let* gold := (if negb (GoldNumPilesLeft g =? 1) then
                  let* r := rand in
                  let* m := c_rem r (maxPerPile - minPerPile + 1) in
                  ret (m + minPerPile)
                else ret (goldLeft g)) in
  put_game (with_gold (GoldNumPilesLeft g - 1) (goldCollected g + gold)
              (goldLeft g - gold)
              (with_players (alter (add_gold gold) pi (players g)) g)).

(** [player_move]; the player is the entry [pi] of the table.  The result is
    true when the player cannot move to the new cell. *)
Definition player_move (pi : nat) (new_row new_col : Z) : M bool :=
  let* g := get_game in
  match players g !! pi with
  | None => fail
  | Some player =>
    let old_row := row player in
    let old_col := col player in
    if grid_canMoveTo (masterGrid g) new_row new_col then
      if grid_isPlayer (masterGrid g) new_row new_col then
        match list_find (fun q => row q = new_row /\ col q = new_col) (players g) with
        | Some (i, another_player) =>
            let ps1 := alter (set_pos old_row old_col) i (players g) in
            let m1 := grid_update (masterGrid g) old_row old_col (alias another_player) in
            let ps2 := alter (set_pos new_row new_col) pi ps1 in
            let m2 := grid_update m1 new_row new_col (alias player) in
            let* _ := put_game (with_master m2 (with_players ps2 g)) in
            let* _ := server_update_all_clients in
            ret false
        | None => ret false
        end
      else if grid_isGold (masterGrid g) new_row new_col then
        let ps1 := alter (set_pos new_row new_col) pi (players g) in
        let raw_char := grid_getchar (rawGrid g) old_row old_col in
        let m1 := grid_update (masterGrid g) old_row old_col raw_char in
        let m2 := grid_update m1 new_row new_col (alias player) in
        let* _ := put_game (with_master m2 (with_players ps1 g)) in
        let* _ := pickup_gold pi in
        let* _ := server_update_all_clients in
        ret false
      else
        let ps1 := alter (set_pos new_row new_col) pi (players g) in
        let raw_char := grid_getchar (rawGrid g) old_row old_col in
        let m1 := grid_update (masterGrid g) old_row old_col raw_char in
        let m2 := grid_update m1 new_row new_col (alias player) in
        let* _ := put_game (with_master m2 (with_players ps1 g)) in
        let* _ := server_update_all_clients in
        ret false
    else ret true
  end.

(** The loops of the run keys, [while (!player_move(player, row + dr,
    col + dc)) { row += dr; col += dc; }], with fuel. *)
Fixpoint run (fuel : nat) (pi : nat) (row col dr dc : Z) : M unit :=
  match fuel with
  | O => fail
  | S fuel' =>
      let* stop := player_move pi (row + dr) (col + dc) in
      if stop then ret tt else run fuel' pi (row + dr) (col + dc) dr dc
  end.

(** The cases of the [switch] of [handleKEY]. *)
Inductive key_action :=
| Step (dr dc : Z)
| Run (dr dc : Z)
| Unknown.

Definition key_action_of (KEY : ascii) : key_action :=
  if ch_eqb KEY "h" then Step 0 (-1)
  else if ch_eqb KEY "H" then Run 0 (-1)
  else if ch_eqb KEY "l" then Step 0 1
  else if ch_eqb KEY "L" then Run 0 1
  else if ch_eqb KEY "j" then Step 1 0
  else if ch_eqb KEY "J" then Run 1 0
  else if ch_eqb KEY "k" then Step (-1) 0
  else if ch_eqb KEY "K" then Run (-1) 0
  else if ch_eqb KEY "y" then Step (-1) (-1)
  else if ch_eqb KEY "Y" then Run (-1) (-1)
  else if ch_eqb KEY "u" then Step (-1) 1
  else if ch_eqb KEY "U" then Run (-1) 1
  else if ch_eqb KEY "b" then Step 1 (-1)
  else if ch_eqb KEY "B" then Run 1 (-1)
  else if ch_eqb KEY "n" then Step 1 1
  else if ch_eqb KEY "N" then Run 1 1
  else Unknown.

(** The loop of [handleKEY] that looks for the sender: the last entry of the
    table with the sender's address wins. *)
Fixpoint find_player (from : addr_t) (i : nat) (ps : list player_t)
    (found : option nat) : option nat :=
  match ps with
  | [] => found
  | current :: rest =>
      find_player from (S i) rest
        (if message_eqAddr from (IP current) then Some i else found)
  end.

(** [*key] *)
Definition first_char (key : string) : ascii :=
  match key with
  | String ch _ => ch
  | EmptyString => "000"%char
  end.

(** [handleKEY]; the result is true when no pile of gold is left. *)
Definition handleKEY (fuel : nat) (from : addr_t) (key : string) : M bool :=
  let KEY := first_char key in
  if ch_eqb KEY "Q" then
    let* _ := handleQUIT from in
    ret false
  else
    let* g := get_game in
    match find_player from 0 (players g) None with
    | None => ret false
    | Some pi =>
      match players g !! pi with
      | None => fail
      | Some player =>
        let row := row player in
        let col := col player in
        let* _ := (match key_action_of KEY with
                   | Step dr dc =>
                       let* _ := player_move pi (row + dr) (col + dc) in ret tt
                   | Run dr dc => run fuel pi row col dr dc
                   | Unknown =>
                       message_send (IP player)
                         ("ERROR Unknown Keystroke: " ++ string_of_char KEY)
                   end) in
        let* g' := get_game in
        ret (GoldNumPilesLeft g' =? 0)
      end
    end.

(** The message without its first [n] characters. *)
Fixpoint skip (n : nat) (s : string) : string :=
  match n, s with
  | S n', String _ s' => skip n' s'
  | _, _ => s
  end.

(** [strncmp(s, word, strlen(word)) == 0] *)
Fixpoint starts_with (word s : string) : bool :=
  match word with
  | EmptyString => true
  | String a word' =>
      match s with
      | EmptyString => false
      | String b s' => ch_eqb a b && starts_with word' s'
      end
  end.

Definition handleMessage (fuel : nat) (from : addr_t) (message : string) : M bool :=
  if starts_with "PLAY " message then handlePlay from (skip 5 message)
  else if starts_with "SPECTATE" message then handleSPECTATE from
  else if starts_with "KEY " message then handleKEY fuel from (skip 4 message)
  else ret false.

(** ** server.c: start-up *)

Definition isdigit (ch : ascii) : bool := (48 <=? code ch) && (code ch <=? 57).

(** The number [strtol] reads: white space, an optional sign, then the
    digits. *)
Fixpoint atoi_digits (acc : Z) (s : list ascii) : Z :=
  match s with
  | ch :: rest =>
      if isdigit ch then atoi_digits (10 * acc + (code ch - 48)) rest else acc
  | [] => acc
  end.

Fixpoint atoi_chars (s : list ascii) : Z :=
  match s with
  | ch :: rest =>
      if isspace ch then atoi_chars rest
      else if ch_eqb ch "-" then - atoi_digits 0 rest
      else if ch_eqb ch "+" then atoi_digits 0 rest
      else atoi_digits 0 s
  | [] => 0
  end.

(** [LONG_MAX]: a [long] has 64 bits. *)
Definition LONG_MAX : Z := 9223372036854775807.

(** [strtol] answers [LONG_MAX] or [LONG_MIN] for a number out of range. *)
Definition strtol_range (x : Z) : Z := Z.max (- LONG_MAX - 1) (Z.min LONG_MAX x).

(** [(int)x] for a [long] [x]: the low 32 bits, as a signed number. *)
Definition int_of_long (x : Z) : Z := (x + 2 ^ 31) mod 2 ^ 32 - 2 ^ 31.

(** [atoi(s)] is [(int) strtol(s, NULL, 10)]: the C standard leaves the
    answer open for a number that is no [int]; this is the answer of the C
    library the server is built with. *)
Definition atoi (s : string) : Z :=
  int_of_long (strtol_range (atoi_chars (list_ascii_of_string s))).

(** [GAME] when [parseArgs] has loaded the map [m]: [GAME] is a global, so the
    members that no statement has assigned yet are zero; [main] has emptied
    the table and the spectator's address. *)
Definition loaded (m : grid_t) : game :=
  Game m m (grid_nrow m) (grid_ncol m) 0 0 0 [] message_noAddr 0.

(** How [parseArgs] ends: [exit(status)], or a call of [srand] and a game. *)
Inductive startup :=
| Exit (status : Z)
| Started (srand_arg : Z) (g : game).

(** [parseArgs]; [pid] is what [getpid()] returns and [grid_load] what
    loading a file name gives. *)
Definition parseArgs (pid : Z) (grid_load : string -> option grid_t)
    (argv : list string) : startup :=
  match argv with
  | [_; map] =>
      match grid_load map with
      | None => Exit (-1)
      | Some m => Started pid (loaded m)
      end
  | [_; map; arg] =>
      match grid_load map with
      | None => Exit (-1)
      | Some m =>
          let GAME := loaded m in
          let GAME_seed := seed GAME in
          let seed := atoi arg in
          if seed <=? 0 then Exit (-2)
          else Started GAME_seed GAME
      end
  | _ => Exit (-3)
  end.

(** ** The sentences of the specification *)

(** The name the specification describes: the first 50 bytes, each byte that
    is neither graphic nor blank replaced by '_'. *)
Definition sanitized_name (name : string) : string :=
  string_of_list_ascii
    (List.map (fun ch => if negb (isgraph ch) && negb (isblank ch) then "_"%char else ch)
       (firstn 50 (list_ascii_of_string name))).

(** A map file holds rock, floor, passage and wall characters only. *)
Definition map_char (ch : ascii) : bool :=
  ch_eqb ch " " || ch_eqb ch "." || ch_eqb ch "#" ||
  ch_eqb ch "|" || ch_eqb ch "-" || ch_eqb ch "+".

Definition valid_map (m : grid_t) : bool :=
  grid_wfb m && forallb map_char (grid_map m).

(** A grid without gold and without players. *)
Definition bare_char (ch : ascii) : bool :=
  negb (ch_eqb ch "*") && negb (isalpha ch) && negb (ch_eqb ch "@").

Definition bare_grid (g : grid_t) : bool := forallb bare_char (grid_map g).

(** A map of three rows and 16777221 columns: solid rock but for one floor
    cell, at (1,16777218). *)
Definition far_map : grid_t :=
  grid_update (Grid (replicate (Z.to_nat (3 * 16777221)) " "%char) 3 16777221)
    1 16777218 "."%char.

(** The states of the server: after [server_drop_gold] on a loaded map, and
    after each message handled from there. *)
Inductive reachable : world -> Prop :=
| reach_setup m ds w :
    valid_map m = true ->
    server_drop_gold (World (loaded m) ds []) = Some (tt, w) ->
    reachable w
| reach_message w fuel from message stop w' :
    reachable w ->
    handleMessage fuel from message w = Some (stop, w') ->
    reachable w'.

Definition sum_purses (ps : list player_t) : Z :=
  fold_right (fun p s => gold p + s) 0 ps.

Definition same_tile (p q : player_t) : bool :=
  (row p =? row q) && (col p =? col q).

(** No two entries of the table have the same position. *)
Definition apart (ps : list player_t) : Prop :=
  forall i j p q, ps !! i = Some p -> ps !! j = Some q -> i <> j ->
    same_tile p q = false.

(** Every player is inside the master grid. *)
Definition players_inside (g : game) : bool :=
  forallb (fun p => in_grid (masterGrid g) (row p) (col p)) (players g).

(** The table entries numbered from [i]. *)
Fixpoint numbered {A} (i : Z) (l : list A) : list (Z * A) :=
  match l with
  | [] => []
  | x :: l' => (i, x) :: numbered (i + 1) l'
  end.

(** Every player of the table stands on the board: the master grid shows its
    letter where it is, and its letter is the one of its slot. *)
Definition on_board (g : game) : bool :=
  grid_wfb (masterGrid g) && (numPlayer g <=? MaxPlayers) &&
  forallb (fun ip => ch_eqb (alias ip.2) (alias_of ip.1) &&
                     ch_eqb (grid_getchar (masterGrid g) (row ip.2) (col ip.2))
                            (alias ip.2))
          (numbered 0 (players g)).

(** Every letter of the master grid is the cell of some player of the table,
    and the raw grid has no letter. *)
Definition letters_owned (g : game) : bool :=
  grid_wfb (masterGrid g) &&
  forallb (fun rc => negb (grid_isPlayer (rawGrid g) rc.1 rc.2))
          (cells (grid_nrow (masterGrid g)) (grid_ncol (masterGrid g))) &&
  forallb (fun rc => negb (grid_isPlayer (masterGrid g) rc.1 rc.2) ||
                     existsb (fun q => (row q =? rc.1) && (col q =? rc.2)) (players g))
          (cells (grid_nrow (masterGrid g)) (grid_ncol (masterGrid g))).

(** ['a' - 'A' + KEY] for a capital letter. *)
Definition tolower (ch : ascii) : ascii :=
  if isupper ch then ascii_of_N (Z.to_N (code ch + 32)) else ch.

(** Whether the cell one step from the sender's player cannot be entered. *)
Definition step_blocked (from : addr_t) (dr dc : Z) (g : game) : bool :=
  match find_player from 0 (players g) None with
  | Some pi =>
      match players g !! pi with
      | Some p => negb (grid_canMoveTo (masterGrid g) (row p + dr) (col p + dc))
      | None => true
      end
  | None => true
  end.

(** The single-step key [key], handled again and again until a step is
    aimed at a cell that cannot be entered (that last key is handled too). *)
Fixpoint repeat_key (fuel : nat) (from : addr_t) (key : ascii) : M unit :=
  match fuel with
  | O => fail
  | S fuel' =>
      let* g := get_game in
      let* _ := handleKEY 0 from (String key EmptyString) in
      match key_action_of key with
      | Step dr dc =>
          if step_blocked from dr dc g then ret tt
          else repeat_key fuel' from key
      | _ => ret tt
      end
  end.

(** The message loop: messages are handled in turn until a handler answers
    true. *)
Fixpoint message_loop (fuel : nat) (inbox : list (addr_t * string)) : M bool :=
  match inbox with
  | [] => ret false
  | (from, message) :: rest =>
      let* stop := handleMessage fuel from message in
      if stop then ret true else message_loop fuel rest
  end.

(** ** The games the handlers leave behind *)

(** The game after a broadcast. *)
Definition told (g : game) : game :=
  with_players (update_client g <$> players g) g.

(** The game after player [pi] (the entry [p]) has moved to a free cell. *)
Definition moved (g : game) (pi : nat) (p : player_t) (nr nc : Z) : game :=
  with_master
    (grid_update
       (grid_update (masterGrid g) (row p) (col p)
          (grid_getchar (rawGrid g) (row p) (col p)))
       nr nc (alias p))
    (with_players (alter (set_pos nr nc) pi (players g)) g).

(** The game after player [pi] has changed places with player [i] (the
    entry [q]). *)
Definition swapped (g : game) (pi : nat) (p : player_t) (i : nat) (q : player_t)
    (nr nc : Z) : game :=
  with_master
    (grid_update (grid_update (masterGrid g) (row p) (col p) (alias q))
       nr nc (alias p))
    (with_players
       (alter (set_pos nr nc) pi (alter (set_pos (row p) (col p)) i (players g))) g).

(** The game after player [pi] has received [n] nuggets. *)
Definition picked (g : game) (pi : nat) (n : Z) : game :=
  with_gold (GoldNumPilesLeft g - 1) (goldCollected g + n) (goldLeft g - n)
    (with_players (alter (add_gold n) pi (players g)) g).

(** The game after a player has joined at the cell (r,c). *)
Definition joined (g : game) (from : addr_t) (name : string) (r c : Z)
    (seen : grid_t) : game :=
  let player := Player from (stored_name name) (alias_of (numPlayer g)) 0 0 r c seen in
  with_master (grid_update (masterGrid g) r c (alias player))
    (with_players (players g ++ [player]) g).

(** The amount [pickup_gold] hands out: all that is left for the last pile,
    otherwise one more than the draw's remainder. *)
Definition amount_ok (g : game) (ds ds' : list N) (n : Z) : Prop :=
  (GoldNumPilesLeft g = 1 /\ n = goldLeft g /\ ds' = ds) \/
  (GoldNumPilesLeft g <> 1 /\
   goldLeft g - GoldNumPilesLeft g + 1 <> 0 /\
   exists d, ds = d :: ds' /\
     n = Z.rem (Z.of_N d) (goldLeft g - GoldNumPilesLeft g + 1) + 1).

(** How many steps of direction (dr,dc) the grid leaves room for from the
    cell (r,c): the measure that ends the loop of a run key. *)
Definition room (g : grid_t) (dr dc r c : Z) : Z :=
  if dr =? 1 then grid_nrow g - 1 - r
  else if dr =? -1 then r
  else if dc =? 1 then grid_ncol g - 1 - c
  else c.

(** The directions of the keys. *)
Definition direction (dr dc : Z) : Prop :=
  (dr = 1 \/ dr = -1 \/ (dr = 0 /\ (dc = 1 \/ dc = -1))) /\ -1 <= dc <= 1.

(** ** Invariants *)

(** Every player is inside the master grid. *)
Definition inside (g : game) : Prop :=
  forall i p, players g !! i = Some p ->
    in_grid (masterGrid g) (row p) (col p) = true.

(** The letters of the master grid have owners. *)
Definition owned (g : game) : Prop :=
  grid_wf (masterGrid g) /\
  (forall r c, in_grid (masterGrid g) r c = true ->
     grid_isPlayer (rawGrid g) r c = false) /\
  (forall r c, grid_isPlayer (masterGrid g) r c = true ->
     exists j q, players g !! j = Some q /\ row q = r /\ col q = c).

(** The players are on the board. *)
Definition boarded (g : game) : Prop :=
  grid_wf (masterGrid g) /\
  numPlayer g <= MaxPlayers /\
  forall i p, players g !! i = Some p ->
    alias p = alias_of (Z.of_nat i) /\
    grid_getchar (masterGrid g) (row p) (col p) = alias p.

(** The gold of the game is all there. *)
Definition conserved (g : game) : Prop :=
  sum_purses (players g) + goldLeft g = GoldTotal /\
  goldCollected g + goldLeft g = GoldTotal.

(** What holds of the gold counts whenever gold is picked up: each pile left
    has a nugget, and nobody has gold that was not announced yet. *)
Definition ledger (g : game) : Prop :=
  GoldNumPilesLeft g <= goldLeft g /\
  forall i p, players g !! i = Some p -> justCollected p = 0.

(** ** A small game, for examples *)

(** A room of three rows of five floor cells inside its walls. *)
Definition demo_map : grid_t :=
  Grid (list_ascii_of_string "+-----+|.....||.....||.....|+-----+") 5 7.

(** Ten piles, on the second and third row of the room; then the spots of
    two players, (1,1) and (1,2); then draws for pick-ups. *)
Definition demo_draws : list N :=
  [0; 2; 1; 2; 2; 2; 3; 2; 4; 2; 5; 3; 1; 3; 2; 3; 3; 3; 4; 3; 5;
   1; 1; 1; 2; 7; 7; 7; 7]%N.

Definition alice : addr_t := Addr AF_INET 5001 1.
Definition bob : addr_t := Addr AF_INET 5002 2.

(** The world after setup and the messages of [inbox]. *)
Definition demo_after (inbox : list (addr_t * string)) : option world :=
  match server_drop_gold (World (loaded demo_map) demo_draws []) with
  | Some (_, w) => result_world (message_loop 10 inbox w)
  | None => None
  end.

Definition demo_world (inbox : list (addr_t * string)) : world :=
  match demo_after inbox with
  | Some w => w
  | None => World (loaded demo_map) [] []
  end.

(** ** grid.c: loading a map *)

(** [fgetc] on what is left of the file: the next byte, or [EOF], which
    [grid_load] stores in a [char]. *)
Definition fgetc (fp : list ascii) : ascii * list ascii :=
  match fp with
  | ch :: rest => (ch, rest)
  | [] => ("255"%char, [])
  end.

(** The body of the loops of [grid_load]: read a byte, read one more if it
    is a newline, store it. *)
Definition load_cell (st : grid_t * list ascii) (rc : Z * Z) : grid_t * list ascii :=
  let (ch, fp) := fgetc st.2 in
  let (ch', fp') := if ch_eqb ch "010" then fgetc fp else (ch, fp) in
  (grid_update st.1 rc.1 rc.2 ch', fp').

(** [grid_load] on a file that could be opened.  [nrow] is what
    [file_numLines] counts and [ncol] the length of what [file_readLine]
    reads first (both of the course library, not of this repository); [file]
    is the bytes of the file. *)
Definition grid_load (nrow ncol : Z) (file : list ascii) : option grid_t :=
  match grid_new nrow ncol with
  | Some g => Some (fold_left load_cell (cells nrow ncol) (g, file)).1
  | None => None
  end.

(** ** server.c: the end of the game *)

(** The purse as [game_over] prints it: no number at all from 1000 on. *)
Definition purse_field (gold : Z) : string :=
  if gold =? 0 then "     0   "
  else if Z.quot gold 10 =? 0 then "     " ++ string_of_Z gold ++ "   "
  else if Z.quot gold 100 =? 0 then "    " ++ string_of_Z gold ++ "   "
  else if Z.quot gold 1000 =? 0 then "   " ++ string_of_Z gold ++ "   "
  else EmptyString.

Definition score_line (p : player_t) : string :=
  string_of_char (alias p) ++ purse_field (gold p) ++ realName p ++ String "010" EmptyString.

Definition game_over_message (g : game) : string :=
  "QUIT GAME OVER:" ++ String "010" (String.concat EmptyString (List.map score_line (players g))).

(** [game_over]: the table goes to the spectator, then to every player.
    The function ends by releasing the players, their grids and the two
    grids of the game (server.c:700-707), and [main] returns after it: that
    part has no counterpart here.  The world returned is the world in which
    the table was sent; it says nothing of the memory after the call. *)
Definition game_over : M unit :=
  let* g := get_game in
  let* _ := (if message_isAddr (spectatorIP g)
             then message_send (spectatorIP g) (game_over_message g)
             else ret tt) in
  fun w => Some (tt, World (GAME w) (draws w)
                   (sent w ++ List.map (fun p => (IP p, game_over_message g)) (players g))).

(** [main] from [server_drop_gold] on: the messages of [inbox] are handled
    until a handler returns true, and then the game is over; while no
    handler has, the server keeps waiting. *)
Definition serve (fuel : nat) (inbox : list (addr_t * string)) : M bool :=
  let* _ := server_drop_gold in
  let* stop := message_loop fuel inbox in
  if stop then let* _ := game_over in ret true else ret false.

(** ** Counting and more invariants *)

(** How many elements of a list pass a test. *)
Definition tally {A} (f : A -> bool) (l : list A) : Z :=
  fold_right (fun x n => if f x then 1 + n else n) 0 l.

(** The piles of gold a grid shows. *)
Definition piles_on (g : grid_t) : Z :=
  tally (fun rc => grid_isGold g rc.1 rc.2) (cells (grid_nrow g) (grid_ncol g)).

(** The master grid is the raw grid with gold and letters on it. *)
Definition overlaid (g : game) : Prop :=
  forall r c,
    grid_getchar (masterGrid g) r c = grid_getchar (rawGrid g) r c \/
    grid_isGold (masterGrid g) r c = true \/
    isalpha (grid_getchar (masterGrid g) r c) = true.

(** The slots of the table have their letters. *)
Definition lettered (g : game) : Prop :=
  numPlayer g <= MaxPlayers /\
  forall i p, players g !! i = Some p -> alias p = alias_of (Z.of_nat i).

(** The board is in order: no player stands on a pile, the raw grid has
    neither gold nor letters, and the master grid is the raw grid with gold
    and letters on it. *)
Definition board_in_order (g : game) : Prop :=
  grid_wf (masterGrid g) /\
  lettered g /\
  (forall r c, grid_isGold (rawGrid g) r c = false /\
               grid_isPlayer (rawGrid g) r c = false) /\
  (forall i p, players g !! i = Some p ->
     grid_isGold (masterGrid g) (row p) (col p) = false) /\
  overlaid g.

(** The books are in order: the board is, the ledger counts the piles on it,
    and the gold left is at least a nugget a pile, and none without piles. *)
Definition in_order (g : game) : Prop :=
  board_in_order g /\
  piles_on (masterGrid g) = GoldNumPilesLeft g /\
  GoldNumPilesLeft g <= goldLeft g /\
  (GoldNumPilesLeft g = 0 -> goldLeft g = 0).

(** What the loop of [handleQUIT] does to the master grid, entry by entry. *)
Definition quit_cell (ip : addr_t) (raw m : grid_t) (current : player_t) : grid_t :=
  if message_eqAddr ip (IP current)
  then grid_update m (row current) (col current)
         (grid_getchar raw (row current) (col current))
  else m.

Definition quit_grid (ip : addr_t) (raw : grid_t) (ps : list player_t)
    (m : grid_t) : grid_t :=
  fold_left (quit_cell ip raw) ps m.

(** The entry of the table is the player of [ip] that stands on (r,c). *)
Definition quits_at (ip : addr_t) (m : grid_t) (r c : Z) (p : player_t) : bool :=
  message_eqAddr ip (IP p) && in_grid m (row p) (col p) &&
  (row p =? r) && (col p =? c).

(** No purse is in debt. *)
Definition solvent (g : game) : Prop := Forall (fun p => 0 <= gold p) (players g).

(** The books are in order and no purse is in debt. *)
Definition sound (g : game) : Prop := in_order g /\ solvent g.

(** [n] blanks. *)
Definition spaces (n : nat) : string := string_of_list_ascii (replicate n " "%char).

(** The purse field of the score table, as the formats of [game_over] are
    meant: the number flushed right in six columns, and three blanks. *)
Definition purse_column (gold : Z) : string :=
  (spaces (6 - String.length (string_of_Z gold)) ++ string_of_Z gold ++ "   ")%string.

(** What an entry of the table is for the players: address, name, letter. *)
Definition identity (p : player_t) : addr_t * string * ascii :=
  (IP p, realName p, alias p).

(** The entries of the table [ps] are still there in [ps'], with their
    identities and purses that have not shrunk. *)
Definition kept (ps ps' : list player_t) : Prop :=
  forall i p, ps !! i = Some p ->
    exists p', ps' !! i = Some p' /\ identity p' = identity p /\ gold p <= gold p'.

(** The game [g'] is a later stage of the game [g]: the same map, the
    entries of the table kept, and no gold has come back. *)
Definition later (g g' : game) : Prop :=
  rawGrid g' = rawGrid g /\
  GoldNumPilesLeft g' <= GoldNumPilesLeft g /\
  goldLeft g' <= goldLeft g /\
  goldCollected g <= goldCollected g' /\
  kept (players g) (players g').

(** The world after setup with the draws [ds] on the map [m] and the
    messages of [inbox]. *)
Definition play_after (m : grid_t) (ds : list N) (inbox : list (addr_t * string))
    : option world :=
  match server_drop_gold (World (loaded m) ds []) with
  | Some (_, w) => result_world (message_loop 10 inbox w)
  | None => None
  end.

(** A game played to its last pile but one step: ten piles on the two upper
    rows of the demo room, and alice walking over them. *)
Definition endgame_draws : list N :=
  [0; 1; 1; 1; 2; 1; 3; 1; 4; 1; 5; 2; 1; 2; 2; 2; 3; 2; 4; 2; 5;
   3; 1; 0; 0; 0; 0; 0; 0; 0; 0; 0]%N.

Definition endgame_inbox : list (addr_t * string) :=
  [(alice, "PLAY alice"); (alice, "KEY k"); (alice, "KEY L"); (alice, "KEY k")]%string.

Definition endgame_world : world :=
  match play_after demo_map endgame_draws endgame_inbox with
  | Some w => w
  | None => World (loaded demo_map) [] []
  end.

(** A game of three: ten piles on the two lower rows of the demo room, and
    alice, bob and carol side by side on the upper row. *)
Definition carol : addr_t := Addr AF_INET 5003 3.

Definition trio_draws : list N :=
  [0; 2; 1; 2; 2; 2; 3; 2; 4; 2; 5; 3; 1; 3; 2; 3; 3; 3; 4; 3; 5;
   1; 1; 1; 2; 1; 3]%N.

Definition trio_world (inbox : list (addr_t * string)) : world :=
  match play_after demo_map trio_draws inbox with
  | Some w => w
  | None => World (loaded demo_map) [] []
  end.

(** The characters a player can step onto, as the comment of
    [grid_canMoveTo] lists them: floor, passage, gold and letters. *)
Definition walkable (ch : ascii) : bool :=
  ch_eqb ch "." || ch_eqb ch "#" || ch_eqb ch "*" || isalpha ch.

(** The draws two by two, as the sampling loops read them: a row, then a
    column. *)
Fixpoint pairs (ds : list N) : list (N * N) :=
  match ds with
  | d1 :: d2 :: ds' => (d1, d2) :: pairs ds'
  | _ => []
  end.

(** The cell a pair of draws gives: [rand() % GAME.GridRow] and
    [rand() % GAME.GridCol]. *)
Definition drawn_cell (nr nc : Z) (d : N * N) : Z * Z :=
  (Z.rem (Z.of_N d.1) nr, Z.rem (Z.of_N d.2) nc).

(** One of the pairs gives a floor cell of the grid: the sampling loop has
    something to stop at. *)
Definition hits_floor (master : grid_t) (nr nc : Z) (ds : list N) : bool :=
  existsb (fun d => grid_isEmptyRoomSpot master (drawn_cell nr nc d).1 (drawn_cell nr nc d).2)
    (pairs ds).

(** A sweep of the grid: draws, even in number, with a pair for every floor
    cell of the grid. *)
Definition sweep (m : grid_t) (ds : list N) : bool :=
  Nat.even (length ds) &&
  forallb (fun rc =>
      negb (grid_isEmptyRoomSpot m rc.1 rc.2) ||
      existsb (fun d => ((drawn_cell (grid_nrow m) (grid_ncol m) d).1 =? rc.1) &&
                        ((drawn_cell (grid_nrow m) (grid_ncol m) d).2 =? rc.2))
        (pairs ds))
    (cells (grid_nrow m) (grid_ncol m)).

(** The floor cells a grid shows. *)
Definition floor_on (g : grid_t) : Z :=
  tally (fun rc => grid_isEmptyRoomSpot g rc.1 rc.2) (cells (grid_nrow g) (grid_ncol g)).

(** A sweep of the demo room, row by row. *)
Definition demo_sweep : list N :=
  [1; 1; 1; 2; 1; 3; 1; 4; 1; 5; 2; 1; 2; 2; 2; 3; 2; 4; 2; 5;
   3; 1; 3; 2; 3; 3; 3; 4; 3; 5]%N.

(** A grid as [grid_new] makes it for the size (nr,nc). *)
Definition view_sized (nr nc : Z) (p : player_t) : Prop :=
  grid_wf (seenGrid p) /\ grid_nrow (seenGrid p) = nr /\ grid_ncol (seenGrid p) = nc.

(** The seen grids have the size of the master grid. *)
Definition seen_ok (g : game) : Prop :=
  GridRow g = grid_nrow (masterGrid g) /\
  GridCol g = grid_ncol (masterGrid g) /\
  Forall (view_sized (GridRow g) (GridCol g)) (players g).

(** The cell (r,c) is in the view of the player: it is a cell of the master
    grid, not rock, and visible from where the player stands. *)
Definition in_view (master : grid_t) (p : player_t) (r c : Z) : bool :=
  in_grid master r c && negb (grid_isRock master r c) &&
  grid_isVisible master (row p) (col p) r c.

(** What the player's own grid shows at (r,c): '@' where the player stands,
    the character of the master grid on a cell in view, and neither gold nor
    a player on a cell out of view. *)
Definition view_ok (master : grid_t) (p : player_t) (r c : Z) : Prop :=
  if (row p =? r) && (col p =? c) then grid_getchar (seenGrid p) r c = "@"%char
  else if in_view master p r c
  then grid_getchar (seenGrid p) r c = grid_getchar master r c
  else grid_isGold (seenGrid p) r c = false /\
       grid_isPlayer (seenGrid p) r c = false.

(** The views of all the players are up to date. *)
Definition fresh (g : game) : Prop :=
  forall i p, players g !! i = Some p -> forall r c, view_ok (masterGrid g) p r c.

(** The board is in order and watched: the players are inside the grid and
    their views are up to date. *)
Definition watched (g : game) : Prop :=
  board_in_order g /\ inside g /\ seen_ok g /\ fresh g.

(** * Properties *)

(** ** Ranges and cells *)

Lemma in_upto lo hi x : In x (upto lo hi) <-> lo <= x < hi.
Proof.
  unfold upto. rewrite in_map_iff. split.
  - intros [k [<- Hk]]. apply in_seq in Hk. lia.
  - intros H. exists (Z.to_nat (x - lo)). split; [lia|].
    apply in_seq. lia.
Qed.

Lemma in_cells nr nc r c : In (r, c) (cells nr nc) <-> (0 <= r < nr /\ 0 <= c < nc).
Proof.
  unfold cells. rewrite in_flat_map. split.
  - intros [r' [Hr Hc]]. apply in_map_iff in Hc as [c' [E Hc]].
    inversion E; subst. apply in_upto in Hr. apply in_upto in Hc. lia.
  - intros [Hr Hc]. exists r. split; [apply in_upto; lia|].
    apply in_map_iff. exists c. split; [reflexivity|apply in_upto; lia].
Qed.

Lemma existsb_agree {A} (f g : A -> bool) (l : list A) :
  (forall x, In x l -> f x = g x) -> existsb f l = existsb g l.
Proof.
  induction l as [|a l IH]; intros H; simpl; [reflexivity|].
  rewrite (H a) by (left; reflexivity).
  rewrite IH; [reflexivity|]. intros x Hx. apply H. right. exact Hx.
Qed.

(** ** Line of sight *)

Lemma lower_end a b : (if a >? b then b else a) = Z.min a b.
Proof. destruct (Z.gtb_spec a b); lia. Qed.

Lemma upper_end a b : (if a >? b then a else b) = Z.max a b.
Proof. destruct (Z.gtb_spec a b); lia. Qed.

(** ** Single precision *)

(** Powers of two *)
Lemma pow2_gt0 n : 0 <= n -> 0 < 2 ^ n.
Proof. intros. apply Z.pow_pos_nonneg; lia. Qed.

Lemma pow2_split a b : 0 <= a -> 0 <= b -> 2 ^ (a + b) = 2 ^ a * 2 ^ b.
Proof. intros. apply Z.pow_add_r; lia. Qed.

Lemma pow2_lt a b : 0 <= b -> a < b -> 2 ^ a < 2 ^ b.
Proof. intros. apply Z.pow_lt_mono_r; lia. Qed.

Lemma pow2_le a b : a <= b -> 2 ^ a <= 2 ^ b.
Proof. intros. apply Z.pow_le_mono_r; lia. Qed.

Lemma pow2_lt_inv a b : 0 <= b -> 2 ^ a < 2 ^ b -> a < b.
Proof.
  intros Hb H. destruct (Z_lt_le_dec a b) as [|Hle]; [assumption|].
  apply pow2_le in Hle. lia.
Qed.

Lemma pow2_xO p : 2 ^ Zpos p~0 = 2 ^ Zpos p * 2 ^ Zpos p.
Proof.
  rewrite (Pos2Z.inj_xO p). replace (2 * Zpos p) with (Zpos p + Zpos p) by lia.
  apply pow2_split; lia.
Qed.

Lemma pow2_xI p : 2 ^ Zpos p~1 = 2 * 2 ^ Zpos p * 2 ^ Zpos p.
Proof.
  rewrite (Pos2Z.inj_xI p). replace (2 * Zpos p + 1) with (1 + Zpos p + Zpos p) by lia.
  rewrite !pow2_split by lia. reflexivity.
Qed.

(** Digits *)
Lemma digits2_pos_bounds p :
  2 ^ (Zpos (digits2_pos p) - 1) <= Zpos p < 2 ^ Zpos (digits2_pos p).
Proof.
  induction p as [p IH|p IH|]; cbn [digits2_pos]; rewrite ?Pos2Z.inj_succ.
  - set (d := Zpos (digits2_pos p)) in *.
    assert (Hd : 0 < d) by (unfold d; lia).
    replace (Z.succ d - 1) with d by lia.
    assert (E1 : 2 ^ d = 2 * 2 ^ (d - 1))
      by (rewrite <- Z.pow_succ_r by lia; f_equal; lia).
    rewrite Z.pow_succ_r by lia. rewrite (Pos2Z.inj_xI p). lia.
  - set (d := Zpos (digits2_pos p)) in *.
    assert (Hd : 0 < d) by (unfold d; lia).
    replace (Z.succ d - 1) with d by lia.
    assert (E1 : 2 ^ d = 2 * 2 ^ (d - 1))
      by (rewrite <- Z.pow_succ_r by lia; f_equal; lia).
    rewrite Z.pow_succ_r by lia. rewrite (Pos2Z.inj_xO p). lia.
  - simpl. lia.
Qed.

Lemma Zdigits2_bounds m :
  0 < m -> 2 ^ (Zdigits2 m - 1) <= m < 2 ^ Zdigits2 m /\ 0 < Zdigits2 m.
Proof.
  destruct m as [|p|p]; try lia. intros _. split; [apply digits2_pos_bounds|]. simpl. lia.
Qed.

Lemma Zdigits2_unique m d :
  2 ^ (d - 1) <= m < 2 ^ d -> 0 < d -> Zdigits2 m = d.
Proof.
  intros Hm Hd.
  assert (0 < m) by (pose proof (pow2_gt0 (d - 1)); lia).
  destruct (Zdigits2_bounds m) as (Hb & Hp); [assumption|].
  assert (Zdigits2 m - 1 < d) by (apply pow2_lt_inv; lia).
  assert (d - 1 < Zdigits2 m) by (apply pow2_lt_inv; lia).
  lia.
Qed.

Lemma Zdigits2_le m k : 0 <= m < 2 ^ k -> 0 <= k -> Zdigits2 m <= k.
Proof.
  intros Hm Hk. destruct (Z.eq_dec m 0) as [->|Hz]; [simpl; lia|].
  destruct (Zdigits2_bounds m) as (Hb & Hp); [lia|].
  assert (Zdigits2 m - 1 < k) by (apply pow2_lt_inv; lia). lia.
Qed.

Lemma Zdigits2_log2 m : 0 < m -> Zdigits2 m = Z.log2 m + 1.
Proof.
  intros Hm. apply Zdigits2_unique.
  - replace (Z.log2 m + 1 - 1) with (Z.log2 m) by lia.
    rewrite Z.add_1_r. apply Z.log2_spec. assumption.
  - pose proof (Z.log2_nonneg m). lia.
Qed.

(** Shifting to the right *)
Lemma shr_1_spec mrs :
  0 <= shr_m mrs ->
  shr_m (shr_1 mrs) = shr_m mrs / 2 /\
  inexact (shr_1 mrs) = inexact mrs || Z.odd (shr_m mrs).
Proof.
  destruct mrs as [m r s]. unfold inexact. cbn [shr_m shr_r shr_s]. intros Hm.
  rewrite <- Z.div2_div.
  destruct m as [|[p|p|]|p]; try lia; cbn; split; try reflexivity;
    destruct r, s; reflexivity.
Qed.

Lemma shift_compose m a b :
  0 <= m -> 0 < a -> 0 < b ->
  m / a / b = m / (a * b) /\
  (m mod (a * b) =? 0) = (m mod a =? 0) && ((m / a) mod b =? 0).
Proof.
  intros Hm Ha Hb. split.
  - apply Z.div_div; lia.
  - rewrite Z.rem_mul_r by lia.
    pose proof (Z.mod_pos_bound m a Ha). pose proof (Z.mod_pos_bound (m / a) b Hb).
    destruct (Z.eqb_spec (m mod a) 0) as [E1|E1];
      destruct (Z.eqb_spec ((m / a) mod b) 0) as [E2|E2]; cbn [andb];
      try (apply Z.eqb_eq; nia); apply Z.eqb_neq; nia.
Qed.

Lemma iter_shr_spec p : forall mrs,
  0 <= shr_m mrs ->
  shr_m (SpecFloat.iter_pos shr_1 p mrs) = shr_m mrs / 2 ^ Zpos p /\
  inexact (SpecFloat.iter_pos shr_1 p mrs) =
    inexact mrs || negb (shr_m mrs mod 2 ^ Zpos p =? 0).
Proof.
  induction p as [p IH|p IH|]; intros mrs Hm; cbn [SpecFloat.iter_pos].
  - destruct (shr_1_spec mrs Hm) as (M1 & I1).
    assert (H1 : 0 <= shr_m (shr_1 mrs)) by (rewrite M1; apply Z.div_pos; lia).
    destruct (IH _ H1) as (M2 & I2).
    assert (H2 : 0 <= shr_m (SpecFloat.iter_pos shr_1 p (shr_1 mrs)))
      by (rewrite M2; apply Z.div_pos; [lia|apply pow2_gt0; lia]).
    destruct (IH _ H2) as (M3 & I3).
    rewrite M3, I3, M2, I2, M1, I1.
    pose proof (pow2_gt0 (Zpos p) ltac:(lia)) as Hp.
    rewrite pow2_xI.
    destruct (shift_compose (shr_m mrs) 2 (2 ^ Zpos p)) as (D1 & R1); try lia.
    destruct (shift_compose (shr_m mrs) (2 * 2 ^ Zpos p) (2 ^ Zpos p)) as (D2 & R2);
      try lia.
    rewrite R2, R1, <- D2, <- D1. split; [reflexivity|].
    rewrite Zmod_odd.
    destruct (inexact mrs), (Z.odd (shr_m mrs)),
      (shr_m mrs / 2 mod 2 ^ Zpos p =? 0),
      (shr_m mrs / 2 / 2 ^ Zpos p mod 2 ^ Zpos p =? 0); reflexivity.
  - destruct (IH _ Hm) as (M2 & I2).
    assert (H2 : 0 <= shr_m (SpecFloat.iter_pos shr_1 p mrs))
      by (rewrite M2; apply Z.div_pos; [lia|apply pow2_gt0; lia]).
    destruct (IH _ H2) as (M3 & I3).
    rewrite M3, I3, M2, I2.
    pose proof (pow2_gt0 (Zpos p) ltac:(lia)) as Hp.
    rewrite pow2_xO.
    destruct (shift_compose (shr_m mrs) (2 ^ Zpos p) (2 ^ Zpos p)) as (D2 & R2);
      try lia.
    rewrite R2, <- D2. split; [reflexivity|].
    destruct (inexact mrs), (shr_m mrs mod 2 ^ Zpos p =? 0),
      (shr_m mrs / 2 ^ Zpos p mod 2 ^ Zpos p =? 0); reflexivity.
  - destruct (shr_1_spec mrs Hm) as (M1 & I1). rewrite M1, I1.
    change (2 ^ 1) with 2. split; [reflexivity|].
    rewrite Zmod_odd. destruct (inexact mrs), (Z.odd (shr_m mrs)); reflexivity.
Qed.

Lemma fexp32 e : fexp 24 128 e = Z.max (e - 24) (-149).
Proof. reflexivity. Qed.

Lemma loc_of_record m l : loc_of_shr_record (shr_record_of_loc m l) = l.
Proof. destruct l as [|[| |]]; reflexivity. Qed.

Lemma shr_m_record m l : shr_m (shr_record_of_loc m l) = m.
Proof. destruct l as [|[| |]]; reflexivity. Qed.

Lemma inexact_record m l : inexact (shr_record_of_loc m l) = false <-> l = loc_Exact.
Proof. destruct l as [|[| |]]; cbn; split; congruence. Qed.

Lemma inexact_loc mrs : inexact mrs = false <-> loc_of_shr_record mrs = loc_Exact.
Proof. destruct mrs as [m [|] [|]]; cbn; split; congruence. Qed.

Lemma round_nearest_even_bounds m l :
  m <= round_nearest_even m l <= m + 1 /\
  (l = loc_Exact -> round_nearest_even m l = m).
Proof.
  destruct l as [|[| |]]; cbn [round_nearest_even]; try destruct (Z.even m);
    split; try lia; try reflexivity; discriminate.
Qed.

(** A value between [L * 2^t] and [H * 2^t] stays there when it is shifted
    to the exponent of its size. *)
Lemma shr_fexp_between mx ex lx t L H :
  -149 <= t -> ex <= t -> 0 <= L -> H < 2 ^ 24 ->
  L * 2 ^ (t - ex) <= mx ->
  (mx < H * 2 ^ (t - ex) \/ (mx = H * 2 ^ (t - ex) /\ lx = loc_Exact)) ->
  exists mrs e',
    shr_fexp 24 128 mx ex lx = (mrs, e') /\ ex <= e' <= t /\
    L * 2 ^ (t - e') <= shr_m mrs /\
    (shr_m mrs < H * 2 ^ (t - e') \/
     (shr_m mrs = H * 2 ^ (t - e') /\ loc_of_shr_record mrs = loc_Exact)).
Proof.
  intros Ht Hex HL HH Hlo Hhi.
  pose proof (pow2_gt0 (t - ex) ltac:(lia)) as Hp.
  assert (Hm : 0 <= mx) by nia.
  unfold shr_fexp, shr.
  destruct (fexp 24 128 (Zdigits2 mx + ex) - ex) as [|p|p] eqn:En.
  - exists (shr_record_of_loc mx lx), ex.
    rewrite shr_m_record, loc_of_record. repeat split; try lia; assumption.
  - assert (Hd : Zdigits2 mx <= 24 + (t - ex)).
    { apply Zdigits2_le; [|lia]. split; [assumption|].
      rewrite pow2_split by lia. nia. }
    rewrite fexp32 in En.
    set (e' := ex + Zpos p).
    assert (He' : ex < e' <= t) by (unfold e'; lia).
    pose proof (pow2_gt0 (t - e') ltac:(lia)) as Hp'.
    pose proof (pow2_gt0 (Zpos p) ltac:(lia)) as Hpp.
    assert (Es : 2 ^ (t - ex) = 2 ^ (t - e') * 2 ^ Zpos p).
    { rewrite <- pow2_split by lia. f_equal. unfold e'. lia. }
    destruct (iter_shr_spec p (shr_record_of_loc mx lx)) as (M & I);
      [rewrite shr_m_record; assumption|].
    rewrite shr_m_record in M, I.
    exists (SpecFloat.iter_pos shr_1 p (shr_record_of_loc mx lx)), e'.
    split; [reflexivity|]. split; [lia|]. rewrite M. split.
    + apply Z.div_le_lower_bound; [assumption|]. nia.
    + destruct Hhi as [Hlt|(Heq & Hl)].
      * left. apply Z.div_lt_upper_bound; [assumption|]. nia.
      * right. split.
        -- rewrite Heq, Es, Z.mul_assoc. apply Z.div_mul. lia.
        -- apply inexact_loc. rewrite I.
           rewrite Heq, Es, Z.mul_assoc, Z.mod_mul by lia.
           rewrite (proj2 (inexact_record _ _) Hl). reflexivity.
  - exists (shr_record_of_loc mx lx), ex.
    rewrite shr_m_record, loc_of_record. repeat split; try lia; assumption.
Qed.

(** Rounding keeps a value between two values that are multiples of
    [2^t] and below [2^(24+t)]. *)
Lemma binary_round_aux_between s mx ex lx t L H :
  -149 <= t <= 104 -> ex <= t -> 1 <= L -> H < 2 ^ 24 ->
  L * 2 ^ (t - ex) <= mx ->
  (mx < H * 2 ^ (t - ex) \/ (mx = H * 2 ^ (t - ex) /\ lx = loc_Exact)) ->
  exists m e,
    binary_round_aux 24 128 s mx ex lx = S754_finite s m e /\ e <= t /\
    L * 2 ^ (t - e) <= Zpos m <= H * 2 ^ (t - e).
Proof.
  intros Ht Hex HL HH Hlo Hhi.
  destruct (shr_fexp_between mx ex lx t L H) as (mrs1 & e1 & E1 & He1 & Lo1 & Hi1);
    try lia; try assumption.
  unfold binary_round_aux. rewrite E1.
  destruct (round_nearest_even_bounds (shr_m mrs1) (loc_of_shr_record mrs1)) as (Rb & Re).
  set (m2 := round_nearest_even (shr_m mrs1) (loc_of_shr_record mrs1)) in *.
  destruct (shr_fexp_between m2 e1 loc_Exact t L H) as (mrs2 & e2 & E2 & He2 & Lo2 & Hi2);
    try lia.
  { destruct Hi1 as [Hlt|(Heq & Hl)].
    - assert (m2 <= H * 2 ^ (t - e1)) by lia.
      destruct (Z.eq_dec m2 (H * 2 ^ (t - e1))); [right; split; [assumption|reflexivity]|left; lia].
    - right. split; [|reflexivity]. rewrite (Re Hl). assumption. }
  rewrite E2.
  pose proof (pow2_gt0 (t - e2) ltac:(lia)) as Hp.
  destruct (shr_m mrs2) as [|m|m] eqn:Em; try nia.
  exists m, e2. replace (e2 <=? 128 - 24) with true by (symmetry; apply Z.leb_le; lia).
  split; [reflexivity|]. split; [lia|]. split; [assumption|].
  destruct Hi2 as [?|(? & _)]; lia.
Qed.

(** Rounding leaves a value of 24 bits as it is. *)
Lemma binary_round_aux_exact s mx ex M E :
  2 ^ 23 <= M < 2 ^ 24 -> -149 <= E <= 104 -> ex <= E ->
  mx = M * 2 ^ (E - ex) ->
  binary_round_aux 24 128 s mx ex loc_Exact = S754_finite s (Z.to_pos M) E.
Proof.
  intros HM HE Hex ->.
  pose proof (pow2_gt0 (E - ex) ltac:(lia)) as Hp.
  assert (Hd : Zdigits2 (M * 2 ^ (E - ex)) = 24 + (E - ex)).
  { apply Zdigits2_unique; [|lia].
    replace (24 + (E - ex) - 1) with (23 + (E - ex)) by lia.
    rewrite !pow2_split by lia. nia. }
  assert (Hd' : Zdigits2 M = 24) by (apply Zdigits2_unique; [exact HM|lia]).
  assert (E1 : shr_fexp 24 128 (M * 2 ^ (E - ex)) ex loc_Exact =
               ({| shr_m := M; shr_r := false; shr_s := false |}, E)).
  { unfold shr_fexp, shr. rewrite Hd, fexp32.
    replace (Z.max (24 + (E - ex) + ex - 24) (-149) - ex) with (E - ex) by lia.
    destruct (E - ex) as [|p|p] eqn:En; try lia.
    - rewrite Z.mul_1_r. cbn [shr_record_of_loc]. f_equal. lia.
    - destruct (iter_shr_spec p (shr_record_of_loc (M * 2 ^ Zpos p) loc_Exact)) as (Hm & Hi);
        [cbn; lia|].
      cbn [shr_record_of_loc shr_m] in Hm, Hi.
      rewrite Z.div_mul in Hm by lia. rewrite Z.mod_mul in Hi by lia.
      cbn in Hi. unfold inexact in Hi. apply orb_false_iff in Hi as (Hr & Hs).
      destruct (SpecFloat.iter_pos shr_1 p _) as [m r s0]. cbn in Hm, Hr, Hs. subst.
      f_equal. lia. }
  unfold binary_round_aux. rewrite E1. cbn [shr_m loc_of_shr_record round_nearest_even].
  assert (E2 : shr_fexp 24 128 M E loc_Exact =
               ({| shr_m := M; shr_r := false; shr_s := false |}, E)).
  { unfold shr_fexp, shr. rewrite Hd', fexp32.
    replace (Z.max (24 + E - 24) (-149) - E) with 0 by lia. reflexivity. }
  rewrite E2. cbn [shr_m].
  destruct M as [|m|m]; try lia.
  replace (E <=? 128 - 24) with true by (symmetry; apply Z.leb_le; lia).
  reflexivity.
Qed.

Lemma f32_mant_bounds z :
  0 < Z.abs z < 2 ^ 24 ->
  2 ^ 23 <= f32_mant z < 2 ^ 24 /\ -23 <= f32_exp z <= 0.
Proof.
  intros Hz. unfold f32_mant, f32_exp.
  destruct (Z.log2_spec (Z.abs z)) as (Hl & Hu); [lia|].
  pose proof (Z.log2_nonneg (Z.abs z)) as Hn.
  assert (Hlt : Z.log2 (Z.abs z) < 24) by (apply Z.log2_lt_pow2; lia).
  set (l := Z.log2 (Z.abs z)) in *.
  replace (- (l - 23)) with (23 - l) by lia.
  pose proof (pow2_gt0 (23 - l) ltac:(lia)) as Hp.
  assert (E1 : 2 ^ 23 = 2 ^ l * 2 ^ (23 - l))
    by (rewrite <- pow2_split by lia; f_equal; lia).
  assert (E2 : 2 ^ 24 = 2 ^ Z.succ l * 2 ^ (23 - l))
    by (rewrite <- pow2_split by lia; f_equal; lia).
  split; [|lia]. rewrite E1, E2. split; nia.
Qed.

Lemma f32_exp_digits z : 0 < Z.abs z -> Zdigits2 (Z.abs z) = f32_exp z + 24.
Proof. intros. rewrite Zdigits2_log2 by assumption. unfold f32_exp. lia. Qed.

Lemma iter_xO m d : Zpos (Pos.iter xO m d) = Zpos m * 2 ^ Zpos d.
Proof.
  induction d as [|d IH] using Pos.peano_ind.
  - cbn [Pos.iter]. rewrite (Pos2Z.inj_xO m). change (2 ^ 1) with 2. ring.
  - rewrite Pos.iter_succ, (Pos2Z.inj_xO (Pos.iter xO m d)), IH, Pos2Z.inj_succ.
    rewrite Z.pow_succ_r by lia. ring.
Qed.

Lemma shl_align_spec m e e' :
  snd (shl_align m e e') = Z.min e e' /\
  Zpos (fst (shl_align m e e')) = Zpos m * 2 ^ (e - Z.min e e').
Proof.
  unfold shl_align. destruct (e' - e) as [|d|d] eqn:Ed; cbn [fst snd].
  - replace (Z.min e e') with e by lia. rewrite Z.sub_diag. split; lia.
  - replace (Z.min e e') with e by lia. rewrite Z.sub_diag. split; lia.
  - replace (Z.min e e') with e' by lia. split; [reflexivity|].
    rewrite iter_xO. f_equal. f_equal. lia.
Qed.

(** Rounding a whole number below 2^24. *)
Lemma binary_round_exact s p e K :
  0 < K < 2 ^ 24 -> e <= 0 -> Zpos p = K * 2 ^ (- e) ->
  binary_round 24 128 s p e = S754_finite s (Z.to_pos (f32_mant K)) (f32_exp K).
Proof.
  intros HK He Hp.
  assert (Ha : Z.abs K = K) by lia.
  destruct (f32_mant_bounds K) as (HM & HE); [lia|].
  pose proof (f32_exp_digits K ltac:(lia)) as Hd. rewrite Ha in Hd.
  pose proof (pow2_gt0 (- e) ltac:(lia)) as Hpe.
  assert (Hdp : Zpos (digits2_pos p) = f32_exp K + 24 + (- e)).
  { change (Zpos (digits2_pos p)) with (Zdigits2 (Zpos p)). rewrite Hp.
    destruct (Zdigits2_bounds K) as (Hb & _); [lia|]. rewrite Hd in Hb.
    apply Zdigits2_unique; [|lia].
    replace (f32_exp K + 24 + - e - 1) with ((f32_exp K + 24 - 1) + - e) by lia.
    rewrite !pow2_split by lia. nia. }
  unfold binary_round. rewrite Hdp, fexp32.
  replace (Z.max (f32_exp K + 24 + - e + e - 24) (-149)) with (f32_exp K) by lia.
  destruct (shl_align_spec p e (f32_exp K)) as (Hs & Hf).
  destruct (shl_align p e (f32_exp K)) as [mz ez]. cbn [fst snd] in Hs, Hf. subst ez.
  apply binary_round_aux_exact; try lia.
  rewrite Hf, Hp. unfold f32_mant. rewrite Ha.
  rewrite <- !Z.mul_assoc, <- !pow2_split by lia. f_equal. f_equal. lia.
Qed.

Lemma binary_round_between s p e t L H :
  -149 <= t <= 104 -> e <= t -> 1 <= L -> H < 2 ^ 24 ->
  L * 2 ^ (t - e) <= Zpos p <= H * 2 ^ (t - e) ->
  exists m e',
    binary_round 24 128 s p e = S754_finite s m e' /\ e' <= t /\
    L * 2 ^ (t - e') <= Zpos m <= H * 2 ^ (t - e').
Proof.
  intros Ht He HL HH Hp. unfold binary_round.
  set (e1 := fexp 24 128 (Zpos (digits2_pos p) + e)).
  destruct (shl_align_spec p e e1) as (Hs & Hf).
  destruct (shl_align p e e1) as [mz ez]. cbn [fst snd] in Hs, Hf.
  assert (Hez : ez <= e) by lia.
  pose proof (pow2_gt0 (e - ez) ltac:(lia)) as Hq.
  assert (Es : 2 ^ (t - ez) = 2 ^ (t - e) * 2 ^ (e - ez))
    by (rewrite <- pow2_split by lia; f_equal; lia).
  apply binary_round_aux_between; try lia.
  - rewrite Hf, Es, <- Hs. nia.
  - rewrite Hf, Es, <- Hs.
    destruct (Z.eq_dec (Zpos p) (H * 2 ^ (t - e))) as [E|E].
    + right. split; [rewrite E; ring|reflexivity].
    + left. nia.
Qed.

Lemma f32_of_int_0 : f32_of_int 0 = S754_zero false.
Proof. reflexivity. Qed.

Lemma f32_of_int_finite z :
  0 < Z.abs z < 2 ^ 24 ->
  f32_of_int z = S754_finite (z <? 0) (Z.to_pos (f32_mant z)) (f32_exp z).
Proof.
  intros Hz. destruct z as [|p|p]; [lia| |].
  - unfold f32_of_int, binary_normalize.
    rewrite (binary_round_exact false p 0 (Zpos p)); try lia. reflexivity.
  - unfold f32_of_int, binary_normalize.
    rewrite (binary_round_exact true p 0 (Zpos p)); try lia. reflexivity.
Qed.

Lemma f32_mant_pos z : 0 < Z.abs z < 2 ^ 24 -> Zpos (Z.to_pos (f32_mant z)) = f32_mant z.
Proof. intros Hz. destruct (f32_mant_bounds z Hz). apply Z2Pos.id. lia. Qed.

Lemma ltb_mul a d : a <> 0 -> d <> 0 -> xorb (a <? 0) (d <? 0) = (a * d <? 0).
Proof.
  intros Ha Hd.
  destruct (Z.ltb_spec a 0), (Z.ltb_spec d 0), (Z.ltb_spec (a * d) 0);
    cbn; try reflexivity; nia.
Qed.

(** A product below 2^24 in size is exact. *)
Lemma SFmul_exact a d :
  a <> 0 -> d <> 0 -> Z.abs (a * d) < 2 ^ 24 ->
  SFmul 24 128 (f32_of_int a) (f32_of_int d) = f32_of_int (a * d).
Proof.
  intros Ha Hd Hp.
  assert (Hab : 0 < Z.abs a < 2 ^ 24) by (rewrite Z.abs_mul in Hp; nia).
  assert (Hdb : 0 < Z.abs d < 2 ^ 24) by (rewrite Z.abs_mul in Hp; nia).
  assert (Hpb : 0 < Z.abs (a * d) < 2 ^ 24) by lia.
  rewrite (f32_of_int_finite a), (f32_of_int_finite d), (f32_of_int_finite (a * d))
    by assumption.
  destruct (f32_mant_bounds _ Hab) as (Ma & Ea).
  destruct (f32_mant_bounds _ Hdb) as (Md & Ed).
  destruct (f32_mant_bounds _ Hpb) as (Mp & Ep).
  cbn [SFmul]. rewrite ltb_mul by assumption.
  assert (Hlog : f32_exp a + f32_exp d <= f32_exp (a * d)).
  { unfold f32_exp. rewrite Z.abs_mul.
    pose proof (Z.log2_mul_below (Z.abs a) (Z.abs d) ltac:(lia) ltac:(lia)).
    pose proof (Z.log2_nonneg (Z.abs a)). lia. }
  apply binary_round_aux_exact; try lia.
  rewrite Pos2Z.inj_mul, !f32_mant_pos by assumption.
  unfold f32_mant. rewrite Z.abs_mul.
  rewrite <- (Z.mul_assoc _ (2 ^ _) (2 ^ _)), <- pow2_split by lia.
  replace (- f32_exp (a * d) + (f32_exp (a * d) - (f32_exp a + f32_exp d)))
    with (- f32_exp a + - f32_exp d) by lia.
  rewrite pow2_split by lia. ring.
Qed.

Lemma new_location_exact n r : new_location n r = loc_Exact <-> r = 0.
Proof.
  unfold new_location, new_location_even, new_location_odd.
  destruct (Z.even n); destruct (Z.eqb_spec r 0); split; intros; try congruence;
    discriminate.
Qed.

(** The division of two whole numbers below 2^24: the quotient of the
    mantissas with 24 more bits is what gets rounded. *)
Lemma SFdiv_ints X Y :
  0 < Z.abs X < 2 ^ 24 -> 0 < Z.abs Y < 2 ^ 24 ->
  SFdiv 24 128 (f32_of_int X) (f32_of_int Y) =
  binary_round_aux 24 128 (xorb (X <? 0) (Y <? 0))
    (f32_mant X * 2 ^ 24 / f32_mant Y) (f32_exp X - f32_exp Y - 24)
    (new_location (f32_mant Y) ((f32_mant X * 2 ^ 24) mod f32_mant Y)).
Proof.
  intros HX HY.
  rewrite (f32_of_int_finite X), (f32_of_int_finite Y) by assumption.
  destruct (f32_mant_bounds _ HX) as (MX & EX).
  destruct (f32_mant_bounds _ HY) as (MY & EY).
  cbn [SFdiv]. unfold SFdiv_core_binary.
  rewrite !f32_mant_pos by assumption.
  rewrite (Zdigits2_unique (f32_mant X) 24), (Zdigits2_unique (f32_mant Y) 24)
    by (try exact MX; try exact MY; lia).
  rewrite fexp32.
  replace (Z.min (Z.max (24 + f32_exp X - (24 + f32_exp Y) - 24) (-149))
                 (f32_exp X - f32_exp Y))
    with (f32_exp X - f32_exp Y - 24) by lia.
  replace (f32_exp X - f32_exp Y - (f32_exp X - f32_exp Y - 24)) with 24 by lia.
  rewrite Z.shiftl_mul_pow2 by lia.
  unfold Z.div, Z.modulo.
  destruct (Z.div_eucl (f32_mant X * 2 ^ 24) (f32_mant Y)) as [q r]. reflexivity.
Qed.

(** An exact quotient is computed exactly. *)
Lemma SFdiv_exact Y K :
  Y <> 0 -> K <> 0 -> Z.abs (Y * K) < 2 ^ 24 ->
  SFdiv 24 128 (f32_of_int (Y * K)) (f32_of_int Y) = f32_of_int K.
Proof.
  intros HY0 HK0 Hp.
  assert (HY : 0 < Z.abs Y < 2 ^ 24) by (rewrite Z.abs_mul in Hp; nia).
  assert (HK : 0 < Z.abs K < 2 ^ 24) by (rewrite Z.abs_mul in Hp; nia).
  assert (HX : 0 < Z.abs (Y * K) < 2 ^ 24) by lia.
  rewrite SFdiv_ints by assumption. rewrite (f32_of_int_finite K) by assumption.
  destruct (f32_mant_bounds _ HX) as (MX & EX).
  destruct (f32_mant_bounds _ HY) as (MY & EY).
  destruct (f32_mant_bounds _ HK) as (MK & EK).
  set (e' := f32_exp (Y * K) - f32_exp Y - 24).
  assert (He' : e' <= f32_exp K).
  { unfold e', f32_exp. rewrite Z.abs_mul.
    pose proof (Z.log2_mul_above (Z.abs Y) (Z.abs K) ltac:(lia) ltac:(lia)). lia. }
  assert (Hq : f32_mant (Y * K) * 2 ^ 24 = Z.abs K * 2 ^ (- e') * f32_mant Y).
  { unfold f32_mant. rewrite Z.abs_mul.
    assert (Ep : 2 ^ (- f32_exp (Y * K)) * 2 ^ 24 = 2 ^ (- e') * 2 ^ (- f32_exp Y))
      by (rewrite <- !pow2_split by lia; f_equal; unfold e'; lia).
    rewrite <- !Z.mul_assoc, Ep. ring. }
  rewrite Hq, Z.div_mul, Z.mod_mul by lia.
  rewrite (proj2 (new_location_exact _ 0) eq_refl).
  replace (xorb (Y * K <? 0) (Y <? 0)) with (K <? 0).
  2:{ destruct (Z.ltb_spec (Y * K) 0), (Z.ltb_spec Y 0), (Z.ltb_spec K 0);
        cbn; try reflexivity; nia. }
  apply binary_round_aux_exact; try lia.
  unfold f32_mant. rewrite <- Z.mul_assoc, <- pow2_split by lia.
  f_equal. f_equal. lia.
Qed.

(** A quotient between two multiples of [2^t] is rounded to a value between
    them. *)
Lemma SFdiv_between X Y t L H :
  0 < Z.abs X < 2 ^ 24 -> 0 < Z.abs Y < 2 ^ 24 ->
  -149 <= t <= 0 -> 1 <= L -> H < 2 ^ 24 ->
  L * Z.abs Y <= Z.abs X * 2 ^ (- t) <= H * Z.abs Y ->
  exists m e,
    SFdiv 24 128 (f32_of_int X) (f32_of_int Y) =
      S754_finite (xorb (X <? 0) (Y <? 0)) m e /\ e <= t /\
    L * 2 ^ (t - e) <= Zpos m <= H * 2 ^ (t - e).
Proof.
  intros HX HY Ht HL HH Hb.
  rewrite SFdiv_ints by assumption.
  destruct (f32_mant_bounds _ HX) as (MX & EX).
  destruct (f32_mant_bounds _ HY) as (MY & EY).
  set (e' := f32_exp X - f32_exp Y - 24).
  pose proof (pow2_gt0 (- t) ltac:(lia)) as Hpt.
  assert (He' : e' <= t).
  { unfold e', f32_exp.
    assert (Hlt : Z.abs X * 2 ^ (- t) < Z.abs Y * 2 ^ 24) by nia.
    assert (Hlog : Z.log2 (Z.abs X * 2 ^ (- t)) <= Z.log2 (Z.abs Y * 2 ^ 24))
      by (apply Z.log2_le_mono; lia).
    rewrite !Z.log2_mul_pow2 in Hlog by lia. lia. }
  pose proof (pow2_gt0 (t - e') ltac:(lia)) as Hp.
  pose proof (pow2_gt0 (- f32_exp Y) ltac:(lia)) as Hq.
  assert (Hnum : f32_mant X * 2 ^ 24 =
                 Z.abs X * 2 ^ (- t) * 2 ^ (t - e') * 2 ^ (- f32_exp Y)).
  { unfold f32_mant. rewrite <- !Z.mul_assoc, <- !pow2_split by lia.
    f_equal. f_equal. unfold e'. lia. }
  assert (Hden : f32_mant Y = Z.abs Y * 2 ^ (- f32_exp Y)) by reflexivity.
  apply binary_round_aux_between; try lia.
  - apply Z.div_le_lower_bound; [lia|]. rewrite Hnum, Hden. nia.
  - destruct (Z.eq_dec (Z.abs X * 2 ^ (- t)) (H * Z.abs Y)) as [E|E].
    + right. rewrite Hnum, E.
      replace (H * Z.abs Y * 2 ^ (t - e') * 2 ^ (- f32_exp Y))
        with (H * 2 ^ (t - e') * f32_mant Y) by (rewrite Hden; ring).
      rewrite Z.div_mul, Z.mod_mul by lia. split; [reflexivity|].
      apply new_location_exact. reflexivity.
    + left. apply Z.div_lt_upper_bound; [lia|]. rewrite Hnum, Hden. nia.
Qed.

Lemma cond_Zopp_mul s a b : cond_Zopp s (a * b) = cond_Zopp s a * b.
Proof. destruct s; cbn; ring. Qed.

Lemma cond_Zopp_abs z : cond_Zopp (z <? 0) (Z.abs z) = z.
Proof. destruct (Z.ltb_spec z 0); cbn; lia. Qed.

(** The sum of the mantissas that [SFadd] rounds, for a value [x] and a
    whole number [q]. *)
Lemma SFadd_int sx mx ex q :
  0 < Z.abs q < 2 ^ 24 ->
  let ez := Z.min ex (f32_exp q) in
  SFadd 24 128 (S754_finite sx mx ex) (f32_of_int q) =
  binary_normalize 24 128
    (cond_Zopp sx (Zpos mx) * 2 ^ (ex - ez) + q * 2 ^ (- ez)) ez false.
Proof.
  intros Hq ez. rewrite (f32_of_int_finite q) by assumption.
  destruct (f32_mant_bounds _ Hq) as (Mq & Eq).
  cbn [SFadd]. fold ez.
  destruct (shl_align_spec mx ex ez) as (_ & F1).
  destruct (shl_align_spec (Z.to_pos (f32_mant q)) (f32_exp q) ez) as (_ & F2).
  rewrite F1, F2, f32_mant_pos by assumption.
  replace (Z.min ex ez) with ez by lia.
  replace (Z.min (f32_exp q) ez) with ez by lia.
  f_equal. rewrite !cond_Zopp_mul. f_equal.
  unfold f32_mant. rewrite cond_Zopp_mul, cond_Zopp_abs.
  rewrite <- Z.mul_assoc, <- pow2_split by lia. f_equal. f_equal. lia.
Qed.

(** The sum of a value between two multiples of [2^t] and a whole number is
    rounded to a value between the sums. *)
Lemma SFadd_between sx mx ex q t A B :
  -149 <= t <= 0 -> ex <= t ->
  A * 2 ^ (t - ex) <= cond_Zopp sx (Zpos mx) <= B * 2 ^ (t - ex) ->
  0 < Z.abs q < 2 ^ (24 + t) ->
  let lo := A + q * 2 ^ (- t) in
  let hi := B + q * 2 ^ (- t) in
  (1 <= lo -> hi < 2 ^ 24 ->
   exists m e,
     SFadd 24 128 (S754_finite sx mx ex) (f32_of_int q) = S754_finite false m e /\
     e <= t /\ lo * 2 ^ (t - e) <= Zpos m <= hi * 2 ^ (t - e)) /\
  (hi <= -1 -> - 2 ^ 24 < lo ->
   exists m e,
     SFadd 24 128 (S754_finite sx mx ex) (f32_of_int q) = S754_finite true m e /\
     e <= t /\ (- hi) * 2 ^ (t - e) <= Zpos m <= (- lo) * 2 ^ (t - e)).
Proof.
  intros Ht Hex Hx Hq lo hi.
  assert (Hq24 : 0 < Z.abs q < 2 ^ 24).
  { split; [lia|]. apply Z.lt_le_trans with (2 ^ (24 + t)); [lia|apply pow2_le; lia]. }
  destruct (f32_mant_bounds _ Hq24) as (Mq & Eq).
  assert (Heq : f32_exp q <= t).
  { unfold f32_exp. assert (Z.log2 (Z.abs q) < 24 + t) by (apply Z.log2_lt_pow2; lia). lia. }
  rewrite SFadd_int by assumption. cbv zeta.
  set (ez := Z.min ex (f32_exp q)).
  assert (Hez : ez <= t) by (unfold ez; lia).
  pose proof (pow2_gt0 (t - ez) ltac:(lia)) as Hp.
  pose proof (pow2_gt0 (ex - ez) ltac:(unfold ez; lia)) as Hp1.
  pose proof (pow2_gt0 (t - ex) ltac:(lia)) as Hp2.
  pose proof (pow2_gt0 (- t) ltac:(lia)) as Hp3.
  assert (E1 : 2 ^ (t - ez) = 2 ^ (t - ex) * 2 ^ (ex - ez))
    by (rewrite <- pow2_split by (unfold ez; lia); f_equal; lia).
  assert (E2 : 2 ^ (- ez) = 2 ^ (- t) * 2 ^ (t - ez))
    by (rewrite <- pow2_split by lia; f_equal; lia).
  set (S := cond_Zopp sx (Zpos mx) * 2 ^ (ex - ez) + q * 2 ^ (- ez)).
  assert (HS : lo * 2 ^ (t - ez) <= S <= hi * 2 ^ (t - ez)).
  { unfold S, lo, hi. rewrite E2.
    set (P := 2 ^ (t - ez)) in *. set (P1 := 2 ^ (ex - ez)) in *.
    set (P2 := 2 ^ (t - ex)) in *. set (P3 := 2 ^ (- t)) in *.
    set (v := cond_Zopp sx (Zpos mx)) in *. clearbody P P1 P2 P3 v. subst P. nia. }
  clearbody S. split; intros H1 H2.
  - assert (HS0 : 0 < S) by nia.
    destruct S as [|p|p]; try lia. cbn [binary_normalize].
    apply binary_round_between; try lia.
  - assert (HS0 : S < 0) by nia.
    destruct S as [|p|p]; try lia. cbn [binary_normalize].
    apply binary_round_between; try lia.
Qed.

(** A whole sum below 2^24 in size is exact. *)
Lemma SFadd_exact k q :
  Z.abs k < 2 ^ 24 -> Z.abs q < 2 ^ 24 -> Z.abs (k + q) < 2 ^ 24 ->
  SFadd 24 128 (f32_of_int k) (f32_of_int q) = f32_of_int (k + q).
Proof.
  intros Hk Hq Hs.
  destruct (Z.eq_dec k 0) as [->|Hk0].
  { rewrite f32_of_int_0, Z.add_0_l.
    destruct (Z.eq_dec q 0) as [->|Hq0]; [reflexivity|].
    rewrite (f32_of_int_finite q) by lia. reflexivity. }
  destruct (Z.eq_dec q 0) as [->|Hq0].
  { rewrite f32_of_int_0, Z.add_0_r, (f32_of_int_finite k) by lia. reflexivity. }
  assert (Hk24 : 0 < Z.abs k < 2 ^ 24) by lia.
  assert (Hq24 : 0 < Z.abs q < 2 ^ 24) by lia.
  destruct (f32_mant_bounds _ Hk24) as (Mk & Ek).
  destruct (f32_mant_bounds _ Hq24) as (Mq & Eq).
  rewrite (f32_of_int_finite k) at 1 by assumption.
  rewrite SFadd_int by assumption. cbv zeta.
  set (ez := Z.min (f32_exp k) (f32_exp q)).
  assert (Hez : ez <= 0) by (unfold ez; lia).
  rewrite f32_mant_pos by assumption. unfold f32_mant at 1.
  rewrite cond_Zopp_mul, cond_Zopp_abs, <- Z.mul_assoc, <- pow2_split
    by (unfold ez; lia).
  replace (- f32_exp k + (f32_exp k - ez)) with (- ez) by lia.
  rewrite <- Z.mul_add_distr_r.
  pose proof (pow2_gt0 (- ez) ltac:(lia)) as Hp.
  destruct (Z.eq_dec (k + q) 0) as [E0|E0].
  { rewrite E0. reflexivity. }
  rewrite (f32_of_int_finite (k + q)) by lia.
  destruct ((k + q) * 2 ^ (- ez)) as [|p|p] eqn:Ep; try nia; cbn [binary_normalize].
  - replace (k + q <? 0) with false by (symmetry; apply Z.ltb_ge; nia).
    replace (f32_mant (k + q)) with (f32_mant (Z.abs (k + q)))
      by (unfold f32_mant, f32_exp; rewrite Z.abs_idemp; reflexivity).
    replace (f32_exp (k + q)) with (f32_exp (Z.abs (k + q)))
      by (unfold f32_exp; rewrite Z.abs_idemp; reflexivity).
    apply binary_round_exact; try lia. nia.
  - replace (k + q <? 0) with true by (symmetry; apply Z.ltb_lt; nia).
    replace (f32_mant (k + q)) with (f32_mant (Z.abs (k + q)))
      by (unfold f32_mant, f32_exp; rewrite Z.abs_idemp; reflexivity).
    replace (f32_exp (k + q)) with (f32_exp (Z.abs (k + q)))
      by (unfold f32_exp; rewrite Z.abs_idemp; reflexivity).
    apply binary_round_exact; try lia.
    change (Zpos p) with (- Zneg p). rewrite <- Ep. nia.
Qed.

(** The casts *)
Lemma shiftl_down m e : e <= 0 -> Z.shiftl m e = m / 2 ^ (- e).
Proof.
  intros He. rewrite <- (Z.opp_involutive e) at 1.
  change (Z.shiftl m (- - e)) with (Z.shiftr m (- e)).
  apply Z.shiftr_div_pow2. lia.
Qed.

Lemma f32_to_int_exact z : Z.abs z < 2 ^ 24 -> f32_to_int (f32_of_int z) = z.
Proof.
  intros Hz. destruct (Z.eq_dec z 0) as [->|Hz0]; [reflexivity|].
  assert (Hz24 : 0 < Z.abs z < 2 ^ 24) by lia.
  destruct (f32_mant_bounds _ Hz24) as (Mz & Ez).
  rewrite f32_of_int_finite by assumption. cbn [f32_to_int].
  rewrite f32_mant_pos, shiftl_down by (assumption || lia).
  unfold f32_mant. rewrite Z.div_mul by (pose proof (pow2_gt0 (- f32_exp z)); lia).
  apply cond_Zopp_abs.
Qed.

Lemma f32_to_int_between s m e t L H M :
  t <= 0 -> e <= t ->
  L * 2 ^ (t - e) <= Zpos m <= H * 2 ^ (t - e) ->
  M * 2 ^ (- t) <= L -> H < (M + 1) * 2 ^ (- t) ->
  f32_to_int (S754_finite s m e) = cond_Zopp s M.
Proof.
  intros Ht He Hm HL HH. cbn [f32_to_int]. f_equal.
  rewrite shiftl_down by lia.
  pose proof (pow2_gt0 (- t) ltac:(lia)) as Hp.
  pose proof (pow2_gt0 (t - e) ltac:(lia)) as Hq.
  assert (E : 2 ^ (- e) = 2 ^ (- t) * 2 ^ (t - e))
    by (rewrite <- pow2_split by lia; f_equal; lia).
  rewrite E. symmetry. apply Z.div_unique with (Zpos m - M * (2 ^ (- t) * 2 ^ (t - e))).
  - left. nia.
  - ring.
Qed.

Lemma SFeqb_finite s m e s' m' e' :
  SFeqb (S754_finite s m e) (S754_finite s' m' e') = true -> m = m' /\ e = e'.
Proof.
  unfold SFeqb, SFcompare.
  destruct s, s'; try discriminate;
    destruct (Z.compare_spec e e'); try discriminate;
    destruct (Pos.compare_cont Eq m m') eqn:Ec; try discriminate;
    intros _; split; try assumption; apply Pos.compare_eq; exact Ec.
Qed.

Lemma SFeqb_refl x :
  match x with S754_finite _ _ _ | S754_zero _ => True | _ => False end ->
  SFeqb x x = true.
Proof.
  destruct x as [s|s| |s m e]; try contradiction; intros _; [reflexivity|].
  unfold SFeqb, SFcompare. rewrite Z.compare_refl.
  change (Pos.compare_cont Eq m m) with (Pos.compare m m). rewrite Pos.compare_refl.
  destruct s; reflexivity.
Qed.

Lemma f32_whole_exact z : Z.abs z < 2 ^ 24 -> f32_whole (f32_of_int z) = true.
Proof.
  intros Hz. unfold f32_whole. rewrite f32_to_int_exact by assumption.
  apply SFeqb_refl. destruct (Z.eq_dec z 0) as [->|Hz0]; [exact I|].
  rewrite f32_of_int_finite by lia. exact I.
Qed.

Lemma f32_whole_between s m e t L H M :
  t <= 0 -> e <= t -> 0 <= M -> H < 2 ^ 24 ->
  L * 2 ^ (t - e) <= Zpos m <= H * 2 ^ (t - e) ->
  M * 2 ^ (- t) < L -> H < (M + 1) * 2 ^ (- t) ->
  f32_whole (S754_finite s m e) = false.
Proof.
  intros Ht He HM0 HH Hm HL HH'. unfold f32_whole.
  rewrite (f32_to_int_between s m e t L H M) by lia.
  pose proof (pow2_gt0 (- t) ltac:(lia)) as Hp.
  pose proof (pow2_gt0 (t - e) ltac:(lia)) as Hq.
  destruct (Z.eq_dec M 0) as [->|HM].
  { destruct s; reflexivity. }
  assert (HM24 : 0 < Z.abs (cond_Zopp s M) < 2 ^ 24) by (destruct s; cbn; nia).
  rewrite f32_of_int_finite by assumption.
  destruct (SFeqb _ _) eqn:Eb; [|reflexivity]. exfalso.
  apply SFeqb_finite in Eb as (Em & Ee).
  destruct (f32_mant_bounds _ HM24) as (MM & EM).
  assert (Em' : Zpos m = f32_mant (cond_Zopp s M))
    by (rewrite Em; apply f32_mant_pos; assumption).
  unfold f32_mant in Em'. rewrite <- Ee in Em'.
  replace (Z.abs (cond_Zopp s M)) with M in Em' by (destruct s; cbn; lia).
  assert (E : 2 ^ (- e) = 2 ^ (- t) * 2 ^ (t - e))
    by (rewrite <- pow2_split by lia; f_equal; lia).
  rewrite E in Em'. nia.
Qed.

(** Truncated division, from two bounds. *)
Lemma quot_char n e q' :
  e <> 0 -> Z.abs (n - e * q') < Z.abs e -> 0 <= (n - e * q') * n ->
  Z.quot n e = q' /\ Z.rem n e = n - e * q'.
Proof.
  intros He Hlt Hs.
  pose proof (Z.quot_rem' n e) as Hqr.
  pose proof (Z.rem_bound_abs n e He) as Hb.
  pose proof (Z.rem_sign_mul n e He) as Hm.
  set (r := Z.rem n e) in *. set (q0 := Z.quot n e) in *.
  assert (Hd : e * (q0 - q') = (n - e * q') - r) by lia.
  assert (Hr : Z.abs ((n - e * q') - r) < Z.abs e).
  { destruct (Z.lt_trichotomy n 0) as [Hn|[Hn|Hn]].
    - assert (r <= 0) by nia. assert (n - e * q' <= 0) by nia. lia.
    - assert (r = 0) by (unfold r; rewrite Hn; apply Z.rem_0_l; assumption). lia.
    - assert (0 <= r) by nia. assert (0 <= n - e * q') by nia. lia. }
  rewrite <- Hd, Z.abs_mul in Hr.
  assert (Z.abs (q0 - q') < 1) by nia.
  assert (q0 = q') by lia.
  split; [assumption|]. subst q'. lia.
Qed.

Lemma quot_between n e M :
  (0 < e /\ e * M < n < e * (M + 1)) \/ (e < 0 /\ e * (M + 1) < n < e * M) ->
  Z.quot n e = (if 0 <=? M then M else M + 1) /\ Z.rem n e <> 0.
Proof.
  intros H. destruct (Z.leb_spec 0 M) as [HM|HM].
  - assert (Hn : 0 <= (n - e * M) * n).
    { destruct H as [(He & Hn)|(He & Hn)].
      - assert (0 <= e * M) by nia. apply Z.mul_nonneg_nonneg; lia.
      - assert (e * M <= 0) by nia. apply Z.mul_nonpos_nonpos; lia. }
    destruct (quot_char n e M) as (Hq & Hr); [lia|lia|exact Hn|].
    split; [assumption|]. lia.
  - assert (Hn : 0 <= (n - e * (M + 1)) * n).
    { destruct H as [(He & Hn)|(He & Hn)].
      - assert (e * (M + 1) <= 0) by nia. apply Z.mul_nonpos_nonpos; lia.
      - assert (0 <= e * (M + 1)) by nia. apply Z.mul_nonneg_nonneg; lia. }
    destruct (quot_char n e (M + 1)) as (Hq & Hr); [lia|lia|exact Hn|].
    split; [assumption|]. lia.
Qed.

Lemma f32_of_int_cases z :
  Z.abs z < 2 ^ 24 ->
  (z = 0 /\ f32_of_int z = S754_zero false) \/
  (z <> 0 /\ exists m e, f32_of_int z = S754_finite (z <? 0) m e).
Proof.
  intros Hz. destruct (Z.eq_dec z 0) as [->|Hz0]; [left; split; reflexivity|].
  right. split; [assumption|]. rewrite f32_of_int_finite by lia. eauto.
Qed.

(** A ray through a whole number of cells. *)
Lemma ray_f32_zero a d e q :
  a * d = 0 -> e <> 0 ->
  Z.abs a < 2 ^ 24 -> Z.abs d < 2 ^ 24 -> Z.abs e < 2 ^ 24 -> Z.abs q < 2 ^ 24 ->
  let x := SFadd 24 128
    (SFdiv 24 128 (SFmul 24 128 (f32_of_int a) (f32_of_int d)) (f32_of_int e))
    (f32_of_int q) in
  f32_whole x = true /\ f32_to_int x = q.
Proof.
  intros Hz He Ha Hd Hee Hq x.
  assert (Hmul : exists s, SFmul 24 128 (f32_of_int a) (f32_of_int d) = S754_zero s).
  { destruct (f32_of_int_cases a Ha) as [(Ea & ->)|(Ea & ma & ea & ->)];
      destruct (f32_of_int_cases d Hd) as [(Ed & ->)|(Ed & md & ed & ->)];
      cbn [SFmul]; eauto. nia. }
  destruct Hmul as (s & Hmul).
  destruct (f32_of_int_cases e Hee) as [(E0 & _)|(_ & me & ee & Ee)]; [contradiction|].
  assert (Hx : x = f32_of_int q \/ (q = 0 /\ exists s', x = S754_zero s')).
  { unfold x. rewrite Hmul, Ee. cbn [SFdiv].
    destruct (f32_of_int_cases q Hq) as [(Eq & ->)|(Eq & mq & eq & ->)].
    - right. split; [assumption|]. cbn [SFadd]. destruct (xorb s (e <? 0)); eauto.
    - left. reflexivity. }
  destruct Hx as [->|(-> & s' & ->)].
  - split; [apply f32_whole_exact; assumption|apply f32_to_int_exact; assumption].
  - split; reflexivity.
Qed.

Lemma ray_f32_exact i p d e q :
  e <> 0 -> Z.abs (i - p) <= Z.abs e ->
  Z.abs d <= 2 ^ 11 -> Z.abs e <= 2 ^ 11 -> Z.abs q <= 2 ^ 11 ->
  f32_whole (ray_f32 i p d e q) = ray_whole (ray_at i p d e q) /\
  f32_to_int (ray_f32 i p d e q) = ray_int (ray_at i p d e q).
Proof.
  intros He Ha Hd Hee Hq.
  unfold ray_f32, ray_at, ray_whole, ray_int. cbn [ray_num ray_den].
  set (a := i - p) in *.
  change (2 ^ 11) with 2048 in *.
  assert (H24 : 2 ^ 24 = 16777216) by reflexivity.
  destruct (Z.eq_dec (a * d) 0) as [E0|E0].
  { destruct (ray_f32_zero a d e q) as (Hw & Hi); try lia.
    rewrite Hw, Hi, E0, Z.add_0_l, Z.rem_mul, Z.quot_mul by assumption.
    split; reflexivity. }
  assert (Ha0 : a <> 0) by nia. assert (Hd0 : d <> 0) by nia.
  assert (HX : Z.abs (a * d) <= 2048 * Z.abs e) by (rewrite Z.abs_mul; nia).
  rewrite SFmul_exact by lia.
  destruct (Z.eq_dec (Z.rem (a * d) e) 0) as [Er|Er].
  - (* the quotient is whole *)
    pose proof (Z.quot_rem' (a * d) e) as Hqr. rewrite Er, Z.add_0_r in Hqr.
    set (K := Z.quot (a * d) e) in *.
    assert (HK : Z.abs K <= 2048) by nia.
    rewrite Hqr, SFdiv_exact by nia.
    rewrite SFadd_exact, f32_whole_exact, f32_to_int_exact by lia.
    replace (e * K + q * e) with ((K + q) * e) by ring.
    rewrite Z.rem_mul, Z.quot_mul by assumption. split; reflexivity.
  - (* the quotient is not whole *)
    set (X := a * d) in *.
    set (kk := Z.abs X / Z.abs e).
    pose proof (Z.div_mod (Z.abs X) (Z.abs e) ltac:(lia)) as Hdm. fold kk in Hdm.
    pose proof (Z.mod_pos_bound (Z.abs X) (Z.abs e) ltac:(lia)) as Hrb.
    set (rr := Z.abs X mod Z.abs e) in *.
    assert (Hrr : rr <> 0).
    { intros E. apply Er. destruct (quot_char X e (Z.sgn X * Z.sgn e * kk)) as (_ & ->);
        nia. }
    assert (Hkk : 0 <= kk <= 2048) by nia.
    clearbody kk rr.
    destruct (SFdiv_between X e (-11) (2048 * kk + 1) (2048 * (kk + 1) - 1))
      as (m & ex & Ex & Hex & Hm); try lia.
    rewrite Ex.
    set (sv := xorb (X <? 0) (e <? 0)) in *.
    set (k := if sv then - kk - 1 else kk).
    assert (Hk : (0 < e /\ e * k < X < e * (k + 1)) \/ (e < 0 /\ e * (k + 1) < X < e * k)).
    { unfold k, sv. destruct (Z.ltb_spec X 0), (Z.ltb_spec e 0); cbn [xorb]; nia. }
    destruct (quot_between (X + q * e) e (k + q)) as (Hquot & Hrem); [nia|].
    rewrite Hquot. rewrite (proj2 (Z.eqb_neq _ _) Hrem).
    destruct (Z.eq_dec q 0) as [->|Hq0].
    + rewrite f32_of_int_0. cbn [SFadd]. rewrite Z.add_0_r.
      rewrite (f32_whole_between sv m ex (-11) (2048 * kk + 1) (2048 * (kk + 1) - 1) kk),
              (f32_to_int_between sv m ex (-11) (2048 * kk + 1) (2048 * (kk + 1) - 1) kk)
        by (try change (2 ^ (- -11)) with 2048; lia).
      split; [reflexivity|]. unfold k. destruct sv; cbn [cond_Zopp].
      * destruct (Z.leb_spec 0 (- kk - 1)); lia.
      * destruct (Z.leb_spec 0 kk); lia.
    + destruct (SFadd_between sv m ex q (-11)
                 (if sv then - (2048 * (kk + 1) - 1) else 2048 * kk + 1)
                 (if sv then - (2048 * kk + 1) else 2048 * (kk + 1) - 1))
        as (Hpos & Hneg); try lia.
      { destruct sv; cbn [cond_Zopp]; lia. }
      change (2 ^ (- -11)) with 2048 in Hpos, Hneg.
      assert (Elo : (if sv then - (2048 * (kk + 1) - 1) else 2048 * kk + 1) + q * 2048 =
                    2048 * (k + q) + 1) by (unfold k; destruct sv; lia).
      assert (Ehi : (if sv then - (2048 * kk + 1) else 2048 * (kk + 1) - 1) + q * 2048 =
                    2048 * (k + q + 1) - 1) by (unfold k; destruct sv; lia).
      cbv zeta in Hpos, Hneg. rewrite Elo, Ehi in Hpos, Hneg.
      assert (HkM : -2049 <= k <= 2048) by (unfold k; destruct sv; lia).
      destruct (Z.leb_spec 0 (k + q)) as [HM|HM].
      * destruct Hpos as (m' & e' & -> & He' & Hm'); try lia.
        rewrite (f32_whole_between false m' e' (-11) (2048 * (k + q) + 1)
                   (2048 * (k + q + 1) - 1) (k + q)),
                (f32_to_int_between false m' e' (-11) (2048 * (k + q) + 1)
                   (2048 * (k + q + 1) - 1) (k + q))
          by (try change (2 ^ (- -11)) with 2048; lia).
        split; reflexivity.
      * destruct Hneg as (m' & e' & -> & He' & Hm'); try lia.
        rewrite (f32_whole_between true m' e' (-11) (- (2048 * (k + q + 1) - 1))
                   (- (2048 * (k + q) + 1)) (- (k + q) - 1)),
                (f32_to_int_between true m' e' (-11) (- (2048 * (k + q + 1) - 1))
                   (- (2048 * (k + q) + 1)) (- (k + q) - 1))
          by (try change (2 ^ (- -11)) with 2048; lia).
        split; [reflexivity|]. cbn [cond_Zopp]. lia.
Qed.

(** ** The line of sight from both ends *)

(** Seen from the other end, the fraction has the opposite numerator and the
    opposite denominator. *)
Lemma ray_at_swap i pr pc r c :
  ray_at i r (pc - c) (pr - r) c =
  Ray (- ray_num (ray_at i pr (c - pc) (r - pr) pc)) (- (r - pr)).
Proof. unfold ray_at. simpl. f_equal; ring. Qed.

Lemma ray_int_swap i pr pc r c :
  r <> pr ->
  ray_int (ray_at i r (pc - c) (pr - r) c) = ray_int (ray_at i pr (c - pc) (r - pr) pc).
Proof.
  intros He. rewrite ray_at_swap. unfold ray_int. simpl.
  apply Z.quot_opp_opp. lia.
Qed.

Lemma ray_whole_swap i pr pc r c :
  r <> pr ->
  ray_whole (ray_at i r (pc - c) (pr - r) c) =
  ray_whole (ray_at i pr (c - pc) (r - pr) pc).
Proof.
  intros He. rewrite ray_at_swap. unfold ray_whole. simpl.
  rewrite Z.rem_opp_opp by lia.
  destruct (Z.eqb_spec (Z.rem ((i - pr) * (c - pc) + pc * (r - pr)) (r - pr)) 0) as [E|E].
  - rewrite E. reflexivity.
  - apply Z.eqb_neq. lia.
Qed.

(** One loop of [grid_isVisible] over the cells between the two ends, where
    the coordinates and their differences are at most 2^11 in size: the
    cells tested are those of the exact fraction. *)
Lemma line_exact (cell : Z -> Z -> bool) (p d e q lo hi : Z) :
  Z.min p (p + e) <= lo -> hi <= Z.max p (p + e) ->
  Z.abs d <= 2 ^ 11 -> Z.abs e <= 2 ^ 11 -> Z.abs q <= 2 ^ 11 ->
  existsb (fun i =>
      let ic := ray_f32 i p d e q in
      if f32_whole ic then cell i (f32_to_int ic)
      else cell i (f32_to_int ic) && cell i (f32_to_int ic + 1)) (upto (lo + 1) hi) =
  existsb (fun i =>
      let ic := ray_at i p d e q in
      if ray_whole ic then cell i (ray_int ic)
      else cell i (ray_int ic) && cell i (ray_int ic + 1)) (upto (lo + 1) hi).
Proof.
  intros Hlo Hhi Hd He Hq. apply existsb_agree. intros i Hi. apply in_upto in Hi.
  cbv zeta.
  destruct (ray_f32_exact i p d e q) as (-> & ->); try assumption; try lia.
  reflexivity.
Qed.

(** The line of sight is the same from both ends, for two cells whose
    coordinates are between 0 and 2^11. *)
Lemma grid_isVisible_swap (g : grid_t) (pr pc r c : Z) :
  0 <= pr <= 2 ^ 11 -> 0 <= pc <= 2 ^ 11 -> 0 <= r <= 2 ^ 11 -> 0 <= c <= 2 ^ 11 ->
  grid_isVisible g pr pc r c = grid_isVisible g r c pr pc.
Proof.
  intros Hpr Hpc Hr Hc.
  unfold grid_isVisible. rewrite !lower_end, !upper_end.
  rewrite (Z.min_comm r pr), (Z.max_comm r pr), (Z.min_comm c pc), (Z.max_comm c pc).
  rewrite (line_exact (fun i k => grid_isBlockable g i k) pr (c - pc) (r - pr) pc),
          (line_exact (fun i k => grid_isBlockable g i k) r (pc - c) (pr - r) c),
          (line_exact (fun j k => grid_isBlockable g k j) pc (r - pr) (c - pc) pr),
          (line_exact (fun j k => grid_isBlockable g k j) c (pr - r) (pc - c) r)
    by lia.
  assert (Hrows :
    existsb (fun i => let ic := ray_at i pr (c - pc) (r - pr) pc in
       if ray_whole ic then grid_isBlockable g i (ray_int ic)
       else grid_isBlockable g i (ray_int ic) && grid_isBlockable g i (ray_int ic + 1))
      (upto (Z.min pr r + 1) (Z.max pr r)) =
    existsb (fun i => let ic := ray_at i r (pc - c) (pr - r) c in
       if ray_whole ic then grid_isBlockable g i (ray_int ic)
       else grid_isBlockable g i (ray_int ic) && grid_isBlockable g i (ray_int ic + 1))
      (upto (Z.min pr r + 1) (Z.max pr r))).
  { apply existsb_agree. intros i Hi. apply in_upto in Hi. cbv zeta.
    rewrite (ray_whole_swap i pr pc r c), (ray_int_swap i pr pc r c) by lia.
    reflexivity. }
  assert (Hcols :
    existsb (fun j => let ir := ray_at j pc (r - pr) (c - pc) pr in
       if ray_whole ir then grid_isBlockable g (ray_int ir) j
       else grid_isBlockable g (ray_int ir) j && grid_isBlockable g (ray_int ir + 1) j)
      (upto (Z.min pc c + 1) (Z.max pc c)) =
    existsb (fun j => let ir := ray_at j c (pr - r) (pc - c) r in
       if ray_whole ir then grid_isBlockable g (ray_int ir) j
       else grid_isBlockable g (ray_int ir) j && grid_isBlockable g (ray_int ir + 1) j)
      (upto (Z.min pc c + 1) (Z.max pc c))).
  { apply existsb_agree. intros j Hj. apply in_upto in Hj. cbv zeta.
    rewrite (ray_whole_swap j pc pr c r), (ray_int_swap j pc pr c r) by lia.
    reflexivity. }
  cbv zeta in Hrows, Hcols. cbv beta zeta. rewrite Hrows, Hcols.
  destruct (Z.eqb_spec (r - pr) 0) as [Er|Er];
    destruct (Z.eqb_spec (pr - r) 0) as [Er'|Er']; try lia;
    destruct (Z.eqb_spec (c - pc) 0) as [Ec|Ec];
    destruct (Z.eqb_spec (pc - c) 0) as [Ec'|Ec']; try lia;
    try (assert (r = pr) by lia; subst r);
    try (assert (c = pc) by lia; subst c); reflexivity.
Qed.

(** ** Reading and writing cells *)

Lemma grid_wfb_wf g : grid_wfb g = true <-> grid_wf g.
Proof.
  unfold grid_wfb, grid_wf. rewrite !andb_true_iff, !Z.leb_le, Z.eqb_eq.
  split.
  - intros [[H1 H2] H3]. repeat split; try assumption.
    apply Nat2Z.inj. rewrite H3, Z2Nat.id; [reflexivity|].
    apply Z.mul_nonneg_nonneg; assumption.
  - intros (H1 & H2 & H3). repeat split; try assumption.
    rewrite H3, Z2Nat.id; [reflexivity|].
    apply Z.mul_nonneg_nonneg; assumption.
Qed.

Lemma in_grid_spec g r c :
  in_grid g r c = true <-> (0 <= r < grid_nrow g /\ 0 <= c < grid_ncol g).
Proof.
  unfold in_grid. rewrite !andb_true_iff, !Z.leb_le, !Z.ltb_lt. lia.
Qed.

Lemma in_grid_update g r c ch r' c' :
  in_grid (grid_update g r c ch) r' c' = in_grid g r' c'.
Proof. unfold grid_update. destruct (in_grid g r c); reflexivity. Qed.

Lemma grid_nrow_update g r c ch : grid_nrow (grid_update g r c ch) = grid_nrow g.
Proof. unfold grid_update. destruct (in_grid g r c); reflexivity. Qed.

Lemma grid_ncol_update g r c ch : grid_ncol (grid_update g r c ch) = grid_ncol g.
Proof. unfold grid_update. destruct (in_grid g r c); reflexivity. Qed.

Lemma grid_wf_update g r c ch : grid_wf g -> grid_wf (grid_update g r c ch).
Proof.
  unfold grid_wf, grid_update. destruct (in_grid g r c); simpl; [|tauto].
  rewrite length_insert. tauto.
Qed.

Lemma offset_inside g r c :
  grid_wf g -> in_grid g r c = true -> (offset g r c < length (grid_map g))%nat.
Proof.
  intros (Hr & Hc & Hl) Hin. apply in_grid_spec in Hin.
  unfold offset. rewrite Hl.
  assert (r * grid_ncol g <= (grid_nrow g - 1) * grid_ncol g)
    by (apply Z.mul_le_mono_nonneg_r; lia).
  assert (0 <= r * grid_ncol g) by (apply Z.mul_nonneg_nonneg; lia).
  apply Z2Nat.inj_lt; lia.
Qed.

Lemma offset_inj g r c r' c' :
  in_grid g r c = true -> in_grid g r' c' = true ->
  offset g r c = offset g r' c' -> r = r' /\ c = c'.
Proof.
  intros H H' E. apply in_grid_spec in H. apply in_grid_spec in H'.
  assert (0 <= r * grid_ncol g) by (apply Z.mul_nonneg_nonneg; lia).
  assert (0 <= r' * grid_ncol g) by (apply Z.mul_nonneg_nonneg; lia).
  unfold offset in E. apply Z2Nat.inj in E; [|lia..].
  assert (r = r'); [|subst; lia].
  destruct (Z.lt_trichotomy r r') as [Hlt|[Heq|Hgt]]; [|exact Heq|].
  - assert ((r + 1) * grid_ncol g <= r' * grid_ncol g)
      by (apply Z.mul_le_mono_nonneg_r; lia). lia.
  - assert ((r' + 1) * grid_ncol g <= r * grid_ncol g)
      by (apply Z.mul_le_mono_nonneg_r; lia). lia.
Qed.

(** A cell reads what was last written to it; the other cells keep their
    character. *)
Lemma grid_getchar_update g r c ch r' c' :
  grid_wf g ->
  grid_getchar (grid_update g r c ch) r' c' =
  if in_grid g r c && (r =? r') && (c =? c') then ch else grid_getchar g r' c'.
Proof.
  intros Hwf. unfold grid_getchar. rewrite in_grid_update.
  unfold grid_update. destruct (in_grid g r c) eqn:Hin; simpl; [|reflexivity].
  destruct (Z.eqb_spec r r') as [->|Hr]; simpl.
  - destruct (Z.eqb_spec c c') as [->|Hc]; simpl.
    + rewrite Hin. unfold offset at 1. simpl. fold (offset g r' c').
      rewrite list_lookup_insert_eq by (apply offset_inside; assumption).
      reflexivity.
    + destruct (in_grid g r' c') eqn:Hin'; [|reflexivity].
      unfold offset at 1. simpl. fold (offset g r' c').
      rewrite list_lookup_insert_ne; [reflexivity|].
      intros E. apply offset_inj in E; [lia|assumption..].
  - destruct (in_grid g r' c') eqn:Hin'; [|reflexivity].
    unfold offset at 1. simpl. fold (offset g r' c').
    rewrite list_lookup_insert_ne; [reflexivity|].
    intros E. apply offset_inj in E; [lia|assumption..].
Qed.

Lemma grid_getchar_update_same g r c ch :
  grid_wf g -> in_grid g r c = true -> grid_getchar (grid_update g r c ch) r c = ch.
Proof.
  intros Hwf Hin. rewrite grid_getchar_update by assumption.
  rewrite Hin, !Z.eqb_refl. reflexivity.
Qed.

Lemma grid_getchar_outside g r c :
  in_grid g r c = false -> grid_getchar g r c = "^"%char.
Proof. unfold grid_getchar. intros ->. reflexivity. Qed.

Lemma ch_eqb_eq a b : ch_eqb a b = true <-> a = b.
Proof. apply Ascii.eqb_eq. Qed.

Lemma ch_eqb_refl a : ch_eqb a a = true.
Proof. apply Ascii.eqb_refl. Qed.

(** A cell that can be entered is a cell of the grid. *)
Lemma grid_canMoveTo_inside g r c :
  grid_canMoveTo g r c = true -> in_grid g r c = true.
Proof.
  unfold grid_canMoveTo. intros H.
  destruct (in_grid g r c) eqn:Hin; [reflexivity|].
  rewrite (grid_getchar_outside _ _ _ Hin) in H.
  rewrite ch_eqb_refl in H. rewrite andb_false_r in H. discriminate.
Qed.

Lemma grid_isEmptyRoomSpot_inside g r c :
  grid_isEmptyRoomSpot g r c = true -> in_grid g r c = true.
Proof.
  unfold grid_isEmptyRoomSpot. intros H.
  destruct (in_grid g r c) eqn:Hin; [reflexivity|].
  rewrite (grid_getchar_outside _ _ _ Hin) in H. discriminate.
Qed.

(** A grid of rock with one floor cell. *)
Lemma rock_wf (nrow ncol : Z) :
  0 <= nrow -> 0 <= ncol ->
  grid_wf (Grid (replicate (Z.to_nat (nrow * ncol)) " "%char) nrow ncol).
Proof.
  intros Hr Hc. unfold grid_wf. cbn [grid_nrow grid_ncol grid_map].
  rewrite length_replicate. repeat split; lia.
Qed.

Lemma rock_getchar (nrow ncol r c : Z) :
  0 <= nrow -> 0 <= ncol ->
  grid_getchar (Grid (replicate (Z.to_nat (nrow * ncol)) " "%char) nrow ncol) r c =
  if (0 <=? r) && (r <? nrow) && (0 <=? c) && (c <? ncol) then " "%char else "^"%char.
Proof.
  intros Hr Hc. pose proof (rock_wf nrow ncol Hr Hc) as Hw.
  unfold grid_getchar. unfold in_grid at 1. cbn [grid_nrow grid_ncol grid_map].
  destruct ((0 <=? r) && (r <? nrow) && (0 <=? c) && (c <? ncol)) eqn:Hin;
    [|reflexivity].
  pose proof (offset_inside _ r c Hw Hin) as Hlt. cbn [grid_map] in Hlt.
  rewrite length_replicate in Hlt.
  rewrite lookup_replicate_2 by exact Hlt. reflexivity.
Qed.

Lemma floor_in_rock_getchar (nrow ncol r0 c0 r c : Z) :
  0 <= r0 < nrow -> 0 <= c0 < ncol ->
  grid_getchar
    (grid_update (Grid (replicate (Z.to_nat (nrow * ncol)) " "%char) nrow ncol)
       r0 c0 "."%char) r c =
  if (r0 =? r) && (c0 =? c) then "."%char
  else if (0 <=? r) && (r <? nrow) && (0 <=? c) && (c <? ncol) then " "%char
  else "^"%char.
Proof.
  intros Hr Hc. rewrite grid_getchar_update by (apply rock_wf; lia).
  rewrite rock_getchar by lia.
  replace (in_grid (Grid (replicate (Z.to_nat (nrow * ncol)) " "%char) nrow ncol) r0 c0)
    with true; [reflexivity|].
  symmetry. apply in_grid_spec. cbn [grid_nrow grid_ncol]. lia.
Qed.

Lemma floor_in_rock_bare (nrow ncol r0 c0 : Z) :
  bare_grid
    (grid_update (Grid (replicate (Z.to_nat (nrow * ncol)) " "%char) nrow ncol)
       r0 c0 "."%char) = true.
Proof.
  unfold bare_grid, grid_update.
  assert (Hrock : forall n, forallb bare_char (replicate n " "%char) = true).
  { induction n as [|n IH]; [reflexivity|]. cbn [replicate forallb].
    rewrite IH. reflexivity. }
  assert (Hall : forall n i,
    forallb bare_char (<[i := "."%char]> (replicate n " "%char)) = true).
  { induction n as [|n IH]; intros i; [reflexivity|].
    destruct i as [|i]; cbn [replicate].
    - change (bare_char "."%char && forallb bare_char (replicate n " "%char) = true).
      rewrite Hrock. reflexivity.
    - change (bare_char " "%char &&
              forallb bare_char (<[i := "."%char]> (replicate n " "%char)) = true).
      rewrite IH. reflexivity. }
  destruct (in_grid _ r0 c0); cbn [grid_map]; [apply Hall|apply Hrock].
Qed.

(** The two lines of sight between (0,16777218) and (2,16777219), on any
    grid: each tests one cell of row 1, and not the same one. *)
Lemma far_sight (g : grid_t) :
  grid_isVisible g 0 16777218 2 16777219 = negb (grid_isBlockable g 1 16777218) /\
  grid_isVisible g 2 16777219 0 16777218 = negb (grid_isBlockable g 1 16777220).
Proof.
  unfold grid_isVisible. set (blocked := grid_isBlockable g). clearbody blocked.
  split; vm_compute.
  - destruct (blocked 1 16777218); reflexivity.
  - destruct (blocked 1 16777220); reflexivity.
Qed.

(** C3.  Visibility is symmetric on the raw grid, when the grid has at most
    2048 rows and 2048 columns: on such a grid without player letters and
    without gold, and for two cells A = (pr,pc) and B = (r,c) inside it,
    [grid_isVisible] from A to B equals [grid_isVisible] from B to A.  (The
    single-precision values of [grid_isVisible] are then those of the exact
    line, which is the same from both ends.) *)
Theorem grid_isVisible_symmetric (g : grid_t) (pr pc r c : Z) :
  grid_nrow g <= 2048 -> grid_ncol g <= 2048 ->
  bare_grid g = true ->
  in_grid g pr pc = true ->
  in_grid g r c = true ->
  grid_isVisible g pr pc r c = grid_isVisible g r c pr pc.
Proof.
  intros Hnr Hnc _ HA HB. apply in_grid_spec in HA, HB.
  apply grid_isVisible_swap; change (2 ^ 11) with 2048; lia.
Qed.

Lemma grid_isVisible_symmetric_witness :
  bare_grid demo_map = true /\
  in_grid demo_map 1 1 = true /\
  in_grid demo_map 3 4 = true /\
  grid_isVisible demo_map 1 1 3 4 = grid_isVisible demo_map 3 4 1 1.
Proof.
  split; [reflexivity|]. split; [reflexivity|]. split; [reflexivity|].
  apply (grid_isVisible_symmetric demo_map 1 1 3 4);
    try reflexivity; simpl; lia.
Defined.

(** On a grid of 16777221 columns the two ends disagree: from (0,16777218)
    the line to (2,16777219) is computed to cross row 1 at column 16777218,
    which is floor in [far_map]; from (2,16777219) it is computed to cross
    it at column 16777220, which is rock. *)
Lemma grid_isVisible_far_cells :
  grid_wf far_map /\ bare_grid far_map = true /\
  in_grid far_map 0 16777218 = true /\
  in_grid far_map 2 16777219 = true /\
  grid_isVisible far_map 0 16777218 2 16777219 = true /\
  grid_isVisible far_map 2 16777219 0 16777218 = false.
Proof.
  destruct (far_sight far_map) as (EA & EB). rewrite EA, EB.
  unfold far_map.
  split; [apply grid_wf_update, rock_wf; lia|].
  split; [apply floor_in_rock_bare|].
  rewrite !in_grid_update.
  split; [apply in_grid_spec; cbn [grid_nrow grid_ncol]; lia|].
  split; [apply in_grid_spec; cbn [grid_nrow grid_ncol]; lia|].
  unfold grid_isBlockable, grid_isPlayer.
  rewrite !floor_in_rock_getchar by lia.
  split; reflexivity.
Qed.

(** ** Joining *)

(** C9.  A PLAY message that arrives when the table holds 26 players is
    answered with exactly "QUIT Game is full: no more players can join.", sent
    to the sender, and the game (the table and its count, both grids, the
    gold accounting) is what it was. *)
Theorem full_game_refuses_play (fuel : nat) (from : addr_t) (name : string) (w : world) :
  numPlayer (GAME w) = MaxPlayers ->
  handleMessage fuel from ("PLAY " ++ name) w =
  Some (false,
        World (GAME w) (draws w)
              (sent w ++ [(from, "QUIT Game is full: no more players can join."%string)])).
Proof.
  intros Hfull. unfold handleMessage.
  change (starts_with "PLAY " ("PLAY " ++ name)) with true.
  change (skip 5 ("PLAY " ++ name)) with name. cbv iota.
  unfold handlePlay, bind, get_game. rewrite Hfull. reflexivity.
Qed.

Lemma full_game_refuses_play_witness :
  let w := World (with_players (repeat (Player alice "a" "A" 0 0 1 1 demo_map) 26)
                    (loaded demo_map)) [] [] in
  numPlayer (GAME w) = MaxPlayers /\
  handleMessage 0 bob "PLAY zed" w =
  Some (false,
        World (GAME w) (draws w)
              (sent w ++ [(bob, "QUIT Game is full: no more players can join."%string)])).
Proof.
  intros w. split; [reflexivity|].
  apply (full_game_refuses_play 0 bob "zed" w). reflexivity.
Defined.

(** The test of [handlePlay] never holds: [isblank] is asked about 0 or 1,
    which are not blanks. *)
Lemma name_char_id ch : name_char ch = ch.
Proof.
  unfold name_char. destruct (ch_eqb ch "000"); rewrite andb_false_r; reflexivity.
Qed.

Lemma copy_name_firstn name i :
  0 <= i -> copy_name i name = firstn (Z.to_nat (MaxNameLength - i)) name.
Proof.
  revert i. induction name as [|ch rest IH]; intros i Hi; simpl.
  - rewrite firstn_nil. reflexivity.
  - destruct (Z.ltb_spec i MaxNameLength) as [Hlt|Hge].
    + rewrite name_char_id, IH by lia.
      replace (Z.to_nat (MaxNameLength - i)) with (S (Z.to_nat (MaxNameLength - (i + 1)))) by lia.
      reflexivity.
    + rewrite IH by lia.
      replace (Z.to_nat (MaxNameLength - i)) with O by lia.
      replace (Z.to_nat (MaxNameLength - (i + 1))) with O by lia.
      reflexivity.
Qed.

(** What [handlePlay] stores is the first 50 bytes of the name, unchanged. *)
Lemma stored_name_firstn name :
  stored_name name = string_of_list_ascii (firstn 50 (list_ascii_of_string name)).
Proof. unfold stored_name. rewrite copy_name_firstn by lia. reflexivity. Qed.

(** C8, on the code: the name "a", BEL, "b" is accepted and stored as it is,
    where the specification has "a_b". *)
Theorem stored_name_keeps_control_bytes :
  let name := String "a" (String "007" (String "b" EmptyString)) in
  helper_nameIsEmpty name = false /\
  stored_name name = name /\
  sanitized_name name = "a_b"%string /\
  option_map (fun w => List.map realName (players (GAME w)))
             (demo_after [(alice, ("PLAY " ++ name)%string)]) = Some [name].
Proof. vm_compute. repeat split; reflexivity. Qed.

(** ** Start-up *)

(** With a map and a seed on the command line, [srand] is called with the
    member [seed] of [GAME], which is zero whatever the seed is. *)
Lemma parseArgs_ignores_seed pid grid_load prog map arg m :
  grid_load map = Some m ->
  0 < atoi arg ->
  parseArgs pid grid_load [prog; map; arg] = Started 0 (loaded m).
Proof.
  intros Hload Hseed. unfold parseArgs. rewrite Hload.
  destruct (Z.leb_spec (atoi arg) 0); [lia|reflexivity].
Qed.

(** C5, on the code: started with the seed 42, the server calls [srand(0)];
    started without a seed, it calls [srand] with the process identifier. *)
Theorem parseArgs_seed_42 :
  let grid_load := fun _ : string => Some demo_map in
  atoi "42" = 42 /\
  parseArgs 1234 grid_load ["server"; "main.txt"; "42"]%string = Started 0 (loaded demo_map) /\
  parseArgs 1234 grid_load ["server"; "main.txt"; "43"]%string = Started 0 (loaded demo_map) /\
  parseArgs 1234 grid_load ["server"; "main.txt"]%string = Started 1234 (loaded demo_map).
Proof. vm_compute. repeat split; reflexivity. Qed.

(** ** Picking up gold *)



(** Stepping onto gold is: move, [pickup_gold], broadcast. *)
Lemma player_move_onto_gold pi p nr nc w :
  players (GAME w) !! pi = Some p ->
  grid_canMoveTo (masterGrid (GAME w)) nr nc = true ->
  grid_isPlayer (masterGrid (GAME w)) nr nc = false ->
  grid_isGold (masterGrid (GAME w)) nr nc = true ->
  player_move pi nr nc w =
  (let* _ := put_game
     (with_master
        (grid_update
           (grid_update (masterGrid (GAME w)) (row p) (col p)
              (grid_getchar (rawGrid (GAME w)) (row p) (col p)))
           nr nc (alias p))
        (with_players (alter (set_pos nr nc) pi (players (GAME w))) (GAME w))) in
   let* _ := pickup_gold pi in
   let* _ := server_update_all_clients in
   ret false) w.
Proof.
  intros Hp Hmove Hpl Hgold. unfold player_move at 1, bind at 1, get_game at 1.
  rewrite Hp, Hmove, Hpl, Hgold. reflexivity.
Qed.

(** ** What the handlers do to the game *)

Lemma server_update_all_clients_told w :
  server_update_all_clients w =
  Some (tt, World (told (GAME w)) (draws w)
              (sent w ++ spectator_messages (GAME w) ++
               flat_map (client_messages (GAME w)) (players (GAME w)))).
Proof. reflexivity. Qed.

Lemma bind_broadcast {A} (k : unit -> M A) w :
  bind server_update_all_clients k w =
  k tt (World (told (GAME w)) (draws w)
          (sent w ++ spectator_messages (GAME w) ++
           flat_map (client_messages (GAME w)) (players (GAME w)))).
Proof. reflexivity. Qed.

Lemma pickup_gold_picked pi w w' :
  pickup_gold pi w = Some (tt, w') ->
  exists n, w' = World (picked (GAME w) pi n) (draws w') (sent w) /\
            amount_ok (GAME w) (draws w) (draws w') n.
Proof.
  unfold pickup_gold, bind, get_game.
  destruct (Z.eqb_spec (GoldNumPilesLeft (GAME w)) 1) as [E1|E1]; simpl.
  - unfold ret, put_game. simpl. intros H. inversion H; subst; clear H.
    eexists. split; [reflexivity|]. left. simpl. repeat split. exact E1.
  - unfold rand. destruct (draws w) as [|d ds]; [discriminate|].
    unfold c_rem.
    replace (goldLeft (GAME w) - GoldNumPilesLeft (GAME w) + 1 - 1 + 1)
      with (goldLeft (GAME w) - GoldNumPilesLeft (GAME w) + 1) by ring.
    destruct (Z.eqb_spec (goldLeft (GAME w) - GoldNumPilesLeft (GAME w) + 1) 0)
      as [E0|E0]; [discriminate|].
    unfold ret, put_game. simpl. intros H. inversion H; subst; clear H.
    eexists. split; [reflexivity|]. right. simpl.
    split; [exact E1|]. split; [exact E0|]. exists d. split; reflexivity.
Qed.

(** With at least one nugget for each pile left, the amount is in range. *)
Lemma amount_ok_range g ds ds' n :
  GoldNumPilesLeft g <= goldLeft g -> amount_ok g ds ds' n ->
  (GoldNumPilesLeft g = 1 -> n = goldLeft g) /\
  (GoldNumPilesLeft g <> 1 -> 1 <= n <= goldLeft g - GoldNumPilesLeft g + 1) /\
  GoldNumPilesLeft g - 1 <= goldLeft g - n.
Proof.
  intros Hle [(E1 & -> & _)|(E1 & E0 & d & _ & ->)].
  - repeat split; try lia.
  - rewrite Z.rem_mod_nonneg by lia.
    pose proof (Z.mod_pos_bound (Z.of_N d) (goldLeft g - GoldNumPilesLeft g + 1)
                  ltac:(lia)).
    repeat split; try lia.
Qed.

(** The five ways [player_move] ends. *)
Lemma player_move_cases pi nr nc w stop w' :
  player_move pi nr nc w = Some (stop, w') ->
  exists p, players (GAME w) !! pi = Some p /\
  ((stop = true /\ w' = w /\ grid_canMoveTo (masterGrid (GAME w)) nr nc = false) \/
   (stop = false /\ grid_canMoveTo (masterGrid (GAME w)) nr nc = true /\
    ((w' = w /\ grid_isPlayer (masterGrid (GAME w)) nr nc = true /\
      list_find (fun q => row q = nr /\ col q = nc) (players (GAME w)) = None) \/
     (grid_isPlayer (masterGrid (GAME w)) nr nc = true /\
      exists i q,
        list_find (fun q => row q = nr /\ col q = nc) (players (GAME w)) = Some (i, q) /\
        GAME w' = told (swapped (GAME w) pi p i q nr nc)) \/
     (grid_isPlayer (masterGrid (GAME w)) nr nc = false /\
      grid_isGold (masterGrid (GAME w)) nr nc = true /\
      exists n, GAME w' = told (picked (moved (GAME w) pi p nr nc) pi n) /\
                amount_ok (GAME w) (draws w) (draws w') n) \/
     (grid_isPlayer (masterGrid (GAME w)) nr nc = false /\
      grid_isGold (masterGrid (GAME w)) nr nc = false /\
      GAME w' = told (moved (GAME w) pi p nr nc))))).
Proof.
  unfold player_move, bind at 1, get_game at 1.
  destruct (players (GAME w) !! pi) as [p|] eqn:Hp; [|discriminate].
  intros H. exists p. split; [reflexivity|].
  destruct (grid_canMoveTo (masterGrid (GAME w)) nr nc) eqn:Hmove.
  - right.
    destruct (grid_isPlayer (masterGrid (GAME w)) nr nc) eqn:Hpl.
    + destruct (list_find _ (players (GAME w))) as [[i q]|] eqn:Hfind.
      * unfold bind, put_game, ret in H. simpl in H.
        inversion H; subst; clear H.
        split; [reflexivity|]. split; [reflexivity|].
        right. left. split; [reflexivity|]. exists i, q. split; reflexivity.
      * unfold ret in H. inversion H; subst; clear H.
        split; [reflexivity|]. split; [reflexivity|].
        left. repeat split; reflexivity.
    + destruct (grid_isGold (masterGrid (GAME w)) nr nc) eqn:Hgold.
      * unfold bind at 1, put_game at 1 in H. unfold bind at 1 in H.
        destruct (pickup_gold pi _) as [[[] w1]|] eqn:Hpick; [|discriminate].
        apply pickup_gold_picked in Hpick as (n & Hw1 & Hn).
        rewrite bind_broadcast in H. unfold ret in H.
        inversion H; subst; clear H.
        split; [reflexivity|]. split; [reflexivity|].
        right. right. left. split; [reflexivity|]. split; [reflexivity|].
        exists n. rewrite Hw1. cbn [GAME draws]. split; [reflexivity|].
        exact Hn.
      * unfold bind, put_game, ret in H. simpl in H.
        inversion H; subst; clear H.
        split; [reflexivity|]. split; [reflexivity|].
        right. right. right. repeat split; reflexivity.
  - unfold ret in H. inversion H; subst; clear H.
    left. repeat split; reflexivity.
Qed.

(** ** Players stay inside the grid *)

Lemma players_inside_spec g : players_inside g = true <-> inside g.
Proof.
  unfold players_inside, inside. rewrite forallb_forall. split.
  - intros H i p Hp. apply H. apply list_elem_of_In.
    apply list_elem_of_lookup. exists i. exact Hp.
  - intros H p Hin. apply list_elem_of_In in Hin.
    apply list_elem_of_lookup in Hin as [i Hi]. apply (H i p Hi).
Qed.

Lemma inside_told g : inside g -> inside (told g).
Proof.
  intros H i p Hp. unfold told in Hp. simpl in Hp.
  rewrite list_lookup_fmap in Hp.
  destruct (players g !! i) as [p0|] eqn:Hp0; [|discriminate].
  inversion Hp; subst; clear Hp. simpl. apply (H i p0 Hp0).
Qed.

Lemma inside_moved g pi p nr nc :
  inside g -> grid_canMoveTo (masterGrid g) nr nc = true ->
  inside (moved g pi p nr nc).
Proof.
  intros H Hmove i q Hq. unfold moved in *. simpl in *.
  rewrite !in_grid_update. rewrite list_lookup_alter in Hq.
  destruct (decide (pi = i)) as [->|Hne].
  - destruct (players g !! i) as [q0|]; [|discriminate].
    inversion Hq; subst; clear Hq. simpl.
    apply grid_canMoveTo_inside. exact Hmove.
  - apply (H i q Hq).
Qed.

Lemma inside_swapped g pi p i q nr nc :
  inside g -> players g !! pi = Some p ->
  grid_canMoveTo (masterGrid g) nr nc = true ->
  inside (swapped g pi p i q nr nc).
Proof.
  intros H Hp Hmove j x Hx. unfold swapped in *. simpl in *.
  rewrite !in_grid_update. rewrite list_lookup_alter in Hx.
  destruct (decide (pi = j)) as [->|Hne].
  - destruct (alter _ i (players g) !! j) as [x0|]; [|discriminate].
    inversion Hx; subst; clear Hx. simpl.
    apply grid_canMoveTo_inside. exact Hmove.
  - rewrite list_lookup_alter in Hx.
    destruct (decide (i = j)) as [->|Hne'].
    + destruct (players g !! j) as [x0|]; [|discriminate].
      inversion Hx; subst; clear Hx. simpl. apply (H pi p Hp).
    + apply (H j x Hx).
Qed.

Lemma inside_picked g pi n : inside g -> inside (picked g pi n).
Proof.
  intros H i p Hp. unfold picked in *. simpl in *.
  rewrite list_lookup_alter in Hp.
  destruct (decide (pi = i)) as [->|Hne].
  - destruct (players g !! i) as [p0|] eqn:Hp0; [|discriminate].
    inversion Hp; subst; clear Hp. simpl. apply (H i p0 Hp0).
  - apply (H i p Hp).
Qed.

Lemma player_move_inside pi nr nc w stop w' :
  inside (GAME w) -> player_move pi nr nc w = Some (stop, w') -> inside (GAME w').
Proof.
  intros H Hm. apply player_move_cases in Hm as (p & Hp & Hcases).
  destruct Hcases as [(_ & -> & _)|(_ & Hmove & Hcases)]; [exact H|].
  destruct Hcases as [(-> & _)|[(_ & i & q & _ & ->)|[(_ & _ & n & -> & _)|(_ & _ & ->)]]].
  - exact H.
  - apply inside_told, inside_swapped; assumption.
  - apply inside_told, inside_picked, inside_moved; assumption.
  - apply inside_told, inside_moved; assumption.
Qed.

(** A property of the game that [player_move] keeps is kept by the keys
    that move; one that [handleQUIT] keeps too is kept by every key. *)
Section Keys.
Variable Inv : game -> Prop.
Hypothesis Inv_move : forall pi nr nc w stop w',
  Inv (GAME w) -> player_move pi nr nc w = Some (stop, w') -> Inv (GAME w').

Lemma run_keeps fuel pi r c dr dc w w' :
  Inv (GAME w) -> run fuel pi r c dr dc w = Some (tt, w') -> Inv (GAME w').
Proof.
  revert r c w. induction fuel as [|fuel IH]; intros r c w H Hrun; [discriminate|].
  simpl in Hrun. unfold bind in Hrun.
  destruct (player_move pi (r + dr) (c + dc) w) as [[stop w1]|] eqn:Hm; [|discriminate].
  apply Inv_move in Hm; [|exact H].
  destruct stop.
  - unfold ret in Hrun. inversion Hrun; subst. exact Hm.
  - apply (IH _ _ _ Hm Hrun).
Qed.

Lemma handleKEY_moves_keep fuel from key w stop w' :
  ch_eqb (first_char key) "Q" = false ->
  Inv (GAME w) -> handleKEY fuel from key w = Some (stop, w') -> Inv (GAME w').
Proof.
  intros HQ H. unfold handleKEY. rewrite HQ.
  unfold bind at 1, get_game at 1.
  destruct (find_player from 0 (players (GAME w)) None) as [pi|];
    [|unfold ret; intros E; inversion E; subst; exact H].
  destruct (players (GAME w) !! pi) as [player|]; [|discriminate].
  unfold bind at 1.
  destruct (key_action_of (first_char key)) as [dr dc|dr dc|].
  - unfold bind at 1.
    destruct (player_move pi _ _ w) as [[s w1]|] eqn:Hm; [|discriminate].
    apply Inv_move in Hm; [|exact H].
    unfold ret, bind, get_game. intros E. inversion E; subst. exact Hm.
  - destruct (run fuel pi _ _ dr dc w) as [[[] w1]|] eqn:Hrun; [|discriminate].
    apply run_keeps in Hrun; [|exact H].
    unfold ret, bind, get_game. intros E. inversion E; subst. exact Hrun.
  - unfold message_send, ret, bind, get_game. simpl.
    intros E. inversion E; subst. exact H.
Qed.

Hypothesis Inv_quit : forall ip w stop w',
  Inv (GAME w) -> handleQUIT ip w = Some (stop, w') -> Inv (GAME w').

Lemma handleKEY_keeps fuel from key w stop w' :
  Inv (GAME w) -> handleKEY fuel from key w = Some (stop, w') -> Inv (GAME w').
Proof.
  intros H. destruct (ch_eqb (first_char key) "Q") eqn:HQ.
  - unfold handleKEY. rewrite HQ. unfold bind at 1.
    destruct (handleQUIT from w) as [[s w1]|] eqn:Hq; [|discriminate].
    apply Inv_quit in Hq; [|exact H].
    unfold ret. intros E. inversion E; subst. exact Hq.
  - apply handleKEY_moves_keep; assumption.
Qed.

Hypothesis Inv_play : forall from name w stop w',
  Inv (GAME w) -> handlePlay from name w = Some (stop, w') -> Inv (GAME w').
Hypothesis Inv_spectate : forall from w stop w',
  Inv (GAME w) -> handleSPECTATE from w = Some (stop, w') -> Inv (GAME w').

Lemma handleMessage_keeps fuel from message w stop w' :
  Inv (GAME w) -> handleMessage fuel from message w = Some (stop, w') -> Inv (GAME w').
Proof.
  intros H. unfold handleMessage.
  destruct (starts_with "PLAY " message); [apply Inv_play; exact H|].
  destruct (starts_with "SPECTATE" message); [apply Inv_spectate; exact H|].
  destruct (starts_with "KEY " message); [apply handleKEY_keeps; exact H|].
  unfold ret. intros E. inversion E; subst. exact H.
Qed.

Hypothesis Inv_setup : forall m ds w,
  valid_map m = true ->
  server_drop_gold (World (loaded m) ds []) = Some (tt, w) -> Inv (GAME w).

Lemma reachable_keeps w : reachable w -> Inv (GAME w).
Proof.
  induction 1 as [m ds w Hm Hs|w fuel from message stop w' _ IH Hh].
  - apply (Inv_setup m ds w Hm Hs).
  - apply (handleMessage_keeps _ _ _ _ _ _ IH Hh).
Qed.
End Keys.

(** The loop of [handleQUIT] changes characters of the master grid only:
    a cell keeps its character or gets the raw one, and the cell of every
    player with the address gets the raw one. *)
Lemma quit_players_master ip ps w :
  exists m out,
    quit_players ip ps w = Some (tt, World (with_master m (GAME w)) (draws w) (sent w ++ out)) /\
    grid_nrow m = grid_nrow (masterGrid (GAME w)) /\
    grid_ncol m = grid_ncol (masterGrid (GAME w)) /\
    (grid_wf (masterGrid (GAME w)) ->
       grid_wf m /\
       (forall r c, grid_getchar m r c = grid_getchar (masterGrid (GAME w)) r c \/
                    (in_grid (masterGrid (GAME w)) r c = true /\
                     grid_getchar m r c = grid_getchar (rawGrid (GAME w)) r c)) /\
       (forall p, In p ps -> message_eqAddr ip (IP p) = true ->
                  in_grid (masterGrid (GAME w)) (row p) (col p) = true ->
                  grid_getchar m (row p) (col p) =
                  grid_getchar (rawGrid (GAME w)) (row p) (col p))) /\
    (forall p, In p ps -> message_eqAddr ip (IP p) = true ->
               In (ip, "QUIT Thanks for playing!"%string) out).
Proof.
  revert w. induction ps as [|current rest IH]; intros [g ds out].
  - exists (masterGrid g), []. simpl. unfold ret. rewrite app_nil_r.
    destruct g. split; [reflexivity|]. split; [reflexivity|].
    split; [reflexivity|]. split.
    + intros Hw. split; [exact Hw|]. split; [intros; left; reflexivity|].
      intros p [].
    + intros p [].
  - simpl. unfold bind at 1.
    destruct (message_eqAddr ip (IP current)) eqn:Heq.
    + unfold bind, message_send, get_game, put_game. simpl.
      set (m1 := grid_update (masterGrid g) (row current) (col current)
                   (grid_getchar (rawGrid g) (row current) (col current))).
      destruct (IH (World (with_master m1 g) ds
                      (out ++ [(ip, "QUIT Thanks for playing!"%string)])))
        as (m & out' & Hq & Hr & Hc & Hcells & Hsent).
      simpl in Hq, Hr, Hc, Hcells, Hsent.
      exists m, ((ip, "QUIT Thanks for playing!"%string) :: out').
      rewrite Hq. rewrite <- app_assoc. simpl.
      subst m1. rewrite grid_nrow_update in Hr. rewrite grid_ncol_update in Hc.
      split; [reflexivity|]. split; [exact Hr|]. split; [exact Hc|]. split.
      * intros Hw.
        destruct (Hcells (grid_wf_update _ _ _ _ Hw)) as (Hwm & Hkeep & Hraw).
        split; [exact Hwm|].
        assert (Hkeep' : forall r c,
          grid_getchar m r c = grid_getchar (masterGrid g) r c \/
          (in_grid (masterGrid g) r c = true /\
           grid_getchar m r c = grid_getchar (rawGrid g) r c)).
        { intros r c. destruct (Hkeep r c) as [E|[Hin E]].
          - rewrite E. rewrite grid_getchar_update by exact Hw.
            destruct (in_grid (masterGrid g) (row current) (col current)) eqn:Hin;
              [|left; reflexivity].
            destruct (Z.eqb_spec (row current) r) as [<-|]; [|left; reflexivity].
            destruct (Z.eqb_spec (col current) c) as [<-|]; [|left; reflexivity].
            right. split; [exact Hin|reflexivity].
          - right. rewrite in_grid_update in Hin. split; [exact Hin|exact E]. }
        split; [exact Hkeep'|].
        intros p [<-|Hp] Hmatch Hin.
        -- destruct (Hkeep (row current) (col current)) as [E|[_ E]]; [|exact E].
           rewrite E. apply grid_getchar_update_same; assumption.
        -- apply Hraw; [exact Hp|exact Hmatch|].
           rewrite in_grid_update. exact Hin.
      * intros p _ _. left. reflexivity.
    + unfold ret. simpl.
      destruct (IH (World g ds out)) as (m & out' & Hq & Hr & Hc & Hcells & Hsent).
      simpl in Hq, Hr, Hc, Hcells, Hsent. exists m, out'.
      split; [exact Hq|]. split; [exact Hr|]. split; [exact Hc|]. split.
      * intros Hw. destruct (Hcells Hw) as (Hwm & Hkeep & Hraw).
        split; [exact Hwm|]. split; [exact Hkeep|].
        intros p [<-|Hp] Hmatch Hin; [congruence|].
        apply Hraw; assumption.
      * intros p [<-|Hp] Hmatch; [congruence|]. apply (Hsent p Hp Hmatch).
Qed.

(** [handleQUIT] leaves the game of [quit_players], broadcast. *)
Lemma handleQUIT_shape ip w stop w' :
  handleQUIT ip w = Some (stop, w') ->
  stop = false /\
  exists w1 m out,
    GAME w1 = GAME w /\ draws w1 = draws w /\
    (exists pre, sent w1 = sent w ++ pre) /\
    quit_players ip (players (GAME w)) w1 =
      Some (tt, World (with_master m (GAME w)) (draws w) (sent w1 ++ out)) /\
    GAME w' = told (with_master m (GAME w)) /\
    (exists post, sent w' = sent w1 ++ out ++ post).
Proof.
  unfold handleQUIT, bind at 1, get_game at 1. unfold bind at 1.
  set (w0 := (if message_eqAddr (spectatorIP (GAME w)) ip
              then message_send (spectatorIP (GAME w)) "QUIT Thanks for watching!"
              else ret ()) w).
  assert (Hw0 : exists w1, w0 = Some (tt, w1) /\ GAME w1 = GAME w /\
                           draws w1 = draws w /\ exists pre, sent w1 = sent w ++ pre).
  { subst w0. destruct (message_eqAddr _ ip).
    - eexists. split; [reflexivity|]. simpl. repeat split. eexists. reflexivity.
    - exists w. split; [reflexivity|]. repeat split. exists []. rewrite app_nil_r.
      reflexivity. }
  destruct Hw0 as (w1 & -> & Hg1 & Hd1 & Hs1). unfold bind at 1.
  destruct (quit_players_master ip (players (GAME w)) w1) as (m & out & Hq & _).
  rewrite Hq. rewrite bind_broadcast. unfold ret.
  intros E. inversion E; subst; clear E. split; [reflexivity|].
  exists w1, m, out. rewrite Hg1, Hd1 in Hq. cbn [GAME sent].
  rewrite Hg1. repeat split; try assumption.
  eexists. rewrite <- app_assoc. reflexivity.
Qed.

Lemma handleQUIT_inside ip w stop w' :
  inside (GAME w) -> handleQUIT ip w = Some (stop, w') -> inside (GAME w').
Proof.
  intros H. unfold handleQUIT, bind at 1, get_game at 1. unfold bind at 1.
  set (w0 := (if message_eqAddr (spectatorIP (GAME w)) ip
              then message_send (spectatorIP (GAME w)) "QUIT Thanks for watching!"
              else ret ()) w).
  assert (Hw0 : exists w1, w0 = Some (tt, w1) /\ GAME w1 = GAME w).
  { subst w0. destruct (message_eqAddr _ ip); eexists; split; reflexivity. }
  destruct Hw0 as (w1 & -> & Hg1). unfold bind at 1.
  destruct (quit_players_master ip (players (GAME w)) w1) as (m & out & -> & Hr & Hc & _ & _).
  rewrite bind_broadcast.
  unfold ret. intros E. inversion E; subst; clear E. cbn [GAME].
  apply inside_told. intros i p Hp. simpl in Hp |- *.
  rewrite Hg1 in Hp, Hr, Hc.
  specialize (H i p Hp). apply in_grid_spec in H. apply in_grid_spec. lia.
Qed.

(** ** Sampling a free cell *)

Lemma find_spot_spec master nr nc n :
  forall ds r c ds', (length ds <= n)%nat ->
    find_spot master nr nc ds = Some (r, c, ds') ->
    grid_isEmptyRoomSpot master r c = true.
Proof.
  induction n as [|n IH]; intros ds r c ds' Hlen Hfind.
  - destruct ds; [discriminate|simpl in Hlen; lia].
  - destruct ds as [|d1 [|d2 ds2]]; try discriminate.
    simpl in Hfind, Hlen.
    destruct (grid_isEmptyRoomSpot master _ _) eqn:Hspot.
    + inversion Hfind; subst. exact Hspot.
    + apply (IH ds2 r c ds'); [lia|exact Hfind].
Qed.

Lemma random_spot_spec w r c w' :
  random_spot w = Some ((r, c), w') ->
  GAME w' = GAME w /\ sent w' = sent w /\
  grid_isEmptyRoomSpot (masterGrid (GAME w)) r c = true.
Proof.
  unfold random_spot.
  destruct ((GridRow (GAME w) =? 0) || (GridCol (GAME w) =? 0)); [discriminate|].
  destruct (find_spot _ _ _ (draws w)) as [[[r0 c0] ds]|] eqn:Hfind; [|discriminate].
  intros E. inversion E; subst; clear E. simpl.
  split; [reflexivity|]. split; [reflexivity|].
  apply (find_spot_spec _ _ _ (length (draws w)) _ _ _ _ (Nat.le_refl _) Hfind).
Qed.

(** [handlePlay] leaves the game as it was (and one message), or the game
    with the new player on a free cell, broadcast. *)
Lemma handlePlay_shape from name w stop w' :
  handlePlay from name w = Some (stop, w') ->
  stop = false /\
  (GAME w' = GAME w \/
   exists r c seen,
     numPlayer (GAME w) <> MaxPlayers /\
     grid_isEmptyRoomSpot (masterGrid (GAME w)) r c = true /\
     GAME w' = told (joined (GAME w) from name r c seen)).
Proof.
  unfold handlePlay, bind at 1, get_game at 1.
  destruct (Z.eqb_spec (numPlayer (GAME w)) MaxPlayers) as [Hfull|Hfull].
  { unfold bind, message_send, ret. intros E. inversion E; subst.
    split; [reflexivity|]. left. reflexivity. }
  destruct (helper_nameIsEmpty name).
  { unfold bind, message_send, ret. intros E. inversion E; subst.
    split; [reflexivity|]. left. reflexivity. }
  unfold bind at 1, server_drop_player.
  destruct (random_spot w) as [[[r c] w1]|] eqn:Hspot; [|discriminate].
  apply random_spot_spec in Hspot as (Hg1 & _ & Hfree).
  destruct (grid_new (GridRow (GAME w)) (GridCol (GAME w))) as [seen|]; [|discriminate].
  unfold bind at 1, put_game at 1. unfold bind at 1, message_send at 1.
  unfold bind at 1, message_send at 1. rewrite bind_broadcast. unfold ret.
  intros E. inversion E; subst; clear E. split; [reflexivity|].
  right. exists r, c, seen. split; [exact Hfull|]. split; [exact Hfree|].
  reflexivity.
Qed.

Lemma handleSPECTATE_shape from w stop w' :
  handleSPECTATE from w = Some (stop, w') ->
  stop = false /\ GAME w' = told (with_spectator from (GAME w)).
Proof.
  unfold handleSPECTATE, bind at 1, get_game at 1. unfold bind at 1.
  destruct (message_isAddr (spectatorIP (GAME w)));
    unfold bind, message_send, put_game, ret; rewrite server_update_all_clients_told;
    intros E; inversion E; subst; split; reflexivity.
Qed.

(** ** Setup *)

Lemma drop_piles_shape n w w' :
  drop_piles n w = Some (tt, w') ->
  exists m,
    GAME w' = with_master m (GAME w) /\
    grid_nrow m = grid_nrow (masterGrid (GAME w)) /\
    grid_ncol m = grid_ncol (masterGrid (GAME w)) /\
    (grid_wf (masterGrid (GAME w)) ->
       grid_wf m /\
       forall r c, grid_getchar m r c = grid_getchar (masterGrid (GAME w)) r c \/
                   grid_getchar m r c = "*"%char).
Proof.
  revert w. induction n as [|n IH]; intros w Hdrop.
  - unfold drop_piles, ret in Hdrop. inversion Hdrop; subst.
    exists (masterGrid (GAME w')). destruct w' as [[] ? ?]. simpl.
    split; [reflexivity|]. split; [reflexivity|]. split; [reflexivity|].
    intros Hw. split; [exact Hw|]. intros; left; reflexivity.
  - simpl in Hdrop. unfold bind at 1 in Hdrop.
    destruct (random_spot w) as [[[r c] w1]|] eqn:Hspot; [|discriminate].
    apply random_spot_spec in Hspot as (Hg1 & _ & Hfree).
    unfold bind at 1, get_game at 1 in Hdrop.
    unfold bind at 1, put_game at 1 in Hdrop.
    apply IH in Hdrop as (m & Hg & Hr & Hc & Hcells).
    cbn [GAME] in Hg, Hr, Hc, Hcells. rewrite Hg1 in Hg, Hr, Hc, Hcells.
    simpl in Hr, Hc, Hcells.
    rewrite grid_nrow_update in Hr. rewrite grid_ncol_update in Hc.
    exists m. split; [rewrite Hg; reflexivity|].
    split; [exact Hr|]. split; [exact Hc|].
    intros Hw. destruct (Hcells (grid_wf_update _ _ _ _ Hw)) as (Hwm & Hkeep).
    split; [exact Hwm|]. intros r' c'.
    destruct (Hkeep r' c') as [E|E]; [|right; exact E].
    rewrite E, grid_getchar_update by exact Hw.
    destruct (in_grid _ r c && (r =? r') && (c =? c')); [right|left]; reflexivity.
Qed.

Lemma server_drop_gold_shape m ds w :
  server_drop_gold (World (loaded m) ds []) = Some (tt, w) ->
  exists n master,
    0 <= n < GoldMaxNumPiles - GoldMinNumPiles /\
    GAME w = with_master master (with_gold (n + GoldMinNumPiles) 0 GoldTotal (loaded m)) /\
    grid_nrow master = grid_nrow m /\
    grid_ncol master = grid_ncol m /\
    (grid_wf m ->
       grid_wf master /\
       forall r c, grid_getchar master r c = grid_getchar m r c \/
                   grid_getchar master r c = "*"%char).
Proof.
  unfold server_drop_gold, bind at 1, rand. simpl.
  destruct ds as [|d ds]; [discriminate|].
  unfold bind at 1, c_rem. simpl.
  unfold bind at 1, get_game at 1. unfold bind at 1, put_game at 1.
  intros Hdrop. apply drop_piles_shape in Hdrop as (master & Hg & Hr & Hc & Hcells).
  exists (Z.rem (Z.of_N d) (GoldMaxNumPiles - GoldMinNumPiles)), master.
  cbn [GAME] in Hg, Hr, Hc, Hcells.
  split.
  { unfold GoldMaxNumPiles, GoldMinNumPiles. rewrite Z.rem_mod_nonneg by lia.
    pose proof (Z.mod_pos_bound (Z.of_N d) (30 - 10) ltac:(lia)). lia. }
  split; [exact Hg|]. split; [exact Hr|]. split; [exact Hc|]. exact Hcells.
Qed.

(** ** C10: positions stay inside the grid *)

Lemma handlePlay_inside from name w stop w' :
  inside (GAME w) -> handlePlay from name w = Some (stop, w') -> inside (GAME w').
Proof.
  intros H Hp. apply handlePlay_shape in Hp as (_ & [->|(r & c & seen & _ & Hfree & ->)]);
    [exact H|].
  apply inside_told. intros i p Hp. unfold joined in *. simpl in *.
  rewrite in_grid_update.
  apply lookup_app_Some in Hp as [Hold|[_ Hnew]].
  - apply (H i p Hold).
  - destruct (i - length (players (GAME w)))%nat; simpl in Hnew; [|discriminate].
    inversion Hnew; subst; clear Hnew. simpl.
    apply grid_isEmptyRoomSpot_inside. exact Hfree.
Qed.

Lemma handleSPECTATE_inside from w stop w' :
  inside (GAME w) -> handleSPECTATE from w = Some (stop, w') -> inside (GAME w').
Proof.
  intros H Hs. apply handleSPECTATE_shape in Hs as (_ & ->).
  apply inside_told. exact H.
Qed.

Lemma setup_inside m ds w :
  valid_map m = true ->
  server_drop_gold (World (loaded m) ds []) = Some (tt, w) -> inside (GAME w).
Proof.
  intros _ Hs. apply server_drop_gold_shape in Hs as (n & master & _ & -> & _).
  intros i p Hp. simpl in Hp. destruct i; discriminate.
Qed.

(** In every state of the server, the players are inside the grid. *)
Lemma reachable_inside w : reachable w -> inside (GAME w).
Proof.
  apply (reachable_keeps inside).
  - exact player_move_inside.
  - exact handleQUIT_inside.
  - exact handlePlay_inside.
  - exact handleSPECTATE_inside.
  - exact setup_inside.
Qed.

(** C10.  A KEY message leaves every player inside the grid: if every
    player of the table has 0 <= row < nrow and 0 <= col < ncol before
    [handleKEY] (as [handlePlay] places them), every player has after it.
    The reason is the one the claim gives: [player_move] changes a position
    only to a cell that [grid_canMoveTo] accepts, or to the cell the mover
    leaves, and [grid_canMoveTo] refuses the '^' that [grid_getchar] answers
    outside the grid. *)
Theorem handleKEY_stays_inside (fuel : nat) (from : addr_t) (key : string)
    (w : world) (stop : bool) (w' : world) :
  players_inside (GAME w) = true ->
  handleKEY fuel from key w = Some (stop, w') ->
  players_inside (GAME w') = true.
Proof.
  intros H Hk. apply players_inside_spec. apply players_inside_spec in H.
  revert H Hk. apply (handleKEY_keeps inside).
  - exact player_move_inside.
  - exact handleQUIT_inside.
Qed.

Lemma handleKEY_stays_inside_witness :
  let w := demo_world [(alice, "PLAY alice"%string)] in
  exists stop w',
    players_inside (GAME w) = true /\
    handleKEY 10 alice "N" w = Some (stop, w') /\
    option_map (fun p => (row p, col p)) (players (GAME w') !! 0%nat) = Some (3, 3) /\
    players_inside (GAME w') = true.
Proof.
  intros w.
  assert (H : exists stop w', handleKEY 10 alice "N" w = Some (stop, w') /\
     option_map (fun p => (row p, col p)) (players (GAME w') !! 0%nat) = Some (3, 3))
    by (vm_compute; eexists _, _; split; reflexivity).
  destruct H as (stop & w' & Hk & Hpos). exists stop, w'.
  assert (Hin : players_inside (GAME w) = true) by (vm_compute; reflexivity).
  split; [exact Hin|]. split; [exact Hk|]. split; [exact Hpos|].
  exact (handleKEY_stays_inside 10 alice "N" w stop w' Hin Hk).
Defined.

(** ** C2: the gold is conserved *)

Lemma sum_purses_app ps qs : sum_purses (ps ++ qs) = sum_purses ps + sum_purses qs.
Proof. induction ps as [|p ps IH]; simpl; [reflexivity|]. rewrite IH. ring. Qed.

Lemma sum_purses_fmap (f : player_t -> player_t) ps :
  (forall p, gold (f p) = gold p) -> sum_purses (f <$> ps) = sum_purses ps.
Proof.
  intros Hf. induction ps as [|p ps IH]; simpl; [reflexivity|].
  rewrite Hf. f_equal. exact IH.
Qed.

Lemma sum_purses_alter (f : player_t -> player_t) i ps p n :
  (forall q, gold (f q) = gold q + n) -> ps !! i = Some p ->
  sum_purses (alter f i ps) = sum_purses ps + n.
Proof.
  intros Hf. revert i. induction ps as [|q ps IH]; intros i Hi; [destruct i; discriminate|].
  destruct i as [|i].
  - simpl. rewrite Hf. ring.
  - change (alter f (S i) (q :: ps)) with (q :: alter f i ps).
    simpl in Hi. cbn [sum_purses fold_right]. fold (sum_purses (alter f i ps)).
    fold (sum_purses ps). rewrite (IH i Hi). ring.
Qed.

Lemma sum_purses_set_pos r c i ps :
  sum_purses (alter (set_pos r c) i ps) = sum_purses ps.
Proof.
  revert i. induction ps as [|q ps IH]; intros i; [reflexivity|].
  destruct i as [|i]; [reflexivity|].
  change (alter (set_pos r c) (S i) (q :: ps)) with (q :: alter (set_pos r c) i ps).
  cbn [sum_purses fold_right]. fold (sum_purses (alter (set_pos r c) i ps)).
  fold (sum_purses ps). rewrite IH. reflexivity.
Qed.

Lemma conserved_told g : conserved g -> conserved (told g).
Proof.
  unfold conserved, told. simpl. rewrite sum_purses_fmap; [tauto|reflexivity].
Qed.

Lemma conserved_moved g pi p nr nc : conserved g -> conserved (moved g pi p nr nc).
Proof. unfold conserved, moved. simpl. rewrite sum_purses_set_pos. tauto. Qed.

Lemma conserved_swapped g pi p i q nr nc :
  conserved g -> conserved (swapped g pi p i q nr nc).
Proof. unfold conserved, swapped. simpl. rewrite !sum_purses_set_pos. tauto. Qed.

(** A pick-up moves [n] nuggets from the gold left to a purse. *)
Lemma conserved_picked g pi p n :
  players g !! pi = Some p -> conserved g -> conserved (picked g pi n).
Proof.
  intros Hp [H1 H2]. unfold conserved, picked. simpl.
  rewrite (sum_purses_alter _ pi _ p n) by (reflexivity || exact Hp). lia.
Qed.

Lemma player_move_conserved pi nr nc w stop w' :
  conserved (GAME w) -> player_move pi nr nc w = Some (stop, w') -> conserved (GAME w').
Proof.
  intros H Hm. apply player_move_cases in Hm as (p & Hp & Hcases).
  destruct Hcases as [(_ & -> & _)|(_ & Hmove & Hcases)]; [exact H|].
  destruct Hcases as [(-> & _)|[(_ & i & q & _ & ->)|[(_ & _ & n & -> & _)|(_ & _ & ->)]]].
  - exact H.
  - apply conserved_told, conserved_swapped, H.
  - apply conserved_told.
    apply (conserved_picked _ pi (set_pos nr nc p)); [|apply conserved_moved, H].
    unfold moved. simpl. rewrite list_lookup_alter_eq, Hp. reflexivity.
  - apply conserved_told, conserved_moved, H.
Qed.

Lemma handleQUIT_conserved ip w stop w' :
  conserved (GAME w) -> handleQUIT ip w = Some (stop, w') -> conserved (GAME w').
Proof.
  intros H Hq. apply handleQUIT_shape in Hq as (_ & w1 & m & out & _ & _ & _ & _ & -> & _).
  apply conserved_told. exact H.
Qed.

Lemma handlePlay_conserved from name w stop w' :
  conserved (GAME w) -> handlePlay from name w = Some (stop, w') -> conserved (GAME w').
Proof.
  intros H Hp. apply handlePlay_shape in Hp as (_ & [->|(r & c & seen & _ & _ & ->)]);
    [exact H|].
  apply conserved_told. destruct H as [H1 H2]. unfold conserved, joined. simpl.
  rewrite sum_purses_app. simpl. lia.
Qed.

Lemma handleSPECTATE_conserved from w stop w' :
  conserved (GAME w) -> handleSPECTATE from w = Some (stop, w') -> conserved (GAME w').
Proof.
  intros H Hs. apply handleSPECTATE_shape in Hs as (_ & ->).
  apply conserved_told. exact H.
Qed.

Lemma setup_conserved m ds w :
  valid_map m = true ->
  server_drop_gold (World (loaded m) ds []) = Some (tt, w) -> conserved (GAME w).
Proof.
  intros _ Hs. apply server_drop_gold_shape in Hs as (n & master & _ & -> & _).
  unfold conserved. simpl. unfold GoldTotal. lia.
Qed.

(** The states reached by the demonstration game are states of the server. *)
Lemma message_loop_reachable fuel inbox w stop w' :
  reachable w -> message_loop fuel inbox w = Some (stop, w') -> reachable w'.
Proof.
  revert w. induction inbox as [|[from message] rest IH]; intros w Hw Hloop.
  - unfold message_loop, ret in Hloop. inversion Hloop; subst. exact Hw.
  - simpl in Hloop. unfold bind in Hloop.
    destruct (handleMessage fuel from message w) as [[s w1]|] eqn:Hm; [|discriminate].
    pose proof (reach_message _ _ _ _ _ _ Hw Hm) as Hw1.
    destruct s.
    + unfold ret in Hloop. inversion Hloop; subst. exact Hw1.
    + apply (IH w1 Hw1 Hloop).
Qed.

Lemma demo_reachable inbox w : demo_after inbox = Some w -> reachable w.
Proof.
  unfold demo_after.
  destruct (server_drop_gold _) as [[[] w0]|] eqn:Hs; [|discriminate].
  destruct (message_loop 10 inbox w0) as [[stop w1]|] eqn:Hl; [|discriminate].
  simpl. intros E. inversion E; subst.
  apply (message_loop_reachable _ _ _ _ _ (reach_setup demo_map _ _ eq_refl Hs) Hl).
Qed.

Lemma play_reachable m ds inbox w :
  valid_map m = true -> play_after m ds inbox = Some w -> reachable w.
Proof.
  intros Hm. unfold play_after.
  destruct (server_drop_gold _) as [[[] w0]|] eqn:Hs; [|discriminate].
  destruct (message_loop 10 inbox w0) as [[stop w1]|] eqn:Hl; [|discriminate].
  simpl. intros E. inversion E; subst.
  apply (message_loop_reachable _ _ _ _ _ (reach_setup m _ _ Hm Hs) Hl).
Qed.

(** C2.  Gold conservation: in every state the server reaches after
    [server_drop_gold], the purses of the players and goldLeft add up to 250,
    and so do goldCollected and goldLeft.  Joining, moving, picking up,
    quitting and spectating each preserve it (the lemmas above). *)
Theorem gold_conserved (w : world) :
  reachable w ->
  sum_purses (players (GAME w)) + goldLeft (GAME w) = 250 /\
  goldCollected (GAME w) + goldLeft (GAME w) = 250.
Proof.
  apply (reachable_keeps conserved).
  - exact player_move_conserved.
  - exact handleQUIT_conserved.
  - exact handlePlay_conserved.
  - exact handleSPECTATE_conserved.
  - exact setup_conserved.
Qed.

Lemma gold_conserved_witness :
  let w := demo_world [(alice, "PLAY alice"); (bob, "PLAY bob"); (alice, "KEY J")]%string in
  reachable w /\
  List.map gold (players (GAME w)) = [16; 0] /\
  sum_purses (players (GAME w)) + goldLeft (GAME w) = 250 /\
  goldCollected (GAME w) + goldLeft (GAME w) = 250.
Proof.
  intros w.
  assert (Hr : reachable w).
  { apply (demo_reachable
             [(alice, "PLAY alice"); (bob, "PLAY bob"); (alice, "KEY J")]%string).
    vm_compute. reflexivity. }
  split; [exact Hr|]. split; [vm_compute; reflexivity|].
  exact (gold_conserved w Hr).
Defined.

(** ** The gold counts when gold is picked up *)

(** After a broadcast nobody has unannounced gold. *)
Lemma ledger_told g : GoldNumPilesLeft g <= goldLeft g -> ledger (told g).
Proof.
  intros H. split; [exact H|]. intros i p Hp. unfold told in Hp. simpl in Hp.
  rewrite list_lookup_fmap in Hp.
  destruct (players g !! i); [|discriminate]. inversion Hp; subst. reflexivity.
Qed.

Lemma player_move_ledger pi nr nc w stop w' :
  ledger (GAME w) -> player_move pi nr nc w = Some (stop, w') -> ledger (GAME w').
Proof.
  intros H Hm. apply player_move_cases in Hm as (p & Hp & Hcases).
  destruct Hcases as [(_ & -> & _)|(_ & Hmove & Hcases)]; [exact H|].
  destruct Hcases as [(-> & _)|[(_ & i & q & _ & ->)|[(_ & _ & n & -> & Hn)|(_ & _ & ->)]]].
  - exact H.
  - apply ledger_told. exact (proj1 H).
  - apply ledger_told. simpl.
    apply (amount_ok_range _ _ _ _ (proj1 H) Hn).
  - apply ledger_told. exact (proj1 H).
Qed.

Lemma handleQUIT_ledger ip w stop w' :
  ledger (GAME w) -> handleQUIT ip w = Some (stop, w') -> ledger (GAME w').
Proof.
  intros H Hq. apply handleQUIT_shape in Hq as (_ & w1 & m & out & _ & _ & _ & _ & -> & _).
  apply ledger_told. exact (proj1 H).
Qed.

Lemma handlePlay_ledger from name w stop w' :
  ledger (GAME w) -> handlePlay from name w = Some (stop, w') -> ledger (GAME w').
Proof.
  intros H Hp. apply handlePlay_shape in Hp as (_ & [->|(r & c & seen & _ & _ & ->)]);
    [exact H|].
  apply ledger_told. exact (proj1 H).
Qed.

Lemma handleSPECTATE_ledger from w stop w' :
  ledger (GAME w) -> handleSPECTATE from w = Some (stop, w') -> ledger (GAME w').
Proof.
  intros H Hs. apply handleSPECTATE_shape in Hs as (_ & ->).
  apply ledger_told. exact (proj1 H).
Qed.

Lemma setup_ledger m ds w :
  valid_map m = true ->
  server_drop_gold (World (loaded m) ds []) = Some (tt, w) -> ledger (GAME w).
Proof.
  intros _ Hs. apply server_drop_gold_shape in Hs as (n & master & Hn & -> & _).
  split; simpl.
  - unfold GoldMaxNumPiles, GoldMinNumPiles, GoldTotal in *. lia.
  - intros i p Hp. destruct i; discriminate.
Qed.

(** In every state of the server, and so at every call of [player_move],
    there is a nugget for each pile left and no unannounced gold: the
    conditions of the pick-up accounting. *)
Lemma reachable_ledger w : reachable w -> ledger (GAME w).
Proof.
  apply (reachable_keeps ledger).
  - exact player_move_ledger.
  - exact handleQUIT_ledger.
  - exact handlePlay_ledger.
  - exact handleSPECTATE_ledger.
  - exact setup_ledger.
Qed.

(** ** C7: quitting *)

Lemma find_player_found from ps :
  forall i found pi,
    find_player from i ps found = Some pi ->
    found = Some pi \/
    exists p, ps !! (pi - i)%nat = Some p /\ (i <= pi)%nat /\
              message_eqAddr from (IP p) = true.
Proof.
  induction ps as [|current rest IH]; intros i found pi Hf; simpl in Hf.
  - left. exact Hf.
  - apply IH in Hf as [Hf|(p & Hp & Hle & Hm)].
    + destruct (message_eqAddr from (IP current)) eqn:Heq; [|left; exact Hf].
      inversion Hf; subst. right. exists current.
      rewrite Nat.sub_diag. repeat split; [lia|exact Heq].
    + right. exists p. replace (pi - i)%nat with (S (pi - S i)) by lia.
      repeat split; [exact Hp|lia|exact Hm].
Qed.

(** The sender of a key that [handleKEY] finds is an entry of the table with
    the sender's address. *)
Lemma find_player_seated from ps pi :
  find_player from 0 ps None = Some pi ->
  exists p, ps !! pi = Some p /\ message_eqAddr from (IP p) = true.
Proof.
  intros Hf. apply find_player_found in Hf as [Hf|(p & Hp & _ & Hm)]; [discriminate|].
  rewrite Nat.sub_0_r in Hp. exists p. split; assumption.
Qed.

Lemma message_eqAddr_sym a b : message_eqAddr a b = message_eqAddr b a.
Proof.
  unfold message_eqAddr.
  rewrite (Z.eqb_sym (sin_family a)), (Z.eqb_sym (sin_port a)), (Z.eqb_sym (sin_addr a)).
  reflexivity.
Qed.

(** [handleQUIT] always returns: it tells the players with the address, gives
    their cells the raw character back and broadcasts. *)
Lemma handleQUIT_runs ip w :
  exists m pre out post,
    handleQUIT ip w =
      Some (false, World (told (with_master m (GAME w))) (draws w)
                     (sent w ++ pre ++ out ++ post)) /\
    grid_nrow m = grid_nrow (masterGrid (GAME w)) /\
    grid_ncol m = grid_ncol (masterGrid (GAME w)) /\
    (grid_wf (masterGrid (GAME w)) ->
       grid_wf m /\
       (forall r c, grid_getchar m r c = grid_getchar (masterGrid (GAME w)) r c \/
                    (in_grid (masterGrid (GAME w)) r c = true /\
                     grid_getchar m r c = grid_getchar (rawGrid (GAME w)) r c)) /\
       (forall p, In p (players (GAME w)) -> message_eqAddr ip (IP p) = true ->
          in_grid (masterGrid (GAME w)) (row p) (col p) = true ->
          grid_getchar m (row p) (col p) =
          grid_getchar (rawGrid (GAME w)) (row p) (col p))) /\
    (forall p, In p (players (GAME w)) -> message_eqAddr ip (IP p) = true ->
       In (ip, "QUIT Thanks for playing!"%string) out).
Proof.
  unfold handleQUIT, bind at 1, get_game at 1. unfold bind at 1.
  set (w0 := (if message_eqAddr (spectatorIP (GAME w)) ip
              then message_send (spectatorIP (GAME w)) "QUIT Thanks for watching!"
              else ret ()) w).
  assert (Hw0 : exists pre, w0 = Some (tt, World (GAME w) (draws w) (sent w ++ pre))).
  { subst w0. destruct (message_eqAddr _ ip).
    - eexists. reflexivity.
    - exists []. rewrite app_nil_r. destruct w. reflexivity. }
  destruct Hw0 as (pre & ->). unfold bind at 1.
  destruct (quit_players_master ip (players (GAME w))
              (World (GAME w) (draws w) (sent w ++ pre)))
    as (m & out & Hq & Hr & Hc & Hcells & Hsent).
  rewrite Hq. rewrite bind_broadcast. unfold ret. cbn [GAME draws sent] in *.
  exists m, pre, out. eexists. split.
  - rewrite <- !app_assoc. reflexivity.
  - split; [exact Hr|]. split; [exact Hc|]. split; [exact Hcells|exact Hsent].
Qed.

(** C7, as the code has it: a KEY message whose key is the capital 'Q'
    makes a seated player quit.  The server answers that player's address
    with "QUIT Thanks for playing!", the player's cell of the master grid shows
    the raw character again, the player keeps its entry and position in the
    table, and the handler returns false: the game continues.  (A small 'q'
    is answered with "ERROR Unknown Keystroke: q" and nothing else happens.) *)
Theorem capital_Q_quits (fuel : nat) (from : addr_t) (rest : string) (w : world)
    (i : nat) (p : player_t) :
  grid_wfb (masterGrid (GAME w)) = true ->
  players (GAME w) !! i = Some p ->
  message_eqAddr from (IP p) = true ->
  in_grid (masterGrid (GAME w)) (row p) (col p) = true ->
  exists w' before after p',
    handleKEY fuel from (String "Q" rest) w = Some (false, w') /\
    sent w' = sent w ++ before ++ (from, "QUIT Thanks for playing!"%string) :: after /\
    players (GAME w') !! i = Some p' /\ row p' = row p /\ col p' = col p /\
    grid_getchar (masterGrid (GAME w')) (row p) (col p) =
    grid_getchar (rawGrid (GAME w')) (row p) (col p).
Proof.
  intros Hwf Hp Hfrom Hin. apply grid_wfb_wf in Hwf.
  assert (Hel : In p (players (GAME w))).
  { apply list_elem_of_In, list_elem_of_lookup. exists i. exact Hp. }
  destruct (handleQUIT_runs from w)
    as (m & pre & out & post & Hq & _ & _ & Hcells & Hsent).
  destruct (Hcells Hwf) as (_ & _ & Hraw).
  specialize (Hraw p Hel Hfrom Hin). specialize (Hsent p Hel Hfrom).
  apply in_split in Hsent as (l1 & l2 & ->).
  unfold handleKEY. cbn [first_char]. change (ch_eqb "Q" "Q") with true. cbv iota.
  unfold bind. rewrite Hq. unfold ret.
  eexists _, (pre ++ l1), (l2 ++ post), (update_client _ p).
  split; [reflexivity|]. cbn [GAME sent]. split.
  { rewrite <- !app_assoc. reflexivity. }
  split.
  { unfold told. simpl. rewrite list_lookup_fmap, Hp. reflexivity. }
  split; [reflexivity|]. split; [reflexivity|]. exact Hraw.
Qed.

Lemma capital_Q_quits_witness :
  let w := demo_world [(alice, "PLAY alice"); (bob, "PLAY bob")]%string in
  exists p w' before after p',
    players (GAME w) !! 0%nat = Some p /\ row p = 1 /\ col p = 1 /\
    grid_getchar (masterGrid (GAME w)) 1 1 = "A"%char /\
    handleKEY 0 alice "Q" w = Some (false, w') /\
    sent w' = sent w ++ before ++ (alice, "QUIT Thanks for playing!"%string) :: after /\
    players (GAME w') !! 0%nat = Some p' /\ row p' = 1 /\ col p' = 1 /\
    grid_getchar (masterGrid (GAME w')) 1 1 = grid_getchar (rawGrid (GAME w')) 1 1.
Proof.
  intros w.
  assert (Hp : exists p, players (GAME w) !! 0%nat = Some p /\ row p = 1 /\ col p = 1 /\
                         message_eqAddr alice (IP p) = true)
    by (vm_compute; eexists; repeat split; reflexivity).
  destruct Hp as (p & Hp & Hr & Hc & Ha).
  destruct (capital_Q_quits 0 alice EmptyString w 0 p) as (w' & before & after & p' & H);
    [vm_compute; reflexivity | exact Hp | exact Ha | rewrite Hr, Hc; vm_compute; reflexivity |].
  rewrite Hr, Hc in H. exists p, w', before, after, p'.
  split; [exact Hp|]. split; [exact Hr|]. split; [exact Hc|].
  split; [vm_compute; reflexivity|]. exact H.
Defined.

(** C7, as stated, fails for the small 'q': the seated player is answered
    with an ERROR message only, and its letter stays on the master grid where
    the raw grid has floor. *)
Lemma small_q_does_not_quit :
  let w := demo_world [(alice, "PLAY alice"); (bob, "PLAY bob")]%string in
  exists p w',
    players (GAME w) !! 0%nat = Some p /\ IP p = alice /\ row p = 1 /\ col p = 1 /\
    handleKEY 0 alice "q" w = Some (false, w') /\
    sent w' = sent w ++ [(alice, "ERROR Unknown Keystroke: q"%string)] /\
    grid_getchar (masterGrid (GAME w')) 1 1 = "A"%char /\
    grid_getchar (rawGrid (GAME w')) 1 1 = "."%char.
Proof. vm_compute. eexists _, _. repeat split; reflexivity. Qed.

(** ** Players on the board stand on different cells *)

Lemma alias_of_code k : 0 <= k < MaxPlayers -> code (alias_of k) = 65 + k.
Proof.
  unfold MaxPlayers. intros Hk. unfold alias_of, code.
  rewrite Z.mod_small by lia.
  rewrite N_ascii_embedding by lia. lia.
Qed.

Lemma alias_of_inj j k :
  0 <= j < MaxPlayers -> 0 <= k < MaxPlayers -> alias_of j = alias_of k -> j = k.
Proof.
  intros Hj Hk E. apply (f_equal code) in E.
  rewrite !alias_of_code in E by assumption. lia.
Qed.

Lemma alias_of_letter k : 0 <= k < MaxPlayers -> isalpha (alias_of k) = true.
Proof.
  intros Hk. unfold isalpha, isupper. rewrite alias_of_code by assumption.
  unfold MaxPlayers in Hk.
  apply orb_true_iff. left. apply andb_true_iff. split; lia.
Qed.

Lemma numbered_lookup {A} (l : list A) s k x :
  In (k, x) (numbered s l) <-> exists i, l !! i = Some x /\ k = s + Z.of_nat i.
Proof.
  revert s. induction l as [|y l IH]; intros s; simpl.
  - split; [intros []|intros (i & Hi & _); destruct i; discriminate].
  - rewrite IH. split.
    + intros [E|(i & Hi & ->)].
      * inversion E; subst. exists O. split; [reflexivity|lia].
      * exists (S i). split; [exact Hi|lia].
    + intros ([|i] & Hi & ->).
      * left. simpl in Hi. inversion Hi; subst. f_equal. lia.
      * right. exists i. split; [exact Hi|lia].
Qed.

Lemma on_board_spec g : on_board g = true <-> boarded g.
Proof.
  unfold on_board, boarded.
  rewrite !andb_true_iff, grid_wfb_wf, Z.leb_le, forallb_forall. split.
  - intros [[Hw Hn] Hall]. split; [exact Hw|]. split; [exact Hn|].
    intros i p Hp. specialize (Hall (Z.of_nat i, p)). simpl in Hall.
    rewrite andb_true_iff, !ch_eqb_eq in Hall. apply Hall.
    apply numbered_lookup. exists i. split; [exact Hp|lia].
  - intros (Hw & Hn & Hall). split; [split; assumption|].
    intros [k p] Hin. apply numbered_lookup in Hin as (i & Hp & ->). simpl.
    rewrite andb_true_iff, !ch_eqb_eq. apply (Hall i p Hp).
Qed.

Lemma boarded_slot g i p :
  boarded g -> players g !! i = Some p -> 0 <= Z.of_nat i < MaxPlayers.
Proof.
  intros (_ & Hn & _) Hp. apply lookup_lt_Some in Hp. unfold numPlayer in Hn. lia.
Qed.

(** On the board, two entries on the same cell are the same entry. *)
Lemma boarded_same_cell g i j p q :
  boarded g -> players g !! i = Some p -> players g !! j = Some q ->
  row p = row q -> col p = col q -> i = j.
Proof.
  intros Hb Hp Hq Hr Hc.
  pose proof (boarded_slot _ _ _ Hb Hp) as Hi.
  pose proof (boarded_slot _ _ _ Hb Hq) as Hj.
  destruct Hb as (_ & _ & Hall).
  destruct (Hall i p Hp) as [Hap Hcp]. destruct (Hall j q Hq) as [Haq Hcq].
  rewrite Hr, Hc, Hcq in Hcp. rewrite Hap, Haq in Hcp.
  apply alias_of_inj in Hcp; [lia|assumption..].
Qed.

Lemma boarded_apart g : boarded g -> apart (players g).
Proof.
  intros Hb i j p q Hp Hq Hne. unfold same_tile.
  destruct (Z.eqb_spec (row p) (row q)) as [Hr|]; [|reflexivity].
  destruct (Z.eqb_spec (col p) (col q)) as [Hc|]; [|reflexivity].
  exfalso. apply Hne. apply (boarded_same_cell g i j p q); assumption.
Qed.

(** The cell of a player on the board shows a letter, so it is a cell of the
    grid and [grid_isPlayer] holds there. *)
Lemma boarded_cell g i p :
  boarded g -> players g !! i = Some p ->
  grid_isPlayer (masterGrid g) (row p) (col p) = true /\
  in_grid (masterGrid g) (row p) (col p) = true.
Proof.
  intros Hb Hp. pose proof (boarded_slot _ _ _ Hb Hp) as Hi.
  destruct Hb as (_ & _ & Hall). destruct (Hall i p Hp) as [Hap Hcp].
  assert (Hl : grid_isPlayer (masterGrid g) (row p) (col p) = true).
  { unfold grid_isPlayer. rewrite Hcp, Hap, alias_of_letter by assumption. reflexivity. }
  split; [exact Hl|].
  destruct (in_grid (masterGrid g) (row p) (col p)) eqn:Hin; [reflexivity|].
  unfold grid_isPlayer in Hl. rewrite (grid_getchar_outside _ _ _ Hin) in Hl.
  discriminate.
Qed.

Lemma boarded_told g : boarded g -> boarded (told g).
Proof.
  intros (Hw & Hn & Hall). unfold boarded, told, numPlayer in *. simpl.
  rewrite length_fmap. split; [exact Hw|]. split; [exact Hn|].
  intros i p Hp. rewrite list_lookup_fmap in Hp.
  destruct (players g !! i) as [p0|] eqn:Hp0; [|discriminate].
  inversion Hp; subst. simpl. apply (Hall i p0 Hp0).
Qed.

Lemma boarded_picked g pi n : boarded g -> boarded (picked g pi n).
Proof.
  intros (Hw & Hn & Hall). unfold boarded, picked, numPlayer in *. simpl.
  rewrite length_alter. split; [exact Hw|]. split; [exact Hn|].
  intros i p Hp. rewrite list_lookup_alter in Hp.
  destruct (decide (pi = i)) as [->|Hne]; [|apply (Hall i p Hp)].
  destruct (players g !! i) as [p0|] eqn:Hp0; [|discriminate].
  inversion Hp; subst. simpl. apply (Hall i p0 Hp0).
Qed.

Lemma cell_test_true g r c r' c' :
  in_grid g r c && (r =? r') && (c =? c') = true -> r = r' /\ c = c'.
Proof. rewrite !andb_true_iff, !Z.eqb_eq. tauto. Qed.

Lemma boarded_moved g pi p nr nc :
  boarded g -> players g !! pi = Some p ->
  grid_canMoveTo (masterGrid g) nr nc = true ->
  grid_isPlayer (masterGrid g) nr nc = false ->
  boarded (moved g pi p nr nc).
Proof.
  intros Hb Hp Hmove Hpl. pose proof Hb as (Hw & Hn & Hall).
  set (m1 := grid_update (masterGrid g) (row p) (col p)
               (grid_getchar (rawGrid g) (row p) (col p))).
  assert (Hw1 : grid_wf m1) by (apply grid_wf_update; exact Hw).
  unfold boarded, moved, numPlayer. simpl. fold m1. rewrite length_alter.
  split; [apply grid_wf_update; exact Hw1|]. split; [exact Hn|].
  intros j x Hx. rewrite list_lookup_alter in Hx.
  destruct (decide (pi = j)) as [->|Hne].
  - rewrite Hp in Hx. inversion Hx; subst; clear Hx. simpl.
    split; [apply (Hall j p Hp)|].
    apply grid_getchar_update_same; [exact Hw1|].
    unfold m1. rewrite in_grid_update. apply grid_canMoveTo_inside, Hmove.
  - split; [apply (Hall j x Hx)|].
    rewrite grid_getchar_update by exact Hw1.
    destruct (in_grid m1 nr nc && (nr =? row x) && (nc =? col x)) eqn:E.
    + apply cell_test_true in E as [-> ->].
      destruct (boarded_cell g j x Hb Hx) as [Hl _]. congruence.
    + unfold m1. rewrite grid_getchar_update by exact Hw.
      destruct (in_grid (masterGrid g) (row p) (col p) && (row p =? row x) &&
                (col p =? col x)) eqn:E'.
      * apply cell_test_true in E' as [Hr Hc].
        exfalso. apply Hne. apply (boarded_same_cell g pi j p x); assumption.
      * apply (Hall j x Hx).
Qed.

Lemma boarded_swapped g pi p i q nr nc :
  boarded g -> players g !! pi = Some p ->
  grid_canMoveTo (masterGrid g) nr nc = true ->
  list_find (fun q => row q = nr /\ col q = nc) (players g) = Some (i, q) ->
  boarded (swapped g pi p i q nr nc).
Proof.
  intros Hb Hp Hmove Hfind. pose proof Hb as (Hw & Hn & Hall).
  apply list_find_Some in Hfind as (Hq & [Hqr Hqc] & _).
  set (m1 := grid_update (masterGrid g) (row p) (col p) (alias q)).
  assert (Hw1 : grid_wf m1) by (apply grid_wf_update; exact Hw).
  assert (Hin : in_grid m1 nr nc = true)
    by (unfold m1; rewrite in_grid_update; apply grid_canMoveTo_inside, Hmove).
  unfold boarded, swapped, numPlayer. simpl. fold m1. rewrite !length_alter.
  split; [apply grid_wf_update; exact Hw1|]. split; [exact Hn|].
  intros j x Hx. rewrite list_lookup_alter in Hx.
  destruct (decide (pi = j)) as [->|Hne].
  - (* the mover *)
    rewrite list_lookup_alter in Hx.
    assert (Ha : alias x = alias p /\ row x = nr /\ col x = nc).
    { destruct (decide (i = j)) as [->|Hij].
      - rewrite Hp in Hx. inversion Hx; subst. repeat split.
      - rewrite Hp in Hx. inversion Hx; subst. repeat split. }
    destruct Ha as (Ha & -> & ->). rewrite Ha.
    split; [apply (Hall j p Hp)|].
    apply grid_getchar_update_same; assumption.
  - rewrite list_lookup_alter in Hx.
    destruct (decide (i = j)) as [->|Hij].
    + (* the player met: it goes to the cell the mover leaves *)
      rewrite Hq in Hx. inversion Hx; subst; clear Hx. simpl.
      split; [apply (Hall j q Hq)|].
      rewrite grid_getchar_update by exact Hw1.
      destruct (in_grid m1 (row q) (col q) && (row q =? row p) && (col q =? col p)) eqn:E.
      * apply cell_test_true in E as [Hr Hc].
        exfalso. apply Hne. apply (boarded_same_cell g pi j p q); auto.
      * unfold m1. apply grid_getchar_update_same; [exact Hw|].
        apply (boarded_cell g pi p Hb Hp).
    + (* the others *)
      split; [apply (Hall j x Hx)|].
      rewrite grid_getchar_update by exact Hw1.
      destruct (in_grid m1 nr nc && (nr =? row x) && (nc =? col x)) eqn:E.
      * apply cell_test_true in E as [Hr Hc].
        exfalso. apply Hij. apply (boarded_same_cell g i j q x); congruence.
      * unfold m1. rewrite grid_getchar_update by exact Hw.
        destruct (in_grid (masterGrid g) (row p) (col p) && (row p =? row x) &&
                  (col p =? col x)) eqn:E'.
        -- apply cell_test_true in E' as [Hr Hc].
           exfalso. apply Hne. apply (boarded_same_cell g pi j p x); assumption.
        -- apply (Hall j x Hx).
Qed.

Lemma boarded_joined g from name r c seen :
  boarded g -> numPlayer g <> MaxPlayers ->
  grid_isEmptyRoomSpot (masterGrid g) r c = true ->
  boarded (joined g from name r c seen).
Proof.
  intros Hb Hfull Hfree. pose proof Hb as (Hw & Hn & Hall).
  unfold boarded, joined, numPlayer in *. simpl. rewrite length_app. simpl.
  split; [apply grid_wf_update; exact Hw|]. split; [lia|].
  intros j x Hx. apply lookup_app_Some in Hx as [Hx|[Hle Hx]].
  - split; [apply (Hall j x Hx)|].
    rewrite grid_getchar_update by exact Hw.
    destruct (in_grid (masterGrid g) r c && (r =? row x) && (c =? col x)) eqn:E.
    + apply cell_test_true in E as [-> ->].
      destruct (boarded_cell g j x Hb Hx) as [Hl _].
      unfold grid_isEmptyRoomSpot in Hfree. apply ch_eqb_eq in Hfree.
      unfold grid_isPlayer in Hl. rewrite Hfree in Hl. discriminate.
    + apply (Hall j x Hx).
  - destruct (j - length (players g))%nat eqn:Hj; simpl in Hx; [|discriminate].
    inversion Hx; subst; clear Hx. simpl.
    assert (j = length (players g)) by lia. subst j.
    split; [reflexivity|].
    apply grid_getchar_update_same; [exact Hw|].
    apply grid_isEmptyRoomSpot_inside, Hfree.
Qed.

Lemma player_move_boarded pi nr nc w stop w' :
  boarded (GAME w) -> player_move pi nr nc w = Some (stop, w') -> boarded (GAME w').
Proof.
  intros H Hm. apply player_move_cases in Hm as (p & Hp & Hcases).
  destruct Hcases as [(_ & -> & _)|(_ & Hmove & Hcases)]; [exact H|].
  destruct Hcases as [(-> & _)|[(_ & i & q & Hf & ->)|[(Hpl & _ & n & -> & _)|(Hpl & _ & ->)]]].
  - exact H.
  - apply boarded_told, boarded_swapped; assumption.
  - apply boarded_told, boarded_picked, boarded_moved; assumption.
  - apply boarded_told, boarded_moved; assumption.
Qed.

Lemma handlePlay_boarded from name w stop w' :
  boarded (GAME w) -> handlePlay from name w = Some (stop, w') -> boarded (GAME w').
Proof.
  intros H Hp. apply handlePlay_shape in Hp as (_ & [->|(r & c & seen & Hfull & Hfree & ->)]);
    [exact H|].
  apply boarded_told, boarded_joined; assumption.
Qed.

Lemma handleSPECTATE_boarded from w stop w' :
  boarded (GAME w) -> handleSPECTATE from w = Some (stop, w') -> boarded (GAME w').
Proof.
  intros H Hs. apply handleSPECTATE_shape in Hs as (_ & ->).
  apply boarded_told. exact H.
Qed.

Lemma setup_boarded m ds w :
  valid_map m = true ->
  server_drop_gold (World (loaded m) ds []) = Some (tt, w) -> boarded (GAME w).
Proof.
  intros Hm Hs. apply server_drop_gold_shape in Hs as (n & master & _ & -> & _ & _ & Hw).
  unfold valid_map in Hm. apply andb_true_iff in Hm as [Hm _].
  apply grid_wfb_wf in Hm. destruct (Hw Hm) as [Hwm _].
  unfold boarded, numPlayer. simpl. split; [exact Hwm|].
  split; [unfold MaxPlayers; lia|]. intros i p Hp. destruct i; discriminate.
Qed.

(** A message that starts with "KEY " carries the key 'Q' exactly when it
    starts with "KEY Q". *)
Lemma key_Q_message message :
  starts_with "KEY " message = true ->
  ch_eqb (first_char (skip 4 message)) "Q" = starts_with "KEY Q" message.
Proof.
  destruct message as [|a0 [|a1 [|a2 [|a3 rest]]]]; cbn [starts_with skip first_char];
    rewrite ?andb_false_r; try discriminate.
  destruct (ch_eqb "K" a0), (ch_eqb "E" a1), (ch_eqb "Y" a2), (ch_eqb " " a3);
    cbn [andb]; try discriminate.
  intros _. destruct rest as [|a4 rest]; cbn [starts_with first_char]; [reflexivity|].
  rewrite andb_true_r. apply Ascii.eqb_sym.
Qed.

(** While every player of the table is on the board (the master grid shows
    its letter where it stands: so it is from setup on, as long as nobody
    has quit), a PLAY, a SPECTATE or a KEY other than Q leaves every player
    on the board, and no two players of the table on the same cell. *)
Lemma players_apart_without_quit (fuel : nat) (from : addr_t) (message : string)
    (w : world) (stop : bool) (w' : world) :
  on_board (GAME w) = true ->
  starts_with "KEY Q" message = false ->
  handleMessage fuel from message w = Some (stop, w') ->
  on_board (GAME w') = true /\ apart (players (GAME w')).
Proof.
  intros Hb HQ Hm. apply on_board_spec in Hb.
  assert (Hb' : boarded (GAME w')).
  { revert Hm. unfold handleMessage.
    destruct (starts_with "PLAY " message); [apply handlePlay_boarded; exact Hb|].
    destruct (starts_with "SPECTATE" message); [apply handleSPECTATE_boarded; exact Hb|].
    destruct (starts_with "KEY " message) eqn:Hkey.
    - apply (handleKEY_moves_keep boarded player_move_boarded); [|exact Hb].
      rewrite key_Q_message by exact Hkey. exact HQ.
    - unfold ret. intros E. inversion E; subst. exact Hb. }
  split; [apply on_board_spec; exact Hb'|apply boarded_apart; exact Hb'].
Qed.

Lemma players_apart_without_quit_witness :
  let w := demo_world [(alice, "PLAY alice"); (bob, "PLAY bob")]%string in
  exists stop w',
    on_board (GAME w) = true /\
    starts_with "KEY Q" "KEY l" = false /\
    handleMessage 0 alice "KEY l" w = Some (stop, w') /\
    List.map (fun p => (row p, col p)) (players (GAME w')) = [(1, 2); (1, 1)] /\
    on_board (GAME w') = true /\ apart (players (GAME w')).
Proof.
  intros w.
  assert (H : exists stop w', handleMessage 0 alice "KEY l" w = Some (stop, w') /\
     List.map (fun p => (row p, col p)) (players (GAME w')) = [(1, 2); (1, 1)])
    by (vm_compute; eexists _, _; split; reflexivity).
  destruct H as (stop & w' & Hm & Hpos). exists stop, w'.
  assert (Hb : on_board (GAME w) = true) by (vm_compute; reflexivity).
  split; [exact Hb|]. split; [reflexivity|]. split; [exact Hm|]. split; [exact Hpos|].
  exact (players_apart_without_quit 0 alice "KEY l" w stop w' Hb eq_refl Hm).
Defined.

(** Alice and Bob join, Alice quits, and Bob steps onto the cell Alice is
    still recorded at. *)
Lemma quit_then_step_shares_a_cell :
  let w := demo_world [(alice, "PLAY alice"); (bob, "PLAY bob");
                       (alice, "KEY Q"); (bob, "KEY h")]%string in
  reachable w /\
  List.map (fun p => (alias p, row p, col p)) (players (GAME w)) =
    [("A"%char, 1, 1); ("B"%char, 1, 1)] /\
  ~ apart (players (GAME w)).
Proof.
  intros w. split; [|split].
  - apply (demo_reachable [(alice, "PLAY alice"); (bob, "PLAY bob");
                           (alice, "KEY Q"); (bob, "KEY h")]%string).
    vm_compute. reflexivity.
  - vm_compute. reflexivity.
  - intros Hapart.
    assert (Hp : exists p q, players (GAME w) !! 0%nat = Some p /\
                             players (GAME w) !! 1%nat = Some q /\
                             same_tile p q = true)
      by (vm_compute; eexists _, _; repeat split; reflexivity).
    destruct Hp as (p & q & Hp & Hq & Hsame).
    rewrite (Hapart 0%nat 1%nat p q Hp Hq ltac:(lia)) in Hsame. discriminate.
Qed.

(** ** C6: the letters of the master grid have owners *)

Lemma grid_isPlayer_inside g r c :
  grid_isPlayer g r c = true -> in_grid g r c = true.
Proof.
  intros H. destruct (in_grid g r c) eqn:Hin; [reflexivity|].
  unfold grid_isPlayer in H. rewrite (grid_getchar_outside _ _ _ Hin) in H.
  discriminate.
Qed.

Lemma letters_owned_spec g : letters_owned g = true -> owned g.
Proof.
  unfold letters_owned, owned. rewrite !andb_true_iff, !forallb_forall.
  intros [[Hw Hraw] Hown]. apply grid_wfb_wf in Hw. split; [exact Hw|]. split.
  - intros r c Hin. apply in_grid_spec in Hin.
    specialize (Hraw (r, c) (proj2 (in_cells _ _ r c) Hin)). simpl in Hraw.
    apply negb_true_iff in Hraw. exact Hraw.
  - intros r c Hl. pose proof (grid_isPlayer_inside _ _ _ Hl) as Hin.
    apply in_grid_spec in Hin.
    specialize (Hown (r, c) (proj2 (in_cells _ _ r c) Hin)). simpl in Hown.
    rewrite Hl in Hown. simpl in Hown.
    apply existsb_exists in Hown as (q & Hq & Hpos).
    apply andb_true_iff in Hpos as [Hr Hc].
    apply Z.eqb_eq in Hr. apply Z.eqb_eq in Hc.
    apply list_elem_of_In, list_elem_of_lookup in Hq as [j Hj].
    exists j, q. repeat split; assumption.
Qed.

Lemma owned_told g : owned g -> owned (told g).
Proof.
  intros (Hw & Hraw & Hown). unfold owned, told. simpl.
  split; [exact Hw|]. split; [exact Hraw|].
  intros r c Hl. destruct (Hown r c Hl) as (j & q & Hq & Hr & Hc).
  exists j, (update_client g q). rewrite list_lookup_fmap, Hq.
  repeat split; assumption.
Qed.

Lemma owned_picked g pi n : owned g -> owned (picked g pi n).
Proof.
  intros (Hw & Hraw & Hown). unfold owned, picked. simpl.
  split; [exact Hw|]. split; [exact Hraw|].
  intros r c Hl. destruct (Hown r c Hl) as (j & q & Hq & Hr & Hc).
  destruct (decide (pi = j)) as [->|Hne].
  - exists j, (add_gold n q). rewrite list_lookup_alter_eq, Hq.
    repeat split; assumption.
  - exists j, q. rewrite list_lookup_alter_ne by exact Hne.
    repeat split; assumption.
Qed.

Lemma grid_isPlayer_update g r c ch r' c' :
  grid_wf g ->
  grid_isPlayer (grid_update g r c ch) r' c' =
  if in_grid g r c && (r =? r') && (c =? c')
  then isalpha ch || ch_eqb ch "@" else grid_isPlayer g r' c'.
Proof.
  intros Hw. unfold grid_isPlayer. rewrite grid_getchar_update by exact Hw.
  destruct (in_grid g r c && (r =? r') && (c =? c')); reflexivity.
Qed.

Lemma owned_moved g pi p nr nc :
  owned g -> players g !! pi = Some p ->
  grid_canMoveTo (masterGrid g) nr nc = true ->
  owned (moved g pi p nr nc).
Proof.
  intros (Hw & Hraw & Hown) Hp Hmove.
  set (m1 := grid_update (masterGrid g) (row p) (col p)
               (grid_getchar (rawGrid g) (row p) (col p))).
  assert (Hw1 : grid_wf m1) by (apply grid_wf_update; exact Hw).
  unfold owned, moved. simpl. fold m1.
  split; [apply grid_wf_update; exact Hw1|]. split.
  { intros r c. unfold m1. rewrite !in_grid_update. apply Hraw. }
  intros r c. rewrite grid_isPlayer_update by exact Hw1.
  destruct (in_grid m1 nr nc && (nr =? r) && (nc =? c)) eqn:E.
  - apply cell_test_true in E as [-> ->]. intros _.
    exists pi, (set_pos r c p). rewrite list_lookup_alter_eq, Hp.
    repeat split.
  - unfold m1. rewrite grid_isPlayer_update by exact Hw.
    destruct (in_grid (masterGrid g) (row p) (col p) && (row p =? r) && (col p =? c))
      eqn:E'.
    + intros Hl. exfalso.
      apply andb_true_iff in E' as [E' _]. apply andb_true_iff in E' as [Hin _].
      specialize (Hraw _ _ Hin). unfold grid_isPlayer in Hraw. congruence.
    + intros Hl. destruct (Hown r c Hl) as (j & q & Hq & Hr & Hc).
      destruct (decide (pi = j)) as [->|Hne].
      * exfalso. rewrite Hp in Hq. inversion Hq; subst q.
        rewrite Hr, Hc, !Z.eqb_refl, (grid_isPlayer_inside _ _ _ Hl) in E'.
        discriminate.
      * exists j, q. rewrite list_lookup_alter_ne by exact Hne.
        repeat split; assumption.
Qed.

Lemma owned_swapped g pi p i q nr nc :
  owned g -> players g !! pi = Some p ->
  grid_canMoveTo (masterGrid g) nr nc = true ->
  list_find (fun q => row q = nr /\ col q = nc) (players g) = Some (i, q) ->
  owned (swapped g pi p i q nr nc).
Proof.
  intros (Hw & Hraw & Hown) Hp Hmove Hfind.
  apply list_find_Some in Hfind as (Hq & [Hqr Hqc] & _).
  set (m1 := grid_update (masterGrid g) (row p) (col p) (alias q)).
  assert (Hw1 : grid_wf m1) by (apply grid_wf_update; exact Hw).
  unfold owned, swapped. simpl. fold m1.
  split; [apply grid_wf_update; exact Hw1|]. split.
  { intros r c. unfold m1. rewrite !in_grid_update. apply Hraw. }
  intros r c. rewrite grid_isPlayer_update by exact Hw1.
  destruct (in_grid m1 nr nc && (nr =? r) && (nc =? c)) eqn:E.
  - apply cell_test_true in E as [-> ->]. intros _.
    destruct (alter (set_pos (row p) (col p)) i (players g) !! pi) as [x|] eqn:Hx.
    + exists pi, (set_pos r c x). rewrite list_lookup_alter_eq, Hx. repeat split.
    + apply lookup_ge_None in Hx. rewrite length_alter in Hx.
      apply lookup_lt_Some in Hp. lia.
  - unfold m1. rewrite grid_isPlayer_update by exact Hw.
    destruct (in_grid (masterGrid g) (row p) (col p) && (row p =? r) && (col p =? c))
      eqn:E'.
    + (* the cell the mover leaves: the player met stands there now *)
      intros _. apply cell_test_true in E' as [<- <-].
      destruct (decide (pi = i)) as [->|Hne].
      * exfalso. rewrite Hp in Hq. inversion Hq; subst q.
        unfold m1 in E. rewrite in_grid_update in E.
        rewrite Hqr, Hqc, !Z.eqb_refl, (grid_canMoveTo_inside _ _ _ Hmove) in E.
        discriminate.
      * exists i, (set_pos (row p) (col p) q).
        rewrite list_lookup_alter_ne by exact Hne.
        rewrite list_lookup_alter_eq, Hq. repeat split.
    + intros Hl. destruct (Hown r c Hl) as (j & x & Hx & Hr & Hc).
      assert (Hj1 : pi <> j).
      { intros ->. rewrite Hp in Hx. inversion Hx; subst x.
        rewrite Hr, Hc, !Z.eqb_refl, (grid_isPlayer_inside _ _ _ Hl) in E'.
        discriminate. }
      assert (Hj2 : i <> j).
      { intros ->. rewrite Hq in Hx. inversion Hx; subst x.
        unfold m1 in E. rewrite in_grid_update in E.
        rewrite <- Hqr, <- Hqc, Hr, Hc, !Z.eqb_refl,
          (grid_isPlayer_inside _ _ _ Hl) in E.
        discriminate. }
      exists j, x. rewrite !list_lookup_alter_ne by assumption.
      repeat split; assumption.
Qed.

Lemma player_move_owned pi nr nc w stop w' :
  owned (GAME w) -> player_move pi nr nc w = Some (stop, w') -> owned (GAME w').
Proof.
  intros H Hm. apply player_move_cases in Hm as (p & Hp & Hcases).
  destruct Hcases as [(_ & -> & _)|(_ & Hmove & Hcases)]; [exact H|].
  destruct Hcases as [(-> & _)|[(_ & i & q & Hf & ->)|[(_ & _ & n & -> & _)|(_ & _ & ->)]]].
  - exact H.
  - apply owned_told, owned_swapped; assumption.
  - apply owned_told, owned_picked, owned_moved; assumption.
  - apply owned_told, owned_moved; assumption.
Qed.

(** When the letters have owners, a step that is not refused takes the
    mover to the cell it aimed at. *)
Lemma player_move_arrives pi nr nc w w' :
  owned (GAME w) -> player_move pi nr nc w = Some (false, w') ->
  exists p', players (GAME w') !! pi = Some p' /\ row p' = nr /\ col p' = nc.
Proof.
  intros (Hw & Hraw & Hown) Hm. apply player_move_cases in Hm as (p & Hp & Hcases).
  destruct Hcases as [(Hs & _)|(_ & Hmove & Hcases)]; [discriminate|].
  destruct Hcases as [(_ & Hl & Hnone)|[(_ & i & q & Hf & ->)|[(_ & _ & n & -> & _)|(_ & _ & ->)]]].
  - exfalso. destruct (Hown nr nc Hl) as (j & q & Hq & Hr & Hc).
    apply list_find_None in Hnone. rewrite Forall_forall in Hnone.
    apply (Hnone q); [|split; assumption].
    apply list_elem_of_lookup. exists j. exact Hq.
  - unfold told, swapped. simpl. rewrite list_lookup_fmap, list_lookup_alter_eq.
    destruct (alter (set_pos (row p) (col p)) i (players (GAME w)) !! pi) as [x|] eqn:Hx.
    + eexists. split; [reflexivity|]. split; reflexivity.
    + apply lookup_ge_None in Hx. rewrite length_alter in Hx.
      apply lookup_lt_Some in Hp. lia.
  - unfold told, picked, moved. simpl.
    rewrite list_lookup_fmap, !list_lookup_alter_eq, Hp.
    eexists. split; [reflexivity|]. split; reflexivity.
  - unfold told, moved. simpl. rewrite list_lookup_fmap, list_lookup_alter_eq, Hp.
    eexists. split; [reflexivity|]. split; reflexivity.
Qed.

(** [player_move] refuses exactly the cells that cannot be entered. *)
Lemma player_move_refuses pi nr nc w stop w' :
  player_move pi nr nc w = Some (stop, w') ->
  stop = negb (grid_canMoveTo (masterGrid (GAME w)) nr nc) /\
  (stop = true -> w' = w).
Proof.
  intros Hm. apply player_move_cases in Hm as (p & Hp & Hcases).
  destruct Hcases as [(-> & -> & ->)|(-> & -> & _)].
  - split; [reflexivity|]. intros _. reflexivity.
  - split; [reflexivity|]. intros E. discriminate.
Qed.

Lemma fmap_alter_same {A B} (f : A -> B) (h : A -> A) i (l : list A) :
  (forall x, f (h x) = f x) -> f <$> alter h i l = f <$> l.
Proof.
  intros Hf. apply list_eq. intros j.
  rewrite !list_lookup_fmap, list_lookup_alter.
  destruct (decide (i = j)) as [->|]; [|reflexivity].
  destruct (l !! j); simpl; [rewrite Hf|]; reflexivity.
Qed.

Lemma told_IPs g : IP <$> players (told g) = IP <$> players g.
Proof.
  unfold told. simpl. rewrite <- list_fmap_compose. apply list_fmap_ext.
  intros. reflexivity.
Qed.

(** [player_move] leaves the addresses of the table alone. *)
Lemma player_move_IPs pi nr nc w stop w' :
  player_move pi nr nc w = Some (stop, w') ->
  IP <$> players (GAME w') = IP <$> players (GAME w).
Proof.
  intros Hm. apply player_move_cases in Hm as (p & Hp & Hcases).
  destruct Hcases as [(_ & -> & _)|(_ & Hmove & Hcases)]; [reflexivity|].
  destruct Hcases as [(-> & _)|[(_ & i & q & Hf & ->)|[(_ & _ & n & -> & _)|(_ & _ & ->)]]].
  - reflexivity.
  - rewrite told_IPs. unfold swapped. simpl.
    rewrite !fmap_alter_same by reflexivity. reflexivity.
  - rewrite told_IPs. unfold picked, moved. simpl.
    rewrite !fmap_alter_same by reflexivity. reflexivity.
  - rewrite told_IPs. unfold moved. simpl.
    rewrite !fmap_alter_same by reflexivity. reflexivity.
Qed.

Lemma find_player_IPs from ps ps' :
  IP <$> ps = IP <$> ps' ->
  forall i found, find_player from i ps found = find_player from i ps' found.
Proof.
  revert ps'. induction ps as [|p ps IH]; intros [|p' ps'] E i found;
    try discriminate; [reflexivity|].
  simpl in E. inversion E as [[E1 E2]]. simpl. rewrite E1. apply IH. exact E2.
Qed.

(** The run key takes the steps of its direction in [player_move]'s own
    terms; so does the step key, handled again and again. *)
Lemma run_is_repeat_key fuel from key dr dc :
  key_action_of key = Step dr dc ->
  forall w pi p,
    owned (GAME w) ->
    find_player from 0 (players (GAME w)) None = Some pi ->
    players (GAME w) !! pi = Some p ->
    result_world (run fuel pi (row p) (col p) dr dc w) =
    result_world (repeat_key fuel from key w).
Proof.
  intros Hkey.
  assert (HQ : ch_eqb key "Q" = false).
  { destruct (ch_eqb key "Q") eqn:E; [|reflexivity].
    apply ch_eqb_eq in E. subst key. discriminate. }
  induction fuel as [|fuel IH]; intros w pi p Hown Hfind Hp; [reflexivity|].
  cbn [run repeat_key]. unfold bind at 1. unfold bind at 1, get_game at 1.
  unfold bind at 1. unfold handleKEY. cbn [first_char]. rewrite HQ.
  unfold bind at 1, get_game at 1. rewrite Hfind, Hp, Hkey.
  unfold bind at 1. unfold bind at 1.
  destruct (player_move pi (row p + dr) (col p + dc) w) as [[stop w1]|] eqn:Hm;
    [|reflexivity].
  unfold ret at 1. unfold bind at 1, get_game at 1. unfold ret at 1.
  destruct (player_move_refuses _ _ _ _ _ _ Hm) as [Hstop Hsame].
  unfold step_blocked. rewrite Hfind, Hp, <- Hstop.
  destruct stop; [reflexivity|].
  destruct (player_move_arrives _ _ _ _ _ Hown Hm) as (p' & Hp' & Hr & Hc).
  rewrite <- Hr, <- Hc. apply IH.
  - apply (player_move_owned _ _ _ _ _ _ Hown Hm).
  - rewrite <- Hfind. apply find_player_IPs. apply (player_move_IPs _ _ _ _ _ _ Hm).
  - exact Hp'.
Qed.

(** Every run key has its step key: the small letter, for the same
    direction. *)
Lemma tolower_run_key KEY dr dc :
  key_action_of KEY = Run dr dc ->
  key_action_of (tolower KEY) = Step dr dc /\ ch_eqb KEY "Q" = false.
Proof.
  destruct KEY as [[] [] [] [] [] [] [] []]; vm_compute; intros E;
    try discriminate; inversion E; split; reflexivity.
Qed.

Lemma handleQUIT_owned ip w stop w' :
  owned (GAME w) -> handleQUIT ip w = Some (stop, w') -> owned (GAME w').
Proof.
  intros (Hw & Hraw & Hown) Hq.
  destruct (handleQUIT_runs ip w) as (m & pre & out & post & Hq' & Hr & Hc & Hcells & _).
  rewrite Hq' in Hq. inversion Hq; subst; clear Hq. cbn [GAME].
  destruct (Hcells Hw) as (Hwm & Hkeep & _).
  assert (Hin : forall r c, in_grid m r c = in_grid (masterGrid (GAME w)) r c)
    by (intros; unfold in_grid; rewrite Hr, Hc; reflexivity).
  apply owned_told. unfold owned. simpl.
  split; [exact Hwm|]. split.
  - intros r c. rewrite Hin. apply Hraw.
  - intros r c Hl. unfold grid_isPlayer in Hl.
    destruct (Hkeep r c) as [E|[Hin' E]]; rewrite E in Hl.
    + apply (Hown r c Hl).
    + specialize (Hraw r c Hin'). unfold grid_isPlayer in Hraw. congruence.
Qed.

Lemma handlePlay_owned from name w stop w' :
  owned (GAME w) -> handlePlay from name w = Some (stop, w') -> owned (GAME w').
Proof.
  intros H Hp. apply handlePlay_shape in Hp as (_ & [->|(r & c & seen & _ & Hfree & ->)]);
    [exact H|].
  destruct H as (Hw & Hraw & Hown). apply owned_told. unfold owned, joined. simpl.
  split; [apply grid_wf_update; exact Hw|]. split.
  - intros r' c'. rewrite in_grid_update. apply Hraw.
  - intros r' c'. rewrite grid_isPlayer_update by exact Hw.
    destruct (in_grid (masterGrid (GAME w)) r c && (r =? r') && (c =? c')) eqn:E.
    + apply cell_test_true in E as [-> ->]. intros _.
      exists (length (players (GAME w))). eexists.
      rewrite lookup_app_r by lia. rewrite Nat.sub_diag. simpl.
      split; [reflexivity|]. split; reflexivity.
    + intros Hl. destruct (Hown r' c' Hl) as (j & q & Hq & Hr & Hc).
      exists j, q. rewrite lookup_app_l by (apply lookup_lt_Some in Hq; exact Hq).
      repeat split; assumption.
Qed.

Lemma handleSPECTATE_owned from w stop w' :
  owned (GAME w) -> handleSPECTATE from w = Some (stop, w') -> owned (GAME w').
Proof.
  intros H Hs. apply handleSPECTATE_shape in Hs as (_ & ->).
  apply owned_told. exact H.
Qed.

(** A map has no letter. *)
Lemma valid_map_no_player m r c :
  valid_map m = true -> grid_isPlayer m r c = false.
Proof.
  unfold valid_map. rewrite andb_true_iff, forallb_forall. intros [_ Hall].
  unfold grid_isPlayer, grid_getchar.
  destruct (in_grid m r c); [|reflexivity].
  destruct (grid_map m !! offset m r c) as [ch|] eqn:Hch; [|reflexivity].
  simpl. assert (Hm : map_char ch = true).
  { apply Hall. apply list_elem_of_In, list_elem_of_lookup. eexists. exact Hch. }
  unfold map_char in Hm. rewrite !orb_true_iff, !ch_eqb_eq in Hm.
  destruct Hm as [[[[[->| ->]| ->]| ->]| ->]| ->]; reflexivity.
Qed.

Lemma setup_owned m ds w :
  valid_map m = true ->
  server_drop_gold (World (loaded m) ds []) = Some (tt, w) -> owned (GAME w).
Proof.
  intros Hm Hs. apply server_drop_gold_shape in Hs as (n & master & _ & -> & Hr & Hc & Hw).
  pose proof Hm as Hm'. unfold valid_map in Hm'. apply andb_true_iff in Hm' as [Hwf _].
  apply grid_wfb_wf in Hwf. destruct (Hw Hwf) as [Hwm Hkeep].
  unfold owned. simpl. split; [exact Hwm|]. split.
  - intros r c _. apply valid_map_no_player. exact Hm.
  - intros r c Hl. exfalso. unfold grid_isPlayer in Hl.
    destruct (Hkeep r c) as [E|E]; rewrite E in Hl.
    + pose proof (valid_map_no_player m r c Hm) as Hno.
      unfold grid_isPlayer in Hno. congruence.
    + discriminate.
Qed.

(** In every state of the server the letters of the master grid have
    owners. *)
Lemma reachable_owned w : reachable w -> owned (GAME w).
Proof.
  apply (reachable_keeps owned).
  - exact player_move_owned.
  - exact handleQUIT_owned.
  - exact handlePlay_owned.
  - exact handleSPECTATE_owned.
  - exact setup_owned.
Qed.

Lemma owned_letters_owned g : owned g -> letters_owned g = true.
Proof.
  intros (Hw & Hraw & Hown). unfold letters_owned.
  rewrite !andb_true_iff, !forallb_forall. split; [split|].
  - apply grid_wfb_wf. exact Hw.
  - intros [r c] Hin. apply in_cells in Hin. simpl.
    apply negb_true_iff. apply Hraw. apply in_grid_spec. exact Hin.
  - intros [r c] _. simpl.
    destruct (grid_isPlayer (masterGrid g) r c) eqn:Hl; [|reflexivity]. simpl.
    destruct (Hown r c Hl) as (j & q & Hq & Hr & Hc).
    apply existsb_exists. exists q. split.
    + apply list_elem_of_In, list_elem_of_lookup. exists j. exact Hq.
    + rewrite Hr, Hc, !Z.eqb_refl. reflexivity.
Qed.

(** The boolean form of the same, as the run-mode equivalence below takes
    it. *)
Lemma reachable_letters_owned w : reachable w -> letters_owned (GAME w) = true.
Proof. intros H. apply owned_letters_owned, reachable_owned, H. Qed.

(** C6.  Run-mode equivalence.  In a state of the server (every letter of
    the master grid is the cell of a player: [reachable_letters_owned]), for
    a seated sender and a run key (H, L, J, K, Y, U, B, N), handling the run
    key gives the same world as handling the small-letter key again and again
    until a step is aimed at a cell that cannot be entered: the same
    positions, grids and gold, the same draws used by the pick-ups and the
    same messages sent, in the same order.  With the same fuel one side
    returns exactly when the other does. *)
Theorem run_key_is_repeated_step_key (fuel : nat) (from : addr_t) (KEY : ascii)
    (rest : string) (w : world) (pi : nat) (dr dc : Z) :
  letters_owned (GAME w) = true ->
  find_player from 0 (players (GAME w)) None = Some pi ->
  key_action_of KEY = Run dr dc ->
  result_world (handleKEY fuel from (String KEY rest) w) =
  result_world (repeat_key fuel from (tolower KEY) w).
Proof.
  intros Hown Hfind Hkey. apply letters_owned_spec in Hown.
  destruct (tolower_run_key _ _ _ Hkey) as [Hstep HQ].
  destruct (find_player_seated _ _ _ Hfind) as (p & Hp & _).
  rewrite <- (run_is_repeat_key fuel from (tolower KEY) dr dc Hstep w pi p Hown Hfind Hp).
  unfold handleKEY. cbn [first_char]. rewrite HQ.
  unfold bind at 1, get_game at 1. rewrite Hfind, Hp, Hkey.
  unfold bind at 1.
  destruct (run fuel pi (row p) (col p) dr dc w) as [[[] w1]|]; reflexivity.
Qed.

Lemma run_key_is_repeated_step_key_witness :
  let w := demo_world [(alice, "PLAY alice"); (bob, "PLAY bob")]%string in
  exists w',
    letters_owned (GAME w) = true /\
    find_player alice 0 (players (GAME w)) None = Some 0%nat /\
    key_action_of "N" = Run 1 1 /\
    tolower "N" = "n"%char /\
    result_world (handleKEY 10 alice "N" w) = Some w' /\
    result_world (repeat_key 10 alice "n" w) = Some w' /\
    List.map (fun p => (row p, col p, gold p)) (players (GAME w')) = [(3, 3, 16); (1, 2, 0)].
Proof.
  intros w.
  assert (H : exists w', result_world (handleKEY 10 alice "N" w) = Some w' /\
    List.map (fun p => (row p, col p, gold p)) (players (GAME w')) = [(3, 3, 16); (1, 2, 0)])
    by (vm_compute; eexists; split; reflexivity).
  destruct H as (w' & Hrun & Hpos). exists w'.
  assert (Hown : letters_owned (GAME w) = true) by (vm_compute; reflexivity).
  assert (Hfind : find_player alice 0 (players (GAME w)) None = Some 0%nat)
    by (vm_compute; reflexivity).
  split; [exact Hown|]. split; [exact Hfind|]. split; [reflexivity|].
  split; [reflexivity|]. split; [exact Hrun|]. split; [|exact Hpos].
  rewrite <- Hrun.
  symmetry. exact (run_key_is_repeated_step_key 10 alice "N" EmptyString w 0 1 1 Hown Hfind eq_refl).
Defined.

(** ** The handlers return *)

Lemma told_frame g :
  masterGrid (told g) = masterGrid g /\
  length (players (told g)) = length (players g) /\
  GoldNumPilesLeft (told g) = GoldNumPilesLeft g /\
  goldLeft (told g) = goldLeft g.
Proof. unfold told. simpl. rewrite length_fmap. repeat split. Qed.

(** [player_move] keeps the size of the grid and of the table, and reads at
    most one draw. *)
Lemma player_move_frame pi nr nc w stop w' :
  player_move pi nr nc w = Some (stop, w') ->
  grid_nrow (masterGrid (GAME w')) = grid_nrow (masterGrid (GAME w)) /\
  grid_ncol (masterGrid (GAME w')) = grid_ncol (masterGrid (GAME w)) /\
  length (players (GAME w')) = length (players (GAME w)) /\
  (length (draws w) <= S (length (draws w')))%nat.
Proof.
  intros Hm.
  assert (Hd : (length (draws w) <= S (length (draws w')))%nat).
  { revert Hm. unfold player_move, bind at 1, get_game at 1.
    destruct (players (GAME w) !! pi) as [p|]; [|discriminate].
    destruct (grid_canMoveTo _ nr nc);
      [|unfold ret; intros E; inversion E; subst; lia].
    destruct (grid_isPlayer _ nr nc).
    - destruct (list_find _ _) as [[i q]|];
        unfold bind, put_game, ret; simpl; intros E; inversion E; subst; simpl; lia.
    - destruct (grid_isGold _ nr nc).
      + unfold bind at 1, put_game at 1. unfold bind at 1.
        destruct (pickup_gold pi _) as [[[] w1]|] eqn:Hpick; [|discriminate].
        apply pickup_gold_picked in Hpick as (n & _ & Hn).
        rewrite bind_broadcast. unfold ret. intros E. inversion E; subst; clear E.
        cbn [draws] in *.
        destruct Hn as [(_ & _ & ->)|(_ & _ & d & -> & _)]; simpl; lia.
      + unfold bind, put_game, ret; simpl; intros E; inversion E; subst; simpl; lia. }
  apply player_move_cases in Hm as (p & Hp & Hcases).
  destruct Hcases as [(_ & -> & _)|(_ & Hmove & Hcases)]; [repeat split; lia|].
  destruct Hcases as [(-> & _)|[(_ & i & q & Hf & ->)|[(_ & _ & n & -> & _)|(_ & _ & ->)]]].
  - repeat split; lia.
  - destruct (told_frame (swapped (GAME w) pi p i q nr nc)) as (-> & -> & _).
    unfold swapped. simpl.
    rewrite !grid_nrow_update, !grid_ncol_update, !length_alter. repeat split. exact Hd.
  - destruct (told_frame (picked (moved (GAME w) pi p nr nc) pi n)) as (-> & -> & _).
    unfold picked, moved. simpl.
    rewrite !grid_nrow_update, !grid_ncol_update, !length_alter. repeat split. exact Hd.
  - destruct (told_frame (moved (GAME w) pi p nr nc)) as (-> & -> & _).
    unfold moved. simpl.
    rewrite !grid_nrow_update, !grid_ncol_update, !length_alter. repeat split. exact Hd.
Qed.

(** With a draw at hand and a nugget for each pile left, [player_move]
    returns. *)
Lemma player_move_returns pi nr nc w :
  (pi < length (players (GAME w)))%nat ->
  GoldNumPilesLeft (GAME w) <= goldLeft (GAME w) ->
  draws w <> [] ->
  exists stop w', player_move pi nr nc w = Some (stop, w').
Proof.
  intros Hpi Hle Hdraws. unfold player_move, bind at 1, get_game at 1.
  destruct (lookup_lt_is_Some_2 _ _ Hpi) as [p ->].
  destruct (grid_canMoveTo _ nr nc); [|eexists _, _; reflexivity].
  destruct (grid_isPlayer _ nr nc).
  - destruct (list_find _ _) as [[i q]|]; eexists _, _; reflexivity.
  - destruct (grid_isGold _ nr nc); [|eexists _, _; reflexivity].
    unfold bind at 1, put_game at 1. unfold bind at 1.
    unfold pickup_gold, bind at 1, get_game at 1. cbn [GAME].
    unfold bind at 1. simpl.
    destruct (Z.eqb_spec (GoldNumPilesLeft (GAME w)) 1) as [E1|E1]; simpl.
    + eexists _, _. reflexivity.
    + unfold bind at 1, rand. simpl.
      destruct (draws w) as [|d ds]; [contradiction|].
      unfold bind at 1, c_rem.
      destruct (Z.eqb_spec (goldLeft (GAME w) - GoldNumPilesLeft (GAME w) + 1 - 1 + 1) 0)
        as [E0|E0]; [lia|].
      eexists _, _. reflexivity.
Qed.

Lemma room_step g dr dc r c :
  direction dr dc -> in_grid g (r + dr) (c + dc) = true ->
  1 <= room g dr dc r c <= grid_nrow g + grid_ncol g /\
  room g dr dc (r + dr) (c + dc) = room g dr dc r c - 1.
Proof.
  intros [Hd Hc] Hin. apply in_grid_spec in Hin. unfold room.
  destruct (Z.eqb_spec dr 1); [lia|].
  destruct (Z.eqb_spec dr (-1)); [lia|].
  destruct (Z.eqb_spec dc 1); lia.
Qed.

(** The loop of a run key ends: with more fuel than the grid has rows and
    columns, and a draw for each unit of fuel, [run] returns. *)
Lemma run_returns fuel pi dr dc :
  direction dr dc ->
  forall r c w,
    ledger (GAME w) ->
    (pi < length (players (GAME w)))%nat ->
    (fuel <= length (draws w))%nat ->
    (1 <= fuel)%nat ->
    (in_grid (masterGrid (GAME w)) (r + dr) (c + dc) = true ->
     room (masterGrid (GAME w)) dr dc r c < Z.of_nat fuel) ->
    exists w', run fuel pi r c dr dc w = Some (tt, w').
Proof.
  intros Hdir. induction fuel as [|fuel IH]; intros r c w Hl Hpi Hdraws Hfuel Hroom;
    [lia|].
  cbn [run]. unfold bind.
  destruct (player_move_returns pi (r + dr) (c + dc) w Hpi (proj1 Hl)) as (stop & w1 & Hm).
  { destruct (draws w); [simpl in Hdraws; lia|discriminate]. }
  rewrite Hm. destruct stop; [eexists; reflexivity|].
  destruct (player_move_refuses _ _ _ _ _ _ Hm) as [Hstop _].
  symmetry in Hstop. apply negb_false_iff in Hstop.
  apply grid_canMoveTo_inside in Hstop.
  destruct (room_step _ dr dc r c Hdir Hstop) as [Hpos Hnext].
  specialize (Hroom Hstop).
  destruct (player_move_frame _ _ _ _ _ _ Hm) as (Hnr & Hnc & Hlen & Hds).
  apply IH.
  - apply (player_move_ledger _ _ _ _ _ _ Hl Hm).
  - rewrite Hlen. exact Hpi.
  - lia.
  - lia.
  - intros _. unfold room in *. rewrite Hnr, Hnc. lia.
Qed.

Lemma key_action_direction KEY :
  match key_action_of KEY with
  | Step dr dc | Run dr dc => direction dr dc
  | Unknown => True
  end.
Proof.
  unfold key_action_of, direction.
  repeat (match goal with |- context [if ?b then _ else _] => destruct b end;
          [lia|]).
  exact I.
Qed.

(** With more fuel than the grid has rows and columns and a draw for each
    unit of fuel, [handleKEY] returns in every state of the server. *)
Lemma handleKEY_returns fuel from key w :
  ledger (GAME w) ->
  (1 <= fuel)%nat ->
  grid_nrow (masterGrid (GAME w)) + grid_ncol (masterGrid (GAME w)) < Z.of_nat fuel ->
  (fuel <= length (draws w))%nat ->
  exists stop w', handleKEY fuel from key w = Some (stop, w').
Proof.
  intros Hl Hone Hfuel Hdraws. unfold handleKEY.
  destruct (ch_eqb (first_char key) "Q").
  { destruct (handleQUIT_runs from w) as (m & pre & out & post & Hq & _).
    unfold bind. rewrite Hq. eexists _, _. reflexivity. }
  unfold bind at 1, get_game at 1.
  destruct (find_player from 0 (players (GAME w)) None) as [pi|] eqn:Hfind;
    [|eexists _, _; reflexivity].
  destruct (find_player_seated _ _ _ Hfind) as (p & Hp & _). rewrite Hp.
  pose proof (lookup_lt_Some _ _ _ Hp) as Hpi.
  pose proof (key_action_direction (first_char key)) as Hdir.
  unfold bind at 1.
  destruct (key_action_of (first_char key)) as [dr dc|dr dc|].
  - unfold bind at 1.
    destruct (player_move_returns pi (row p + dr) (col p + dc) w Hpi (proj1 Hl))
      as (stop & w1 & ->).
    { destruct (draws w); [simpl in Hdraws; lia|discriminate]. }
    unfold ret, bind, get_game. eexists _, _. reflexivity.
  - destruct (run_returns fuel pi dr dc Hdir (row p) (col p) w Hl Hpi Hdraws) as (w1 & ->).
    + lia.
    + intros Hin. pose proof (room_step _ dr dc _ _ Hdir Hin). lia.
    + unfold ret, bind, get_game. eexists _, _. reflexivity.
  - unfold message_send, ret, bind, get_game. eexists _, _. reflexivity.
Qed.

(** * More of the grid module *)

Lemma map_fmap {A B} (f : A -> B) (l : list A) : List.map f l = f <$> l.
Proof. induction l as [|x l IH]; simpl; [reflexivity|]. rewrite IH. reflexivity. Qed.

Lemma NoDup_upto lo hi : NoDup (upto lo hi).
Proof.
  unfold upto. rewrite map_fmap. apply NoDup_fmap_2; [|apply NoDup_seq].
  intros a b E. lia.
Qed.

Lemma NoDup_cells nr nc : NoDup (cells nr nc).
Proof.
  unfold cells. generalize (NoDup_upto 0 nr). generalize (upto 0 nr).
  intros rows. induction rows as [|r rows IH]; intros Hnd; simpl; [constructor|].
  apply NoDup_cons in Hnd as [Hr Hrows]. apply NoDup_app. split; [|split].
  - rewrite map_fmap. apply NoDup_fmap_2; [|apply NoDup_upto].
    intros a b E. inversion E. reflexivity.
  - intros [r' c'] Hin Hin'. apply list_elem_of_In in Hin, Hin'.
    apply in_map_iff in Hin as (c0 & E & _). inversion E; subst.
    apply in_flat_map in Hin' as (r0 & Hr0 & Hc0).
    apply in_map_iff in Hc0 as (c1 & E1 & _). inversion E1; subst.
    apply Hr. apply list_elem_of_In. exact Hr0.
  - apply IH. exact Hrows.
Qed.

Lemma in_cells_grid g r c :
  In (r, c) (cells (grid_nrow g) (grid_ncol g)) <-> in_grid g r c = true.
Proof. rewrite in_cells, in_grid_spec. reflexivity. Qed.

(** A loop over cells that writes, at the cells that pass a test on what
    they show, a character of their own: afterwards a cell shows that
    character if it was visited and passed, and what it showed otherwise. *)
Lemma fold_cells_getchar (test : ascii -> Z * Z -> bool) (val : Z * Z -> ascii) l :
  NoDup l ->
  forall k r c,
    grid_wf k ->
    let k' := fold_left (fun k rc =>
                if test (grid_getchar k rc.1 rc.2) rc
                then grid_update k rc.1 rc.2 (val rc) else k) l k in
    grid_wf k' /\
    grid_nrow k' = grid_nrow k /\ grid_ncol k' = grid_ncol k /\
    grid_getchar k' r c =
    if bool_decide ((r, c) ∈ l) && in_grid k r c && test (grid_getchar k r c) (r, c)
    then val (r, c) else grid_getchar k r c.
Proof.
  induction l as [|[r0 c0] l IH]; intros Hnd k r c Hw; cbn [fold_left]; cbv zeta.
  - rewrite bool_decide_eq_false_2 by (apply not_elem_of_nil).
    split; [exact Hw|]. split; [reflexivity|]. split; reflexivity.
  - apply NoDup_cons in Hnd as [Hfresh Hnd]. cbn [fst snd].
    set (k1 := if test (grid_getchar k r0 c0) (r0, c0)
               then grid_update k r0 c0 (val (r0, c0)) else k).
    assert (Hw1 : grid_wf k1)
      by (unfold k1; destruct (test _ _); [apply grid_wf_update|]; exact Hw).
    assert (Hin1 : forall a b, in_grid k1 a b = in_grid k a b)
      by (intros; unfold k1; destruct (test _ _); [apply in_grid_update|reflexivity]).
    assert (Hd1 : grid_nrow k1 = grid_nrow k /\ grid_ncol k1 = grid_ncol k).
    { unfold k1. destruct (test _ _); [|split; reflexivity].
      rewrite grid_nrow_update, grid_ncol_update. split; reflexivity. }
    destruct (IH Hnd k1 r c Hw1) as (Hw' & Hr' & Hc' & Hget).
    cbv zeta in Hw', Hr', Hc', Hget.
    split; [exact Hw'|]. split; [rewrite Hr'; apply Hd1|].
    split; [rewrite Hc'; apply Hd1|].
    rewrite Hget, Hin1.
    destruct (decide ((r0, c0) = (r, c))) as [E|Hne].
    + inversion E; subst r0 c0.
      rewrite (bool_decide_eq_false_2 ((r, c) ∈ l)) by exact Hfresh.
      rewrite (bool_decide_eq_true_2 ((r, c) ∈ (r, c) :: l)) by (apply elem_of_cons; left; reflexivity).
      simpl. unfold k1.
      destruct (in_grid k r c) eqn:Hin.
      * destruct (test (grid_getchar k r c) (r, c)); [|reflexivity].
        apply grid_getchar_update_same; assumption.
      * simpl. destruct (test (grid_getchar k r c) (r, c)); [|reflexivity].
        unfold grid_update. rewrite Hin. reflexivity.
    + assert (Hsame : grid_getchar k1 r c = grid_getchar k r c).
      { unfold k1. destruct (test _ _); [|reflexivity].
        rewrite grid_getchar_update by exact Hw.
        destruct (in_grid k r0 c0 && (r0 =? r) && (c0 =? c)) eqn:E; [|reflexivity].
        apply cell_test_true in E as [-> ->]. contradiction. }
      rewrite Hsame.
      assert (Hdec : bool_decide ((r, c) ∈ (r0, c0) :: l) =
                     bool_decide ((r, c) ∈ l)).
      { apply bool_decide_ext. rewrite elem_of_cons. split; [|tauto].
        intros [E|H]; [congruence|exact H]. }
      rewrite Hdec. reflexivity.
Qed.

(** What [grid_new] gives for a size that is not negative and whose
    product is an [int]. *)
Lemma grid_new_shape (nrow ncol : Z) :
  0 <= nrow <= INT_MAX -> 0 <= ncol <= INT_MAX -> nrow * ncol <= INT_MAX ->
  exists g, grid_new nrow ncol = Some g /\
    grid_wf g /\ grid_nrow g = nrow /\ grid_ncol g = ncol /\
    forall r c, grid_getchar g r c =
      if (0 <=? r) && (r <? nrow) && (0 <=? c) && (c <? ncol)
      then " "%char else "^"%char.
Proof.
  intros Hr Hc Hsize. unfold grid_new.
  destruct (Z.ltb_spec nrow 0); [lia|]. destruct (Z.ltb_spec ncol 0); [lia|].
  destruct (Z.ltb_spec INT_MAX nrow); [lia|].
  destruct (Z.ltb_spec INT_MAX ncol); [lia|].
  destruct (Z.ltb_spec INT_MAX (nrow * ncol)); [lia|].
  simpl. eexists. split; [reflexivity|].
  assert (Hw : grid_wf (Grid (replicate (Z.to_nat (nrow * ncol)) " "%char) nrow ncol)).
  { unfold grid_wf. simpl. rewrite length_replicate. repeat split; lia. }
  split; [exact Hw|]. split; [reflexivity|]. split; [reflexivity|].
  intros r c. unfold grid_getchar. unfold in_grid at 1. simpl.
  destruct ((0 <=? r) && (r <? nrow) && (0 <=? c) && (c <? ncol)) eqn:Hin;
    [|reflexivity].
  pose proof (offset_inside _ r c Hw Hin) as Hlt. simpl in Hlt.
  rewrite length_replicate in Hlt.
  rewrite lookup_replicate_2 by exact Hlt. reflexivity.
Qed.

(** X1.  [grid_new] with a number of rows and a number of columns that are
    not negative and whose product is an [int] (at most [INT_MAX]) gives a
    grid of that size, every cell of which shows a blank; outside of it
    [grid_getchar] answers '^'. *)
Theorem grid_new_blank (nrow ncol : Z) :
  0 <= nrow <= INT_MAX -> 0 <= ncol <= INT_MAX -> nrow * ncol <= INT_MAX ->
  exists g, grid_new nrow ncol = Some g /\
    grid_wf g /\ grid_nrow g = nrow /\ grid_ncol g = ncol /\
    forall r c, grid_getchar g r c =
      if (0 <=? r) && (r <? nrow) && (0 <=? c) && (c <? ncol)
      then " "%char else "^"%char.
Proof. apply grid_new_shape. Qed.

Lemma grid_new_blank_witness :
  exists g, grid_new 2 3 = Some g /\
    grid_wf g /\ grid_nrow g = 2 /\ grid_ncol g = 3 /\
    forall r c, grid_getchar g r c =
      if (0 <=? r) && (r <? 2) && (0 <=? c) && (c <? 3)
      then " "%char else "^"%char.
Proof. apply (grid_new_blank 2 3); unfold INT_MAX; lia. Defined.

(** [grid_new] answers NULL for a negative size. *)
Theorem grid_new_negative (nrow ncol : Z) :
  nrow < 0 \/ ncol < 0 -> grid_new nrow ncol = None.
Proof.
  intros H. unfold grid_new.
  destruct (Z.ltb_spec nrow 0); [reflexivity|].
  destruct (Z.ltb_spec ncol 0); [reflexivity|]. lia.
Qed.

Lemma grid_new_negative_witness : grid_new (-1) 4 = None.
Proof. apply (grid_new_negative (-1) 4). left. lia. Defined.

(** X2.  Reading after writing.  On a grid as [grid_new] and [grid_load] make
    them, the cell written shows the new character, every other cell shows
    what it showed, and a write outside the grid changes nothing. *)
Theorem grid_read_after_write (g : grid_t) (r c : Z) (ch : ascii) (r' c' : Z) :
  grid_wf g ->
  grid_getchar (grid_update g r c ch) r' c' =
  if in_grid g r c && (r =? r') && (c =? c') then ch else grid_getchar g r' c'.
Proof. apply grid_getchar_update. Qed.

Lemma grid_read_after_write_witness :
  grid_wf demo_map /\
  grid_getchar (grid_update demo_map 1 1 "*") 1 1 = "*"%char /\
  grid_getchar (grid_update demo_map 1 1 "*") 1 2 = "."%char /\
  grid_getchar (grid_update demo_map (-1) (-1) "*") (-1) (-1) = "^"%char.
Proof.
  assert (Hw : grid_wf demo_map) by (apply grid_wfb_wf; reflexivity).
  split; [exact Hw|].
  rewrite !(grid_read_after_write demo_map) by exact Hw.
  repeat split; reflexivity.
Defined.

(** The grid after [grid_clean], cell by cell. *)
Lemma grid_clean_getchar (raw known : grid_t) (r c : Z) :
  grid_wf known ->
  grid_wf (grid_clean raw known) /\
  grid_nrow (grid_clean raw known) = grid_nrow known /\
  grid_ncol (grid_clean raw known) = grid_ncol known /\
  grid_getchar (grid_clean raw known) r c =
  if grid_isGold known r c || grid_isPlayer known r c
  then grid_getchar raw r c else grid_getchar known r c.
Proof.
  intros Hw.
  pose proof (fold_cells_getchar
    (fun ch _ => ch_eqb ch "*" || (isalpha ch || ch_eqb ch "@"))
    (fun rc => grid_getchar raw rc.1 rc.2)
    (cells (grid_nrow known) (grid_ncol known)) (NoDup_cells _ _) known r c Hw)
    as (Hw' & Hr & Hc & Hget).
  cbv zeta in Hw', Hr, Hc, Hget.
  change (fold_left _ (cells (grid_nrow known) (grid_ncol known)) known)
    with (grid_clean raw known) in Hw', Hr, Hc, Hget.
  split; [exact Hw'|]. split; [exact Hr|]. split; [exact Hc|].
  rewrite Hget. cbn [fst snd].
  change (ch_eqb (grid_getchar known r c) "*" ||
          (isalpha (grid_getchar known r c) || ch_eqb (grid_getchar known r c) "@"))
    with (grid_isGold known r c || grid_isPlayer known r c).
  destruct (grid_isGold known r c || grid_isPlayer known r c) eqn:Ht;
    [|rewrite andb_false_r; reflexivity].
  assert (Hin : in_grid known r c = true).
  { apply orb_true_iff in Ht as [Hg|Hp]; [|apply grid_isPlayer_inside, Hp].
    destruct (in_grid known r c) eqn:Hin; [reflexivity|].
    unfold grid_isGold in Hg. rewrite (grid_getchar_outside _ _ _ Hin) in Hg.
    discriminate. }
  rewrite Hin, bool_decide_eq_true_2;
    [reflexivity|apply list_elem_of_In, in_cells_grid, Hin].
Qed.

(** X3.  [grid_clean].  A cell of the known grid that shows gold or a player
    goes back to the character of the raw grid; every other cell keeps its
    character, and the grid its size. *)
Theorem grid_clean_cells (raw known : grid_t) (r c : Z) :
  grid_wf known ->
  grid_wf (grid_clean raw known) /\
  grid_nrow (grid_clean raw known) = grid_nrow known /\
  grid_ncol (grid_clean raw known) = grid_ncol known /\
  grid_getchar (grid_clean raw known) r c =
  if grid_isGold known r c || grid_isPlayer known r c
  then grid_getchar raw r c else grid_getchar known r c.
Proof. apply grid_clean_getchar. Qed.

Lemma grid_clean_cells_witness :
  let known := grid_update (grid_update demo_map 1 1 "A") 2 2 "*" in
  grid_wf known /\
  grid_getchar (grid_clean demo_map known) 1 1 = "."%char /\
  grid_getchar (grid_clean demo_map known) 2 2 = "."%char /\
  grid_getchar (grid_clean demo_map known) 0 0 = "+"%char.
Proof.
  intros known.
  assert (Hw : grid_wf known) by (apply grid_wfb_wf; reflexivity).
  split; [exact Hw|].
  destruct (grid_clean_cells demo_map known 1 1 Hw) as (_ & _ & _ & ->).
  destruct (grid_clean_cells demo_map known 2 2 Hw) as (_ & _ & _ & ->).
  destruct (grid_clean_cells demo_map known 0 0 Hw) as (_ & _ & _ & ->).
  repeat split; reflexivity.
Defined.

(** The grid after [grid_setVisibility], cell by cell. *)
Lemma grid_setVisibility_getchar (master raw known : grid_t) (pr pc r c : Z) :
  grid_wf known ->
  grid_wf (grid_setVisibility master raw known pr pc) /\
  grid_nrow (grid_setVisibility master raw known pr pc) = grid_nrow known /\
  grid_ncol (grid_setVisibility master raw known pr pc) = grid_ncol known /\
  grid_getchar (grid_setVisibility master raw known pr pc) r c =
  if in_grid known pr pc && (pr =? r) && (pc =? c) then "@"%char
  else if in_grid master r c && in_grid known r c &&
          negb (grid_isRock master r c) && grid_isVisible master pr pc r c
  then grid_getchar master r c
  else if grid_isGold known r c || grid_isPlayer known r c
  then grid_getchar raw r c
  else grid_getchar known r c.
Proof.
  intros Hw. unfold grid_setVisibility. cbv zeta.
  destruct (grid_clean_getchar raw known r c Hw) as (Hw1 & Hr1 & Hc1 & Hget1).
  assert (Hin1 : forall a b, in_grid (grid_clean raw known) a b = in_grid known a b)
    by (intros; unfold in_grid; rewrite Hr1, Hc1; reflexivity).
  pose proof (fold_cells_getchar
    (fun _ rc => negb (grid_isRock master rc.1 rc.2) &&
                 grid_isVisible master pr pc rc.1 rc.2)
    (fun rc => grid_getchar master rc.1 rc.2)
    (cells (grid_nrow master) (grid_ncol master)) (NoDup_cells _ _)
    (grid_clean raw known) r c Hw1) as (Hw2 & Hr2 & Hc2 & Hget2).
  cbv zeta in Hw2, Hr2, Hc2, Hget2. cbn [fst snd] in Hget2.
  split; [apply grid_wf_update; exact Hw2|].
  split; [rewrite grid_nrow_update, Hr2; exact Hr1|].
  split; [rewrite grid_ncol_update, Hc2; exact Hc1|].
  rewrite grid_getchar_update by exact Hw2.
  assert (Hin2 : in_grid (fold_left (fun k rc =>
      if negb (grid_isRock master rc.1 rc.2) && grid_isVisible master pr pc rc.1 rc.2
      then grid_update k rc.1 rc.2 (grid_getchar master rc.1 rc.2) else k)
      (cells (grid_nrow master) (grid_ncol master)) (grid_clean raw known)) pr pc =
      in_grid known pr pc).
  { unfold in_grid at 1. rewrite Hr2, Hc2. apply Hin1. }
  rewrite Hin2.
  destruct (in_grid known pr pc && (pr =? r) && (pc =? c)); [reflexivity|].
  rewrite Hget2, Hin1, Hget1.
  assert (Hdec : bool_decide ((r, c) ∈ cells (grid_nrow master) (grid_ncol master)) =
                 in_grid master r c).
  { destruct (in_grid master r c) eqn:Hin.
    - apply bool_decide_eq_true_2, list_elem_of_In, in_cells_grid, Hin.
    - apply bool_decide_eq_false_2. intros H.
      apply list_elem_of_In, in_cells_grid in H. congruence. }
  rewrite Hdec.
  destruct (in_grid master r c), (in_grid known r c),
    (negb (grid_isRock master r c)), (grid_isVisible master pr pc r c); reflexivity.
Qed.

(** X4.  [grid_setVisibility], cell by cell.  The viewer's cell shows '@'; a
    cell that is not rock and is visible from the viewer shows what the
    master grid shows; a cell out of sight keeps what the known grid
    remembered, except that remembered gold and players go back to the raw
    character. *)
Theorem grid_setVisibility_cells (master raw known : grid_t) (pr pc r c : Z) :
  grid_wf known ->
  grid_getchar (grid_setVisibility master raw known pr pc) r c =
  if in_grid known pr pc && (pr =? r) && (pc =? c) then "@"%char
  else if in_grid master r c && in_grid known r c &&
          negb (grid_isRock master r c) && grid_isVisible master pr pc r c
  then grid_getchar master r c
  else if grid_isGold known r c || grid_isPlayer known r c
  then grid_getchar raw r c
  else grid_getchar known r c.
Proof. intros Hw. apply grid_setVisibility_getchar. exact Hw. Qed.

Lemma grid_setVisibility_cells_witness :
  exists known,
    grid_new 5 7 = Some known /\ grid_wf known /\
    grid_getchar (grid_setVisibility demo_map demo_map known 1 1) 1 1 = "@"%char /\
    grid_getchar (grid_setVisibility demo_map demo_map known 1 1) 3 5 = "."%char.
Proof.
  eexists. split; [reflexivity|].
  match goal with |- grid_wf ?k /\ _ =>
    assert (Hw : grid_wf k) by (apply grid_wfb_wf; reflexivity) end.
  split; [exact Hw|].
  rewrite !(grid_setVisibility_cells demo_map demo_map _ 1 1) by exact Hw.
  split; reflexivity.
Defined.

Lemma upto_empty lo hi : hi <= lo -> upto lo hi = [].
Proof. intros H. unfold upto. replace (Z.to_nat (hi - lo)) with O by lia. reflexivity. Qed.

(** X5.  A cell, and each of its eight neighbours, is visible from the cell,
    whatever the grid shows: no cell lies strictly between them. *)
Theorem grid_isVisible_near (g : grid_t) (pr pc r c : Z) :
  -1 <= r - pr <= 1 -> -1 <= c - pc <= 1 ->
  grid_isVisible g pr pc r c = true.
Proof.
  intros Hr Hc. unfold grid_isVisible. rewrite !lower_end, !upper_end.
  rewrite (upto_empty (Z.min pr r + 1)), (upto_empty (Z.min pc c + 1)) by lia.
  simpl. rewrite !andb_false_r. reflexivity.
Qed.

Lemma grid_isVisible_near_witness :
  let walls := Grid (list_ascii_of_string "+++++++++") 3 3 in
  grid_isVisible walls 1 1 1 1 = true /\ grid_isVisible walls 1 1 0 2 = true.
Proof.
  intros walls. split.
  - apply (grid_isVisible_near walls 1 1 1 1); lia.
  - apply (grid_isVisible_near walls 1 1 0 2); lia.
Defined.

(** The line to a cell of the same row or the same column, for coordinates
    below 2^24 in size: it is computed to stay in the row, or the column. *)
Lemma ray_f32_level (i p e q : Z) :
  e <> 0 -> Z.abs (i - p) < 2 ^ 24 -> Z.abs e < 2 ^ 24 -> Z.abs q < 2 ^ 24 ->
  f32_whole (ray_f32 i p 0 e q) = true /\ f32_to_int (ray_f32 i p 0 e q) = q.
Proof.
  intros He Ha Hee Hq. unfold ray_f32.
  apply (ray_f32_zero (i - p) 0 e q); try assumption; [ring|reflexivity].
Qed.

(** From 2^24 on it need not: in row 16777217 the line is computed to run
    in row 16777216. *)
Lemma ray_f32_off_level :
  f32_whole (ray_f32 3 0 0 7 16777217) = true /\
  f32_to_int (ray_f32 3 0 0 7 16777217) = 16777216.
Proof. vm_compute. split; reflexivity. Qed.

(** X6.  Between cells with coordinates from 0 to 2^24 - 1: along a row, a
    cell is visible from another exactly when none of the cells strictly
    between them blocks the view; the same along a column. *)
Theorem grid_isVisible_straight (g : grid_t) (pr pc r c : Z) :
  0 <= pr < 2 ^ 24 -> 0 <= pc < 2 ^ 24 -> 0 <= r < 2 ^ 24 -> 0 <= c < 2 ^ 24 ->
  grid_isVisible g pr pc pr c =
    negb (existsb (fun j => grid_isBlockable g pr j) (upto (Z.min pc c + 1) (Z.max pc c))) /\
  grid_isVisible g pr pc r pc =
    negb (existsb (fun i => grid_isBlockable g i pc) (upto (Z.min pr r + 1) (Z.max pr r))).
Proof.
  intros Hpr Hpc Hr Hc. split.
  - unfold grid_isVisible. rewrite !lower_end, !upper_end.
    rewrite ?Z.min_id, ?Z.max_id, Z.sub_diag.
    rewrite (upto_empty (pr + 1) pr) by lia. cbn [existsb]. rewrite andb_false_r.
    change (0 =? 0) with true. cbn [andb].
    destruct (existsb (fun j => grid_isBlockable g pr j)
                (upto (Z.min pc c + 1) (Z.max pc c))) eqn:Hrow; [reflexivity|].
    assert (Hcols : existsb (fun j =>
        let ir := ray_f32 j pc 0 (c - pc) pr in
        if f32_whole ir then grid_isBlockable g (f32_to_int ir) j
        else grid_isBlockable g (f32_to_int ir) j &&
             grid_isBlockable g (f32_to_int ir + 1) j)
        (upto (Z.min pc c + 1) (Z.max pc c)) = false).
    { rewrite <- Hrow. apply existsb_agree. intros j Hj. apply in_upto in Hj.
      cbv zeta.
      destruct (ray_f32_level j pc (c - pc) pr) as (-> & ->); try lia.
      reflexivity. }
    cbv zeta in Hcols. rewrite Hcols. reflexivity.
  - unfold grid_isVisible. rewrite !lower_end, !upper_end.
    rewrite ?Z.min_id, ?Z.max_id, Z.sub_diag.
    rewrite (upto_empty (pc + 1) pc) by lia. cbn [existsb]. rewrite !andb_false_r.
    change (0 =? 0) with true. cbn [andb].
    destruct (r - pr =? 0) eqn:Hd.
    + apply Z.eqb_eq in Hd. assert (r = pr) by lia. subst r.
      rewrite ?Z.min_id, ?Z.max_id, (upto_empty (pr + 1) pr) by lia. reflexivity.
    + cbn [andb].
      destruct (existsb (fun i => grid_isBlockable g i pc)
                  (upto (Z.min pr r + 1) (Z.max pr r))) eqn:Hcol; [reflexivity|].
      assert (Hrows : existsb (fun i =>
          let ic := ray_f32 i pr 0 (r - pr) pc in
          if f32_whole ic then grid_isBlockable g i (f32_to_int ic)
          else grid_isBlockable g i (f32_to_int ic) &&
               grid_isBlockable g i (f32_to_int ic + 1))
          (upto (Z.min pr r + 1) (Z.max pr r)) = false).
      { rewrite <- Hcol. apply existsb_agree. intros i Hi. apply in_upto in Hi.
        cbv zeta.
        destruct (ray_f32_level i pr (r - pr) pc) as (-> & ->); try lia.
        reflexivity. }
      cbv zeta in Hrows. rewrite Hrows. reflexivity.
Qed.

Lemma grid_isVisible_straight_witness :
  grid_isVisible demo_map 1 1 1 5 = true /\ grid_isVisible demo_map 1 1 4 1 = true.
Proof.
  assert (H24 : 2 ^ 24 = 16777216) by reflexivity.
  destruct (grid_isVisible_straight demo_map 1 1 4 5) as (-> & ->); try lia.
  split; reflexivity.
Defined.

(** ** Loading what [grid_toString] wrote *)

(** Two grids of the same size that show the same characters are the same
    grid. *)
Lemma grid_ext g h :
  grid_wf g -> grid_wf h ->
  grid_nrow g = grid_nrow h -> grid_ncol g = grid_ncol h ->
  (forall r c, in_grid g r c = true -> grid_getchar g r c = grid_getchar h r c) ->
  g = h.
Proof.
  intros Hg Hh Hr Hc Hget. destruct g as [mg nr nc], h as [mh nr' nc'].
  simpl in Hr, Hc. subst nr' nc'. f_equal.
  destruct Hg as (Hnr & Hnc & Hlg), Hh as (_ & _ & Hlh). simpl in *.
  apply list_eq. intros i.
  destruct (decide (i < length mg)%nat) as [Hi|Hi].
  - assert (Hpos : 0 < nc) by (destruct (Z.eq_dec nc 0); [subst; rewrite Z.mul_0_r in Hlg; simpl in Hlg; lia|lia]).
    set (r := Z.of_nat i / nc). set (c := Z.of_nat i mod nc).
    assert (Hi' : Z.of_nat i = r * nc + c)
      by (unfold r, c; rewrite Z.mul_comm; apply Z.div_mod; lia).
    assert (Hcb : 0 <= c < nc) by (apply Z.mod_pos_bound; lia).
    assert (Hrb : 0 <= r) by (apply Z.div_pos; lia).
    assert (Hrn : r < nr).
    { destruct (Z.lt_ge_cases r nr) as [H|H]; [exact H|].
      assert (nr * nc <= r * nc) by (apply Z.mul_le_mono_nonneg_r; lia).
      rewrite Hlg in Hi. lia. }
    assert (Hin : in_grid (Grid mg nr nc) r c = true) by (apply in_grid_spec; simpl; lia).
    specialize (Hget r c Hin). unfold grid_getchar in Hget.
    rewrite Hin in Hget.
    assert (Hin' : in_grid (Grid mh nr nc) r c = true) by (apply in_grid_spec; simpl; lia).
    rewrite Hin' in Hget. unfold offset in Hget. simpl in Hget.
    rewrite <- Hi', Nat2Z.id in Hget.
    destruct (lookup_lt_is_Some_2 mg i Hi) as [x Hx].
    destruct (lookup_lt_is_Some_2 mh i ltac:(lia)) as [y Hy].
    rewrite Hx, Hy in Hget |- *. simpl in Hget. congruence.
  - rewrite !lookup_ge_None_2 by lia. reflexivity.
Qed.

(** Bytes that are not newlines are stored one to a cell. *)
Lemma load_cells_plain (f : Z * Z -> ascii) cs :
  (forall rc, In rc cs -> f rc <> "010"%char) ->
  forall k rest,
    fold_left load_cell cs (k, List.map f cs ++ rest) =
    (fold_left (fun k rc => grid_update k rc.1 rc.2 (f rc)) cs k, rest).
Proof.
  induction cs as [|rc cs IH]; intros Hf k rest; [reflexivity|].
  cbn [List.map app fold_left]. unfold load_cell at 2. cbn [fst snd fgetc].
  assert (E : ch_eqb (f rc) "010" = false).
  { destruct (ch_eqb (f rc) "010") eqn:E; [|reflexivity].
    apply ch_eqb_eq in E. exfalso. apply (Hf rc); [left; reflexivity|exact E]. }
  rewrite E. apply IH. intros rc' Hin. apply Hf. right. exact Hin.
Qed.

(** The same after the newline that ended the line before. *)
Lemma load_cells_line (f : Z * Z -> ascii) cs :
  cs <> [] ->
  (forall rc, In rc cs -> f rc <> "010"%char) ->
  forall k rest,
    fold_left load_cell cs (k, "010"%char :: List.map f cs ++ rest) =
    (fold_left (fun k rc => grid_update k rc.1 rc.2 (f rc)) cs k, rest).
Proof.
  destruct cs as [|rc cs]; intros Hne Hf k rest; [contradiction|].
  cbn [List.map app fold_left]. unfold load_cell at 2. cbn [fst snd fgetc].
  change (ch_eqb "010" "010") with true. cbv iota. cbn [fgetc].
  apply load_cells_plain. intros rc' Hin. apply Hf. right. exact Hin.
Qed.

Lemma load_rows (f : Z * Z -> ascii) cols rows :
  cols <> [] ->
  (forall rc, f rc <> "010"%char) ->
  forall k (first : bool),
    (fold_left load_cell
       (flat_map (fun r => List.map (fun c => (r, c)) cols) rows)
       (k, (if first then [] else ["010"%char]) ++
           flat_map (fun r => List.map (fun c => f (r, c)) cols ++ ["010"%char]) rows)).1 =
    fold_left (fun k rc => grid_update k rc.1 rc.2 (f rc))
       (flat_map (fun r => List.map (fun c => (r, c)) cols) rows) k.
Proof.
  intros Hne Hf. induction rows as [|r rows IH]; intros k first; [reflexivity|].
  cbn [flat_map]. rewrite !fold_left_app.
  assert (Hmap : List.map (fun c => f (r, c)) cols =
                 List.map f (List.map (fun c => (r, c)) cols))
    by (rewrite List.map_map; reflexivity).
  rewrite Hmap, <- !app_assoc.
  assert (Hne' : List.map (fun c => (r, c)) cols <> [])
    by (destruct cols; [contradiction|discriminate]).
  destruct first.
  - cbn [app]. rewrite load_cells_plain by (intros; apply Hf).
    apply (IH _ false).
  - cbn [app]. rewrite load_cells_line by (assumption || intros; apply Hf).
    apply (IH _ false).
Qed.

Lemma c_str_plain l : Forall (fun ch => ch <> "000"%char) l -> c_str l = l.
Proof.
  induction 1 as [|ch l Hch _ IH]; [reflexivity|]. simpl.
  destruct (ch_eqb ch "000") eqn:E; [apply ch_eqb_eq in E; contradiction|].
  rewrite IH. reflexivity.
Qed.

(** X7.  Round trip.  A grid whose cells hold neither a newline nor a NUL
    and whose size is in the range of [int], written by [grid_toString] and
    loaded again with its number of rows and columns, is the same grid. *)
Theorem grid_load_toString (g : grid_t) :
  grid_wf g ->
  grid_ncol g <= INT_MAX ->
  grid_nrow g * grid_ncol g + grid_nrow g < INT_MAX ->
  forallb (fun ch => negb (ch_eqb ch "010") && negb (ch_eqb ch "000")) (grid_map g) = true ->
  grid_load (grid_nrow g) (grid_ncol g) (list_ascii_of_string (grid_toString g)) = Some g.
Proof.
  intros Hw Hcmax Hsize Hnl. pose proof Hw as (Hnr & Hnc & Hlen).
  assert (Hcell : forall r c, grid_getchar g r c <> "010"%char /\
                              grid_getchar g r c <> "000"%char).
  { intros r c. unfold grid_getchar.
    destruct (in_grid g r c) eqn:Hin; [|split; discriminate].
    pose proof (offset_inside _ r c Hw Hin) as Hlt.
    destruct (lookup_lt_is_Some_2 _ _ Hlt) as [ch Hch]. rewrite Hch. simpl.
    rewrite forallb_forall in Hnl.
    specialize (Hnl ch ltac:(apply list_elem_of_In, list_elem_of_lookup; eexists; exact Hch)).
    apply andb_true_iff in Hnl as [H1 H2].
    apply negb_true_iff in H1, H2.
    split; intros ->; discriminate. }
  assert (Hf : forall rc : Z * Z, grid_getchar g rc.1 rc.2 <> "010"%char)
    by (intros [r c]; apply Hcell).
  assert (Hmul : 0 <= grid_nrow g * grid_ncol g) by (apply Z.mul_nonneg_nonneg; lia).
  destruct (grid_new_shape (grid_nrow g) (grid_ncol g) ltac:(lia) ltac:(lia) ltac:(lia))
    as (g0 & Hnew & Hw0 & Hr0 & Hc0 & _).
  unfold grid_load. rewrite Hnew. f_equal.
  unfold grid_toString. rewrite list_ascii_of_string_of_list_ascii.
  rewrite c_str_plain.
  2:{ apply Forall_forall. intros ch Hch. apply list_elem_of_In in Hch.
      apply in_flat_map in Hch as (r & _ & Hch).
      apply in_app_or in Hch as [Hch|[<-|[]]]; [|discriminate].
      apply in_map_iff in Hch as (c & <- & _). apply Hcell. }
  assert (Hloaded : (fold_left load_cell (cells (grid_nrow g) (grid_ncol g))
      (g0, flat_map (fun r => List.map (fun c => grid_getchar g r c) (upto 0 (grid_ncol g)) ++
                              ["010"%char]) (upto 0 (grid_nrow g)))).1 =
     fold_left (fun k rc => grid_update k rc.1 rc.2 (grid_getchar g rc.1 rc.2))
       (cells (grid_nrow g) (grid_ncol g)) g0).
  { destruct (upto 0 (grid_ncol g)) as [|c0 cols] eqn:Hcols.
    - unfold cells. rewrite Hcols.
      assert (E : forall rows : list Z,
                flat_map (fun r => List.map (fun c => (r, c)) ([] : list Z)) rows = [])
        by (induction rows; [reflexivity|assumption]).
      rewrite E. reflexivity.
    - unfold cells. rewrite Hcols.
      apply (load_rows (fun rc => grid_getchar g rc.1 rc.2) (c0 :: cols)
               (upto 0 (grid_nrow g)) ltac:(discriminate) Hf g0 true). }
  rewrite Hloaded.
  pose proof (fun r c => fold_cells_getchar (fun _ _ => true)
    (fun rc => grid_getchar g rc.1 rc.2)
    (cells (grid_nrow g) (grid_ncol g)) (NoDup_cells _ _) g0 r c Hw0) as Hfold.
  cbv zeta in Hfold. cbv beta iota in Hfold.
  destruct (Hfold 0 0) as (Hw1 & Hr1 & Hc1 & _).
  apply grid_ext.
  - exact Hw1.
  - exact Hw.
  - rewrite Hr1. exact Hr0.
  - rewrite Hc1. exact Hc0.
  - intros r c Hin. destruct (Hfold r c) as (_ & _ & _ & ->). cbn [fst snd].
    assert (Hin0 : in_grid g0 r c = true).
    { unfold in_grid in Hin |- *. rewrite Hr1, Hc1 in Hin. exact Hin. }
    rewrite Hin0, andb_true_r, andb_true_r.
    rewrite bool_decide_eq_true_2; [reflexivity|].
    apply list_elem_of_In, in_cells. apply in_grid_spec in Hin0.
    rewrite Hr0, Hc0 in Hin0. exact Hin0.
Qed.

Lemma grid_load_toString_witness :
  grid_wf demo_map /\
  grid_load 5 7 (list_ascii_of_string (grid_toString demo_map)) = Some demo_map.
Proof.
  assert (Hw : grid_wf demo_map) by (apply grid_wfb_wf; reflexivity).
  split; [exact Hw|].
  apply (grid_load_toString demo_map Hw); [unfold INT_MAX; simpl; lia| |reflexivity].
  unfold INT_MAX. simpl. lia.
Defined.

(** * More of the server *)

(** ** Counting the piles *)

Lemma tally_nonneg {A} (f : A -> bool) l : 0 <= tally f l.
Proof. induction l as [|x l IH]; simpl; [lia|]. destruct (f x); lia. Qed.

Lemma tally_agree {A} (f h : A -> bool) l :
  (forall x, In x l -> f x = h x) -> tally f l = tally h l.
Proof.
  induction l as [|x l IH]; intros H; simpl; [reflexivity|].
  rewrite (H x) by (left; reflexivity).
  rewrite IH by (intros y Hy; apply H; right; exact Hy). reflexivity.
Qed.

Lemma tally_found {A} (f : A -> bool) l x : In x l -> f x = true -> 1 <= tally f l.
Proof.
  induction l as [|y l IH]; intros Hin Hx; [destruct Hin|].
  destruct Hin as [->|Hin]; simpl.
  - rewrite Hx. pose proof (tally_nonneg f l). lia.
  - specialize (IH Hin Hx). destruct (f y); lia.
Qed.

Lemma tally_none {A} (f : A -> bool) l x : tally f l = 0 -> In x l -> f x = false.
Proof.
  intros H0 Hin. destruct (f x) eqn:Hx; [|reflexivity].
  pose proof (tally_found f l x Hin Hx). lia.
Qed.

(** Changing the answer for one element changes the count by one at most. *)
Lemma tally_change {A} `{EqDecision A} (f h : A -> bool) l x :
  NoDup l -> x ∈ l -> (forall y, y <> x -> f y = h y) ->
  tally h l = tally f l + Z.b2z (h x) - Z.b2z (f x).
Proof.
  induction l as [|y l IH]; intros Hnd Hin Hfh; [inversion Hin|].
  apply NoDup_cons in Hnd as [Hfresh Hnd]. simpl.
  destruct (decide (y = x)) as [->|Hne].
  - assert (E : tally h l = tally f l).
    { symmetry. apply tally_agree. intros z Hz. apply Hfh. intros ->.
      apply Hfresh, list_elem_of_In, Hz. }
    rewrite E. destruct (h x), (f x); simpl; lia.
  - apply elem_of_cons in Hin as [->|Hin]; [contradiction|].
    rewrite (IH Hnd Hin Hfh), (Hfh y Hne). destruct (h y); lia.
Qed.

Lemma grid_isGold_update g r c ch r' c' :
  grid_wf g ->
  grid_isGold (grid_update g r c ch) r' c' =
  if in_grid g r c && (r =? r') && (c =? c') then ch_eqb ch "*" else grid_isGold g r' c'.
Proof.
  intros Hw. unfold grid_isGold. rewrite grid_getchar_update by exact Hw.
  destruct (in_grid g r c && (r =? r') && (c =? c')); reflexivity.
Qed.

(** Writing a cell changes the number of piles by what the cell showed and
    what it shows. *)
Lemma piles_on_update g r c ch :
  grid_wf g -> in_grid g r c = true ->
  piles_on (grid_update g r c ch) =
  piles_on g + Z.b2z (ch_eqb ch "*") - Z.b2z (grid_isGold g r c).
Proof.
  intros Hw Hin. unfold piles_on. rewrite grid_nrow_update, grid_ncol_update.
  rewrite (tally_change (fun rc => grid_isGold g rc.1 rc.2)
             (fun rc => grid_isGold (grid_update g r c ch) rc.1 rc.2) _ (r, c)).
  - cbn [fst snd]. rewrite grid_isGold_update by exact Hw.
    rewrite Hin, !Z.eqb_refl. reflexivity.
  - apply NoDup_cells.
  - apply list_elem_of_In, in_cells_grid, Hin.
  - intros [r' c'] Hne. cbn [fst snd]. rewrite grid_isGold_update by exact Hw.
    destruct (in_grid g r c && (r =? r') && (c =? c')) eqn:E; [|reflexivity].
    apply cell_test_true in E as [-> ->]. contradiction.
Qed.

Lemma grid_isGold_inside g r c : grid_isGold g r c = true -> in_grid g r c = true.
Proof.
  intros H. destruct (in_grid g r c) eqn:Hin; [reflexivity|].
  unfold grid_isGold in H. rewrite (grid_getchar_outside _ _ _ Hin) in H. discriminate.
Qed.

Lemma piles_on_found g r c : grid_isGold g r c = true -> 1 <= piles_on g.
Proof.
  intros H. unfold piles_on.
  apply (tally_found (fun rc => grid_isGold g rc.1 rc.2) _ (r, c)); [|exact H].
  apply in_cells_grid, grid_isGold_inside, H.
Qed.

Lemma piles_on_none g r c : piles_on g = 0 -> grid_isGold g r c = false.
Proof.
  intros H. destruct (grid_isGold g r c) eqn:E; [|reflexivity].
  pose proof (piles_on_found g r c E). lia.
Qed.

(** Grids of the same size that show gold in the same cells show as many
    piles. *)
Lemma piles_on_agree g h :
  grid_nrow g = grid_nrow h -> grid_ncol g = grid_ncol h ->
  (forall r c, grid_isGold g r c = grid_isGold h r c) -> piles_on g = piles_on h.
Proof.
  intros Hr Hc H. unfold piles_on. rewrite Hr, Hc.
  apply tally_agree. intros [r c] _. apply H.
Qed.

(** ** The board stays in order *)

Lemma letter_not_gold ch : isalpha ch = true -> ch_eqb ch "*" = false.
Proof.
  intros H. destruct (ch_eqb ch "*") eqn:E; [|reflexivity].
  apply ch_eqb_eq in E. subst. discriminate.
Qed.

Lemma player_not_gold g r c : grid_isPlayer g r c = true -> grid_isGold g r c = false.
Proof.
  unfold grid_isPlayer, grid_isGold. intros H.
  destruct (ch_eqb (grid_getchar g r c) "*") eqn:E; [|reflexivity].
  apply ch_eqb_eq in E. rewrite E in H. discriminate.
Qed.

Lemma floor_not_gold g r c : grid_isEmptyRoomSpot g r c = true -> grid_isGold g r c = false.
Proof.
  unfold grid_isEmptyRoomSpot, grid_isGold. intros H.
  apply ch_eqb_eq in H. rewrite H. reflexivity.
Qed.

Lemma lettered_letter g i p :
  lettered g -> players g !! i = Some p -> isalpha (alias p) = true.
Proof.
  intros [Hn Hall] Hp. rewrite (Hall i p Hp). apply alias_of_letter.
  apply lookup_lt_Some in Hp. unfold numPlayer in Hn. unfold MaxPlayers in *. lia.
Qed.

(** An entry of the table after one entry has been given a position. *)
Lemma alter_set_pos_lookup r c i (ps : list player_t) j x :
  alter (set_pos r c) i ps !! j = Some x ->
  exists y, ps !! j = Some y /\ alias x = alias y /\
    ((row x = row y /\ col x = col y) \/ (i = j /\ row x = r /\ col x = c)).
Proof.
  rewrite list_lookup_alter. destruct (decide (i = j)) as [->|Hne]; intros H.
  - destruct (ps !! j) as [y|]; [|discriminate]. simpl in H.
    inversion H; subst; clear H. exists y. split; [reflexivity|].
    split; [reflexivity|]. right. repeat split; reflexivity.
  - exists x. split; [exact H|]. split; [reflexivity|]. left. split; reflexivity.
Qed.

Lemma board_told g : board_in_order g -> board_in_order (told g).
Proof.
  intros (Hw & [Hn Hl] & Hraw & Hng & Hov).
  unfold board_in_order, lettered, overlaid, told, numPlayer in *. simpl.
  rewrite length_fmap.
  split; [exact Hw|]. split; [split; [exact Hn|]|].
  - intros i p Hp. rewrite list_lookup_fmap in Hp.
    destruct (players g !! i) as [q|] eqn:Hq; [|discriminate].
    simpl in Hp. inversion Hp; subst. simpl. apply (Hl i q Hq).
  - split; [exact Hraw|]. split; [|exact Hov].
    intros i p Hp. rewrite list_lookup_fmap in Hp.
    destruct (players g !! i) as [q|] eqn:Hq; [|discriminate].
    simpl in Hp. inversion Hp; subst. simpl. apply (Hng i q Hq).
Qed.

Lemma board_picked g pi n : board_in_order g -> board_in_order (picked g pi n).
Proof.
  intros (Hw & [Hn Hl] & Hraw & Hng & Hov).
  unfold board_in_order, lettered, overlaid, picked, numPlayer in *. simpl.
  rewrite length_alter.
  split; [exact Hw|]. split; [split; [exact Hn|]|].
  - intros i p Hp. rewrite list_lookup_alter in Hp.
    destruct (decide (pi = i)) as [->|Hne]; [|apply (Hl i p Hp)].
    destruct (players g !! i) as [q|] eqn:Hq; [|discriminate].
    simpl in Hp. inversion Hp; subst. simpl. apply (Hl i q Hq).
  - split; [exact Hraw|]. split; [|exact Hov].
    intros i p Hp. rewrite list_lookup_alter in Hp.
    destruct (decide (pi = i)) as [->|Hne]; [|apply (Hng i p Hp)].
    destruct (players g !! i) as [q|] eqn:Hq; [|discriminate].
    simpl in Hp. inversion Hp; subst. simpl. apply (Hng i q Hq).
Qed.

(** A step to a free cell: the board stays in order, and a pile under the
    mover's feet is gone. *)
Lemma board_moved g pi p nr nc :
  board_in_order g -> players g !! pi = Some p ->
  grid_canMoveTo (masterGrid g) nr nc = true ->
  board_in_order (moved g pi p nr nc) /\
  piles_on (masterGrid (moved g pi p nr nc)) =
  piles_on (masterGrid g) - Z.b2z (grid_isGold (masterGrid g) nr nc).
Proof.
  intros Hb Hp Hmove. pose proof Hb as (Hw & Hlet & Hraw & Hng & Hov).
  pose proof (lettered_letter g pi p Hlet Hp) as Hal.
  pose proof (grid_canMoveTo_inside _ _ _ Hmove) as Hin.
  unfold moved. cbn [masterGrid with_master].
  set (m1 := grid_update (masterGrid g) (row p) (col p)
               (grid_getchar (rawGrid g) (row p) (col p))).
  assert (Hw1 : grid_wf m1) by (apply grid_wf_update; exact Hw).
  assert (Hin1 : in_grid m1 nr nc = true)
    by (unfold m1; rewrite in_grid_update; exact Hin).
  assert (Hc1 : forall r c, grid_getchar m1 r c =
            if in_grid (masterGrid g) (row p) (col p) && (row p =? r) && (col p =? c)
            then grid_getchar (rawGrid g) (row p) (col p)
            else grid_getchar (masterGrid g) r c)
    by (intros r c; apply grid_getchar_update; exact Hw).
  assert (Hg1 : forall r c, grid_isGold m1 r c = grid_isGold (masterGrid g) r c).
  { intros r c. unfold grid_isGold. rewrite Hc1.
    destruct (in_grid _ _ _ && _ && _) eqn:E; [|reflexivity].
    apply cell_test_true in E as [<- <-].
    change (grid_isGold (rawGrid g) (row p) (col p) =
            grid_isGold (masterGrid g) (row p) (col p)).
    rewrite (proj1 (Hraw (row p) (col p))). symmetry. apply (Hng pi p Hp). }
  assert (Hp1 : piles_on m1 = piles_on (masterGrid g)).
  { apply piles_on_agree; [apply grid_nrow_update|apply grid_ncol_update|exact Hg1]. }
  clearbody m1. split.
  - unfold board_in_order, lettered, overlaid, numPlayer. simpl. rewrite length_alter.
    split; [apply grid_wf_update; exact Hw1|].
    split; [split; [apply Hlet|]|].
    + intros j x Hx. apply alter_set_pos_lookup in Hx as (y & Hy & -> & _).
      apply (proj2 Hlet j y Hy).
    + split; [exact Hraw|]. split.
      * intros j x Hx. rewrite grid_isGold_update by exact Hw1.
        destruct (in_grid m1 nr nc && (nr =? row x) && (nc =? col x)) eqn:E;
          [apply letter_not_gold, Hal|].
        rewrite Hg1.
        apply alter_set_pos_lookup in Hx as (y & Hy & _ & [[-> ->]|(_ & Hr & Hc)]).
        -- apply (Hng j y Hy).
        -- rewrite Hr, Hc, Hin1, !Z.eqb_refl in E. discriminate.
      * intros r c. unfold grid_isGold. rewrite !grid_getchar_update by exact Hw1.
        destruct (in_grid m1 nr nc && (nr =? r) && (nc =? c)) eqn:E;
          [right; right; exact Hal|].
        rewrite Hc1.
        destruct (in_grid (masterGrid g) (row p) (col p) && (row p =? r) &&
                  (col p =? c)) eqn:E'; [|exact (Hov r c)].
        apply cell_test_true in E' as [<- <-]. left. reflexivity.
  - rewrite piles_on_update by assumption.
    rewrite (letter_not_gold _ Hal), Hg1, Hp1. simpl. lia.
Qed.

(** Two players changing places: the board stays in order, with the piles
    it had. *)
Lemma board_swapped g pi p i q nr nc :
  board_in_order g -> players g !! pi = Some p ->
  grid_canMoveTo (masterGrid g) nr nc = true ->
  grid_isPlayer (masterGrid g) nr nc = true ->
  list_find (fun q => row q = nr /\ col q = nc) (players g) = Some (i, q) ->
  board_in_order (swapped g pi p i q nr nc) /\
  piles_on (masterGrid (swapped g pi p i q nr nc)) = piles_on (masterGrid g).
Proof.
  intros Hb Hp Hmove Hpl Hfind. pose proof Hb as (Hw & Hlet & Hraw & Hng & Hov).
  apply list_find_Some in Hfind as (Hq & _ & _).
  pose proof (lettered_letter g pi p Hlet Hp) as Hal.
  pose proof (lettered_letter g i q Hlet Hq) as Haq.
  pose proof (grid_canMoveTo_inside _ _ _ Hmove) as Hin.
  unfold swapped. cbn [masterGrid with_master].
  set (m1 := grid_update (masterGrid g) (row p) (col p) (alias q)).
  assert (Hw1 : grid_wf m1) by (apply grid_wf_update; exact Hw).
  assert (Hin1 : in_grid m1 nr nc = true)
    by (unfold m1; rewrite in_grid_update; exact Hin).
  assert (Hc1 : forall r c, grid_getchar m1 r c =
            if in_grid (masterGrid g) (row p) (col p) && (row p =? r) && (col p =? c)
            then alias q else grid_getchar (masterGrid g) r c)
    by (intros r c; apply grid_getchar_update; exact Hw).
  assert (Hg1 : forall r c, grid_isGold m1 r c = grid_isGold (masterGrid g) r c).
  { intros r c. unfold grid_isGold. rewrite Hc1.
    destruct (in_grid (masterGrid g) (row p) (col p) && (row p =? r) && (col p =? c))
      eqn:E; [|reflexivity].
    apply cell_test_true in E as [<- <-].
    rewrite (letter_not_gold _ Haq). symmetry. apply (Hng pi p Hp). }
  assert (Hp1 : piles_on m1 = piles_on (masterGrid g)).
  { apply piles_on_agree; [apply grid_nrow_update|apply grid_ncol_update|exact Hg1]. }
  clearbody m1. split.
  - unfold board_in_order, lettered, overlaid, numPlayer. simpl.
    rewrite !length_alter.
    split; [apply grid_wf_update; exact Hw1|].
    split; [split; [apply Hlet|]|].
    + intros j x Hx. apply alter_set_pos_lookup in Hx as (y & Hy & -> & _).
      apply alter_set_pos_lookup in Hy as (z & Hz & -> & _).
      apply (proj2 Hlet j z Hz).
    + split; [exact Hraw|]. split.
      * intros j x Hx. rewrite grid_isGold_update by exact Hw1.
        destruct (in_grid m1 nr nc && (nr =? row x) && (nc =? col x)) eqn:E;
          [apply letter_not_gold, Hal|].
        rewrite Hg1.
        apply alter_set_pos_lookup in Hx as (y & Hy & _ & [[-> ->]|(_ & Hr & Hc)]).
        -- apply alter_set_pos_lookup in Hy as (z & Hz & _ & [[-> ->]|(_ & -> & ->)]).
           ++ apply (Hng j z Hz).
           ++ apply (Hng pi p Hp).
        -- rewrite Hr, Hc, Hin1, !Z.eqb_refl in E. discriminate.
      * intros r c. unfold grid_isGold. rewrite !grid_getchar_update by exact Hw1.
        destruct (in_grid m1 nr nc && (nr =? r) && (nc =? c)) eqn:E;
          [right; right; exact Hal|].
        rewrite Hc1.
        destruct (in_grid (masterGrid g) (row p) (col p) && (row p =? r) &&
                  (col p =? c)) eqn:E'; [|exact (Hov r c)].
        right. right. exact Haq.
  - rewrite piles_on_update by assumption.
    rewrite (letter_not_gold _ Hal), Hg1, Hp1, (player_not_gold _ _ _ Hpl).
    simpl. lia.
Qed.

(** A player joining on a floor cell. *)
Lemma board_joined g from name r c seen :
  board_in_order g -> numPlayer g <> MaxPlayers ->
  grid_isEmptyRoomSpot (masterGrid g) r c = true ->
  board_in_order (joined g from name r c seen) /\
  piles_on (masterGrid (joined g from name r c seen)) = piles_on (masterGrid g).
Proof.
  intros (Hw & [Hn Hl] & Hraw & Hng & Hov) Hfull Hfree.
  pose proof (grid_isEmptyRoomSpot_inside _ _ _ Hfree) as Hin.
  assert (Hal : isalpha (alias_of (numPlayer g)) = true).
  { apply alias_of_letter. unfold numPlayer in *. lia. }
  unfold joined. cbn [masterGrid with_master alias]. split.
  - unfold board_in_order, lettered, overlaid, numPlayer in *. simpl.
    rewrite length_app. simpl.
    split; [apply grid_wf_update; exact Hw|].
    split; [split; [lia|]|].
    + intros i p Hp. apply lookup_app_Some in Hp as [Hold|[Hge Hnew]];
        [apply (Hl i p Hold)|].
      destruct (i - length (players g))%nat eqn:Ei; simpl in Hnew; [|discriminate].
      inversion Hnew; subst; clear Hnew. simpl. f_equal. lia.
    + split; [exact Hraw|]. split.
      * intros i p Hp. rewrite grid_isGold_update by exact Hw.
        destruct (in_grid (masterGrid g) r c && (r =? row p) && (c =? col p)) eqn:E;
          [apply letter_not_gold, Hal|].
        apply lookup_app_Some in Hp as [Hold|[Hge Hnew]]; [apply (Hng i p Hold)|].
        destruct (i - length (players g))%nat; simpl in Hnew; [|discriminate].
        inversion Hnew; subst; clear Hnew. simpl in E.
        rewrite Hin, !Z.eqb_refl in E. discriminate.
      * intros r' c'. unfold grid_isGold. rewrite !grid_getchar_update by exact Hw.
        destruct (in_grid (masterGrid g) r c && (r =? r') && (c =? c')) eqn:E;
          [right; right; exact Hal|exact (Hov r' c')].
  - rewrite piles_on_update by assumption.
    rewrite (letter_not_gold _ Hal), (floor_not_gold _ _ _ Hfree). simpl. lia.
Qed.

(** *** Quitting *)

Lemma with_master_twice m m' g : with_master m (with_master m' g) = with_master m g.
Proof. reflexivity. Qed.

Lemma with_master_same g : with_master (masterGrid g) g = g.
Proof. destruct g. reflexivity. Qed.

(** The loop of [handleQUIT] returns, with the master grid [quit_grid]. *)
Lemma quit_players_grid ip ps w :
  exists out,
    quit_players ip ps w =
    Some (tt, World (with_master (quit_grid ip (rawGrid (GAME w)) ps
                                    (masterGrid (GAME w))) (GAME w))
                (draws w) (sent w ++ out)).
Proof.
  revert w. induction ps as [|current rest IH]; intros [g ds out].
  - exists []. simpl. unfold ret, quit_grid. simpl.
    rewrite app_nil_r, with_master_same. reflexivity.
  - simpl. unfold bind at 1. unfold quit_grid. cbn [fold_left]. unfold quit_cell at 2.
    destruct (message_eqAddr ip (IP current)) eqn:Heq.
    + unfold bind, message_send, get_game, put_game. simpl.
      destruct (IH (World (with_master
                  (grid_update (masterGrid g) (row current) (col current)
                     (grid_getchar (rawGrid g) (row current) (col current))) g) ds
                  (out ++ [(ip, "QUIT Thanks for playing!"%string)])))
        as (out' & Hq).
      simpl in Hq. rewrite Hq. eexists. rewrite <- app_assoc. reflexivity.
    + unfold ret. simpl. destruct (IH (World g ds out)) as (out' & Hq).
      simpl in Hq. rewrite Hq. eexists. reflexivity.
Qed.

Lemma in_grid_same_size g h r c :
  grid_nrow g = grid_nrow h -> grid_ncol g = grid_ncol h ->
  in_grid g r c = in_grid h r c.
Proof. unfold in_grid. intros -> ->. reflexivity. Qed.

(** The grid after the loop, cell by cell: the cells of the players of
    [ip] show the raw character, the others what they showed. *)
Lemma quit_grid_cells ip raw m0 ps m :
  grid_wf m -> grid_nrow m = grid_nrow m0 -> grid_ncol m = grid_ncol m0 ->
  grid_wf (quit_grid ip raw ps m) /\
  grid_nrow (quit_grid ip raw ps m) = grid_nrow m0 /\
  grid_ncol (quit_grid ip raw ps m) = grid_ncol m0 /\
  forall r c,
    grid_getchar (quit_grid ip raw ps m) r c =
    if existsb (quits_at ip m0 r c) ps then grid_getchar raw r c
    else grid_getchar m r c.
Proof.
  revert m. induction ps as [|p ps IH]; intros m Hw Hr Hc.
  - unfold quit_grid. simpl. split; [exact Hw|]. split; [exact Hr|].
    split; [exact Hc|]. reflexivity.
  - unfold quit_grid. cbn [fold_left]. fold (quit_grid ip raw ps (quit_cell ip raw m p)).
    assert (H1 : grid_wf (quit_cell ip raw m p) /\
                 grid_nrow (quit_cell ip raw m p) = grid_nrow m0 /\
                 grid_ncol (quit_cell ip raw m p) = grid_ncol m0).
    { unfold quit_cell. destruct (message_eqAddr ip (IP p)).
      - rewrite grid_nrow_update, grid_ncol_update.
        split; [apply grid_wf_update; exact Hw|]. split; assumption.
      - split; [exact Hw|]. split; assumption. }
    destruct H1 as (Hw' & Hr' & Hc').
    destruct (IH _ Hw' Hr' Hc') as (Hwq & Hrq & Hcq & Hcells).
    split; [exact Hwq|]. split; [exact Hrq|]. split; [exact Hcq|].
    intros r c. rewrite Hcells. cbn [existsb].
    destruct (existsb (quits_at ip m0 r c) ps); [rewrite orb_true_r; reflexivity|].
    rewrite orb_false_r. unfold quits_at, quit_cell.
    destruct (message_eqAddr ip (IP p)); [|reflexivity].
    rewrite grid_getchar_update by exact Hw.
    rewrite (in_grid_same_size m m0 _ _ Hr Hc). simpl.
    destruct (in_grid m0 (row p) (col p)); [|reflexivity]. simpl.
    destruct (Z.eqb_spec (row p) r) as [->|]; [|reflexivity]. simpl.
    destruct (Z.eqb_spec (col p) c) as [->|]; reflexivity.
Qed.

(** [handleQUIT] returns false, and leaves the game with the master grid
    [quit_grid], broadcast; it uses no draw. *)
Lemma handleQUIT_game ip w :
  exists out,
    handleQUIT ip w =
    Some (false,
          World (told (with_master
                   (quit_grid ip (rawGrid (GAME w)) (players (GAME w))
                      (masterGrid (GAME w))) (GAME w)))
            (draws w) (sent w ++ out)).
Proof.
  unfold handleQUIT, bind at 1, get_game at 1. unfold bind at 1.
  set (w0 := (if message_eqAddr (spectatorIP (GAME w)) ip
              then message_send (spectatorIP (GAME w)) "QUIT Thanks for watching!"
              else ret ()) w).
  assert (Hw0 : exists pre, w0 = Some (tt, World (GAME w) (draws w) (sent w ++ pre))).
  { subst w0. destruct (message_eqAddr _ ip).
    - eexists. reflexivity.
    - exists []. rewrite app_nil_r. destruct w. reflexivity. }
  destruct Hw0 as (pre & ->). unfold bind at 1.
  destruct (quit_players_grid ip (players (GAME w))
              (World (GAME w) (draws w) (sent w ++ pre))) as (out & Hq).
  rewrite Hq. rewrite bind_broadcast. unfold ret. cbn [GAME draws sent].
  eexists. rewrite <- !app_assoc. reflexivity.
Qed.

Lemma existsb_lookup {A} (f : A -> bool) (l : list A) :
  existsb f l = true -> exists i x, l !! i = Some x /\ f x = true.
Proof.
  intros H. apply existsb_exists in H as (x & Hin & Hx).
  apply list_elem_of_In, list_elem_of_lookup in Hin as [i Hi].
  exists i, x. split; assumption.
Qed.

Lemma quits_at_cell ip m r c p : quits_at ip m r c p = true -> row p = r /\ col p = c.
Proof. unfold quits_at. rewrite !andb_true_iff, !Z.eqb_eq. tauto. Qed.

(** A quit keeps the board in order, with the piles it had. *)
Lemma board_quit g ip :
  board_in_order g ->
  board_in_order
    (with_master (quit_grid ip (rawGrid g) (players g) (masterGrid g)) g) /\
  piles_on (quit_grid ip (rawGrid g) (players g) (masterGrid g)) =
  piles_on (masterGrid g).
Proof.
  intros (Hw & Hlet & Hraw & Hng & Hov).
  destruct (quit_grid_cells ip (rawGrid g) (masterGrid g) (players g) (masterGrid g)
              Hw eq_refl eq_refl) as (Hwq & Hrq & Hcq & Hcells).
  assert (Hg : forall r c,
    grid_isGold (quit_grid ip (rawGrid g) (players g) (masterGrid g)) r c =
    grid_isGold (masterGrid g) r c).
  { intros r c. unfold grid_isGold. rewrite Hcells.
    destruct (existsb (quits_at ip (masterGrid g) r c) (players g)) eqn:E;
      [|reflexivity].
    apply existsb_lookup in E as (i & p & Hp & Hat).
    apply quits_at_cell in Hat as [<- <-].
    change (grid_isGold (rawGrid g) (row p) (col p) =
            grid_isGold (masterGrid g) (row p) (col p)).
    rewrite (proj1 (Hraw _ _)). symmetry. apply (Hng i p Hp). }
  split.
  - unfold board_in_order, lettered, overlaid, numPlayer. simpl.
    split; [exact Hwq|]. split; [exact Hlet|]. split; [exact Hraw|]. split.
    + intros i p Hp. rewrite Hg. apply (Hng i p Hp).
    + intros r c. rewrite Hg. rewrite Hcells.
      destruct (existsb (quits_at ip (masterGrid g) r c) (players g));
        [left; reflexivity|exact (Hov r c)].
  - apply piles_on_agree; [exact Hrq|exact Hcq|exact Hg].
Qed.

(** *** Setup *)

(** Every turn of the loop of [server_drop_gold] puts one more pile on a
    floor cell. *)
Lemma drop_piles_floor n w w' :
  drop_piles n w = Some (tt, w') ->
  exists m,
    GAME w' = with_master m (GAME w) /\
    (grid_wf (masterGrid (GAME w)) ->
       grid_wf m /\
       piles_on m = piles_on (masterGrid (GAME w)) + Z.of_nat n /\
       forall r c, grid_getchar m r c = grid_getchar (masterGrid (GAME w)) r c \/
                   (grid_getchar (masterGrid (GAME w)) r c = "."%char /\
                    grid_getchar m r c = "*"%char)).
Proof.
  revert w. induction n as [|n IH]; intros w Hdrop.
  - unfold drop_piles, ret in Hdrop. inversion Hdrop; subst.
    exists (masterGrid (GAME w')). rewrite with_master_same.
    split; [reflexivity|]. intros Hw. split; [exact Hw|].
    split; [simpl; lia|]. intros; left; reflexivity.
  - simpl in Hdrop. unfold bind at 1 in Hdrop.
    destruct (random_spot w) as [[[r c] w1]|] eqn:Hspot; [|discriminate].
    apply random_spot_spec in Hspot as (Hg1 & _ & Hfree).
    unfold bind at 1, get_game at 1 in Hdrop.
    unfold bind at 1, put_game at 1 in Hdrop.
    apply IH in Hdrop as (m & Hg & Hcells).
    cbn [GAME] in Hg, Hcells. rewrite Hg1 in Hg, Hcells.
    cbn [masterGrid with_master fst snd] in Hcells.
    exists m. split; [rewrite Hg; reflexivity|].
    intros Hw. destruct (Hcells (grid_wf_update _ _ _ _ Hw)) as (Hwm & Hpiles & Hkeep).
    pose proof (grid_isEmptyRoomSpot_inside _ _ _ Hfree) as Hin.
    split; [exact Hwm|]. split.
    + rewrite Hpiles, piles_on_update by assumption.
      rewrite (floor_not_gold _ _ _ Hfree). simpl Z.b2z. lia.
    + intros r' c'. specialize (Hkeep r' c').
      rewrite grid_getchar_update in Hkeep by exact Hw.
      destruct (in_grid (masterGrid (GAME w)) r c && (r =? r') && (c =? c')) eqn:E.
      * apply cell_test_true in E as [<- <-]. right.
        split; [apply ch_eqb_eq; exact Hfree|].
        destruct Hkeep as [E'|[E' _]]; [exact E'|discriminate].
      * destruct Hkeep as [E'|E']; [left|right]; exact E'.
Qed.

Lemma valid_map_no_gold m r c : valid_map m = true -> grid_isGold m r c = false.
Proof.
  unfold valid_map. rewrite andb_true_iff, forallb_forall. intros [_ Hall].
  unfold grid_isGold, grid_getchar.
  destruct (in_grid m r c); [|reflexivity].
  destruct (grid_map m !! offset m r c) as [ch|] eqn:Hch; [|reflexivity].
  simpl. assert (Hm : map_char ch = true).
  { apply Hall. apply list_elem_of_In, list_elem_of_lookup. eexists. exact Hch. }
  unfold map_char in Hm. rewrite !orb_true_iff, !ch_eqb_eq in Hm.
  destruct Hm as [[[[[->| ->]| ->]| ->]| ->]| ->]; reflexivity.
Qed.

Lemma tally_zero {A} (f : A -> bool) l :
  (forall x, In x l -> f x = false) -> tally f l = 0.
Proof.
  induction l as [|x l IH]; intros H; simpl; [reflexivity|].
  rewrite (H x) by (left; reflexivity). apply IH. intros y Hy. apply H. right. exact Hy.
Qed.

Lemma piles_on_bare g : (forall r c, grid_isGold g r c = false) -> piles_on g = 0.
Proof. intros H. unfold piles_on. apply tally_zero. intros [r c] _. apply H. Qed.

(** [server_drop_gold] on a loaded map: 10 to 29 piles, as many on the grid
    as in the count, each on a floor cell of the map, and 250 nuggets. *)
Lemma server_drop_gold_floor m ds w :
  server_drop_gold (World (loaded m) ds []) = Some (tt, w) ->
  exists n master,
    0 <= n < GoldMaxNumPiles - GoldMinNumPiles /\
    GAME w = with_master master (with_gold (n + GoldMinNumPiles) 0 GoldTotal (loaded m)) /\
    (grid_wf m ->
       grid_wf master /\
       piles_on master = piles_on m + (n + GoldMinNumPiles) /\
       forall r c, grid_getchar master r c = grid_getchar m r c \/
                   (grid_getchar m r c = "."%char /\
                    grid_getchar master r c = "*"%char)).
Proof.
  unfold server_drop_gold, bind at 1, rand. simpl.
  destruct ds as [|d ds]; [discriminate|].
  unfold bind at 1, c_rem. simpl.
  unfold bind at 1, get_game at 1. unfold bind at 1, put_game at 1.
  intros Hdrop. apply drop_piles_floor in Hdrop as (master & Hg & Hcells).
  exists (Z.rem (Z.of_N d) (GoldMaxNumPiles - GoldMinNumPiles)), master.
  cbn [GAME] in Hg, Hcells.
  assert (Hn : 0 <= Z.rem (Z.of_N d) (GoldMaxNumPiles - GoldMinNumPiles) <
               GoldMaxNumPiles - GoldMinNumPiles).
  { unfold GoldMaxNumPiles, GoldMinNumPiles. rewrite Z.rem_mod_nonneg by lia.
    pose proof (Z.mod_pos_bound (Z.of_N d) (30 - 10) ltac:(lia)). lia. }
  split; [exact Hn|]. split; [exact Hg|].
  intros Hw. destruct (Hcells Hw) as (Hwm & Hpiles & Hkeep).
  split; [exact Hwm|]. split; [|exact Hkeep].
  rewrite Hpiles. cbn [masterGrid with_gold with_master loaded].
  rewrite Z2Nat.id by (unfold GoldMinNumPiles, GoldMaxNumPiles in *; lia).
  reflexivity.
Qed.

Lemma in_order_told g : in_order g -> in_order (told g).
Proof.
  intros (Hb & Hp & Hle & H0). split; [apply board_told; exact Hb|].
  split; [exact Hp|]. split; [exact Hle|exact H0].
Qed.

Lemma player_move_in_order pi nr nc w stop w' :
  in_order (GAME w) -> player_move pi nr nc w = Some (stop, w') -> in_order (GAME w').
Proof.
  intros H Hm. pose proof H as (Hb & Hpiles & Hle & H0).
  apply player_move_cases in Hm
    as (p & Hp & [(_ & -> & _)|(_ & Hmove &
          [(-> & _)|[(Hpl & i & q & Hfind & ->)|
           [(Hpl & Hgold & n & -> & Hn)|(Hpl & Hgold & ->)]]])]).
  - exact H.
  - exact H.
  - apply in_order_told.
    destruct (board_swapped _ pi p i q nr nc Hb Hp Hmove Hpl Hfind) as [Hb' Hp'].
    split; [exact Hb'|]. split; [rewrite Hp'; exact Hpiles|].
    split; [exact Hle|exact H0].
  - apply in_order_told.
    destruct (board_moved _ pi p nr nc Hb Hp Hmove) as [Hb' Hp'].
    rewrite Hgold in Hp'. simpl Z.b2z in Hp'.
    destruct (amount_ok_range _ _ _ _ Hle Hn) as (H1 & H2 & H3).
    split; [apply board_picked; exact Hb'|].
    change (piles_on (masterGrid (moved (GAME w) pi p nr nc)) =
              GoldNumPilesLeft (GAME w) - 1 /\
            GoldNumPilesLeft (GAME w) - 1 <= goldLeft (GAME w) - n /\
            (GoldNumPilesLeft (GAME w) - 1 = 0 -> goldLeft (GAME w) - n = 0)).
    split; [lia|]. split; [exact H3|]. intros E. rewrite H1; lia.
  - apply in_order_told.
    destruct (board_moved _ pi p nr nc Hb Hp Hmove) as [Hb' Hp'].
    rewrite Hgold in Hp'. simpl Z.b2z in Hp'.
    split; [exact Hb'|].
    split; [rewrite Hp', Z.sub_0_r; exact Hpiles|].
    split; [exact Hle|exact H0].
Qed.

Lemma handleQUIT_in_order ip w stop w' :
  in_order (GAME w) -> handleQUIT ip w = Some (stop, w') -> in_order (GAME w').
Proof.
  intros (Hb & Hpiles & Hle & H0) Hq.
  destruct (handleQUIT_game ip w) as (out & E). rewrite E in Hq.
  inversion Hq; subst; clear Hq. cbn [GAME]. apply in_order_told.
  destruct (board_quit _ ip Hb) as [Hb' Hp'].
  split; [exact Hb'|]. split; [etransitivity; [exact Hp'|exact Hpiles]|].
  split; [exact Hle|exact H0].
Qed.

Lemma handlePlay_in_order from name w stop w' :
  in_order (GAME w) -> handlePlay from name w = Some (stop, w') -> in_order (GAME w').
Proof.
  intros H Hp. pose proof H as (Hb & Hpiles & Hle & H0).
  apply handlePlay_shape in Hp
    as (_ & [->|(r & c & seen & Hfull & Hfree & ->)]); [exact H|].
  apply in_order_told.
  destruct (board_joined _ from name r c seen Hb Hfull Hfree) as [Hb' Hp'].
  split; [exact Hb'|]. split; [rewrite Hp'; exact Hpiles|].
  split; [exact Hle|exact H0].
Qed.

Lemma handleSPECTATE_in_order from w stop w' :
  in_order (GAME w) -> handleSPECTATE from w = Some (stop, w') -> in_order (GAME w').
Proof.
  intros H Hs. apply handleSPECTATE_shape in Hs as (_ & ->).
  apply in_order_told. exact H.
Qed.

Lemma setup_in_order m ds w :
  valid_map m = true ->
  server_drop_gold (World (loaded m) ds []) = Some (tt, w) -> in_order (GAME w).
Proof.
  intros Hm Hs. apply server_drop_gold_floor in Hs as (n & master & Hn & -> & Hw).
  pose proof Hm as Hm'. unfold valid_map in Hm'. apply andb_true_iff in Hm' as [Hwf _].
  apply grid_wfb_wf in Hwf. destruct (Hw Hwf) as (Hwm & Hpiles & Hkeep).
  rewrite (piles_on_bare m) in Hpiles by (intros; apply valid_map_no_gold; exact Hm).
  unfold GoldMaxNumPiles, GoldMinNumPiles in *.
  split; [|split; [exact Hpiles|split; [simpl; unfold GoldTotal; lia|simpl; lia]]].
  split; [exact Hwm|]. split; [split; [unfold numPlayer, MaxPlayers; simpl; lia|]|].
  - intros i p Hp. simpl in Hp. rewrite lookup_nil in Hp. discriminate.
  - split; [|split].
    + intros r c. simpl. split; [apply valid_map_no_gold|apply valid_map_no_player];
        exact Hm.
    + intros i p Hp. simpl in Hp. rewrite lookup_nil in Hp. discriminate.
    + intros r c. simpl. unfold grid_isGold.
      destruct (Hkeep r c) as [E|[_ E]]; [left; exact E|].
      right. left. rewrite E. reflexivity.
Qed.

(** In every state of the server the books are in order. *)
Lemma reachable_in_order w : reachable w -> in_order (GAME w).
Proof.
  apply (reachable_keeps in_order).
  - exact player_move_in_order.
  - exact handleQUIT_in_order.
  - exact handlePlay_in_order.
  - exact handleSPECTATE_in_order.
  - exact setup_in_order.
Qed.

Lemma endgame_reachable : reachable endgame_world.
Proof.
  apply (play_reachable demo_map endgame_draws endgame_inbox);
    [reflexivity|vm_compute; reflexivity].
Qed.


(** ** No purse is in debt *)

Lemma solvent_told g : solvent g -> solvent (told g).
Proof.
  unfold solvent, told. simpl. intros H. apply Forall_fmap.
  apply (Forall_impl _ _ _ H). intros p Hp. exact Hp.
Qed.

Lemma solvent_set_pos r c i ps :
  Forall (fun p => 0 <= gold p) ps ->
  Forall (fun p => 0 <= gold p) (alter (set_pos r c) i ps).
Proof. intros H. apply Forall_alter; [exact H|]. intros p _ Hp. exact Hp. Qed.

Lemma solvent_add_gold n i ps :
  0 <= n -> Forall (fun p => 0 <= gold p) ps ->
  Forall (fun p => 0 <= gold p) (alter (add_gold n) i ps).
Proof.
  intros Hn H. apply Forall_alter; [exact H|]. intros p _ Hp. simpl. lia.
Qed.

Lemma player_move_sound pi nr nc w stop w' :
  sound (GAME w) -> player_move pi nr nc w = Some (stop, w') -> sound (GAME w').
Proof.
  intros [Ho Hs] Hm. split; [apply (player_move_in_order _ _ _ _ _ _ Ho Hm)|].
  destruct Ho as (Hb & Hpiles & Hle & H0).
  apply player_move_cases in Hm
    as (p & Hp & [(_ & -> & _)|(_ & Hmove &
          [(-> & _)|[(Hpl & i & q & Hfind & ->)|
           [(Hpl & Hgold & n & -> & Hn)|(Hpl & Hgold & ->)]]])]).
  - exact Hs.
  - exact Hs.
  - apply solvent_told. unfold solvent, swapped. simpl.
    apply solvent_set_pos, solvent_set_pos, Hs.
  - apply solvent_told. unfold solvent, picked, moved. simpl.
    pose proof (piles_on_found _ _ _ Hgold) as Hone.
    destruct (amount_ok_range _ _ _ _ Hle Hn) as (H1 & H2 & _).
    apply solvent_add_gold; [|apply solvent_set_pos, Hs].
    destruct (Z.eq_dec (GoldNumPilesLeft (GAME w)) 1) as [E|E].
    + rewrite (H1 E). lia.
    + specialize (H2 E). lia.
  - apply solvent_told. unfold solvent, moved. simpl. apply solvent_set_pos, Hs.
Qed.

Lemma handleQUIT_sound ip w stop w' :
  sound (GAME w) -> handleQUIT ip w = Some (stop, w') -> sound (GAME w').
Proof.
  intros [Ho Hs] Hq. split; [apply (handleQUIT_in_order _ _ _ _ Ho Hq)|].
  destruct (handleQUIT_game ip w) as (out & E). rewrite E in Hq.
  inversion Hq; subst; clear Hq. cbn [GAME]. apply solvent_told. exact Hs.
Qed.

Lemma handlePlay_sound from name w stop w' :
  sound (GAME w) -> handlePlay from name w = Some (stop, w') -> sound (GAME w').
Proof.
  intros [Ho Hs] Hp. split; [apply (handlePlay_in_order _ _ _ _ _ Ho Hp)|].
  apply handlePlay_shape in Hp
    as (_ & [->|(r & c & seen & Hfull & Hfree & ->)]); [exact Hs|].
  apply solvent_told. unfold solvent, joined. simpl.
  apply Forall_app. split; [exact Hs|]. apply Forall_singleton. simpl. lia.
Qed.

Lemma handleSPECTATE_sound from w stop w' :
  sound (GAME w) -> handleSPECTATE from w = Some (stop, w') -> sound (GAME w').
Proof.
  intros [Ho Hs] Hp. split; [apply (handleSPECTATE_in_order _ _ _ _ Ho Hp)|].
  apply handleSPECTATE_shape in Hp as (_ & ->). apply solvent_told. exact Hs.
Qed.

Lemma setup_sound m ds w :
  valid_map m = true ->
  server_drop_gold (World (loaded m) ds []) = Some (tt, w) -> sound (GAME w).
Proof.
  intros Hm Hs. split; [apply (setup_in_order _ _ _ Hm Hs)|].
  apply server_drop_gold_floor in Hs as (n & master & _ & -> & _).
  unfold solvent. simpl. constructor.
Qed.

Lemma reachable_sound w : reachable w -> sound (GAME w).
Proof.
  apply (reachable_keeps sound).
  - exact player_move_sound.
  - exact handleQUIT_sound.
  - exact handlePlay_sound.
  - exact handleSPECTATE_sound.
  - exact setup_sound.
Qed.

Lemma reachable_conserved w : reachable w -> conserved (GAME w).
Proof.
  apply (reachable_keeps conserved).
  - exact player_move_conserved.
  - exact handleQUIT_conserved.
  - exact handlePlay_conserved.
  - exact handleSPECTATE_conserved.
  - exact setup_conserved.
Qed.

(** A handler answers true only when the count of piles is zero. *)
Lemma handleMessage_true fuel from message w w' :
  handleMessage fuel from message w = Some (true, w') ->
  GoldNumPilesLeft (GAME w') = 0.
Proof.
  unfold handleMessage.
  destruct (starts_with "PLAY " message);
    [intros H; apply handlePlay_shape in H as [E _]; discriminate|].
  destruct (starts_with "SPECTATE" message);
    [intros H; apply handleSPECTATE_shape in H as [E _]; discriminate|].
  destruct (starts_with "KEY " message); [|discriminate].
  unfold handleKEY. destruct (ch_eqb (first_char (skip 4 message)) "Q").
  - unfold bind. destruct (handleQUIT from w) as [[s w1]|]; discriminate.
  - unfold bind at 1, get_game at 1.
    destruct (find_player from 0 (players (GAME w)) None) as [pi|]; [|discriminate].
    destruct (players (GAME w) !! pi) as [player|]; [|discriminate].
    unfold bind at 1.
    set (act := match key_action_of (first_char (skip 4 message)) with
                | Step dr dc => _ | Run dr dc => _ | Unknown => _ end).
    destruct (act w) as [[[] w1]|]; [|discriminate].
    unfold bind, get_game, ret. intros E. inversion E; subst.
    apply Z.eqb_eq. assumption.
Qed.

(** * Further properties of the server *)

(** The game [server_drop_gold] leaves on a loaded map, whenever it
    returns. *)
Lemma server_drop_gold_state (m : grid_t) (ds : list N) (w : world) :
  valid_map m = true ->
  server_drop_gold (World (loaded m) ds []) = Some (tt, w) ->
  10 <= GoldNumPilesLeft (GAME w) <= 29 /\
  goldLeft (GAME w) = 250 /\ goldCollected (GAME w) = 0 /\
  rawGrid (GAME w) = m /\ players (GAME w) = [] /\
  piles_on (masterGrid (GAME w)) = GoldNumPilesLeft (GAME w) /\
  forall r c,
    grid_getchar (masterGrid (GAME w)) r c = grid_getchar m r c \/
    (grid_getchar m r c = "."%char /\
     grid_getchar (masterGrid (GAME w)) r c = "*"%char).
Proof.
  intros Hm Hs. apply server_drop_gold_floor in Hs as (n & master & Hn & -> & Hw).
  pose proof Hm as Hm'. unfold valid_map in Hm'. apply andb_true_iff in Hm' as [Hwf _].
  apply grid_wfb_wf in Hwf. destruct (Hw Hwf) as (Hwm & Hpiles & Hkeep).
  rewrite (piles_on_bare m) in Hpiles by (intros; apply valid_map_no_gold; exact Hm).
  unfold GoldMaxNumPiles, GoldMinNumPiles in *. simpl.
  split; [lia|]. split; [reflexivity|]. split; [reflexivity|].
  split; [reflexivity|]. split; [reflexivity|]. split; [exact Hpiles|exact Hkeep].
Qed.

(** X9.  The count of piles is the number of piles on the master grid.  In
    every state of the server GoldNumPilesLeft is the number of cells of the
    master grid that show gold; it is not negative and not more than
    goldLeft, and it is zero exactly when goldLeft is. *)
Theorem piles_counted (w : world) :
  reachable w ->
  piles_on (masterGrid (GAME w)) = GoldNumPilesLeft (GAME w) /\
  0 <= GoldNumPilesLeft (GAME w) <= goldLeft (GAME w) /\
  (GoldNumPilesLeft (GAME w) = 0 <-> goldLeft (GAME w) = 0).
Proof.
  intros Hr. destruct (reachable_in_order w Hr) as (_ & Hp & Hle & H0).
  pose proof (tally_nonneg (fun rc => grid_isGold (masterGrid (GAME w)) rc.1 rc.2)
                (cells (grid_nrow (masterGrid (GAME w))) (grid_ncol (masterGrid (GAME w)))))
    as Hnn.
  fold (piles_on (masterGrid (GAME w))) in Hnn.
  split; [exact Hp|]. split; [lia|]. split; [exact H0|lia].
Qed.

Lemma piles_counted_witness :
  let w := demo_world [(alice, "PLAY alice"); (bob, "PLAY bob"); (alice, "KEY J")]%string in
  reachable w /\
  GoldNumPilesLeft (GAME w) = 8 /\
  piles_on (masterGrid (GAME w)) = GoldNumPilesLeft (GAME w).
Proof.
  intros w.
  assert (Hr : reachable w).
  { apply (demo_reachable
             [(alice, "PLAY alice"); (bob, "PLAY bob"); (alice, "KEY J")]%string).
    vm_compute. reflexivity. }
  split; [exact Hr|]. split; [vm_compute; reflexivity|].
  exact (proj1 (piles_counted w Hr)).
Defined.

(** X10.  The master grid is the raw grid with gold and letters on it.  In
    every state of the server the raw grid shows neither gold nor a player;
    a cell of the master grid shows the raw character, a pile or a letter;
    and no player of the table stands on a cell that shows gold. *)
Theorem master_is_raw_overlaid (w : world) :
  reachable w ->
  (forall r c, grid_isGold (rawGrid (GAME w)) r c = false /\
               grid_isPlayer (rawGrid (GAME w)) r c = false) /\
  (forall r c,
     grid_getchar (masterGrid (GAME w)) r c = grid_getchar (rawGrid (GAME w)) r c \/
     grid_getchar (masterGrid (GAME w)) r c = "*"%char \/
     isalpha (grid_getchar (masterGrid (GAME w)) r c) = true) /\
  (forall i p, players (GAME w) !! i = Some p ->
     grid_getchar (masterGrid (GAME w)) (row p) (col p) <> "*"%char).
Proof.
  intros Hr. destruct (reachable_in_order w Hr) as ((_ & _ & Hraw & Hng & Hov) & _).
  split; [exact Hraw|]. split.
  - intros r c. destruct (Hov r c) as [E|[E|E]]; [left; exact E| |right; right; exact E].
    right. left. apply ch_eqb_eq. exact E.
  - intros i p Hp E. specialize (Hng i p Hp). unfold grid_isGold in Hng.
    rewrite E in Hng. discriminate.
Qed.

Lemma master_is_raw_overlaid_witness :
  let w := demo_world [(alice, "PLAY alice"); (bob, "PLAY bob"); (alice, "KEY Q")]%string in
  reachable w /\
  grid_getchar (masterGrid (GAME w)) 1 1 = grid_getchar (rawGrid (GAME w)) 1 1 /\
  (grid_getchar (masterGrid (GAME w)) 1 2 = grid_getchar (rawGrid (GAME w)) 1 2 \/
   grid_getchar (masterGrid (GAME w)) 1 2 = "*"%char \/
   isalpha (grid_getchar (masterGrid (GAME w)) 1 2) = true).
Proof.
  intros w.
  assert (Hr : reachable w).
  { apply (demo_reachable
             [(alice, "PLAY alice"); (bob, "PLAY bob"); (alice, "KEY Q")]%string).
    vm_compute. reflexivity. }
  split; [exact Hr|]. split; [vm_compute; reflexivity|].
  destruct (master_is_raw_overlaid w Hr) as (_ & H & _). exact (H 1 2).
Defined.

(** X11.  The game is over when all the gold is collected.  When a handler
    answers true, which ends the message loop, no nugget is left: goldLeft is
    0, the 250 nuggets are collected and in the purses, and no cell of the
    master grid shows gold. *)
Theorem game_over_all_gold (fuel : nat) (from : addr_t) (message : string)
    (w w' : world) :
  reachable w ->
  handleMessage fuel from message w = Some (true, w') ->
  goldLeft (GAME w') = 0 /\ goldCollected (GAME w') = 250 /\
  sum_purses (players (GAME w')) = 250 /\
  forall r c, grid_isGold (masterGrid (GAME w')) r c = false.
Proof.
  intros Hr Hm. pose proof (handleMessage_true _ _ _ _ _ Hm) as H0.
  pose proof (reach_message _ _ _ _ _ _ Hr Hm) as Hr'.
  destruct (reachable_in_order w' Hr') as (_ & Hp & _ & HL).
  destruct (reachable_conserved w' Hr') as [Hsum Hcol]. unfold GoldTotal in *.
  specialize (HL H0). split; [exact HL|]. split; [lia|]. split; [lia|].
  intros r c. apply piles_on_none. rewrite Hp. exact H0.
Qed.

Lemma game_over_all_gold_witness :
  exists w', handleMessage 10 alice "KEY H" endgame_world = Some (true, w') /\
    goldLeft (GAME w') = 0 /\ sum_purses (players (GAME w')) = 250.
Proof.
  assert (E : exists w', handleMessage 10 alice "KEY H" endgame_world = Some (true, w'))
    by (vm_compute; eexists; reflexivity).
  destruct E as (w' & E). exists w'. split; [exact E|].
  destruct (game_over_all_gold 10 alice "KEY H" endgame_world w' endgame_reachable E)
    as (HL & _ & Hs & _).
  split; [exact HL|exact Hs].
Defined.

Lemma handleKEY_stop fuel from key w stop w' pi :
  ch_eqb (first_char key) "Q" = false ->
  find_player from 0 (players (GAME w)) None = Some pi ->
  handleKEY fuel from key w = Some (stop, w') ->
  stop = (GoldNumPilesLeft (GAME w') =? 0).
Proof.
  intros HQ Hf. unfold handleKEY. rewrite HQ.
  unfold bind at 1, get_game at 1. rewrite Hf.
  destruct (players (GAME w) !! pi) as [player|]; [|discriminate].
  unfold bind at 1.
  set (act := match key_action_of (first_char key) with
              | Step dr dc => _ | Run dr dc => _ | Unknown => _ end).
  destruct (act w) as [[[] w1]|]; [|discriminate].
  unfold bind, get_game, ret. intros E. inversion E; subst. reflexivity.
Qed.

(** X12.  What a key answers.  For a key other than Q from a player of the
    table, [handleKEY] answers true, which ends the game, exactly when the
    key has left no gold: goldLeft is 0 after it. *)
Theorem handleKEY_answer (fuel : nat) (from : addr_t) (key : string)
    (w w' : world) (stop : bool) (pi : nat) :
  reachable w ->
  ch_eqb (first_char key) "Q" = false ->
  find_player from 0 (players (GAME w)) None = Some pi ->
  handleKEY fuel from key w = Some (stop, w') ->
  stop = (goldLeft (GAME w') =? 0).
Proof.
  intros Hr HQ Hf Hk. rewrite (handleKEY_stop _ _ _ _ _ _ _ HQ Hf Hk).
  pose proof (handleKEY_moves_keep in_order player_move_in_order _ _ _ _ _ _ HQ
                (reachable_in_order w Hr) Hk) as (_ & Hp & Hle & H0).
  pose proof (tally_nonneg (fun rc => grid_isGold (masterGrid (GAME w')) rc.1 rc.2)
                (cells (grid_nrow (masterGrid (GAME w'))) (grid_ncol (masterGrid (GAME w')))))
    as Hnn.
  fold (piles_on (masterGrid (GAME w'))) in Hnn.
  destruct (Z.eqb_spec (GoldNumPilesLeft (GAME w')) 0) as [E|E];
    destruct (Z.eqb_spec (goldLeft (GAME w')) 0) as [E'|E']; try reflexivity; lia.
Qed.

Lemma handleKEY_answer_witness :
  let w := demo_world [(alice, "PLAY alice"); (bob, "PLAY bob")]%string in
  exists w', handleKEY 10 alice "j" w = Some (false, w') /\
             (goldLeft (GAME w') =? 0) = false.
Proof.
  intros w.
  assert (Hr : reachable w).
  { apply (demo_reachable [(alice, "PLAY alice"); (bob, "PLAY bob")]%string).
    vm_compute. reflexivity. }
  assert (E : exists w', handleKEY 10 alice "j" w = Some (false, w'))
    by (vm_compute; eexists; reflexivity).
  destruct E as (w' & E). exists w'. split; [exact E|]. symmetry.
  apply (handleKEY_answer 10 alice "j" w w' false 0 Hr);
    [reflexivity|vm_compute; reflexivity|exact E].
Defined.

Lemma find_player_none from ps :
  Forall (fun p => message_eqAddr from (IP p) = false) ps ->
  forall i found, find_player from i ps found = found.
Proof.
  induction 1 as [|p ps Hp _ IH]; intros i found; simpl; [reflexivity|].
  rewrite Hp. apply IH.
Qed.

(** X13.  A key from a stranger.  A key other than Q from an address that no
    entry of the table has is ignored: the world stays as it is, nothing is
    sent, and the answer is false even when no gold is left. *)
Theorem handleKEY_stranger (fuel : nat) (from : addr_t) (key : string) (w : world) :
  ch_eqb (first_char key) "Q" = false ->
  Forall (fun p => message_eqAddr from (IP p) = false) (players (GAME w)) ->
  handleKEY fuel from key w = Some (false, w).
Proof.
  intros HQ Hnone. unfold handleKEY. rewrite HQ.
  unfold bind, get_game. rewrite (find_player_none _ _ Hnone). reflexivity.
Qed.

Lemma handleKEY_stranger_witness :
  let w := demo_world [(alice, "PLAY alice")]%string in
  handleKEY 10 bob "j" w = Some (false, w).
Proof.
  intros w. apply (handleKEY_stranger 10 bob "j" w); [reflexivity|].
  vm_compute. repeat constructor.
Defined.

Lemma find_player_snoc from ps p :
  forall i found,
    find_player from i (ps ++ [p]) found =
    if message_eqAddr from (IP p) then Some (i + length ps)%nat
    else find_player from i ps found.
Proof.
  induction ps as [|q ps IH]; intros i found; simpl.
  - rewrite Nat.add_0_r. reflexivity.
  - rewrite IH. replace (S i + length ps)%nat with (i + S (length ps))%nat by lia.
    reflexivity.
Qed.

(** X14.  Whose key it is.  The loop of [handleKEY] over the table finds the
    last entry that has the sender's address: an address that has joined
    twice moves the player of its later PLAY. *)
Theorem find_player_last (from : addr_t) (ps : list player_t) (pi : nat) :
  find_player from 0 ps None = Some pi <->
  exists p, ps !! pi = Some p /\ message_eqAddr from (IP p) = true /\
    forall j q, (pi < j)%nat -> ps !! j = Some q -> message_eqAddr from (IP q) = false.
Proof.
  induction ps as [|p ps IH] using rev_ind.
  - simpl. split; [discriminate|]. intros (p & Hp & _). discriminate.
  - rewrite find_player_snoc. simpl.
    destruct (message_eqAddr from (IP p)) eqn:Hm.
    + split.
      * intros E. inversion E; subst; clear E. exists p.
        split; [apply list_lookup_middle; reflexivity|]. split; [exact Hm|].
        intros j q Hj Hq. apply lookup_lt_Some in Hq.
        rewrite length_app in Hq. simpl in Hq. lia.
      * intros (p0 & Hp0 & _ & Hlast).
        destruct (decide (pi = length ps)) as [->|Hne]; [reflexivity|].
        pose proof (lookup_lt_Some _ _ _ Hp0) as Hlt.
        rewrite length_app in Hlt. simpl in Hlt.
        assert (Hp : (ps ++ [p]) !! length ps = Some p)
          by (apply list_lookup_middle; reflexivity).
        rewrite (Hlast (length ps) p ltac:(lia) Hp) in Hm. discriminate.
    + rewrite IH. split.
      * intros (p0 & Hp0 & Hm0 & Hlast). exists p0.
        split; [apply lookup_app_l_Some; exact Hp0|]. split; [exact Hm0|].
        intros j q Hj Hq. apply lookup_app_Some in Hq as [Hq|[Hge Hq]];
          [apply (Hlast j q Hj Hq)|].
        destruct (j - length ps)%nat; simpl in Hq; [|discriminate].
        inversion Hq; subst. exact Hm.
      * intros (p0 & Hp0 & Hm0 & Hlast).
        apply lookup_app_Some in Hp0 as [Hp0|[Hge Hp0]].
        -- exists p0. split; [exact Hp0|]. split; [exact Hm0|].
           intros j q Hj Hq. apply (Hlast j q Hj). apply lookup_app_l_Some. exact Hq.
        -- destruct (pi - length ps)%nat; simpl in Hp0; [|discriminate].
           inversion Hp0; subst. congruence.
Qed.

Lemma find_player_last_witness :
  let twice := [Player alice "a" "A" 0 0 1 1 demo_map;
                Player bob "b" "B" 0 0 1 2 demo_map;
                Player alice "c" "C" 0 0 1 3 demo_map]%string in
  find_player alice 0 twice None = Some 2%nat.
Proof.
  intros twice. apply (find_player_last alice twice 2).
  eexists. split; [reflexivity|]. split; [reflexivity|].
  intros j q Hj Hq. apply lookup_lt_Some in Hq. simpl in Hq. lia.
Defined.

(** X15.  What a quit does to the game.  [handleQUIT] always returns false and
    uses no draw; a cell of the master grid on which an entry of the table
    with the address stands gets the raw character back, and every other cell,
    both grids' sizes, the gold counts and the table's identities, purses
    and positions stay as they were: the quitter keeps its entry. *)
Theorem handleQUIT_cells (ip : addr_t) (w : world) :
  grid_wf (masterGrid (GAME w)) ->
  exists w',
    handleQUIT ip w = Some (false, w') /\ draws w' = draws w /\
    (forall r c,
       grid_getchar (masterGrid (GAME w')) r c =
       if existsb (quits_at ip (masterGrid (GAME w)) r c) (players (GAME w))
       then grid_getchar (rawGrid (GAME w)) r c
       else grid_getchar (masterGrid (GAME w)) r c) /\
    rawGrid (GAME w') = rawGrid (GAME w) /\
    GoldNumPilesLeft (GAME w') = GoldNumPilesLeft (GAME w) /\
    goldLeft (GAME w') = goldLeft (GAME w) /\
    (fun p => (identity p, gold p, row p, col p)) <$> players (GAME w') =
    (fun p => (identity p, gold p, row p, col p)) <$> players (GAME w).
Proof.
  intros Hw. destruct (handleQUIT_game ip w) as (out & E).
  eexists. split; [exact E|]. cbn [GAME draws]. split; [reflexivity|].
  destruct (quit_grid_cells ip (rawGrid (GAME w)) (masterGrid (GAME w))
              (players (GAME w)) (masterGrid (GAME w)) Hw eq_refl eq_refl)
    as (_ & _ & _ & Hcells).
  split; [exact Hcells|]. split; [reflexivity|]. split; [reflexivity|].
  split; [reflexivity|].
  unfold told. simpl. rewrite <- list_fmap_compose. apply list_fmap_ext.
  intros i p _. reflexivity.
Qed.

Lemma handleQUIT_cells_witness :
  let w := demo_world [(alice, "PLAY alice"); (bob, "PLAY bob")]%string in
  exists w',
    handleQUIT alice w = Some (false, w') /\
    grid_getchar (masterGrid (GAME w)) 1 1 = "A"%char /\
    grid_getchar (masterGrid (GAME w')) 1 1 = "."%char /\
    grid_getchar (masterGrid (GAME w')) 1 2 = "B"%char.
Proof.
  intros w.
  assert (Hw : grid_wf (masterGrid (GAME w))) by (apply grid_wfb_wf; vm_compute; reflexivity).
  destruct (handleQUIT_cells alice w Hw) as (w' & E & _ & Hcells & _).
  exists w'. split; [exact E|]. split; [vm_compute; reflexivity|].
  rewrite !Hcells. split; vm_compute; reflexivity.
Defined.

(** X16.  A blank name.  While the table is not full, a PLAY message whose
    name is empty or of white space only is answered with "QUIT Sorry: you
    must provide player's name." and nothing else happens: nobody joins and
    no draw is used. *)
Theorem blank_name_refused (fuel : nat) (from : addr_t) (name : string) (w : world) :
  numPlayer (GAME w) <> MaxPlayers ->
  helper_nameIsEmpty name = true ->
  handleMessage fuel from ("PLAY " ++ name) w =
  Some (false,
        World (GAME w) (draws w)
              (sent w ++ [(from, "QUIT Sorry: you must provide player's name."%string)])).
Proof.
  intros Hfull Hblank. unfold handleMessage.
  change (starts_with "PLAY " ("PLAY " ++ name)) with true.
  change (skip 5 ("PLAY " ++ name)) with name. cbv iota.
  unfold handlePlay, bind at 1, get_game at 1.
  destruct (Z.eqb_spec (numPlayer (GAME w)) MaxPlayers) as [E|_]; [contradiction|].
  rewrite Hblank. reflexivity.
Qed.

Lemma blank_name_refused_witness :
  let w := demo_world [(alice, "PLAY alice")]%string in
  handleMessage 0 bob "PLAY   " w =
  Some (false,
        World (GAME w) (draws w)
              (sent w ++ [(bob, "QUIT Sorry: you must provide player's name."%string)])).
Proof.
  intros w. apply (blank_name_refused 0 bob "  " w); [|reflexivity].
  vm_compute. discriminate.
Defined.

(** [handlePlay] when it lets the player in. *)
Lemma handlePlay_joined from name w stop w' :
  numPlayer (GAME w) <> MaxPlayers ->
  helper_nameIsEmpty name = false ->
  handlePlay from name w = Some (stop, w') ->
  stop = false /\
  exists r c seen out,
    grid_isEmptyRoomSpot (masterGrid (GAME w)) r c = true /\
    grid_new (GridRow (GAME w)) (GridCol (GAME w)) = Some seen /\
    GAME w' = told (joined (GAME w) from name r c seen) /\
    sent w' = sent w ++
      [(from, ("OK " ++ string_of_char (alias_of (numPlayer (GAME w))))%string);
       (from, ("GRID " ++ string_of_Z (GridRow (GAME w)) ++ " " ++
               string_of_Z (GridCol (GAME w)))%string)] ++ out.
Proof.
  intros Hfull Hname. unfold handlePlay, bind at 1, get_game at 1.
  destruct (Z.eqb_spec (numPlayer (GAME w)) MaxPlayers) as [E|_]; [contradiction|].
  rewrite Hname. unfold bind at 1, server_drop_player.
  destruct (random_spot w) as [[[r c] w1]|] eqn:Hspot; [|discriminate].
  apply random_spot_spec in Hspot as (Hg1 & Hs1 & Hfree).
  destruct (grid_new (GridRow (GAME w)) (GridCol (GAME w))) as [seen|]; [|discriminate].
  unfold bind at 1, put_game at 1. unfold bind at 1, message_send at 1.
  unfold bind at 1, message_send at 1. rewrite bind_broadcast. unfold ret.
  intros E. inversion E; subst; clear E. split; [reflexivity|].
  exists r, c, seen. eexists. split; [exact Hfree|]. split; [reflexivity|].
  split; [reflexivity|]. cbn [sent GAME]. rewrite Hs1, <- !app_assoc. reflexivity.
Qed.


(** X18.  Changing places.  A step onto the cell of another player of the
    table is not refused: the two entries exchange their positions and the
    two cells their letters.  No draw is used, and the purses and the gold
    counts stay as they were. *)
Theorem player_move_swaps (pi : nat) (nr nc : Z) (w : world)
    (p : player_t) (i : nat) (q : player_t) :
  grid_wf (masterGrid (GAME w)) ->
  players (GAME w) !! pi = Some p ->
  in_grid (masterGrid (GAME w)) (row p) (col p) = true ->
  grid_canMoveTo (masterGrid (GAME w)) nr nc = true ->
  grid_isPlayer (masterGrid (GAME w)) nr nc = true ->
  list_find (fun q => row q = nr /\ col q = nc) (players (GAME w)) = Some (i, q) ->
  i <> pi ->
  row p <> nr \/ col p <> nc ->
  exists w' p' q',
    player_move pi nr nc w = Some (false, w') /\ draws w' = draws w /\
    players (GAME w') !! pi = Some p' /\ row p' = nr /\ col p' = nc /\
    players (GAME w') !! i = Some q' /\ row q' = row p /\ col q' = col p /\
    identity p' = identity p /\ gold p' = gold p /\
    identity q' = identity q /\ gold q' = gold q /\
    grid_getchar (masterGrid (GAME w')) nr nc = alias p /\
    grid_getchar (masterGrid (GAME w')) (row p) (col p) = alias q /\
    GoldNumPilesLeft (GAME w') = GoldNumPilesLeft (GAME w) /\
    goldLeft (GAME w') = goldLeft (GAME w).
Proof.
  intros Hw Hp Hin Hmove Hpl Hfind Hne Hcells.
  pose proof Hfind as Hfind'. apply list_find_Some in Hfind' as (Hq & _ & _).
  pose proof (grid_canMoveTo_inside _ _ _ Hmove) as Hin'.
  unfold player_move, bind at 1, get_game at 1. rewrite Hp, Hmove, Hpl, Hfind.
  unfold bind at 1, put_game at 1. rewrite bind_broadcast. unfold ret.
  set (g1 := with_master _ _).
  exists (World (told g1) (draws w)
            (sent w ++ spectator_messages g1 ++ flat_map (client_messages g1) (players g1))),
         (update_client g1 (set_pos nr nc p)),
         (update_client g1 (set_pos (row p) (col p) q)).
  split; [reflexivity|]. split; [reflexivity|]. cbn [GAME].
  set (m1 := grid_update (masterGrid (GAME w)) (row p) (col p) (alias q)).
  assert (Hw1 : grid_wf m1) by (apply grid_wf_update; exact Hw).
  assert (Hin1 : in_grid m1 nr nc = true)
    by (unfold m1; rewrite in_grid_update; exact Hin').
  split.
  { unfold told, g1. cbn [players with_players with_master].
    rewrite list_lookup_fmap, list_lookup_alter_eq, list_lookup_alter_ne, Hp by exact Hne.
    reflexivity. }
  split; [reflexivity|]. split; [reflexivity|]. split.
  { unfold told, g1. cbn [players with_players with_master].
    rewrite list_lookup_fmap, list_lookup_alter_ne, list_lookup_alter_eq, Hq
      by (intros E; apply Hne; symmetry; exact E).
    reflexivity. }
  split; [reflexivity|]. split; [reflexivity|]. split; [reflexivity|].
  split; [reflexivity|]. split; [reflexivity|]. split; [reflexivity|].
  unfold told, g1. cbn [masterGrid with_players with_master GoldNumPilesLeft goldLeft].
  fold m1. split; [apply grid_getchar_update_same; assumption|].
  split; [|split; reflexivity].
  rewrite grid_getchar_update by exact Hw1.
  assert (E : in_grid m1 nr nc && (nr =? row p) && (nc =? col p) = false).
  { rewrite Hin1. simpl.
    destruct (Z.eqb_spec nr (row p)) as [Er|]; [|reflexivity].
    destruct (Z.eqb_spec nc (col p)) as [Ec|]; [|reflexivity].
    exfalso. destruct Hcells as [H|H]; apply H; symmetry; assumption. }
  rewrite E. apply grid_getchar_update_same; assumption.
Qed.

Lemma player_move_swaps_witness :
  let w := demo_world [(alice, "PLAY alice"); (bob, "PLAY bob")]%string in
  exists w' p' q',
    player_move 0 1 2 w = Some (false, w') /\
    players (GAME w') !! 0%nat = Some p' /\ row p' = 1 /\ col p' = 2 /\
    players (GAME w') !! 1%nat = Some q' /\ row q' = 1 /\ col q' = 1 /\
    grid_getchar (masterGrid (GAME w')) 1 2 = "A"%char /\
    grid_getchar (masterGrid (GAME w')) 1 1 = "B"%char.
Proof.
  intros w.
  assert (Hw : grid_wf (masterGrid (GAME w))) by (apply grid_wfb_wf; vm_compute; reflexivity).
  assert (Hp : exists p q,
    players (GAME w) !! 0%nat = Some p /\ row p = 1 /\ col p = 1 /\ alias p = "A"%char /\
    list_find (fun q => row q = 1 /\ col q = 2) (players (GAME w)) = Some (1%nat, q) /\
    alias q = "B"%char)
    by (vm_compute; eexists _, _; repeat split; reflexivity).
  destruct Hp as (p & q & Hp & Hr & Hc & Ha & Hq & Hb).
  destruct (player_move_swaps 0 1 2 w p 1 q Hw Hp) as (w' & p' & q' & H);
    [rewrite Hr, Hc; vm_compute; reflexivity|vm_compute; reflexivity|
     vm_compute; reflexivity|exact Hq|lia|right; lia|].
  destruct H as (E & _ & Hp' & Hr' & Hc' & Hq' & Hqr & Hqc & _ & _ & _ & _ & Hg1 & Hg2 & _).
  rewrite Hr, Hc in *. rewrite Ha in Hg1. rewrite Hb in Hg2.
  exists w', p', q'. repeat split; assumption.
Defined.

(** ** Nothing comes back *)

Lemma kept_refl ps : kept ps ps.
Proof. intros i p Hp. exists p. split; [exact Hp|]. split; [reflexivity|lia]. Qed.

Lemma kept_trans ps1 ps2 ps3 : kept ps1 ps2 -> kept ps2 ps3 -> kept ps1 ps3.
Proof.
  intros H12 H23 i p Hp. destruct (H12 i p Hp) as (p2 & Hp2 & Hi2 & Hg2).
  destruct (H23 i p2 Hp2) as (p3 & Hp3 & Hi3 & Hg3).
  exists p3. split; [exact Hp3|]. split; [congruence|lia].
Qed.

Lemma kept_fmap (f : player_t -> player_t) ps :
  (forall p, identity (f p) = identity p /\ gold p <= gold (f p)) -> kept ps (f <$> ps).
Proof.
  intros Hf i p Hp. exists (f p). rewrite list_lookup_fmap, Hp.
  split; [reflexivity|]. apply Hf.
Qed.

Lemma kept_alter (f : player_t -> player_t) k ps :
  (forall p, identity (f p) = identity p /\ gold p <= gold (f p)) ->
  kept ps (alter f k ps).
Proof.
  intros Hf i p Hp. rewrite list_lookup_alter.
  destruct (decide (k = i)) as [->|_]; rewrite Hp.
  - exists (f p). split; [reflexivity|]. apply Hf.
  - exists p. split; [reflexivity|]. split; [reflexivity|lia].
Qed.

Lemma kept_app ps more : kept ps (ps ++ more).
Proof.
  intros i p Hp. exists p. split; [apply lookup_app_l_Some; exact Hp|].
  split; [reflexivity|lia].
Qed.

Lemma kept_set_pos r c k ps : kept ps (alter (set_pos r c) k ps).
Proof. apply kept_alter. intros p. split; [reflexivity|]. simpl. lia. Qed.

Lemma kept_told g ps : kept ps (players g) -> kept ps (players (told g)).
Proof.
  intros H. apply (kept_trans _ _ _ H). unfold told. simpl.
  apply kept_fmap. intros p. split; [reflexivity|]. simpl. lia.
Qed.

Lemma later_refl g : later g g.
Proof.
  split; [reflexivity|]. split; [lia|]. split; [lia|]. split; [lia|apply kept_refl].
Qed.

Lemma later_trans g1 g2 g3 : later g1 g2 -> later g2 g3 -> later g1 g3.
Proof.
  intros (Hr & Hp & Hl & Hc & Hk) (Hr' & Hp' & Hl' & Hc' & Hk').
  split; [congruence|]. split; [lia|]. split; [lia|]. split; [lia|].
  apply (kept_trans _ _ _ Hk Hk').
Qed.

(** A pile gives at least one nugget. *)
Lemma amount_positive g ds ds' n r c :
  in_order g -> grid_isGold (masterGrid g) r c = true ->
  amount_ok g ds ds' n -> 1 <= n.
Proof.
  intros (_ & Hpiles & Hle & _) Hgold Hn.
  pose proof (piles_on_found _ _ _ Hgold) as Hone.
  destruct (amount_ok_range _ _ _ _ Hle Hn) as (H1 & H2 & _).
  destruct (Z.eq_dec (GoldNumPilesLeft g) 1) as [E|E].
  - rewrite (H1 E). lia.
  - specialize (H2 E). lia.
Qed.

Lemma player_move_later pi nr nc w stop w' :
  sound (GAME w) -> player_move pi nr nc w = Some (stop, w') ->
  later (GAME w) (GAME w').
Proof.
  intros [Ho _] Hm.
  apply player_move_cases in Hm
    as (p & Hp & [(_ & -> & _)|(_ & Hmove &
          [(-> & _)|[(Hpl & i & q & Hfind & ->)|
           [(Hpl & Hgold & n & -> & Hn)|(Hpl & Hgold & ->)]]])]).
  - apply later_refl.
  - apply later_refl.
  - split; [reflexivity|]. split; [simpl; lia|]. split; [simpl; lia|].
    split; [simpl; lia|]. apply kept_told. unfold swapped. simpl.
    eapply kept_trans; [apply (kept_set_pos (row p) (col p) i)|apply kept_set_pos].
  - pose proof (amount_positive _ _ _ _ _ _ Ho Hgold Hn) as Hpos.
    split; [reflexivity|]. split; [simpl; lia|]. split; [simpl; lia|].
    split; [simpl; lia|]. apply kept_told. unfold picked, moved. simpl.
    eapply kept_trans; [apply (kept_set_pos nr nc pi)|].
    apply kept_alter. intros x. split; [reflexivity|]. simpl. lia.
  - split; [reflexivity|]. split; [simpl; lia|]. split; [simpl; lia|].
    split; [simpl; lia|]. apply kept_told. unfold moved. simpl. apply kept_set_pos.
Qed.

Lemma handleQUIT_later ip w stop w' :
  handleQUIT ip w = Some (stop, w') -> later (GAME w) (GAME w').
Proof.
  intros Hq. destruct (handleQUIT_game ip w) as (out & E). rewrite E in Hq.
  inversion Hq; subst; clear Hq. cbn [GAME].
  split; [reflexivity|]. split; [simpl; lia|]. split; [simpl; lia|].
  split; [simpl; lia|]. apply kept_told. simpl. apply kept_refl.
Qed.

Lemma handlePlay_later from name w stop w' :
  handlePlay from name w = Some (stop, w') -> later (GAME w) (GAME w').
Proof.
  intros Hp. apply handlePlay_shape in Hp
    as (_ & [->|(r & c & seen & Hfull & Hfree & ->)]); [apply later_refl|].
  split; [reflexivity|]. split; [simpl; lia|]. split; [simpl; lia|].
  split; [simpl; lia|]. apply kept_told. unfold joined. simpl. apply kept_app.
Qed.

Lemma handleSPECTATE_later from w stop w' :
  handleSPECTATE from w = Some (stop, w') -> later (GAME w) (GAME w').
Proof.
  intros Hp. apply handleSPECTATE_shape in Hp as (_ & ->).
  split; [reflexivity|]. split; [simpl; lia|]. split; [simpl; lia|].
  split; [simpl; lia|]. apply kept_told. simpl. apply kept_refl.
Qed.

(** X19.  Nothing comes back.  Whatever message the server handles, the map
    stays, every entry of the table stays in its slot with its address,
    name and letter, no purse shrinks, the counts of piles and of gold left
    do not grow and the count of gold collected does not shrink. *)
Theorem handleMessage_later (fuel : nat) (from : addr_t) (message : string)
    (w w' : world) (stop : bool) :
  reachable w ->
  handleMessage fuel from message w = Some (stop, w') ->
  later (GAME w) (GAME w').
Proof.
  intros Hr Hm.
  apply (handleMessage_keeps (fun g => sound g /\ later (GAME w) g)) in Hm.
  - apply Hm.
  - intros pi nr nc w1 s w2 [Hs Hl] H. split; [apply (player_move_sound _ _ _ _ _ _ Hs H)|].
    apply (later_trans _ _ _ Hl), (player_move_later _ _ _ _ _ _ Hs H).
  - intros ip w1 s w2 [Hs Hl] H. split; [apply (handleQUIT_sound _ _ _ _ Hs H)|].
    apply (later_trans _ _ _ Hl), (handleQUIT_later _ _ _ _ H).
  - intros a name w1 s w2 [Hs Hl] H. split; [apply (handlePlay_sound _ _ _ _ _ Hs H)|].
    apply (later_trans _ _ _ Hl), (handlePlay_later _ _ _ _ _ H).
  - intros a w1 s w2 [Hs Hl] H. split; [apply (handleSPECTATE_sound _ _ _ _ Hs H)|].
    apply (later_trans _ _ _ Hl), (handleSPECTATE_later _ _ _ _ H).
  - split; [apply reachable_sound; exact Hr|apply later_refl].
Qed.

Lemma handleMessage_later_witness :
  let w := demo_world [(alice, "PLAY alice"); (bob, "PLAY bob")]%string in
  exists w', handleMessage 10 alice "KEY J" w = Some (false, w') /\
             later (GAME w) (GAME w') /\
             List.map gold (players (GAME w')) = [16; 0].
Proof.
  intros w.
  assert (Hr : reachable w).
  { apply (demo_reachable [(alice, "PLAY alice"); (bob, "PLAY bob")]%string).
    vm_compute. reflexivity. }
  assert (E : exists w', handleMessage 10 alice "KEY J" w = Some (false, w') /\
                         List.map gold (players (GAME w')) = [16; 0])
    by (vm_compute; eexists; split; reflexivity).
  destruct E as (w' & E & Hg). exists w'. split; [exact E|].
  split; [exact (handleMessage_later 10 alice "KEY J" w w' false Hr E)|exact Hg].
Defined.

(** ** The end of the game *)

Lemma sum_purses_nonneg ps : Forall (fun p => 0 <= gold p) ps -> 0 <= sum_purses ps.
Proof. induction 1 as [|p ps Hp _ IH]; simpl; lia. Qed.

Lemma sum_purses_bound ps i p :
  Forall (fun p => 0 <= gold p) ps -> ps !! i = Some p -> gold p <= sum_purses ps.
Proof.
  intros H. revert i. induction H as [|q ps Hq Hps IH]; intros i Hp; [discriminate|].
  pose proof (sum_purses_nonneg ps Hps). destruct i as [|i]; simpl in *.
  - inversion Hp; subst. lia.
  - specialize (IH i Hp). lia.
Qed.

Lemma reachable_purse w i p :
  reachable w -> players (GAME w) !! i = Some p ->
  0 <= gold p <= goldCollected (GAME w) /\ goldCollected (GAME w) <= 250.
Proof.
  intros Hr Hp. destruct (reachable_sound w Hr) as [(_ & Hpiles & Hle & _) Hs].
  destruct (reachable_conserved w Hr) as [Hsum Hcol]. unfold GoldTotal in *.
  pose proof (sum_purses_bound _ i p Hs Hp) as Hb.
  pose proof (tally_nonneg (fun rc => grid_isGold (masterGrid (GAME w)) rc.1 rc.2)
                (cells (grid_nrow (masterGrid (GAME w))) (grid_ncol (masterGrid (GAME w)))))
    as Hnn.
  fold (piles_on (masterGrid (GAME w))) in Hnn.
  unfold solvent in Hs. rewrite Forall_lookup in Hs. specialize (Hs i p Hp).
  simpl in Hs. lia.
Qed.

(** X20.  The purses.  In every state of the server a purse holds at least
    nothing and at most the gold collected, which is at most 250. *)
Theorem purse_bounds (w : world) (i : nat) (p : player_t) :
  reachable w -> players (GAME w) !! i = Some p ->
  0 <= gold p <= goldCollected (GAME w) /\ goldCollected (GAME w) <= 250.
Proof. apply reachable_purse. Qed.

Lemma purse_bounds_witness :
  let w := demo_world [(alice, "PLAY alice"); (bob, "PLAY bob"); (alice, "KEY J")]%string in
  exists p, players (GAME w) !! 0%nat = Some p /\ gold p = 16 /\
            0 <= gold p <= goldCollected (GAME w) /\ goldCollected (GAME w) <= 250.
Proof.
  intros w.
  assert (Hr : reachable w).
  { apply (demo_reachable
             [(alice, "PLAY alice"); (bob, "PLAY bob"); (alice, "KEY J")]%string).
    vm_compute. reflexivity. }
  assert (Hp : exists p, players (GAME w) !! 0%nat = Some p /\ gold p = 16)
    by (vm_compute; eexists; split; reflexivity).
  destruct Hp as (p & Hp & Hg). exists p. split; [exact Hp|]. split; [exact Hg|].
  exact (purse_bounds w 0 p Hr Hp).
Defined.

Lemma purse_field_aligned gold :
  0 <= gold < 1000 ->
  purse_field gold = purse_column gold /\ String.length (purse_field gold) = 9%nat.
Proof.
  intros Hg.
  assert (Hall : forallb (fun n => String.eqb (purse_field n) (purse_column n) &&
                                   (String.length (purse_field n) =? 9)%nat)
                   (upto 0 1000) = true) by (vm_compute; reflexivity).
  rewrite forallb_forall in Hall. specialize (Hall gold (proj2 (in_upto 0 1000 gold) Hg)).
  apply andb_true_iff in Hall as [E L].
  split; [apply String.eqb_eq; exact E|apply Nat.eqb_eq; exact L].
Qed.

(** X21.  The purse in the score table.  For a purse below 1000 the formats
    of [game_over] print the number flushed right in six columns, followed
    by three blanks: nine characters whatever the number of digits. *)
Theorem purse_field_column (gold : Z) :
  0 <= gold < 1000 ->
  purse_field gold = purse_column gold /\ String.length (purse_field gold) = 9%nat.
Proof. apply purse_field_aligned. Qed.

Lemma purse_field_column_witness :
  purse_field 16 = "    16   "%string /\ String.length (purse_field 16) = 9%nat.
Proof. apply (purse_field_column 16). lia. Defined.

(** X22.  The score table.  In every state of the server [game_over]
    returns, having sent one message, to the spectator first if there is
    one, and then to every player of the table in turn, and nothing else.
    The message is the header and, for each entry of the table in turn, the
    letter, the purse in its column, the name and a newline. *)
Theorem game_over_table (w : world) :
  reachable w ->
  exists w',
    game_over w = Some (tt, w') /\
    sent w' =
      sent w ++
      (if message_isAddr (spectatorIP (GAME w))
       then [(spectatorIP (GAME w), game_over_message (GAME w))] else []) ++
      List.map (fun p => (IP p, game_over_message (GAME w))) (players (GAME w)) /\
    game_over_message (GAME w) =
      ("QUIT GAME OVER:" ++ String "010"
         (String.concat EmptyString
            (List.map (fun p => string_of_char (alias p) ++ purse_column (gold p) ++
                                realName p ++ String "010" EmptyString)
               (players (GAME w)))))%string.
Proof.
  intros Hr. unfold game_over, bind, get_game.
  assert (Hmsg : List.map score_line (players (GAME w)) =
                 List.map (fun p => string_of_char (alias p) ++ purse_column (gold p) ++
                                    realName p ++ String "010" EmptyString)%string
                   (players (GAME w))).
  { apply map_ext_in. intros p Hp.
    apply list_elem_of_In, list_elem_of_lookup in Hp as [i Hp].
    destruct (reachable_purse w i p Hr Hp) as [Hg Hc].
    unfold score_line. rewrite (proj1 (purse_field_aligned (gold p) ltac:(lia))).
    reflexivity. }
  destruct (message_isAddr (spectatorIP (GAME w))) eqn:Hspec.
  - unfold message_send. eexists. split; [reflexivity|]. cbn [GAME draws sent].
    split; [rewrite <- app_assoc; reflexivity|].
    unfold game_over_message. rewrite Hmsg. reflexivity.
  - unfold ret. eexists. split; [reflexivity|]. cbn [GAME draws sent].
    split; [reflexivity|].
    unfold game_over_message. rewrite Hmsg. reflexivity.
Qed.

Lemma game_over_table_witness :
  let w := demo_world [(alice, "PLAY alice"); (bob, "PLAY bob"); (alice, "KEY J")]%string in
  game_over_message (GAME w) =
    String.concat (String "010" EmptyString)
      ["QUIT GAME OVER:"; "A    16   alice"; "B     0   bob"; EmptyString]%string.
Proof.
  intros w.
  assert (Hr : reachable w).
  { apply (demo_reachable
             [(alice, "PLAY alice"); (bob, "PLAY bob"); (alice, "KEY J")]%string).
    vm_compute. reflexivity. }
  destruct (game_over_table w Hr) as (w' & _ & _ & ->).
  vm_compute. reflexivity.
Defined.

Lemma message_loop_true fuel inbox w w' :
  reachable w -> message_loop fuel inbox w = Some (true, w') ->
  reachable w' /\ GoldNumPilesLeft (GAME w') = 0.
Proof.
  revert w. induction inbox as [|[from message] rest IH]; intros w Hr Hloop.
  - discriminate.
  - simpl in Hloop. unfold bind in Hloop.
    destruct (handleMessage fuel from message w) as [[s w1]|] eqn:Hm; [|discriminate].
    pose proof (reach_message _ _ _ _ _ _ Hr Hm) as Hr1.
    destruct s.
    + unfold ret in Hloop. inversion Hloop; subst.
      split; [exact Hr1|apply (handleMessage_true _ _ _ _ _ Hm)].
    + apply (IH w1 Hr1 Hloop).
Qed.

Lemma game_over_runs w :
  exists out,
    game_over w =
    Some (tt, World (GAME w) (draws w)
                (sent w ++ out ++
                 List.map (fun p => (IP p, game_over_message (GAME w)))
                   (players (GAME w)))).
Proof.
  unfold game_over, bind, get_game.
  destruct (message_isAddr (spectatorIP (GAME w))).
  - unfold message_send. eexists. cbn [GAME draws sent].
    rewrite <- app_assoc. reflexivity.
  - unfold ret. exists []. reflexivity.
Qed.

(** X23.  The server from setup to the score table.  When the server, started
    on a loaded map, ends its message loop with the game over, no gold is
    left, the purses of the table hold the 250 nuggets, and every player of
    the table has been sent the score table of that final state. *)
Theorem serve_ends (m : grid_t) (ds : list N) (fuel : nat)
    (inbox : list (addr_t * string)) (w' : world) :
  valid_map m = true ->
  serve fuel inbox (World (loaded m) ds []) = Some (true, w') ->
  goldLeft (GAME w') = 0 /\ goldCollected (GAME w') = 250 /\
  sum_purses (players (GAME w')) = 250 /\
  forall p, In p (players (GAME w')) ->
    In (IP p, game_over_message (GAME w')) (sent w').
Proof.
  intros Hm. unfold serve, bind at 1.
  destruct (server_drop_gold _) as [[[] w0]|] eqn:Hs; [|discriminate].
  pose proof (reach_setup m ds w0 Hm Hs) as Hr0. unfold bind at 1.
  destruct (message_loop fuel inbox w0) as [[stop w1]|] eqn:Hl; [|discriminate].
  destruct stop; [|discriminate].
  destruct (message_loop_true _ _ _ _ Hr0 Hl) as [Hr1 H0].
  destruct (reachable_in_order w1 Hr1) as (_ & _ & _ & HL).
  destruct (reachable_conserved w1 Hr1) as [Hsum Hcol]. unfold GoldTotal in *.
  specialize (HL H0).
  destruct (game_over_runs w1) as (out & Hover). unfold bind. rewrite Hover.
  unfold ret. intros E. inversion E; subst; clear E. cbn [GAME sent].
  split; [exact HL|]. split; [lia|]. split; [lia|].
  intros p Hp. apply in_or_app. right. apply in_or_app. right.
  apply (in_map (fun p => (IP p, game_over_message (GAME w1)))), Hp.
Qed.

Lemma serve_ends_witness :
  exists w',
    serve 10 (endgame_inbox ++ [(alice, "KEY H"%string)])
      (World (loaded demo_map) endgame_draws []) = Some (true, w') /\
    goldLeft (GAME w') = 0 /\ sum_purses (players (GAME w')) = 250.
Proof.
  assert (E : exists w',
    serve 10 (endgame_inbox ++ [(alice, "KEY H"%string)])
      (World (loaded demo_map) endgame_draws []) = Some (true, w'))
    by (vm_compute; eexists; reflexivity).
  destruct E as (w' & E). exists w'. split; [exact E|].
  destruct (serve_ends demo_map endgame_draws 10 _ w' eq_refl E) as (HL & _ & Hs & _).
  split; [exact HL|exact Hs].
Defined.

(** ** The players' views *)

Lemma grid_new_Some nrow ncol g :
  grid_new nrow ncol = Some g ->
  grid_wf g /\ grid_nrow g = nrow /\ grid_ncol g = ncol.
Proof.
  intros H.
  assert (Hsize : (0 <= nrow <= INT_MAX) /\ (0 <= ncol <= INT_MAX) /\
                  nrow * ncol <= INT_MAX).
  { unfold grid_new in H.
    destruct (Z.ltb_spec nrow 0); [discriminate|].
    destruct (Z.ltb_spec ncol 0); [discriminate|].
    destruct (Z.ltb_spec INT_MAX nrow); [discriminate|].
    destruct (Z.ltb_spec INT_MAX ncol); [discriminate|].
    destruct (Z.ltb_spec INT_MAX (nrow * ncol)); [discriminate|]. lia. }
  destruct (grid_new_shape nrow ncol (proj1 Hsize) (proj1 (proj2 Hsize))
              (proj2 (proj2 Hsize)))
    as (g' & E & Hw & Hnr & Hnc & _).
  rewrite E in H. inversion H; subst. split; [exact Hw|]. split; reflexivity.
Qed.

Lemma inside_untold g : inside (told g) -> inside g.
Proof.
  intros H i p Hp. specialize (H i (update_client g p)).
  unfold told in H. simpl in H. rewrite list_lookup_fmap, Hp in H.
  apply (H eq_refl).
Qed.

Lemma view_sized_set_pos nr nc r c i ps :
  Forall (view_sized nr nc) ps -> Forall (view_sized nr nc) (alter (set_pos r c) i ps).
Proof. intros H. apply Forall_alter; [exact H|]. intros p _ Hp. exact Hp. Qed.

Lemma view_sized_add_gold nr nc n i ps :
  Forall (view_sized nr nc) ps -> Forall (view_sized nr nc) (alter (add_gold n) i ps).
Proof. intros H. apply Forall_alter; [exact H|]. intros p _ Hp. exact Hp. Qed.

(** After a broadcast the views are up to date. *)
Lemma told_watched g :
  board_in_order g -> inside g -> seen_ok g -> watched (told g).
Proof.
  intros Hb Hin (Hgr & Hgc & Hseen).
  pose proof Hb as (_ & _ & Hraw & _ & _).
  split; [apply board_told; exact Hb|]. split; [apply inside_told; exact Hin|].
  split.
  - split; [exact Hgr|]. split; [exact Hgc|]. unfold told. simpl.
    apply Forall_fmap. apply (Forall_impl _ _ _ Hseen). intros p (Hw & Hr & Hc).
    destruct (grid_setVisibility_getchar (masterGrid g) (rawGrid g) (seenGrid p)
                (row p) (col p) 0 0 Hw) as (Hw' & Hr' & Hc' & _).
    unfold view_sized. simpl. split; [exact Hw'|]. split; congruence.
  - intros i p' Hp' r c. unfold told in Hp'. simpl in Hp'.
    rewrite list_lookup_fmap in Hp'.
    destruct (players g !! i) as [p|] eqn:Hp; [|discriminate].
    simpl in Hp'. inversion Hp'; subst; clear Hp'.
    rewrite Forall_lookup in Hseen. destruct (Hseen i p Hp) as (Hw & Hr & Hc).
    assert (Hsame : forall a b, in_grid (seenGrid p) a b = in_grid (masterGrid g) a b).
    { intros a b. apply in_grid_same_size; congruence. }
    destruct (grid_setVisibility_getchar (masterGrid g) (rawGrid g) (seenGrid p)
                (row p) (col p) r c Hw) as (_ & _ & _ & Hget).
    rewrite !Hsame, (Hin i p Hp) in Hget.
    unfold view_ok, in_view, grid_isGold, grid_isPlayer.
    change (masterGrid (told g)) with (masterGrid g).
    cbn [row col seenGrid update_client]. rewrite Hget. cbn [andb].
    destruct ((row p =? r) && (col p =? c)); [reflexivity|].
    destruct (in_grid (masterGrid g) r c), (negb (grid_isRock (masterGrid g) r c)),
      (grid_isVisible (masterGrid g) (row p) (col p) r c); cbn [andb];
      try reflexivity;
      destruct (grid_isGold (seenGrid p) r c) eqn:G,
        (grid_isPlayer (seenGrid p) r c) eqn:P; cbn [orb];
      (split; first [exact (proj1 (Hraw r c))|exact (proj2 (Hraw r c))|exact G|exact P]).
Qed.

Lemma seen_ok_moved g pi p nr nc : seen_ok g -> seen_ok (moved g pi p nr nc).
Proof.
  intros (Hgr & Hgc & Hseen). unfold seen_ok, moved. simpl.
  rewrite !grid_nrow_update, !grid_ncol_update.
  split; [exact Hgr|]. split; [exact Hgc|]. apply view_sized_set_pos, Hseen.
Qed.

Lemma seen_ok_swapped g pi p i q nr nc : seen_ok g -> seen_ok (swapped g pi p i q nr nc).
Proof.
  intros (Hgr & Hgc & Hseen). unfold seen_ok, swapped. simpl.
  rewrite !grid_nrow_update, !grid_ncol_update.
  split; [exact Hgr|]. split; [exact Hgc|].
  apply view_sized_set_pos, view_sized_set_pos, Hseen.
Qed.

Lemma seen_ok_picked g pi n : seen_ok g -> seen_ok (picked g pi n).
Proof.
  intros (Hgr & Hgc & Hseen). unfold seen_ok, picked. simpl.
  split; [exact Hgr|]. split; [exact Hgc|]. apply view_sized_add_gold, Hseen.
Qed.

Lemma seen_ok_joined g from name r c seen :
  seen_ok g -> grid_new (GridRow g) (GridCol g) = Some seen ->
  seen_ok (joined g from name r c seen).
Proof.
  intros (Hgr & Hgc & Hseen) Hnew. unfold seen_ok, joined. simpl.
  rewrite !grid_nrow_update, !grid_ncol_update.
  split; [exact Hgr|]. split; [exact Hgc|].
  apply Forall_app. split; [exact Hseen|]. apply Forall_singleton.
  apply grid_new_Some in Hnew. exact Hnew.
Qed.

Lemma player_move_watched pi nr nc w stop w' :
  watched (GAME w) -> player_move pi nr nc w = Some (stop, w') -> watched (GAME w').
Proof.
  intros H Hm. pose proof H as (Hb & Hin & Hseen & _).
  pose proof (player_move_inside _ _ _ _ _ _ Hin Hm) as Hin'.
  apply player_move_cases in Hm
    as (p & Hp & [(_ & -> & _)|(_ & Hmove &
          [(-> & _)|[(Hpl & i & q & Hfind & E)|
           [(Hpl & Hgold & n & E & Hn)|(Hpl & Hgold & E)]]])]);
    try exact H; rewrite E in Hin' |- *; apply inside_untold in Hin';
    apply told_watched; try exact Hin'.
  - apply (board_swapped _ pi p i q nr nc Hb Hp Hmove Hpl Hfind).
  - apply seen_ok_swapped, Hseen.
  - apply board_picked, (board_moved _ pi p nr nc Hb Hp Hmove).
  - apply seen_ok_picked, seen_ok_moved, Hseen.
  - apply (board_moved _ pi p nr nc Hb Hp Hmove).
  - apply seen_ok_moved, Hseen.
Qed.

Lemma handleQUIT_watched ip w stop w' :
  watched (GAME w) -> handleQUIT ip w = Some (stop, w') -> watched (GAME w').
Proof.
  intros (Hb & Hin & (Hgr & Hgc & Hseen) & _) Hq.
  pose proof (handleQUIT_inside _ _ _ _ Hin Hq) as Hin'.
  destruct (handleQUIT_game ip w) as (out & E). rewrite E in Hq.
  inversion Hq; subst; clear Hq. cbn [GAME] in *. apply inside_untold in Hin'.
  apply told_watched; [apply (board_quit _ ip Hb)|exact Hin'|].
  destruct (quit_grid_cells ip (rawGrid (GAME w)) (masterGrid (GAME w))
              (players (GAME w)) (masterGrid (GAME w)) (proj1 Hb) eq_refl eq_refl)
    as (_ & Hr & Hc & _).
  unfold seen_ok. simpl. rewrite Hr, Hc.
  split; [exact Hgr|]. split; [exact Hgc|exact Hseen].
Qed.

(** [handlePlay] leaves the game as it was, or the game with the new
    player, whose own grid is a new grid, broadcast. *)
Lemma handlePlay_cases from name w stop w' :
  handlePlay from name w = Some (stop, w') ->
  GAME w' = GAME w \/
  exists r c seen,
    numPlayer (GAME w) <> MaxPlayers /\
    grid_isEmptyRoomSpot (masterGrid (GAME w)) r c = true /\
    grid_new (GridRow (GAME w)) (GridCol (GAME w)) = Some seen /\
    GAME w' = told (joined (GAME w) from name r c seen).
Proof.
  intros Hp.
  destruct (Z.eq_dec (numPlayer (GAME w)) MaxPlayers) as [Hfull|Hfull].
  { left. unfold handlePlay, bind, get_game in Hp.
    rewrite Hfull, Z.eqb_refl in Hp. unfold message_send, ret in Hp.
    inversion Hp; subst. reflexivity. }
  destruct (helper_nameIsEmpty name) eqn:Hname.
  { left. unfold handlePlay, bind at 1, get_game at 1 in Hp.
    destruct (Z.eqb_spec (numPlayer (GAME w)) MaxPlayers) as [E|_]; [contradiction|].
    rewrite Hname in Hp. unfold bind, message_send, ret in Hp.
    inversion Hp; subst. reflexivity. }
  right. apply handlePlay_joined in Hp
    as (_ & r & c & seen & out & Hfree & Hnew & Hg & _); try assumption.
  exists r, c, seen. repeat split; assumption.
Qed.

Lemma handlePlay_watched from name w stop w' :
  watched (GAME w) -> handlePlay from name w = Some (stop, w') -> watched (GAME w').
Proof.
  intros H Hp. pose proof H as (Hb & Hin & Hseen & _).
  pose proof (handlePlay_inside _ _ _ _ _ Hin Hp) as Hin'.
  apply handlePlay_cases in Hp as [->|(r & c & seen & Hfull & Hfree & Hnew & E)];
    [exact H|].
  rewrite E in Hin' |- *. apply inside_untold in Hin'.
  apply told_watched; [|exact Hin'|apply seen_ok_joined; assumption].
  apply (board_joined _ from name r c seen Hb Hfull Hfree).
Qed.

Lemma handleSPECTATE_watched from w stop w' :
  watched (GAME w) -> handleSPECTATE from w = Some (stop, w') -> watched (GAME w').
Proof.
  intros (Hb & Hin & Hseen & _) Hs. apply handleSPECTATE_shape in Hs as (_ & ->).
  apply told_watched; assumption.
Qed.

Lemma setup_watched m ds w :
  valid_map m = true ->
  server_drop_gold (World (loaded m) ds []) = Some (tt, w) -> watched (GAME w).
Proof.
  intros Hm Hs. split; [apply (setup_in_order _ _ _ Hm Hs)|].
  split; [apply (setup_inside _ _ _ Hm Hs)|].
  apply server_drop_gold_shape in Hs as (n & master & _ & -> & Hr & Hc & _).
  split.
  - unfold seen_ok. simpl. rewrite Hr, Hc.
    split; [reflexivity|]. split; [reflexivity|constructor].
  - intros i p Hp. simpl in Hp. rewrite lookup_nil in Hp. discriminate.
Qed.

Lemma reachable_watched w : reachable w -> watched (GAME w).
Proof.
  apply (reachable_keeps watched).
  - exact player_move_watched.
  - exact handleQUIT_watched.
  - exact handlePlay_watched.
  - exact handleSPECTATE_watched.
  - exact setup_watched.
Qed.

(** X24.  The players' views are up to date.  In every state of the server
    the grid of each player of the table shows '@' where the player stands
    and, on every other cell of the master grid that is not rock and is
    visible from there, what the master grid shows; on a cell out of view
    it shows neither gold nor a player, whatever it showed when the cell
    was last in view. *)
Theorem views_up_to_date (w : world) (i : nat) (p : player_t) (r c : Z) :
  reachable w -> players (GAME w) !! i = Some p ->
  grid_getchar (seenGrid p) (row p) (col p) = "@"%char /\
  (in_view (masterGrid (GAME w)) p r c = true -> (r, c) <> (row p, col p) ->
     grid_getchar (seenGrid p) r c = grid_getchar (masterGrid (GAME w)) r c) /\
  (in_view (masterGrid (GAME w)) p r c = false -> (r, c) <> (row p, col p) ->
     grid_getchar (seenGrid p) r c <> "*"%char /\
     isalpha (grid_getchar (seenGrid p) r c) = false).
Proof.
  intros Hr Hp. destruct (reachable_watched w Hr) as (_ & _ & _ & Hfresh).
  split.
  - specialize (Hfresh i p Hp (row p) (col p)). unfold view_ok in Hfresh.
    rewrite !Z.eqb_refl in Hfresh. exact Hfresh.
  - specialize (Hfresh i p Hp r c). unfold view_ok in Hfresh.
    assert (E : forall (H : (r, c) <> (row p, col p)),
              (row p =? r) && (col p =? c) = false).
    { intros H. destruct (Z.eqb_spec (row p) r) as [<-|]; [|reflexivity].
      destruct (Z.eqb_spec (col p) c) as [<-|]; [|reflexivity].
      exfalso. apply H. reflexivity. }
    split; intros Hv Hne; rewrite (E Hne), Hv in Hfresh; [exact Hfresh|].
    destruct Hfresh as [Hg Hpl]. split.
    + intros Hs. unfold grid_isGold in Hg. rewrite Hs in Hg. discriminate.
    + unfold grid_isPlayer in Hpl. apply orb_false_iff in Hpl as [Ha _]. exact Ha.
Qed.

Lemma views_up_to_date_witness :
  let w := demo_world [(alice, "PLAY alice"); (bob, "PLAY bob"); (alice, "KEY J")]%string in
  exists p, players (GAME w) !! 1%nat = Some p /\ row p = 1 /\ col p = 2 /\
    grid_getchar (seenGrid p) 1 2 = "@"%char /\
    grid_getchar (seenGrid p) 3 1 = "A"%char.
Proof.
  intros w.
  assert (Hr : reachable w).
  { apply (demo_reachable
             [(alice, "PLAY alice"); (bob, "PLAY bob"); (alice, "KEY J")]%string).
    vm_compute. reflexivity. }
  assert (Hb : match players (GAME w) !! 1%nat with
               | Some p => (row p =? 1) && (col p =? 2) &&
                           in_view (masterGrid (GAME w)) p 3 1 &&
                           ch_eqb (grid_getchar (masterGrid (GAME w)) 3 1) "A"
               | None => false
               end = true) by (vm_compute; reflexivity).
  destruct (players (GAME w) !! 1%nat) as [p|] eqn:Hp; [|discriminate].
  apply andb_true_iff in Hb as [Hb Hm]. apply andb_true_iff in Hb as [Hb Hv].
  apply andb_true_iff in Hb as [Hrow Hcol].
  apply Z.eqb_eq in Hrow. apply Z.eqb_eq in Hcol. apply ch_eqb_eq in Hm.
  destruct (views_up_to_date w 1 p 3 1 Hr Hp) as (Hself & Hseen & _).
  exists p. split; [reflexivity|]. split; [exact Hrow|]. split; [exact Hcol|].
  rewrite Hrow, Hcol in Hself. split; [exact Hself|].
  rewrite (Hseen Hv); [exact Hm|]. rewrite Hrow, Hcol. intros E. inversion E.
Defined.

(** ** Where a player can step *)

Lemma valid_map_cell m r c :
  valid_map m = true ->
  map_char (grid_getchar m r c) = true \/ grid_getchar m r c = "^"%char.
Proof.
  intros Hm. pose proof Hm as Hm'. unfold valid_map in Hm'.
  apply andb_true_iff in Hm' as [Hwf Hall]. apply grid_wfb_wf in Hwf.
  rewrite forallb_forall in Hall. unfold grid_getchar.
  destruct (in_grid m r c) eqn:Hin; [|right; reflexivity].
  left. pose proof (offset_inside _ r c Hwf Hin) as Hlt.
  destruct (lookup_lt_is_Some_2 _ _ Hlt) as [ch Hch]. rewrite Hch. simpl.
  apply Hall. apply list_elem_of_In, list_elem_of_lookup. eexists. exact Hch.
Qed.

Lemma letter_can_move ch :
  isalpha ch = true ->
  negb (ch_eqb ch "|" || ch_eqb ch "-" || ch_eqb ch "+") && negb (ch_eqb ch " ") &&
  negb (ch_eqb ch "^") = true.
Proof.
  intros Ha.
  destruct (ch_eqb ch "|") eqn:E1; [apply ch_eqb_eq in E1; subst; discriminate|].
  destruct (ch_eqb ch "-") eqn:E2; [apply ch_eqb_eq in E2; subst; discriminate|].
  destruct (ch_eqb ch "+") eqn:E3; [apply ch_eqb_eq in E3; subst; discriminate|].
  destruct (ch_eqb ch " ") eqn:E4; [apply ch_eqb_eq in E4; subst; discriminate|].
  destruct (ch_eqb ch "^") eqn:E5; [apply ch_eqb_eq in E5; subst; discriminate|].
  reflexivity.
Qed.

Lemma reachable_raw_valid w :
  reachable w -> sound (GAME w) /\ valid_map (rawGrid (GAME w)) = true.
Proof.
  apply (reachable_keeps (fun g => sound g /\ valid_map (rawGrid g) = true)).
  - intros pi nr nc w1 s w2 [Hs Hv] H.
    split; [apply (player_move_sound _ _ _ _ _ _ Hs H)|].
    destruct (player_move_later _ _ _ _ _ _ Hs H) as [-> _]. exact Hv.
  - intros ip w1 s w2 [Hs Hv] H. split; [apply (handleQUIT_sound _ _ _ _ Hs H)|].
    destruct (handleQUIT_later _ _ _ _ H) as [-> _]. exact Hv.
  - intros a name w1 s w2 [Hs Hv] H. split; [apply (handlePlay_sound _ _ _ _ _ Hs H)|].
    destruct (handlePlay_later _ _ _ _ _ H) as [-> _]. exact Hv.
  - intros a w1 s w2 [Hs Hv] H. split; [apply (handleSPECTATE_sound _ _ _ _ Hs H)|].
    destruct (handleSPECTATE_later _ _ _ _ H) as [-> _]. exact Hv.
  - intros m ds w1 Hm Hs. split; [apply (setup_sound _ _ _ Hm Hs)|].
    apply server_drop_gold_shape in Hs as (n & master & _ & -> & _). exact Hm.
Qed.

(** X25.  Where a player can step.  In every state of the server
    [grid_canMoveTo] accepts a cell of the master grid exactly when it
    shows floor, a passage, gold or a letter, as its comment says; walls,
    rock and everything outside the grid are refused. *)
Theorem canMoveTo_walkable (w : world) (r c : Z) :
  reachable w ->
  grid_canMoveTo (masterGrid (GAME w)) r c =
  walkable (grid_getchar (masterGrid (GAME w)) r c).
Proof.
  intros Hr. destruct (reachable_raw_valid w Hr) as [[Ho _] Hv].
  destruct Ho as ((_ & _ & _ & _ & Hov) & _).
  unfold grid_canMoveTo, grid_isBoundary, grid_isRock, walkable.
  destruct (Hov r c) as [E|[E|E]].
  - rewrite E. destruct (valid_map_cell _ r c Hv) as [Hm| ->]; [|reflexivity].
    unfold map_char in Hm. rewrite !orb_true_iff, !ch_eqb_eq in Hm.
    destruct Hm as [[[[[->| ->]| ->]| ->]| ->]| ->]; reflexivity.
  - unfold grid_isGold in E. apply ch_eqb_eq in E. rewrite E. reflexivity.
  - rewrite (letter_can_move _ E), E, orb_true_r. reflexivity.
Qed.

Lemma canMoveTo_walkable_witness :
  let w := demo_world [(alice, "PLAY alice"); (bob, "PLAY bob")]%string in
  grid_canMoveTo (masterGrid (GAME w)) 1 2 = true /\
  grid_canMoveTo (masterGrid (GAME w)) 0 2 = false.
Proof.
  intros w.
  assert (Hr : reachable w).
  { apply (demo_reachable [(alice, "PLAY alice"); (bob, "PLAY bob")]%string).
    vm_compute. reflexivity. }
  rewrite !(canMoveTo_walkable w _ _ Hr). split; vm_compute; reflexivity.
Defined.

(** ** Addresses *)

(** X26.  [message_eqAddr] decides whether two addresses are the same, field
    by field; [message_noAddr] is not an address for [message_isAddr], nor
    is any address equal to it. *)
Theorem message_eqAddr_same (a b : addr_t) :
  (message_eqAddr a b = true <-> a = b) /\
  message_isAddr message_noAddr = false /\
  (message_eqAddr a message_noAddr = true -> message_isAddr a = false).
Proof.
  assert (Heq : forall x y, message_eqAddr x y = true <-> x = y).
  { intros [f1 p1 a1] [f2 p2 a2]. unfold message_eqAddr. simpl.
    rewrite !andb_true_iff, !Z.eqb_eq. split.
    - intros [[-> ->] ->]. reflexivity.
    - intros E. inversion E. repeat split; reflexivity. }
  split; [apply Heq|]. split; [reflexivity|].
  intros E. apply Heq in E. subst. reflexivity.
Qed.

Lemma message_eqAddr_same_witness :
  message_eqAddr alice alice = true /\ message_eqAddr alice bob = false /\
  message_isAddr message_noAddr = false.
Proof.
  destruct (message_eqAddr_same alice alice) as (H & Hno & _).
  split; [apply H; reflexivity|]. split; [reflexivity|exact Hno].
Defined.

(** ** After a quit *)

Lemma apart_told g : apart (players g) -> apart (players (told g)).
Proof.
  intros H i j p q Hp Hq Hne. unfold told in Hp, Hq. simpl in Hp, Hq.
  rewrite list_lookup_fmap in Hp, Hq.
  destruct (players g !! i) as [p0|] eqn:Hp0; [|discriminate].
  destruct (players g !! j) as [q0|] eqn:Hq0; [|discriminate].
  simpl in Hp, Hq. inversion Hp; inversion Hq; subst.
  apply (H i j p0 q0 Hp0 Hq0 Hne).
Qed.

Lemma handleQUIT_apart ip w stop w' :
  apart (players (GAME w)) -> handleQUIT ip w = Some (stop, w') ->
  apart (players (GAME w')).
Proof.
  intros H Hq. destruct (handleQUIT_game ip w) as (out & E). rewrite E in Hq.
  inversion Hq; subst; clear Hq. cbn [GAME]. apply apart_told. exact H.
Qed.

(** From a state in which every player of the table is on the board, any
    one message, a Q as well, leaves no two players of the table on one
    cell: the quit itself does no harm yet. *)
Lemma apart_after_message fuel from message w stop w' :
  on_board (GAME w) = true ->
  handleMessage fuel from message w = Some (stop, w') ->
  apart (players (GAME w')).
Proof.
  intros Hb. apply on_board_spec in Hb. unfold handleMessage.
  destruct (starts_with "PLAY " message);
    [intros H; apply (boarded_apart _ (handlePlay_boarded _ _ _ _ _ Hb H))|].
  destruct (starts_with "SPECTATE" message);
    [intros H; apply (boarded_apart _ (handleSPECTATE_boarded _ _ _ _ Hb H))|].
  destruct (starts_with "KEY " message).
  - destruct (ch_eqb (first_char (skip 4 message)) "Q") eqn:HQ.
    + unfold handleKEY. rewrite HQ. unfold bind at 1.
      destruct (handleQUIT from w) as [[s w1]|] eqn:Hq; [|discriminate].
      unfold ret. intros E. inversion E; subst.
      apply (handleQUIT_apart _ _ _ _ (boarded_apart _ Hb) Hq).
    + intros H. apply boarded_apart.
      apply (handleKEY_moves_keep boarded player_move_boarded _ _ _ _ _ _ HQ Hb H).
  - unfold ret. intros E. inversion E; subst. apply boarded_apart, Hb.
Qed.

(** C4.  The code does not keep the players of the table apart once a
    player has quit.  Alice, Bob and Carol join and stand side by side at
    (1,1), (1,2) and (1,3).  Alice quits: her cell is cleared, her entry
    stays in the table at (1,1).  Bob steps left onto the empty cell (1,1).
    Carol runs left: at (1,1) the grid shows a player, the loop of
    [player_move] takes the first entry recorded there, which is Alice's,
    and changes places with it.  Bob and Carol, who never quit, are both
    recorded at (1,1), where the grid shows Carol's letter only, and the
    letter of Alice, who has left, is back on the grid at (1,2). *)
Theorem stale_entry_swap_shares_a_cell :
  let seated := [(alice, "PLAY alice"); (bob, "PLAY bob"); (carol, "PLAY carol")]%string in
  let inbox := seated ++ [(alice, "KEY Q"%string); (bob, "KEY h"%string);
                          (carol, "KEY H"%string)] in
  let place := fun p : player_t => (alias p, row p, col p) in
  let shown := fun w : world =>
    List.map (fun c => grid_getchar (masterGrid (GAME w)) 1 c) [1; 2; 3] in
  List.map place (players (GAME (trio_world seated))) =
    [("A"%char, 1, 1); ("B"%char, 1, 2); ("C"%char, 1, 3)] /\
  shown (trio_world seated) = ["A"; "B"; "C"]%char /\
  play_after demo_map trio_draws inbox = Some (trio_world inbox) /\
  reachable (trio_world inbox) /\
  List.map place (players (GAME (trio_world inbox))) =
    [("A"%char, 1, 2); ("B"%char, 1, 1); ("C"%char, 1, 1)] /\
  shown (trio_world inbox) = ["C"; "A"; "."]%char /\
  ~ apart (players (GAME (trio_world inbox))).
Proof.
  intros seated inbox place shown.
  assert (Hrun : play_after demo_map trio_draws inbox = Some (trio_world inbox))
    by (vm_compute; reflexivity).
  split; [vm_compute; reflexivity|]. split; [vm_compute; reflexivity|].
  split; [exact Hrun|].
  split; [apply (play_reachable demo_map trio_draws inbox _ eq_refl Hrun)|].
  split; [vm_compute; reflexivity|]. split; [vm_compute; reflexivity|].
  intros Hapart.
  assert (Hp : match players (GAME (trio_world inbox)) !! 1%nat,
                     players (GAME (trio_world inbox)) !! 2%nat with
               | Some p, Some q => same_tile p q
               | _, _ => false
               end = true) by (vm_compute; reflexivity).
  destruct (players (GAME (trio_world inbox)) !! 1%nat) as [p|] eqn:Ep; [|discriminate].
  destruct (players (GAME (trio_world inbox)) !! 2%nat) as [q|] eqn:Eq; [|discriminate].
  rewrite (Hapart 1%nat 2%nat p q Ep Eq ltac:(lia)) in Hp. discriminate.
Qed.

(** ** The sampling loops return *)

Lemma pairs_length_ind (P : list N -> Prop) :
  P [] -> (forall d, P [d]) ->
  (forall d1 d2 ds, P ds -> P (d1 :: d2 :: ds)) ->
  forall ds, P ds.
Proof.
  intros Hnil Hone Hstep.
  assert (H : forall ds, P ds /\ forall d, P (d :: ds)).
  { induction ds as [|d ds [IH1 IH2]]; [split; [exact Hnil|exact Hone]|].
    split; [apply IH2|]. intros d'. apply Hstep. exact IH1. }
  intros ds. apply H.
Qed.

(** The loop stops at the first pair that gives a floor cell, and only
    there. *)
Lemma find_spot_hits master nr nc ds :
  hits_floor master nr nc ds = true <->
  exists r c ds', find_spot master nr nc ds = Some (r, c, ds').
Proof.
  induction ds as [| d | d1 d2 ds IH] using pairs_length_ind.
  - split; [discriminate|]. intros (r & c & ds' & H). discriminate.
  - split; [discriminate|]. intros (r & c & ds' & H). discriminate.
  - unfold hits_floor in *. cbn [pairs existsb find_spot]. unfold drawn_cell at 1 2.
    cbn [fst snd].
    destruct (grid_isEmptyRoomSpot master _ _); [|exact IH].
    split; [|reflexivity]. intros _. eexists _, _, _. reflexivity.
Qed.

Lemma find_spot_app master nr nc s rest :
  Nat.even (length s) = true ->
  find_spot master nr nc (s ++ rest) =
  match find_spot master nr nc s with
  | Some (r, c, ds') => Some (r, c, ds' ++ rest)
  | None => find_spot master nr nc rest
  end.
Proof.
  induction s as [| d | d1 d2 s IH] using pairs_length_ind; intros Heven.
  - reflexivity.
  - discriminate.
  - cbn [app find_spot].
    destruct (grid_isEmptyRoomSpot master _ _); [reflexivity|].
    apply IH. exact Heven.
Qed.

Lemma find_spot_even master nr nc s r c ds' :
  Nat.even (length s) = true ->
  find_spot master nr nc s = Some (r, c, ds') ->
  Nat.even (length ds') = true.
Proof.
  induction s as [| d | d1 d2 s IH] using pairs_length_ind; intros Heven H;
    try discriminate.
  cbn [find_spot] in H.
  destruct (grid_isEmptyRoomSpot master _ _).
  - inversion H; subst. exact Heven.
  - apply IH; assumption.
Qed.

Lemma tally_exists {A} (f : A -> bool) l :
  1 <= tally f l -> exists x, In x l /\ f x = true.
Proof.
  induction l as [|x l IH]; simpl; [lia|].
  destruct (f x) eqn:Hx.
  - intros _. exists x. split; [left; reflexivity|exact Hx].
  - intros H. destruct (IH H) as (y & Hy & Hfy). exists y. split; [right|]; assumption.
Qed.

Lemma floor_on_update g r c :
  grid_wf g -> grid_isEmptyRoomSpot g r c = true ->
  floor_on (grid_update g r c "*") = floor_on g - 1.
Proof.
  intros Hw Hfree. pose proof (grid_isEmptyRoomSpot_inside _ _ _ Hfree) as Hin.
  unfold floor_on. rewrite grid_nrow_update, grid_ncol_update.
  rewrite (tally_change (fun rc => grid_isEmptyRoomSpot g rc.1 rc.2)
             (fun rc => grid_isEmptyRoomSpot (grid_update g r c "*") rc.1 rc.2) _ (r, c)).
  - cbn [fst snd]. unfold grid_isEmptyRoomSpot at 2.
    rewrite grid_getchar_update_same by assumption. rewrite Hfree. simpl. lia.
  - apply NoDup_cells.
  - apply list_elem_of_In, in_cells_grid, Hin.
  - intros [r' c'] Hne. cbn [fst snd]. unfold grid_isEmptyRoomSpot.
    rewrite grid_getchar_update by exact Hw.
    destruct (in_grid g r c && (r =? r') && (c =? c')) eqn:E; [|reflexivity].
    apply cell_test_true in E as [-> ->]. contradiction.
Qed.

(** A sweep of a grid is a sweep of the grid with one more pile. *)
Lemma sweep_update g r c b :
  grid_wf g -> sweep g b = true -> sweep (grid_update g r c "*") b = true.
Proof.
  intros Hw. unfold sweep. rewrite grid_nrow_update, grid_ncol_update.
  rewrite !andb_true_iff, !forallb_forall. intros [Heven Hall].
  split; [exact Heven|]. intros rc Hrc. specialize (Hall rc Hrc).
  apply orb_true_iff in Hall as [Hno|Hyes]; [|rewrite Hyes; apply orb_true_r].
  apply negb_true_iff in Hno. unfold grid_isEmptyRoomSpot in *.
  rewrite grid_getchar_update by exact Hw.
  destruct (in_grid g r c && (r =? rc.1) && (c =? rc.2)); [reflexivity|].
  rewrite Hno. reflexivity.
Qed.

(** A sweep has a pair for the loop to stop at, as long as a floor cell is
    left. *)
Lemma sweep_hits g b :
  sweep g b = true -> 1 <= floor_on g ->
  hits_floor g (grid_nrow g) (grid_ncol g) b = true.
Proof.
  unfold sweep. rewrite andb_true_iff, forallb_forall. intros [_ Hall] Hfloor.
  apply tally_exists in Hfloor as ([r c] & Hin & Hfree). cbn [fst snd] in Hfree.
  specialize (Hall (r, c) Hin). cbn [fst snd] in Hall. rewrite Hfree in Hall.
  simpl in Hall. apply existsb_exists in Hall as (d & Hd & Hcell).
  apply andb_true_iff in Hcell as [Hr Hc]. apply Z.eqb_eq in Hr, Hc.
  unfold hits_floor. apply existsb_exists. exists d. split; [exact Hd|].
  unfold drawn_cell in *. cbn [fst snd] in *. rewrite Hr, Hc. exact Hfree.
Qed.

Lemma forallb_sweep_update g r c bs :
  grid_wf g -> forallb (sweep g) bs = true ->
  forallb (sweep (grid_update g r c "*")) bs = true.
Proof.
  intros Hw. rewrite !forallb_forall. intros H b Hb.
  apply sweep_update; [exact Hw|apply H; exact Hb].
Qed.

Lemma floor_on_dims g : 1 <= floor_on g -> grid_nrow g <> 0 /\ grid_ncol g <> 0.
Proof.
  intros H. apply tally_exists in H as ([r c] & Hin & _).
  apply in_cells in Hin. lia.
Qed.

(** The loop of [server_drop_gold] returns when the draws come in sweeps,
    one for each pile, and the grid has a floor cell for each pile: each
    pile is found a cell in the sweep at hand or in the next one. *)
Lemma drop_piles_returns n :
  forall w s bs rest,
    grid_wf (masterGrid (GAME w)) ->
    GridRow (GAME w) = grid_nrow (masterGrid (GAME w)) ->
    GridCol (GAME w) = grid_ncol (masterGrid (GAME w)) ->
    (n <= length bs)%nat ->
    Z.of_nat n <= floor_on (masterGrid (GAME w)) ->
    Nat.even (length s) = true ->
    forallb (sweep (masterGrid (GAME w))) bs = true ->
    draws w = s ++ concat bs ++ rest ->
    exists w', drop_piles n w = Some (tt, w').
Proof.
  induction n as [|n IH]; intros w s bs rest Hw Hgr Hgc Hlen Hfloor Heven Hsw Hds.
  - eexists. reflexivity.
  - assert (Hfloor1 : 1 <= floor_on (masterGrid (GAME w))) by lia.
    destruct (floor_on_dims _ Hfloor1) as [Hnr Hnc].
    assert (Hfind : exists r c s' bs',
      find_spot (masterGrid (GAME w)) (GridRow (GAME w)) (GridCol (GAME w)) (draws w) =
        Some (r, c, s' ++ concat bs' ++ rest) /\
      Nat.even (length s') = true /\ (n <= length bs')%nat /\
      forallb (sweep (masterGrid (GAME w))) bs' = true /\
      grid_isEmptyRoomSpot (masterGrid (GAME w)) r c = true).
    { rewrite Hds, Hgr, Hgc. rewrite find_spot_app by exact Heven.
      destruct (find_spot _ _ _ s) as [[[r c] s']|] eqn:Hs.
      - exists r, c, s', bs. split; [reflexivity|].
        split; [apply (find_spot_even _ _ _ _ _ _ _ Heven Hs)|]. split; [lia|].
        split; [exact Hsw|].
        apply (find_spot_spec _ _ _ (length s) _ _ _ _ (Nat.le_refl _) Hs).
      - destruct bs as [|b bs]; [simpl in Hlen; lia|].
        cbn [forallb] in Hsw. apply andb_true_iff in Hsw as [Hb Hbs].
        pose proof Hb as Hb'. unfold sweep in Hb'. apply andb_true_iff in Hb' as [Hbe _].
        cbn [concat]. rewrite <- app_assoc. rewrite find_spot_app by exact Hbe.
        destruct (proj1 (find_spot_hits _ _ _ _) (sweep_hits _ b Hb Hfloor1))
          as (r & c & s' & Hfb).
        rewrite Hfb. exists r, c, s', bs. split; [reflexivity|].
        split; [apply (find_spot_even _ _ _ _ _ _ _ Hbe Hfb)|].
        split; [simpl in Hlen; lia|]. split; [exact Hbs|].
        apply (find_spot_spec _ _ _ (length b) _ _ _ _ (Nat.le_refl _) Hfb). }
    destruct Hfind as (r & c & s' & bs' & Hfind & Heven' & Hlen' & Hsw' & Hfree).
    cbn [drop_piles]. unfold bind at 1, random_spot.
    destruct (Z.eqb_spec (GridRow (GAME w)) 0) as [E|_]; [rewrite Hgr in E; contradiction|].
    destruct (Z.eqb_spec (GridCol (GAME w)) 0) as [E|_]; [rewrite Hgc in E; contradiction|].
    cbn [orb]. rewrite Hfind.
    unfold bind at 1, get_game at 1. unfold bind at 1, put_game at 1. cbn [GAME fst snd].
    apply (IH _ s' bs' rest); cbn [GAME draws masterGrid GridRow GridCol with_master].
    + apply grid_wf_update. exact Hw.
    + rewrite grid_nrow_update. exact Hgr.
    + rewrite grid_ncol_update. exact Hgc.
    + exact Hlen'.
    + rewrite floor_on_update by assumption. lia.
    + exact Heven'.
    + apply forallb_sweep_update; assumption.
    + reflexivity.
Qed.

(** [server_drop_gold] returns on a map that has a floor cell for each pile,
    when the draws after the first come in as many sweeps. *)
Lemma server_drop_gold_returns m d0 bs rest :
  valid_map m = true ->
  Z.rem (Z.of_N d0) 20 + 10 <= floor_on m ->
  Z.rem (Z.of_N d0) 20 + 10 <= Z.of_nat (length bs) ->
  forallb (sweep m) bs = true ->
  exists w, server_drop_gold (World (loaded m) (d0 :: concat bs ++ rest) []) = Some (tt, w).
Proof.
  intros Hm Hfloor Hlen Hsw.
  pose proof Hm as Hm'. unfold valid_map in Hm'. apply andb_true_iff in Hm' as [Hwf _].
  apply grid_wfb_wf in Hwf.
  assert (Hn : 0 <= Z.rem (Z.of_N d0) 20).
  { rewrite Z.rem_mod_nonneg by lia. apply Z.mod_pos_bound. lia. }
  unfold server_drop_gold, bind at 1, rand. cbn [draws].
  unfold bind at 1, c_rem. unfold GoldMaxNumPiles, GoldMinNumPiles.
  change (30 - 10 =? 0) with false. cbv iota. change (30 - 10) with 20.
  unfold ret at 1. unfold bind at 1, get_game at 1. unfold bind at 1, put_game at 1.
  cbn [GAME].
  apply (drop_piles_returns _ _ [] bs rest);
    cbn [GAME draws masterGrid GridRow GridCol with_gold loaded]; try reflexivity;
    try assumption; lia.
Qed.

(** X8.  [server_drop_gold] on a loaded map.  On a map of map characters
    that has a floor cell for each pile, when the draws after the first
    come in sweeps of the map, one for each pile, the loop finds every pile
    a cell and [server_drop_gold] returns.  The count of piles is then
    between 10 and 29, all of the 250 nuggets are left and none is
    collected; the master grid shows as many piles as the count says, each
    on a cell that is floor in the map, and is the map everywhere else.
    (A pile is only put on a floor cell that holds none yet, hence the
    floor cell for each pile.) *)
Theorem server_drop_gold_piles (m : grid_t) (d0 : N) (bs : list (list N))
    (rest : list N) :
  valid_map m = true ->
  Z.rem (Z.of_N d0) 20 + 10 <= floor_on m ->
  Z.rem (Z.of_N d0) 20 + 10 <= Z.of_nat (length bs) ->
  forallb (sweep m) bs = true ->
  exists w,
    server_drop_gold (World (loaded m) (d0 :: concat bs ++ rest) []) = Some (tt, w) /\
    10 <= GoldNumPilesLeft (GAME w) <= 29 /\
    goldLeft (GAME w) = 250 /\ goldCollected (GAME w) = 0 /\
    rawGrid (GAME w) = m /\ players (GAME w) = [] /\
    piles_on (masterGrid (GAME w)) = GoldNumPilesLeft (GAME w) /\
    forall r c,
      grid_getchar (masterGrid (GAME w)) r c = grid_getchar m r c \/
      (grid_getchar m r c = "."%char /\
       grid_getchar (masterGrid (GAME w)) r c = "*"%char).
Proof.
  intros Hm Hfloor Hlen Hsw.
  destruct (server_drop_gold_returns m d0 bs rest Hm Hfloor Hlen Hsw) as (w & Hs).
  exists w. split; [exact Hs|]. apply (server_drop_gold_state m _ w Hm Hs).
Qed.

Lemma server_drop_gold_piles_witness :
  exists w,
    server_drop_gold
      (World (loaded demo_map) (0%N :: concat (repeat demo_sweep 10) ++ []) []) =
      Some (tt, w) /\
    10 <= GoldNumPilesLeft (GAME w) <= 29 /\
    piles_on (masterGrid (GAME w)) = GoldNumPilesLeft (GAME w).
Proof.
  destruct (server_drop_gold_piles demo_map 0%N (repeat demo_sweep 10) [])
    as (w & Hs & Hn & _ & _ & _ & _ & Hp & _);
    [reflexivity|apply Z.leb_le; vm_compute; reflexivity|
     apply Z.leb_le; vm_compute; reflexivity|vm_compute; reflexivity|].
  exists w. split; [exact Hs|]. split; [exact Hn|exact Hp].
Defined.



